(** * ujsondiff: structural diff and patch of JSON-like values

    A shallow embedding of [src/ujsondiff/__init__.py] and the properties of
    its compact delta syntax.

    Conventions of the embedding.
    - A Python value is a term of [value]: [None], integers, strings, the
      reserved markers, lists, tuples, sets and dicts.  Python's [bool] is a
      subclass of [int] with [True == 1] and [hash(True) == hash(1)], and the
      source never tells them apart, so booleans are the integers 1 and 0.
      Floating-point numbers as data are not part of the embedding.
    - A [set] is the list of its elements in iteration order, a [dict] the
      list of its items in insertion order; [wf] says that such a list has no
      two equal elements (keys) and that they are hashable.  In [JsonDiffer]
      the difference of two sets lists its elements in the order of the left
      operand; CPython iterates the new set by the hashes of its elements,
      and [SetOrder] and [Binary64] take that order as a parameter.
    - Similarity scores are Python floats in the source.  [JsonDiffer] reads
      them as exact rationals ([Q]), compared with [Qeq_bool] and [Qle_bool]:
      it is the differ as it computes when no operation rounds.  [Binary64]
      is the same differ on IEEE 754 doubles; what depends on rounding is
      evaluated there.
    - [a is b] is a parameter [same] of the differ; the theorems hold for
      every [same] that only identifies equal values ([is_sound]).
    - A function that can raise returns [result]. *)

From Stdlib Require Import String Ascii.
From Stdlib Require Import List ZArith QArith Qminmax Bool Lia Lqa FinFun.
From Stdlib Require Import Sorted Permutation.
From Stdlib Require PrimFloat Uint63.
Import PrimFloat.PrimFloatNotations.
Import ListNotations.
Open Scope string_scope.
Open Scope list_scope.
Open Scope Z_scope.

(** ** Reserved marker symbols *)

(** Modelled from the spec: the module [ujsondiff.symbols] (class [Symbol],
    the markers and [_all_symbols_]) is imported by the source but is not part
    of it.  The spec gives a closed set of markers [add], [delete], [discard],
    [insert], [replace] and the internal [missing]; each is a distinct
    identity carrying its name as [label]. *)
Inductive Symbol : Type :=
| add | delete | discard | insert | missing | replace.

Definition label (s : Symbol) : string :=
  match s with
  | add => "add" | delete => "delete" | discard => "discard"
  | insert => "insert" | missing => "missing" | replace => "replace"
  end.

Definition _all_symbols_ : list Symbol :=
  [missing; delete; insert; add; discard; replace].

Definition Symbol_eqb (s t : Symbol) : bool :=
  match s, t with
  | add, add | delete, delete | discard, discard
  | insert, insert | missing, missing | replace, replace => true
  | _, _ => false
  end.

(** ** Values *)

#[local] Set Warnings "-register-all".

Inductive value : Type :=
| VNone
| VInt (z : Z)
| VStr (s : string)
| VSym (y : Symbol)
| VList (l : list value)
| VTuple (l : list value)
| VSet (l : list value)
| VDict (l : list (value * value)).

Definition isinstance_dict (v : value) : bool :=
  match v with VDict _ => true | _ => false end.

Definition isinstance_Symbol (v : value) : bool :=
  match v with VSym _ => true | _ => false end.

(** Induction over [value] with the hypotheses for the elements of the
    containers. *)
Section value_induction.
Variable P : value -> Prop.
Hypothesis HNone : P VNone.
Hypothesis HInt : forall z, P (VInt z).
Hypothesis HStr : forall s, P (VStr s).
Hypothesis HSym : forall y, P (VSym y).
Hypothesis HList : forall l, Forall P l -> P (VList l).
Hypothesis HTuple : forall l, Forall P l -> P (VTuple l).
Hypothesis HSet : forall l, Forall P l -> P (VSet l).
Hypothesis HDict :
  forall l, Forall (fun kv => P (fst kv) /\ P (snd kv)) l -> P (VDict l).

Fixpoint value_rect' (v : value) : P v :=
  let fix items (l : list value) : Forall P l :=
    match l with
    | [] => Forall_nil _
    | x :: l' => Forall_cons _ (value_rect' x) (items l')
    end in
  let fix pairs (l : list (value * value))
    : Forall (fun kv => P (fst kv) /\ P (snd kv)) l :=
    match l with
    | [] => Forall_nil _
    | (k, w) :: l' =>
        Forall_cons (k, w) (conj (value_rect' k) (value_rect' w)) (pairs l')
    end in
  match v with
  | VNone => HNone
  | VInt z => HInt z
  | VStr s => HStr s
  | VSym y => HSym y
  | VList l => HList l (items l)
  | VTuple l => HTuple l (items l)
  | VSet l => HSet l (items l)
  | VDict l => HDict l (pairs l)
  end.
End value_induction.

(** ** Python equality, hashing and the container primitives *)

(** Pointwise comparison of two sequences. *)
Section seq_eq.
Variable eq : value -> value -> bool.

Fixpoint seq_eq (l1 l2 : list value) : bool :=
  match l1, l2 with
  | [], [] => true
  | x :: l1', y :: l2' => eq x y && seq_eq l1' l2'
  | _, _ => false
  end.
End seq_eq.

(** [d.get(k)] with the key comparison [eqk] already applied to [k]. *)
Fixpoint assoc_by (eqk : value -> bool) (d : list (value * value))
  : option value :=
  match d with
  | [] => None
  | (k', v) :: d' => if eqk k' then Some v else assoc_by eqk d'
  end.

(** [a == b].  Sequences compare pointwise; sets and dicts compare sizes and
    then look every element (item) of the left operand up in the right one. *)
Fixpoint py_eq (a b : value) {struct a} : bool :=
  match a, b with
  | VNone, VNone => true
  | VInt x, VInt y => x =? y
  | VStr s, VStr t => String.eqb s t
  | VSym y, VSym z => Symbol_eqb y z
  | VList l1, VList l2 => seq_eq py_eq l1 l2
  | VTuple l1, VTuple l2 => seq_eq py_eq l1 l2
  | VSet l1, VSet l2 =>
      (length l1 =? length l2)%nat
      && forallb (fun x => existsb (fun y => py_eq x y) l2) l1
  | VDict d1, VDict d2 =>
      (length d1 =? length d2)%nat
      && forallb (fun kv =>
                    match assoc_by (fun k' => py_eq (fst kv) k') d2 with
                    | Some w => py_eq (snd kv) w
                    | None => false
                    end) d1
  | _, _ => false
  end.

(** [hash(v)] succeeds: scalars, markers and tuples of hashable values. *)
Fixpoint hashable (v : value) : bool :=
  match v with
  | VNone | VInt _ | VStr _ | VSym _ => true
  | VTuple l => forallb hashable l
  | VList _ | VSet _ | VDict _ => false
  end.

(** Sets, as lists without repetition in iteration order. *)
Definition set_mem (x : value) (s : list value) : bool :=
  existsb (fun y => py_eq x y) s.

Definition set_difference (a b : list value) : list value :=
  filter (fun x => negb (set_mem x b)) a.

Definition set_discard (x : value) (s : list value) : list value :=
  filter (fun y => negb (py_eq x y)) s.

Definition set_add (x : value) (s : list value) : list value :=
  if set_mem x s then s else s ++ [x].

(** Dicts, as association lists in insertion order. *)
Definition dict := list (value * value).

Definition dict_get (k : value) (d : dict) : option value :=
  assoc_by (fun k' => py_eq k k') d.

Definition dict_mem (k : value) (d : dict) : bool :=
  match dict_get k d with Some _ => true | None => false end.

Fixpoint dict_set (k v : value) (d : dict) : dict :=
  match d with
  | [] => [(k, v)]
  | (k', v') :: d' =>
      if py_eq k k' then (k', v) :: d' else (k', v') :: dict_set k v d'
  end.

Definition dict_remove (k : value) (d : dict) : dict :=
  filter (fun kv => negb (py_eq k (fst kv))) d.

Definition dict_keys (d : dict) : list value := map fst d.

(** [d1.update(d2)] *)
Definition dict_update (d1 d2 : dict) : dict :=
  fold_left (fun d kv => dict_set (fst kv) (snd kv) d) d2 d1.

(** Well-formed values: what the interpreter can build.  The elements of a
    set and the keys of a dict are hashable and pairwise different. *)
Fixpoint distinct (l : list value) : bool :=
  match l with
  | [] => true
  | x :: l' => negb (set_mem x l') && distinct l'
  end.

Fixpoint wf (v : value) : bool :=
  match v with
  | VNone | VInt _ | VStr _ | VSym _ => true
  | VList l | VTuple l => forallb wf l
  | VSet l => forallb wf l && forallb hashable l && distinct l
  | VDict d =>
      forallb (fun kv => wf (fst kv) && wf (snd kv)) d
      && forallb hashable (map fst d) && distinct (map fst d)
  end.

(** Values of the JSON value model: no marker occurs in them. *)
Fixpoint plain (v : value) : bool :=
  match v with
  | VNone | VInt _ | VStr _ => true
  | VSym _ => false
  | VList l | VTuple l | VSet l => forallb plain l
  | VDict d => forallb (fun kv => plain (fst kv) && plain (snd kv)) d
  end.

(** ** Exceptions *)

Inductive exn : Type :=
| KeyError | IndexError | TypeError | ValueError | AttributeError.

Inductive result (A : Type) : Type :=
| Ok (x : A)
| Raise (e : exn).
Arguments Ok {A} x.
Arguments Raise {A} e.

Definition bind {A B : Type} (m : result A) (f : A -> result B) : result B :=
  match m with
  | Ok x => f x
  | Raise e => Raise e
  end.

Notation "x <- m ;; k" := (bind m (fun x => k))
  (at level 61, m at next level, right associativity).

(** [for x in xs: st = body(st, x)], stopping at the first exception. *)
Section for_each.
Context {A S : Type}.
Variable body : S -> A -> result S.

Fixpoint for_each (xs : list A) (st : S) : result S :=
  match xs with
  | [] => Ok st
  | x :: xs' => st' <- body st x ;; for_each xs' st'
  end.
End for_each.

(** ** Built-in operations used by [patch] *)

(** [iter(v)]: the elements a [for] loop over [v] visits. *)
Fixpoint chars (s : string) : list value :=
  match s with
  | EmptyString => []
  | String c s' => VStr (String c EmptyString) :: chars s'
  end.

Definition py_iter (v : value) : result (list value) :=
  match v with
  | VList l | VTuple l | VSet l => Ok l
  | VDict d => Ok (dict_keys d)
  | VStr s => Ok (chars s)
  | VNone | VInt _ | VSym _ => Raise TypeError
  end.

(** [del a[k]] *)
Definition dict_del (k : value) (a : dict) : result dict :=
  if negb (hashable k) then Raise TypeError
  else if dict_mem k a then Ok (dict_remove k a)
  else Raise KeyError.

(** An index as a list operation needs it: an [int]. *)
Definition py_index (v : value) : result Z :=
  match v with
  | VInt z => Ok z
  | _ => Raise TypeError
  end.

(** The place a subscript denotes in a list of length [n]; negative
    subscripts count from the end. *)
Definition norm_index (n : nat) (z : Z) : result nat :=
  let z' := if z <? 0 then z + Z.of_nat n else z in
  if (0 <=? z') && (z' <? Z.of_nat n) then Ok (Z.to_nat z')
  else Raise IndexError.

(** [a.pop(pos)], keeping the list only. *)
Definition list_pop (pos : value) (a : list value) : result (list value) :=
  z <- py_index pos ;;
  i <- norm_index (length a) z ;;
  Ok (firstn i a ++ skipn (S i) a).

(** [a.insert(pos, x)]: positions beyond either end are clamped. *)
Definition list_insert (pos x : value) (a : list value)
  : result (list value) :=
  z <- py_index pos ;;
  let z' := if z <? 0 then Z.max 0 (z + Z.of_nat (length a)) else z in
  let i := Nat.min (Z.to_nat z') (length a) in
  Ok (firstn i a ++ x :: skipn i a).

(** [a[k]] and [a[k] = x] for a list. *)
Definition list_getitem (z : Z) (a : list value) : result value :=
  i <- norm_index (length a) z ;;
  Ok (nth i a VNone).

Definition list_setitem (z : Z) (x : value) (a : list value)
  : result (list value) :=
  i <- norm_index (length a) z ;;
  Ok (firstn i a ++ x :: skipn (S i) a).

(** [pos, value = item] *)
Definition unpack2 (item : value) : result (value * value) :=
  l <- py_iter item ;;
  match l with
  | [p; x] => Ok (p, x)
  | _ => Raise ValueError
  end.

(** [int(k)] for a key of a delta: an [int] is itself, a string is read as an
    optionally signed run of decimal digits (the blanks and underscores that
    Python also accepts are not read). *)
Definition digit (c : ascii) : option Z :=
  let n := Z.of_nat (nat_of_ascii c) in
  if (48 <=? n) && (n <=? 57) then Some (n - 48) else None.

Fixpoint digits (acc : Z) (s : string) : option Z :=
  match s with
  | EmptyString => Some acc
  | String c s' =>
      match digit c with
      | Some n => digits (10 * acc + n) s'
      | None => None
      end
  end.

Definition int_of_string (s : string) : option Z :=
  match s with
  | EmptyString => None
  | String "-" (String _ _ as s') => option_map Z.opp (digits 0 s')
  | String "+" (String _ _ as s') => digits 0 s'
  | _ => digits 0 s
  end.

Definition py_int (k : value) : result Z :=
  match k with
  | VInt z => Ok z
  | VStr s => match int_of_string s with
              | Some z => Ok z
              | None => Raise ValueError
              end
  | _ => Raise TypeError
  end.

(** [a.discard(x)] and [a.add(x)] hash [x] first. *)
Definition set_discard_op (a : list value) (x : value)
  : result (list value) :=
  if hashable x then Ok (set_discard x a) else Raise TypeError.

Definition set_add_op (a : list value) (x : value) : result (list value) :=
  if hashable x then Ok (set_add x a) else Raise TypeError.

(** ** Delta syntaxes *)

Definition Qlt_bool (x y : Q) : bool := negb (Qle_bool y x).

(** A position as it is stored in a delta. *)
Definition VPos (n : nat) : value := VInt (Z.of_nat n).

(** The interface a syntax object offers to [JsonDiffer]: one emitter per
    shape, [patch], and [unpatch] when the class defines it. *)
Record JsonDiffSyntax : Type := {
  syn_emit_set_diff :
    list value -> value -> Q -> list value -> list value -> value;
  syn_emit_list_diff :
    value -> value -> Q -> list (nat * value) -> dict -> list (nat * value)
    -> value;
  syn_emit_dict_diff : value -> value -> Q -> dict -> dict -> dict -> value;
  syn_emit_value_diff : value -> value -> Q -> value;
  syn_patch : value -> value -> result value;
  syn_unpatch : option (value -> value -> result value)
}.

Module CompactJsonDiffSyntax.

(** [{replace: b} if isinstance(b, dict) else b] *)
Definition replacement (b : value) : value :=
  if isinstance_dict b then VDict [(VSym replace, b)] else b.

Definition emit_set_diff (a : list value) (b : value) (s : Q)
           (added removed : list value) : value :=
  if Qeq_bool s 0 || (length removed =? length a)%nat then replacement b
  else
    let d := [] in
    let d := match removed with
             | [] => d
             | _ => dict_set (VSym discard) (VSet removed) d
             end in
    let d := match added with
             | [] => d
             | _ => dict_set (VSym add) (VSet added) d
             end in
    VDict d.

Definition emit_list_diff (a b : value) (s : Q) (inserted : list (nat * value))
           (changed : dict) (deleted : list (nat * value)) : value :=
  if Qeq_bool s 0 then replacement b
  else if Qeq_bool s 1 then VDict []
  else
    let d := changed in
    let d := match inserted with
             | [] => d
             | _ => dict_set (VSym insert)
                      (VList (map (fun pv => VTuple [VPos (fst pv); snd pv])
                                  inserted)) d
             end in
    let d := match deleted with
             | [] => d
             | _ => dict_set (VSym delete)
                      (VList (map (fun pv => VPos (fst pv)) deleted)) d
             end in
    VDict d.

Definition emit_dict_diff (a b : value) (s : Q)
           (added changed removed : dict) : value :=
  if Qeq_bool s 0 then replacement b
  else if Qeq_bool s 1 then VDict []
  else
    let changed := dict_update changed added in
    let changed := match removed with
                   | [] => changed
                   | _ => dict_set (VSym delete) (VList (dict_keys removed))
                            changed
                   end in
    VDict changed.

Definition emit_value_diff (a b : value) (s : Q) : value :=
  if Qeq_bool s 1 then VDict [] else replacement b.

(** [patch(a, d)], by recursion on the delta. *)
Fixpoint patch (a d : value) {struct d} : result value :=
  match d with
  | VDict items =>
      if match items with [] => true | _ => false end then Ok a
      else
        match dict_get (VSym replace) items with
        | Some b => Ok b
        | None =>
            match a with
            | VDict a0 =>
                a' <- for_each
                        (fun (a1 : dict) kv =>
                           let k := fst kv in
                           if py_eq k (VSym delete) then
                             kdels <- py_iter (snd kv) ;;
                             for_each (fun a2 kdel => dict_del kdel a2)
                                      kdels a1
                           else
                             let av := match dict_get k a1 with
                                       | Some x => x
                                       | None => VSym missing
                                       end in
                             if py_eq av (VSym missing)
                             then Ok (dict_set k (snd kv) a1)
                             else
                               x <- patch av (snd kv) ;;
                               Ok (dict_set k x a1))
                        items a0 ;;
                Ok (VDict a')
            | VList a0 | VTuple a0 =>
                a1 <- match dict_get (VSym delete) items with
                      | Some v =>
                          ps <- py_iter v ;;
                          for_each (fun a1 pos => list_pop pos a1) ps a0
                      | None => Ok a0
                      end ;;
                a2 <- match dict_get (VSym insert) items with
                      | Some v =>
                          its <- py_iter v ;;
                          for_each (fun a2 item =>
                                      pv <- unpack2 item ;;
                                      list_insert (fst pv) (snd pv) a2)
                                   its a1
                      | None => Ok a1
                      end ;;
                a3 <- for_each
                        (fun (a3 : list value) kv =>
                           let k := fst kv in
                           if negb (py_eq k (VSym delete))
                              && negb (py_eq k (VSym insert))
                           then
                             z <- py_int k ;;
                             x <- list_getitem z a3 ;;
                             y <- patch x (snd kv) ;;
                             list_setitem z y a3
                           else Ok a3)
                        items a2 ;;
                Ok (match a with VTuple _ => VTuple a3 | _ => VList a3 end)
            | VSet a0 =>
                a1 <- match dict_get (VSym discard) items with
                      | Some v =>
                          xs <- py_iter v ;;
                          for_each set_discard_op xs a0
                      | None => Ok a0
                      end ;;
                a2 <- match dict_get (VSym add) items with
                      | Some v =>
                          xs <- py_iter v ;;
                          for_each set_add_op xs a1
                      | None => Ok a1
                      end ;;
                Ok (VSet a2)
            | _ => Ok d
            end
        end
  | _ => Ok d
  end.

End CompactJsonDiffSyntax.

(** The object registered as ["compact"] in [builtin_syntaxes].  The class
    defines no [unpatch]. *)
Definition compact : JsonDiffSyntax := {|
  syn_emit_set_diff := CompactJsonDiffSyntax.emit_set_diff;
  syn_emit_list_diff := CompactJsonDiffSyntax.emit_list_diff;
  syn_emit_dict_diff := CompactJsonDiffSyntax.emit_dict_diff;
  syn_emit_value_diff := CompactJsonDiffSyntax.emit_value_diff;
  syn_patch := CompactJsonDiffSyntax.patch;
  syn_unpatch := None
|}.

(** ** The differ *)

(** The options of a [JsonDiffer] that the value-level operations read.  The
    text codec ([load], [dump], [loader], [dumper]) is outside the embedding:
    every operation below is the one with [load=False, dump=False]. *)
Record Options : Type := {
  syntax : JsonDiffSyntax;
  marshal_opt : bool;
  escape_str : string
}.

Definition default_options : Options :=
  {| syntax := compact; marshal_opt := false; escape_str := "$" |}.

(** Similarity tables: [C[i][j]]. *)
Definition table := list (list Q).

Definition tget (C : table) (i j : nat) : Q := nth j (nth i C []) 0%Q.

Fixpoint list_set {A : Type} (l : list A) (i : nat) (x : A) : list A :=
  match l, i with
  | [], _ => []
  | _ :: l', O => x :: l'
  | y :: l', S i' => y :: list_set l' i' x
  end.

Definition tset (C : table) (i j : nat) (x : Q) : table :=
  list_set C i (list_set (nth i C []) j x).

(** An entry of the edit script: [(sign, value, pos, s)]. *)
Definition edit := (Z * value * nat * Q)%type.

(** Stable sort by decreasing key: [sorted(l, reverse=True, key=...)]. *)
Section sorted.
Context {A : Type}.
Variable key : A -> Q.

Fixpoint insert_desc (x : A) (l : list A) : list A :=
  match l with
  | [] => [x]
  | y :: l' =>
      if Qlt_bool (key x) (key y) then y :: insert_desc x l'
      else x :: y :: l'
  end.

Definition sorted_desc (l : list A) : list A :=
  fold_right insert_desc [] l.
End sorted.

Definition dget (D : list (list (value * Q))) (i j : nat) : value * Q :=
  nth j (nth i D []) (VNone, 0%Q).

Module JsonDiffer.
Section differ.

Variable options : Options.

(** [a is b].  Values carry no identity, so the test is left open; what is
    known of it is that an object is equal to itself ([is_sound] below). *)
Variable same : value -> value -> bool.

(** [_list_diff_0].  [D[i][j]] stands for [self._obj_diff(X[i], Y[j])],
    which the caller has tabulated; [r] grows at its end as in the source
    and the result is [reversed(r)]. *)
Section list_diff_0.
Variable D : list (list (value * Q)).
Variable C : table.
Variables X Y : list value.

Fixpoint _list_diff_0_from (i : nat) : nat -> list edit -> list edit :=
  fix inner (j : nat) (r : list edit) {struct j} : list edit :=
    match i, j with
    | S i', S j' =>
        let d := fst (dget D i' j') in
        let s := snd (dget D i' j') in
        if Qlt_bool 0 s && Qeq_bool (tget C i j) (tget C i' j' + s)
        then _list_diff_0_from i' j' (r ++ [(0, d, j', s)])
        else if Qle_bool (tget C i' j) (tget C i j')
        then inner j' (r ++ [(1, nth j' Y VNone, j', 0%Q)])
        else if Qlt_bool (tget C i j') (tget C i' j)
        then _list_diff_0_from i' j (r ++ [(-1, nth i' X VNone, i', 0%Q)])
        else rev r
    | O, S j' => inner j' (r ++ [(1, nth j' Y VNone, j', 0%Q)])
    | S i', O => _list_diff_0_from i' O (r ++ [(-1, nth i' X VNone, i', 0%Q)])
    | O, O => rev r
    end.

Definition _list_diff_0 : list edit :=
  _list_diff_0_from (length X) (length Y) [].
End list_diff_0.

(** The table [C] of [_list_diff] after its two nested loops. *)
Definition fill_table (D : list (list (value * Q))) (m n : nat) : table :=
  fold_left
    (fun C i =>
       fold_left
         (fun C j =>
            let s := snd (dget D (i - 1) (j - 1)) in
            tset C i j
                 (Qmax (Qmax (tget C i (j - 1)) (tget C (i - 1) j))
                       (tget C (i - 1) (j - 1) + s)))
         (seq 1 n) C)
    (seq 1 m)
    (repeat (repeat 0%Q (n + 1)) (m + 1)).

(** The loop of [_list_diff] over the edit script:
    [(inserted, deleted, changed, tot_s)]. *)
Definition collect_state : Type :=
  (list (nat * value) * list (nat * value) * dict * Q)%type.

Definition collect_step (st : collect_state) (e : edit) : collect_state :=
  let '(inserted, deleted, changed, tot_s) := st in
  let '(sign, v, pos, s) := e in
  let '(inserted, deleted, changed) :=
    if sign =? 1 then (inserted ++ [(pos, v)], deleted, changed)
    else if sign =? -1 then (inserted, (pos, v) :: deleted, changed)
    else if (sign =? 0) && Qlt_bool s 1
         then (inserted, deleted, dict_set (VPos pos) v changed)
         else (inserted, deleted, changed) in
  (inserted, deleted, changed, (tot_s + s)%Q).

(** [_list_diff] up to the call of the emitter:
    [(inserted, changed, deleted, s)]. *)
Definition list_diff_parts (sim : value -> value -> value * Q)
           (X Y : list value)
  : list (nat * value) * dict * list (nat * value) * Q :=
  let m := length X in
  let n := length Y in
  let D := map (fun x => map (fun y => sim x y) Y) X in
  let C := fill_table D m n in
  let '(inserted, deleted, changed, tot_s) :=
    fold_left collect_step (_list_diff_0 D C X Y) ([], [], [], 0%Q) in
  let tot_n := (length X + length inserted)%nat in
  let s := if (tot_n =? 0)%nat then 1%Q
           else (tot_s / inject_Z (Z.of_nat tot_n))%Q in
  (inserted, changed, deleted, s).

Definition _list_diff (sim : value -> value -> value * Q)
           (a b : value) (X Y : list value) : value * Q :=
  let '(inserted, changed, deleted, s) := list_diff_parts sim X Y in
  (syn_emit_list_diff (syntax options) a b s inserted changed deleted, s).
(** [_set_diff].  The generator of [ranking] visits [removed], that is the
    elements of [a] that are not in [b], and for each of them [added]. *)
Definition set_ranking (sim : value -> value -> value * Q)
           (a b added : list value) : list (Q * value * value) :=
  sorted_desc (fun t => fst (fst t))
    (flat_map
       (fun x =>
          if set_mem x b then []
          else map (fun y => (snd (sim x y), x, y)) added)
       a).

Definition is_empty {A : Type} (l : list A) : bool :=
  match l with [] => true | _ => false end.

(** The loop over [ranking], with its [break]. *)
Fixpoint greedy (ranking : list (Q * value * value)) (r2 a2 : list value)
         (s_common : Q) (n_common : nat) : Q * nat :=
  match ranking with
  | [] => (s_common, n_common)
  | (s, x, y) :: rest =>
      let '(r2, a2, s_common, n_common) :=
        if set_mem x r2 && set_mem y a2
        then (set_discard x r2, set_discard y a2, (s_common + s)%Q,
              S n_common)
        else (r2, a2, s_common, n_common) in
      if is_empty r2 || is_empty a2 then (s_common, n_common)
      else greedy rest r2 a2 s_common n_common
  end.

Definition _set_diff (sim : value -> value -> value * Q)
           (b0 : value) (a b : list value) : value * Q :=
  let removed := set_difference a b in
  let added := set_difference b a in
  if is_empty removed && is_empty added then (VDict [], 1%Q)
  else
    let ranking := set_ranking sim a b added in
    let n_common := (length a - length removed)%nat in
    let s_common := inject_Z (Z.of_nat n_common) in
    let '(s_common, n_common) :=
      greedy ranking removed added s_common n_common in
    let n_tot := (length a + length added)%nat in
    let s := if negb (n_tot =? 0)%nat
             then (s_common / inject_Z (Z.of_nat n_tot))%Q else 1%Q in
    (syn_emit_set_diff (syntax options) a b0 s added removed, s).

(** [_dict_diff]: the loop over [a.items()] keeps
    [(removed, nremoved, nmatched, smatched, changed)]. *)
Definition dict_state : Type := (dict * nat * nat * Q * dict)%type.

Definition dict_step (sim : value -> value -> value * Q) (b : dict)
           (st : dict_state) (kv : value * value) : dict_state :=
  let '(removed, nremoved, nmatched, smatched, changed) := st in
  let k := fst kv in
  let w := match dict_get k b with Some w => w | None => VSym missing end in
  if isinstance_Symbol w then
    if py_eq w (VSym missing)
    then (dict_set k (snd kv) removed, S nremoved, nmatched, smatched,
          changed)
    else st
  else
    let d := fst (sim (snd kv) w) in
    let s := snd (sim (snd kv) w) in
    (removed, nremoved, S nmatched, (smatched + ((1 # 2) + (1 # 2) * s))%Q,
     if Qlt_bool s 1 then dict_set k d changed else changed).

Definition added_step (a : dict) (st : nat * dict) (kv : value * value)
  : nat * dict :=
  if negb (dict_mem (fst kv) a)
  then (S (fst st), dict_set (fst kv) (snd kv) (snd st))
  else st.

Definition _dict_diff (sim : value -> value -> value * Q)
           (a0 b0 : value) (a b : dict) : value * Q :=
  let '(removed, nremoved, nmatched, smatched, changed) :=
    fold_left (dict_step sim b) a ([], O, O, 0%Q, []) in
  let '(nadded, added) := fold_left (added_step a) b (O, []) in
  let n_tot := (nremoved + nmatched + nadded)%nat in
  let s := if negb (n_tot =? 0)%nat
           then (smatched / inject_Z (Z.of_nat n_tot))%Q else 1%Q in
  (syn_emit_dict_diff (syntax options) a0 b0 s added changed removed, s).

(** [_obj_diff] *)
Fixpoint _obj_diff (a b : value) {struct a} : value * Q :=
  if same a b then (syn_emit_value_diff (syntax options) a b 1%Q, 1%Q)
  else
    match a, b with
    | VDict da, VDict db => _dict_diff (fun x y => _obj_diff x y) a b da db
    | VTuple X, VTuple Y => _list_diff (fun x y => _obj_diff x y) a b X Y
    | VList X, VList Y => _list_diff (fun x y => _obj_diff x y) a b X Y
    | VSet sa, VSet sb => _set_diff (fun x y => _obj_diff x y) b sa sb
    | _, _ =>
        if negb (py_eq a b)
        then (syn_emit_value_diff (syntax options) a b 0%Q, 0%Q)
        else (syn_emit_value_diff (syntax options) a b 1%Q, 1%Q)
    end.
(** [self._symbol_map], a dict from escaped names to markers. *)
Definition _symbol_map : list (string * Symbol) :=
  fold_left
    (fun m y =>
       let k := (escape_str options ++ label y)%string in
       if existsb (fun e => String.eqb k (fst e)) m
       then map (fun e => if String.eqb k (fst e) then (fst e, y) else e) m
       else m ++ [(k, y)])
    _all_symbols_ [].

Definition symbol_map_get (x : string) : option Symbol :=
  option_map snd (find (fun e => String.eqb x (fst e)) _symbol_map).

(** [x[1:]] *)
Definition tail1 (x : string) : string :=
  match x with
  | EmptyString => EmptyString
  | String _ x' => x'
  end.

Definition _unescape (x : value) : value :=
  match x with
  | VStr t =>
      match symbol_map_get t with
      | Some sym => VSym sym
      | None =>
          if String.prefix (escape_str options) t then VStr (tail1 t) else x
      end
  | _ => x
  end.

Fixpoint unmarshal (d : value) : value :=
  match d with
  | VDict items =>
      VDict (fold_left
               (fun acc kv =>
                  dict_set (_unescape (fst kv)) (unmarshal (snd kv)) acc)
               items [])
  | VList l => VList (map unmarshal l)
  | VTuple l => VTuple (map unmarshal l)
  | _ => _unescape d
  end.

Definition _escape (o : value) : value :=
  match o with
  | VSym y => VStr (escape_str options ++ label y)
  | VStr t =>
      if String.prefix (escape_str options) t
      then VStr (escape_str options ++ t) else o
  | _ => o
  end.

Fixpoint marshal (d : value) : value :=
  match d with
  | VDict items =>
      VDict (fold_left
               (fun acc kv =>
                  dict_set (_escape (fst kv)) (marshal (snd kv)) acc)
               items [])
  | VList l => VList (map marshal l)
  | VTuple l => VTuple (map marshal l)
  | _ => _escape d
  end.

Definition diff (a b : value) : value :=
  let d := fst (_obj_diff a b) in
  if marshal_opt options then marshal d else d.

Definition similarity (a b : value) : Q := snd (_obj_diff a b).

Definition patch (a d : value) : result value :=
  let d := if marshal_opt options then unmarshal d else d in
  syn_patch (syntax options) a d.

End differ.
End JsonDiffer.

(** The module-level functions [diff], [patch] and [similarity] build a
    [JsonDiffer] from their keyword arguments and call its method. *)
Definition diff (options : Options) (same : value -> value -> bool)
  : value -> value -> value := JsonDiffer.diff options same.

Definition patch (options : Options) : value -> value -> result value :=
  JsonDiffer.patch options.

Definition similarity (options : Options) (same : value -> value -> bool)
  : value -> value -> Q := JsonDiffer.similarity options same.

(** The identity test of a call whose arguments share no object. *)
Definition never_same (a b : value) : bool := false.

(** ** The set differ and the iteration order of sets

    [a.difference(b)] and [b.difference(a)] are new sets, and CPython
    iterates a set by the hashes of its elements, not in the order in which
    they were put in.  [_set_diff] draws the pairs that it ranks from two
    such sets: [SetOrder._set_diff] is [_set_diff] with that order,
    [set_iter], made explicit.  [r2] and [a2] are used for membership and
    emptiness only. *)
Module SetOrder.
Section set_diff.
Variable set_iter : list value -> list value.

Definition _set_diff (sim : value -> value -> value * Q)
           (b0 : value) (a b : list value) : value * Q :=
  let removed := set_iter (set_difference a b) in
  let added := set_iter (set_difference b a) in
  if JsonDiffer.is_empty removed && JsonDiffer.is_empty added
  then (VDict [], 1%Q)
  else
    let ranking :=
      sorted_desc (fun t => fst (fst t))
        (flat_map (fun x => map (fun y => (snd (sim x y), x, y)) added)
                  removed) in
    let n_common := (length a - length removed)%nat in
    let s_common := inject_Z (Z.of_nat n_common) in
    let '(s_common, n_common) :=
      JsonDiffer.greedy ranking removed added s_common n_common in
    let n_tot := (length a + length added)%nat in
    let s := if negb (n_tot =? 0)%nat
             then (s_common / inject_Z (Z.of_nat n_tot))%Q else 1%Q in
    (CompactJsonDiffSyntax.emit_set_diff a b0 s added removed, s).
End set_diff.
End SetOrder.

(** ** The differ with the source's own arithmetic

    The scores of the source are Python floats, that is IEEE 754 binary64
    numbers: [0.5 + 0.5 * s], [tot_s += s], [s_common / n_tot] and the like
    round their result to the nearest double.  [Binary64] is the differ with
    these operations, on the primitive floats of the kernel.  The integers
    that the source mixes with them (the [0] of the table, the counts it
    divides by) are converted as Python converts them, and a set that the
    differ builds is iterated in an order of its own ([set_iter]). *)
Module Binary64.

Definition float : Set := PrimFloat.float.

(** [0.0], [1.0], [0.5] and [float(n)]. *)
Definition f0 : float := PrimFloat.zero.
Definition f1 : float := PrimFloat.one.
Definition half : float := (PrimFloat.one / PrimFloat.two)%float.
Definition of_nat (n : nat) : float :=
  PrimFloat.of_uint63 (Uint63.of_Z (Z.of_nat n)).

(** [max(x, y, z)]: the first of the largest. *)
Definition max3 (x y z : float) : float :=
  let m := if (x <? y)%float then y else x in
  if (m <? z)%float then z else m.

Definition table := list (list float).
Definition tget (C : table) (i j : nat) : float := nth j (nth i C []) f0.
Definition tset (C : table) (i j : nat) (x : float) : table :=
  list_set C i (list_set (nth i C []) j x).

Definition edit := (Z * value * nat * float)%type.

Definition dget (D : list (list (value * float))) (i j : nat)
  : value * float :=
  nth j (nth i D []) (VNone, f0).

(** [sorted(l, reverse=True, key=...)] *)
Section sorted.
Context {A : Type}.
Variable key : A -> float.

Fixpoint insert_desc (x : A) (l : list A) : list A :=
  match l with
  | [] => [x]
  | y :: l' =>
      if (key x <? key y)%float then y :: insert_desc x l'
      else x :: y :: l'
  end.

Definition sorted_desc (l : list A) : list A :=
  fold_right insert_desc [] l.
End sorted.

(** The emitters of [CompactJsonDiffSyntax], their score a double. *)
Definition emit_set_diff (a : list value) (b : value) (s : float)
           (added removed : list value) : value :=
  if (s =? f0)%float || (length removed =? length a)%nat
  then CompactJsonDiffSyntax.replacement b
  else
    let d := [] in
    let d := match removed with
             | [] => d
             | _ => dict_set (VSym discard) (VSet removed) d
             end in
    let d := match added with
             | [] => d
             | _ => dict_set (VSym add) (VSet added) d
             end in
    VDict d.

Definition emit_list_diff (a b : value) (s : float)
           (inserted : list (nat * value)) (changed : dict)
           (deleted : list (nat * value)) : value :=
  if (s =? f0)%float then CompactJsonDiffSyntax.replacement b
  else if (s =? f1)%float then VDict []
  else
    let d := changed in
    let d := match inserted with
             | [] => d
             | _ => dict_set (VSym insert)
                      (VList (map (fun pv => VTuple [VPos (fst pv); snd pv])
                                  inserted)) d
             end in
    let d := match deleted with
             | [] => d
             | _ => dict_set (VSym delete)
                      (VList (map (fun pv => VPos (fst pv)) deleted)) d
             end in
    VDict d.

Definition emit_dict_diff (a b : value) (s : float)
           (added changed removed : dict) : value :=
  if (s =? f0)%float then CompactJsonDiffSyntax.replacement b
  else if (s =? f1)%float then VDict []
  else
    let changed := dict_update changed added in
    let changed := match removed with
                   | [] => changed
                   | _ => dict_set (VSym delete) (VList (dict_keys removed))
                            changed
                   end in
    VDict changed.

Definition emit_value_diff (a b : value) (s : float) : value :=
  if (s =? f1)%float then VDict [] else CompactJsonDiffSyntax.replacement b.

Section differ.

(** [a is b], and the order in which a set that the differ has just built
    is iterated: CPython follows the hashes of the elements. *)
Variable same : value -> value -> bool.
Variable set_iter : list value -> list value.

Section list_diff_0.
Variable D : list (list (value * float)).
Variable C : table.
Variables X Y : list value.

Fixpoint _list_diff_0_from (i : nat) : nat -> list edit -> list edit :=
  fix inner (j : nat) (r : list edit) {struct j} : list edit :=
    match i, j with
    | S i', S j' =>
        let d := fst (dget D i' j') in
        let s := snd (dget D i' j') in
        if (f0 <? s)%float && (tget C i j =? tget C i' j' + s)%float
        then _list_diff_0_from i' j' (r ++ [(0, d, j', s)])
        else if (tget C i' j <=? tget C i j')%float
        then inner j' (r ++ [(1, nth j' Y VNone, j', f0)])
        else if (tget C i j' <? tget C i' j)%float
        then _list_diff_0_from i' j (r ++ [(-1, nth i' X VNone, i', f0)])
        else rev r
    | O, S j' => inner j' (r ++ [(1, nth j' Y VNone, j', f0)])
    | S i', O => _list_diff_0_from i' O (r ++ [(-1, nth i' X VNone, i', f0)])
    | O, O => rev r
    end.

Definition _list_diff_0 : list edit :=
  _list_diff_0_from (length X) (length Y) [].
End list_diff_0.

Definition fill_table (D : list (list (value * float))) (m n : nat) : table :=
  fold_left
    (fun C i =>
       fold_left
         (fun C j =>
            let s := snd (dget D (i - 1) (j - 1)) in
            tset C i j
                 (max3 (tget C i (j - 1)) (tget C (i - 1) j)
                       (tget C (i - 1) (j - 1) + s)%float))
         (seq 1 n) C)
    (seq 1 m)
    (repeat (repeat f0 (n + 1)) (m + 1)).

Definition collect_state : Type :=
  (list (nat * value) * list (nat * value) * dict * float)%type.

Definition collect_step (st : collect_state) (e : edit) : collect_state :=
  let '(inserted, deleted, changed, tot_s) := st in
  let '(sign, v, pos, s) := e in
  let '(inserted, deleted, changed) :=
    if sign =? 1 then (inserted ++ [(pos, v)], deleted, changed)
    else if sign =? -1 then (inserted, (pos, v) :: deleted, changed)
    else if (sign =? 0) && (s <? f1)%float
         then (inserted, deleted, dict_set (VPos pos) v changed)
         else (inserted, deleted, changed) in
  (inserted, deleted, changed, (tot_s + s)%float).

Definition _list_diff (sim : value -> value -> value * float)
           (a b : value) (X Y : list value) : value * float :=
  let m := length X in
  let n := length Y in
  let D := map (fun x => map (fun y => sim x y) Y) X in
  let C := fill_table D m n in
  let '(inserted, deleted, changed, tot_s) :=
    fold_left collect_step (_list_diff_0 D C X Y) ([], [], [], f0) in
  let tot_n := (length X + length inserted)%nat in
  let s := if (tot_n =? 0)%nat then f1 else (tot_s / of_nat tot_n)%float in
  (emit_list_diff a b s inserted changed deleted, s).

Fixpoint greedy (ranking : list (float * value * value)) (r2 a2 : list value)
         (s_common : float) (n_common : nat) : float * nat :=
  match ranking with
  | [] => (s_common, n_common)
  | (s, x, y) :: rest =>
      let '(r2, a2, s_common, n_common) :=
        if set_mem x r2 && set_mem y a2
        then (set_discard x r2, set_discard y a2, (s_common + s)%float,
              S n_common)
        else (r2, a2, s_common, n_common) in
      if JsonDiffer.is_empty r2 || JsonDiffer.is_empty a2
      then (s_common, n_common)
      else greedy rest r2 a2 s_common n_common
  end.

Definition _set_diff (sim : value -> value -> value * float)
           (b0 : value) (a b : list value) : value * float :=
  let removed := set_iter (set_difference a b) in
  let added := set_iter (set_difference b a) in
  if JsonDiffer.is_empty removed && JsonDiffer.is_empty added
  then (VDict [], f1)
  else
    let rows :=
      map (fun x => (x, map (fun y => (snd (sim x y), x, y)) added)) a in
    let row x := match find (fun r => py_eq x (fst r)) rows with
                 | Some r => snd r
                 | None => []
                 end in
    let ranking := sorted_desc (fun t => fst (fst t)) (flat_map row removed) in
    let n_common := (length a - length removed)%nat in
    let s_common := of_nat n_common in
    let '(s_common, n_common) :=
      greedy ranking removed added s_common n_common in
    let n_tot := (length a + length added)%nat in
    let s := if negb (n_tot =? 0)%nat
             then (s_common / of_nat n_tot)%float else f1 in
    (emit_set_diff a b0 s added removed, s).

Definition dict_state : Type := (dict * nat * nat * float * dict)%type.

Definition dict_step (sim : value -> value -> value * float) (b : dict)
           (st : dict_state) (kv : value * value) : dict_state :=
  let '(removed, nremoved, nmatched, smatched, changed) := st in
  let k := fst kv in
  let w := match dict_get k b with Some w => w | None => VSym missing end in
  if isinstance_Symbol w then
    if py_eq w (VSym missing)
    then (dict_set k (snd kv) removed, S nremoved, nmatched, smatched,
          changed)
    else st
  else
    let r := sim (snd kv) w in
    let d := fst r in
    let s := snd r in
    (removed, nremoved, S nmatched, (smatched + (half + half * s))%float,
     if (s <? f1)%float then dict_set k d changed else changed).

Definition _dict_diff (sim : value -> value -> value * float)
           (a0 b0 : value) (a b : dict) : value * float :=
  let '(removed, nremoved, nmatched, smatched, changed) :=
    fold_left (dict_step sim b) a ([], O, O, f0, []) in
  let '(nadded, added) := fold_left (JsonDiffer.added_step a) b (O, []) in
  let n_tot := (nremoved + nmatched + nadded)%nat in
  let s := if negb (n_tot =? 0)%nat
           then (smatched / of_nat n_tot)%float else f1 in
  (emit_dict_diff a0 b0 s added changed removed, s).

Fixpoint _obj_diff (a b : value) {struct a} : value * float :=
  if same a b then (emit_value_diff a b f1, f1)
  else
    match a, b with
    | VDict da, VDict db => _dict_diff (fun x y => _obj_diff x y) a b da db
    | VTuple X, VTuple Y => _list_diff (fun x y => _obj_diff x y) a b X Y
    | VList X, VList Y => _list_diff (fun x y => _obj_diff x y) a b X Y
    | VSet sa, VSet sb => _set_diff (fun x y => _obj_diff x y) b sa sb
    | _, _ =>
        if negb (py_eq a b)
        then (emit_value_diff a b f0, f0)
        else (emit_value_diff a b f1, f1)
    end.

(** [diff] and [similarity] with the default options. *)
Definition diff (a b : value) : value := fst (_obj_diff a b).
Definition similarity (a b : value) : float := snd (_obj_diff a b).
End differ.
End Binary64.

(** ** Notions used in the statements *)

(** What a set-shaped delta lists under a marker: nothing when the marker is
    absent, else the elements of its payload, which have to be hashable. *)
Definition marker_elems (y : Symbol) (items : dict) : option (list value) :=
  match dict_get (VSym y) items with
  | None => Some []
  | Some v =>
      match py_iter v with
      | Ok l => if forallb hashable l then Some l else None
      | Raise _ => None
      end
  end.

(** An edit script that walks two sequences from the positions [i] and [j]
    on: every step consumes the head of one or of both, and a step that
    consumes both carries the delta and the similarity of the pair, which is
    positive. *)
Inductive alignment (sim : value -> value -> value * Q)
  : nat -> nat -> list value -> list value -> list edit -> Prop :=
| al_nil i j : alignment sim i j [] [] []
| al_match i j x xs y ys es :
    (0 < snd (sim x y))%Q ->
    alignment sim (S i) (S j) xs ys es ->
    alignment sim i j (x :: xs) (y :: ys)
              ((0, fst (sim x y), j, snd (sim x y)) :: es)
| al_insert i j xs y ys es :
    alignment sim i (S j) xs ys es ->
    alignment sim i j xs (y :: ys) ((1, y, j, 0%Q) :: es)
| al_delete i j x xs ys es :
    alignment sim (S i) j xs ys es ->
    alignment sim i j (x :: xs) ys ((-1, x, i, 0%Q) :: es).

(** What the loop of [_list_diff] gathers from a script. *)
Definition inserted_of (es : list edit) : list (nat * value) :=
  flat_map (fun e : edit =>
              let '(sign, v, pos, _) := e in
              if sign =? 1 then [(pos, v)] else []) es.

Definition deleted_of (es : list edit) : list (nat * value) :=
  flat_map (fun e : edit =>
              let '(sign, v, pos, _) := e in
              if sign =? -1 then [(pos, v)] else []) es.

Definition changed_of (es : list edit) : dict :=
  flat_map (fun e : edit =>
              let '(sign, v, pos, s) := e in
              if (sign =? 0) && Qlt_bool s 1 then [(VPos pos, v)] else []) es.

Definition total_of (t : Q) (es : list edit) : Q :=
  fold_left (fun t (e : edit) => (t + snd e)%Q) es t.

(** The edit script that [_list_diff] walks through. *)
Definition edit_script (sim : value -> value -> value * Q)
           (X Y : list value) : list edit :=
  let D := map (fun x => map (fun y => sim x y) Y) X in
  JsonDiffer._list_diff_0 D (JsonDiffer.fill_table D (length X) (length Y)) X Y.

(** The score of a script for a source of [m] elements. *)
Definition script_score (m : nat) (es : list edit) : Q :=
  let tot_n := (m + length (inserted_of es))%nat in
  if (tot_n =? 0)%nat then 1%Q
  else (total_of 0 es / inject_Z (Z.of_nat tot_n))%Q.

(** The components that [_list_diff] hands to the emitter. *)
Definition list_diff_changed sim X Y : dict :=
  snd (fst (fst (JsonDiffer.list_diff_parts sim X Y))).

Definition list_diff_deleted sim X Y : list (nat * value) :=
  snd (fst (JsonDiffer.list_diff_parts sim X Y)).

(** The identity test is sound: an object is equal to itself. *)
Definition is_sound (same : value -> value -> bool) : Prop :=
  forall a b, same a b = true -> a = b.

Fixpoint Qsum (l : list Q) : Q :=
  match l with
  | [] => 0%Q
  | x :: l' => (x + Qsum l')%Q
  end.

(** The similarity of two maps in the words of the specification: a key of
    both maps weighs [0.5 + 0.5 * s] for the similarity [s] of its two
    values, and the total is divided by the number of removed, matched and
    added keys. *)
Definition map_removed (a b : dict) : dict :=
  filter (fun kv => negb (dict_mem (fst kv) b)) a.

Definition map_matched (a b : dict) : dict :=
  filter (fun kv => dict_mem (fst kv) b) a.

Definition map_added (a b : dict) : dict :=
  filter (fun kv => negb (dict_mem (fst kv) a)) b.

Definition matched_weight (sim : value -> value -> value * Q) (a b : dict)
  : Q :=
  Qsum (map (fun kv =>
               match dict_get (fst kv) b with
               | Some w => ((1 # 2) + (1 # 2) * snd (sim (snd kv) w))%Q
               | None => 0%Q
               end) (map_matched a b)).

Definition map_similarity (sim : value -> value -> value * Q) (a b : dict)
  : Q :=
  let n := (length (map_removed a b) + length (map_matched a b)
            + length (map_added a b))%nat in
  if (n =? 0)%nat then 1%Q
  else (matched_weight sim a b / inject_Z (Z.of_nat n))%Q.

(** The greedy matching of removed and added set elements in the words of
    the specification: the ranked pairs are consumed while both pools hold
    an element, and a pair whose two elements are both still unmatched is
    committed. *)
Fixpoint greedy_matches (ranking : list (Q * value * value))
         (r2 a2 : list value) : list (Q * value * value) :=
  match ranking with
  | [] => []
  | (s, x, y) :: rest =>
      if JsonDiffer.is_empty r2 || JsonDiffer.is_empty a2 then []
      else if set_mem x r2 && set_mem y a2
           then (s, x, y) :: greedy_matches rest (set_discard x r2)
                               (set_discard y a2)
           else greedy_matches rest r2 a2
  end.

Definition pair_ranking (sim : value -> value -> value * Q)
           (removed added : list value) : list (Q * value * value) :=
  sorted_desc (fun t => fst (fst t))
    (flat_map (fun x => map (fun y => (snd (sim x y), x, y)) added) removed).

Definition s_common_greedy (sim : value -> value -> value * Q)
           (a b : list value) : Q :=
  let removed := set_difference a b in
  let added := set_difference b a in
  Qsum (map (fun t => fst (fst t))
            (greedy_matches (pair_ranking sim removed added) removed added)).

Definition set_similarity (sim : value -> value -> value * Q)
           (a b : list value) : Q :=
  let removed := set_difference a b in
  let added := set_difference b a in
  let n_common := (length a - length removed)%nat in
  ((inject_Z (Z.of_nat n_common) + s_common_greedy sim a b)
   / inject_Z (Z.of_nat (length a + length added)))%Q.

(** No value of the dict is a marker. *)
Definition no_marker_values (b : dict) : Prop :=
  forall w, In w (map snd b) -> isinstance_Symbol w = false.

(** A table of [m + 1] rows and [n + 1] columns. *)
Definition dims (C : table) (m n : nat) : Prop :=
  length C = S m /\ forall i, (i <= m)%nat -> length (nth i C []) = S n.

(** The value that [_list_diff] writes into the cell [C[i][j]], and the
    state of the table when the cells before [(i, j)] are written. *)
Definition cell_rule (D : list (list (value * Q))) (C : table) (i j : nat)
  : Q :=
  Qmax (Qmax (tget C i (j - 1)) (tget C (i - 1) j))
       (tget C (i - 1) (j - 1) + snd (dget D (i - 1) (j - 1))).

Definition filled (D : list (list (value * Q))) (m n : nat) (C : table)
           (i j : nat) : Prop :=
  dims C m n
  /\ (forall j', tget C 0 j' = 0%Q)
  /\ (forall i', tget C i' 0 = 0%Q)
  /\ forall i' j',
      (1 <= i')%nat -> (1 <= j' <= n)%nat ->
      (i' < i \/ (i' = i /\ j' < j))%nat ->
      tget C i' j' = cell_rule D C i' j'.

Definition Q_of_nat (k : nat) : Q := inject_Z (Z.of_nat k).

(** The three loops of [patch] over a list, and what an edit script keeps
    and produces. *)
Definition insert_step (a2 : list value) (item : value)
  : result (list value) :=
  pv <- unpack2 item ;; list_insert (fst pv) (snd pv) a2.

Definition change_step (a3 : list value) (kv : value * value)
  : result (list value) :=
  if negb (py_eq (fst kv) (VSym delete)) && negb (py_eq (fst kv) (VSym insert))
  then
    z <- py_int (fst kv) ;;
    x <- list_getitem z a3 ;;
    y <- CompactJsonDiffSyntax.patch x (snd kv) ;;
    list_setitem z y a3
  else Ok a3.

Definition patch_seq (a0 : list value) (items : dict) : result (list value) :=
  a1 <- match dict_get (VSym delete) items with
        | Some v =>
            ps <- py_iter v ;; for_each (fun a1 pos => list_pop pos a1) ps a0
        | None => Ok a0
        end ;;
  a2 <- match dict_get (VSym insert) items with
        | Some v => its <- py_iter v ;; for_each insert_step its a1
        | None => Ok a1
        end ;;
  for_each change_step items a2.

Fixpoint kept_of (es : list edit) (xs : list value) : list value :=
  match es, xs with
  | (sign, _, _, _) :: es', x :: xs' =>
      if sign =? 0 then x :: kept_of es' xs'
      else if sign =? 1 then kept_of es' xs
      else kept_of es' xs'
  | (sign, _, _, _) :: es', [] => kept_of es' []
  | [], _ => []
  end.

Fixpoint merged_of (es : list edit) (xs : list value) : list value :=
  match es, xs with
  | (sign, v, _, _) :: es', x :: xs' =>
      if sign =? 0 then x :: merged_of es' xs'
      else if sign =? 1 then v :: merged_of es' xs
      else merged_of es' xs'
  | (sign, v, _, _) :: es', [] =>
      if sign =? 1 then v :: merged_of es' [] else merged_of es' []
  | [], _ => []
  end.

(** The entries of a partial sequence delta after the positional ones. *)
Definition insert_entry (ins : list (nat * value)) : dict :=
  match ins with
  | [] => []
  | _ => [(VSym insert,
           VList (map (fun pv => VTuple [VPos (fst pv); snd pv]) ins))]
  end.

Definition delete_entry (del : list (nat * value)) : dict :=
  match del with
  | [] => []
  | _ => [(VSym delete, VList (map (fun pv => VPos (fst pv)) del))]
  end.

(** The nested deltas that the dict differ records. *)
Definition map_changed (sim : value -> value -> value * Q) (a b : dict)
  : dict :=
  flat_map (fun kv =>
              match dict_get (fst kv) b with
              | Some w =>
                  if Qlt_bool (snd (sim (snd kv) w)) 1
                  then [(fst kv, fst (sim (snd kv) w))] else []
              | None => []
              end) a.

(** The entry of a dict after [patch] has applied what [map_changed] holds
    for its key. *)
Definition patched (sim : value -> value -> value * Q) (b : dict)
           (kv : value * value) : value * value :=
  match dict_get (fst kv) b with
  | Some w =>
      if Qlt_bool (snd (sim (snd kv) w)) 1
      then match CompactJsonDiffSyntax.patch (snd kv) (fst (sim (snd kv) w)) with
           | Ok r => (fst kv, r)
           | Raise _ => kv
           end
      else kv
  | None => kv
  end.

(** The body of the loop of [patch] over the items of a delta for a dict. *)
Definition dict_patch_step (a1 : dict) (kv : value * value) : result dict :=
  if py_eq (fst kv) (VSym delete) then
    kdels <- py_iter (snd kv) ;;
    for_each (fun a2 kdel => dict_del kdel a2) kdels a1
  else
    let av := match dict_get (fst kv) a1 with
              | Some x => x
              | None => VSym missing
              end in
    if py_eq av (VSym missing) then Ok (dict_set (fst kv) (snd kv) a1)
    else x <- CompactJsonDiffSyntax.patch av (snd kv) ;;
         Ok (dict_set (fst kv) x a1).

Definition delete_keys_entry (removed : dict) : dict :=
  match removed with
  | [] => []
  | _ => [(VSym delete, VList (dict_keys removed))]
  end.

(** No key of the dict is a marker. *)
Definition plain_keys (d : dict) : Prop :=
  forall k y, In k (dict_keys d) -> k <> VSym y.

(** The items whose key is none of [ks]. *)
Definition without_keys (ks : list value) (d : dict) : dict :=
  filter (fun kv => forallb (fun k => negb (py_eq k (fst kv))) ks) d.

(** What is shown of a delta [d] and a score [s] computed for [a] and [b]:
    the score lies in the unit interval, it is 1 exactly when the values are
    equal, the delta is empty then, and patching [a] with the delta gives a
    value equal to [b]. *)
Definition diff_ok (a b : value) (r : value * Q) : Prop :=
  (0 <= snd r <= 1)%Q
  /\ ((snd r == 1)%Q -> fst r = VDict [] /\ py_eq a b = true)
  /\ (py_eq a b = true -> (snd r == 1)%Q)
  /\ exists x, CompactJsonDiffSyntax.patch a (fst r) = Ok x
               /\ py_eq x b = true.

(** The pairs that [_obj_diff] hands to one of its three structural differs:
    two dicts, two tuples, two lists or two sets. *)
Definition same_container (a b : value) : bool :=
  match a, b with
  | VDict _, VDict _ | VTuple _, VTuple _ | VList _, VList _
  | VSet _, VSet _ => true
  | _, _ => false
  end.

Definition list_diff_inserted sim X Y : list (nat * value) :=
  fst (fst (fst (JsonDiffer.list_diff_parts sim X Y))).

(** Values whose markers all sit where [marshal] replaces them: as keys of
    dicts that lists, tuples and values of dicts lead to, not as leaves, not
    inside sets and not inside keys. *)
Fixpoint escapable (v : value) : bool :=
  match v with
  | VNone | VInt _ | VStr _ => true
  | VSym _ => false
  | VList l | VTuple l => forallb escapable l
  | VSet l => forallb plain l
  | VDict d =>
      forallb (fun kv => (isinstance_Symbol (fst kv) || plain (fst kv))
                         && escapable (snd kv)) d
  end.

(** The number of elements that a delta lists under a marker. *)
Definition listed (y : Symbol) (items : dict) : nat :=
  match dict_get (VSym y) items with
  | Some v => match py_iter v with Ok l => length l | Raise _ => 0%nat end
  | None => 0%nat
  end.

(** A sequence without the elements whose position, counted from [i] on, is
    one of [ps]. *)
Fixpoint drop_positions (i : nat) (ps : list nat) (xs : list value)
  : list value :=
  match xs with
  | [] => []
  | x :: xs' =>
      if existsb (Nat.eqb i) ps then drop_positions (S i) ps xs'
      else x :: drop_positions (S i) ps xs'
  end.

(** Positions that go strictly down from below [hi]. *)
Fixpoint descending_below (hi : nat) (ps : list nat) : bool :=
  match ps with
  | [] => true
  | p :: ps' => (p <? hi)%nat && descending_below p ps'
  end.

(** Positions that go strictly up from [lo] on, each of them a position of
    the sequence it is inserted into, whose length is [n] at first. *)
Fixpoint ascending_within (lo n : nat) (ps : list nat) : bool :=
  match ps with
  | [] => true
  | p :: ps' =>
      (lo <=? p)%nat && (p <=? n)%nat && ascending_within (S p) (S n) ps'
  end.

(** A dict delta mentions a key: as a key of its own, or in the list under
    [delete]. *)
Definition mentions (items : dict) (k : value) : bool :=
  set_mem k (dict_keys items)
  || match dict_get (VSym delete) items with
     | Some v => match py_iter v with
                 | Ok kdels => set_mem k kdels
                 | Raise _ => false
                 end
     | None => false
     end.

(** Two results, or two entries of an edit script, that differ in the
    representation of the score at most; likewise two entries of the ranking
    of the set differ. *)
Definition score_eq {A : Type} (p q : A * Q) : Prop :=
  fst p = fst q /\ (snd p == snd q)%Q.

Definition rank_eq (t u : Q * value * value) : Prop :=
  (fst (fst t) == fst (fst u))%Q /\ snd (fst t) = snd (fst u) /\ snd t = snd u.

(** An identity test that finds equal integers to be one object, as CPython
    does for the small ones it caches, and nothing else. *)
Definition same_ints (a b : value) : bool :=
  match a, b with
  | VInt x, VInt y => (x =? y)%Z
  | _, _ => false
  end.

(** [n] dicts of the one key ["k"] around [v]. *)
Fixpoint nested (n : nat) (v : value) : value :=
  match n with
  | O => v
  | S n' => VDict [(VStr "k", nested n' v)]
  end.

(** An iteration order of sets: the one in which the elements were put in. *)
Definition insertion_order (l : list value) : list value := l.

(** The pairs that the set differ ranks: every removed element with every
    added one, and the similarity of the two; a ranking by descending
    similarity; and the entries of a ranking that have a given similarity. *)
Definition score (t : Q * value * value) : Q := fst (fst t).

Definition scored_pairs (sim : value -> value -> value * Q)
           (removed added : list value) : list (Q * value * value) :=
  flat_map (fun x => map (fun y => (snd (sim x y), x, y)) added) removed.

Definition descending (ranking : list (Q * value * value)) : Prop :=
  StronglySorted (fun t u => (score u <= score t)%Q) ranking.

Definition with_score (s : Q) (ranking : list (Q * value * value))
  : list (Q * value * value) :=
  filter (fun t => Qeq_bool (score t) s) ranking.

(** * Properties *)

Example diff_scalars :
  diff default_options never_same (VStr "foo") (VStr "bar") = VStr "bar"
  /\ patch default_options (VStr "foo") (VStr "bar") = Ok (VStr "bar").
Proof. split; reflexivity. Qed.

Example diff_lists :
  diff default_options never_same
       (VList [VInt 1; VInt 2; VInt 3]) (VList [VInt 1; VInt 3; VInt 4])
  = VDict [(VSym insert, VList [VTuple [VInt 2; VInt 4]]);
           (VSym delete, VList [VInt 1])].
Proof. vm_compute. reflexivity. Qed.

(** ** Equality *)

Lemma Symbol_eqb_eq (y z : Symbol) : Symbol_eqb y z = true <-> y = z.
Proof. destruct y, z; simpl; split; congruence. Qed.

Lemma Symbol_eqb_refl (y : Symbol) : Symbol_eqb y y = true.
Proof. now apply Symbol_eqb_eq. Qed.

Lemma seq_eq_Forall2 (eq : value -> value -> bool) (l1 l2 : list value) :
  seq_eq eq l1 l2 = true <-> Forall2 (fun x y => eq x y = true) l1 l2.
Proof.
  revert l2; induction l1 as [|x l1 IH]; intros [|y l2]; simpl; split; intros H;
    try discriminate; try constructor; try solve [inversion H].
  - now apply andb_true_iff in H.
  - apply IH. now apply andb_true_iff in H.
  - inversion H; subst. apply andb_true_iff. split; [assumption|now apply IH].
Qed.

(** On a hashable left operand [==] is identity of the models. *)
Lemma py_eq_hashable (a : value) :
  hashable a = true -> forall b, py_eq a b = true -> a = b.
Proof.
  induction a as [| z | s | y | l IH | l IH | l IH | l IH] using value_rect';
    intros Hh b Hb; destruct b; simpl in *; try discriminate; auto.
  - apply Z.eqb_eq in Hb. now subst.
  - apply String.eqb_eq in Hb. now subst.
  - apply Symbol_eqb_eq in Hb. now subst.
  - f_equal. apply seq_eq_Forall2 in Hb.
    rewrite forallb_forall in Hh. rewrite Forall_forall in IH.
    induction Hb as [|x y l1 l2 Hxy _ IHl]; [reflexivity|].
    f_equal.
    + apply IH; [now left|apply Hh; now left|assumption].
    + apply IHl; intros; [apply IH|apply Hh]; auto; now right.
Qed.

Lemma py_eq_refl_hashable (a : value) : hashable a = true -> py_eq a a = true.
Proof.
  induction a as [| z | s | y | l IH | l IH | l IH | l IH] using value_rect';
    intros Hh; simpl in *; try discriminate; auto.
  - apply Z.eqb_refl.
  - apply String.eqb_refl.
  - apply Symbol_eqb_refl.
  - apply seq_eq_Forall2. rewrite forallb_forall in Hh.
    induction IH as [|x l Hx _ IHl]; constructor.
    + apply Hx, Hh. now left.
    + apply IHl. intros; apply Hh. now right.
Qed.

(** [py_eq] as a decision of identity on hashable values. *)
Lemma py_eq_hashable_iff (a b : value) :
  hashable a = true -> (py_eq a b = true <-> a = b).
Proof.
  intros Ha; split; [now apply py_eq_hashable|].
  intros <-. now apply py_eq_refl_hashable.
Qed.

Lemma py_eq_hashable_neq (a b : value) :
  hashable a = true -> (py_eq a b = false <-> a <> b).
Proof.
  intros Ha. rewrite <- (py_eq_hashable_iff a b Ha).
  destruct (py_eq a b); split; congruence.
Qed.

Lemma set_mem_In (x : value) (s : list value) :
  hashable x = true -> (set_mem x s = true <-> In x s).
Proof.
  intros Hx. unfold set_mem. rewrite existsb_exists. split.
  - intros [y [Hy E]]. apply py_eq_hashable in E; auto. now subst.
  - intros H. exists x. split; [assumption|now apply py_eq_refl_hashable].
Qed.

Lemma set_mem_not_In (x : value) (s : list value) :
  hashable x = true -> (set_mem x s = false <-> ~ In x s).
Proof.
  intros Hx. rewrite <- (set_mem_In x s Hx).
  destruct (set_mem x s); split; congruence.
Qed.

Lemma distinct_NoDup (l : list value) :
  forallb hashable l = true -> (distinct l = true <-> NoDup l).
Proof.
  induction l as [|x l IH]; simpl; intros Hh.
  - split; [constructor|reflexivity].
  - apply andb_true_iff in Hh as [Hx Hl].
    rewrite andb_true_iff, negb_true_iff, set_mem_not_In, IH by assumption.
    split; [intros [? ?]; now constructor|intros H; now inversion H].
Qed.

(** ** Dicts *)

Lemma dict_get_None (k : value) (d : dict) :
  hashable k = true -> (dict_get k d = None <-> ~ In k (dict_keys d)).
Proof.
  intros Hk. unfold dict_get. induction d as [|[k' v] d IH]; simpl.
  - tauto.
  - destruct (py_eq k k') eqn:E.
    + apply py_eq_hashable in E; auto. subst. split; [discriminate|tauto].
    + apply py_eq_hashable_neq in E; auto. rewrite IH. split.
      * intros H [H'|H']; [congruence|tauto].
      * tauto.
Qed.

Lemma dict_get_In (k v : value) (d : dict) :
  dict_get k d = Some v -> In v (map snd d).
Proof.
  unfold dict_get. induction d as [|[k' v'] d IH]; simpl; [discriminate|].
  destruct (py_eq k k'); [intros [= ->]; now left|]. intros H. right. auto.
Qed.

Lemma dict_get_Some_key (k v : value) (d : dict) :
  hashable k = true -> dict_get k d = Some v -> In (k, v) d.
Proof.
  intros Hk. unfold dict_get. induction d as [|[k' v'] d IH]; simpl;
    [discriminate|].
  destruct (py_eq k k') eqn:E.
  - apply py_eq_hashable in E; auto. subst. intros [= ->]. now left.
  - intros H. right. auto.
Qed.

Lemma dict_mem_In (k : value) (d : dict) :
  hashable k = true -> (dict_mem k d = true <-> In k (dict_keys d)).
Proof.
  intros Hk. unfold dict_mem. pose proof (dict_get_None k d Hk) as H.
  destruct (dict_get k d) eqn:E; split; intros H'; try reflexivity;
    try discriminate.
  - apply dict_get_Some_key in E; auto. apply (in_map fst) in E. exact E.
  - exfalso. apply H; auto.
Qed.

Lemma dict_mem_false (k : value) (d : dict) :
  hashable k = true -> (dict_mem k d = false <-> ~ In k (dict_keys d)).
Proof.
  intros Hk. rewrite <- (dict_mem_In k d Hk).
  destruct (dict_mem k d); split; congruence.
Qed.

Lemma dict_keys_remove (k : value) (d : dict) :
  hashable k = true ->
  forall k', In k' (dict_keys (dict_remove k d)) <->
             In k' (dict_keys d) /\ k <> k'.
Proof.
  intros Hk k'. unfold dict_keys, dict_remove.
  induction d as [|[k0 v0] d IH]; simpl; [tauto|].
  destruct (py_eq k k0) eqn:E; simpl.
  - apply py_eq_hashable in E; auto. subst. rewrite IH.
    split; [tauto|]. intros [[H|H] H']; [congruence|tauto].
  - apply py_eq_hashable_neq in E; auto. rewrite IH.
    split; [|tauto]. intros [H|H]; [subst; tauto|tauto].
Qed.

Lemma dict_set_absent (k v : value) (d : dict) :
  dict_get k d = None -> dict_set k v d = d ++ [(k, v)].
Proof.
  unfold dict_get. induction d as [|[k' v'] d IH]; simpl; [reflexivity|].
  destruct (py_eq k k'); [discriminate|]. intros H. now rewrite IH.
Qed.

(** ** Patching a dict *)

Lemma for_each_dict_del (kdels : list value) :
  forallb hashable kdels = true -> NoDup kdels ->
  forall a : dict,
    (incl kdels (dict_keys a) ->
     exists a', for_each (fun a2 kdel => dict_del kdel a2) kdels a = Ok a')
    /\ ((exists k, In k kdels /\ dict_mem k a = false) ->
        for_each (fun a2 kdel => dict_del kdel a2) kdels a = Raise KeyError).
Proof.
  induction kdels as [|k kdels IH]; simpl; intros Hh Hnd a.
  - split; [eauto|]. intros [k [[] _]].
  - apply andb_true_iff in Hh as [Hk Hh]. inversion Hnd as [|? ? Hnk Hnd']; subst.
    unfold dict_del at 1 3. rewrite Hk. simpl.
    destruct (dict_mem k a) eqn:Hm; simpl.
    + specialize (IH Hh Hnd' (dict_remove k a)) as [IH1 IH2]. split.
      * intros Hincl. apply IH1. intros k' Hk'.
        apply dict_keys_remove; auto. split.
        -- apply Hincl. now right.
        -- intros ->. contradiction.
      * intros [k' [[->|Hin] Hf]]; [congruence|].
        apply IH2. exists k'. split; [assumption|].
        rewrite forallb_forall in Hh.
        apply dict_mem_false; [now apply Hh|].
        rewrite dict_keys_remove by assumption.
        apply dict_mem_false in Hf; [tauto|now apply Hh].
    + split; [|reflexivity].
      intros Hincl. exfalso. apply dict_mem_false in Hm; auto.
      apply Hm, Hincl. now left.
Qed.

Lemma all_keys_or_missing (kdels : list value) (a : dict) :
  forallb hashable kdels = true ->
  incl kdels (dict_keys a) \/ exists k, In k kdels /\ dict_mem k a = false.
Proof.
  induction kdels as [|k kdels IH]; simpl; intros Hh.
  - left. intros ? [].
  - apply andb_true_iff in Hh as [Hk Hh].
    destruct (dict_mem k a) eqn:Hm.
    + destruct (IH Hh) as [H|[k' [H1 H2]]].
      * left. intros k' [<-|H']; [now apply dict_mem_In|now apply H].
      * right. exists k'. auto.
    + right. exists k. auto.
Qed.

(** ** Unpatch *)



(** ** Patching a set *)

Lemma set_ops_total (op : value -> list value -> list value)
      (xs : list value) :
  forallb hashable xs = true ->
  forall a,
    for_each (fun a x => if hashable x then Ok (op x a) else Raise TypeError)
             xs a
    = Ok (fold_left (fun a x => op x a) xs a).
Proof.
  induction xs as [|x xs IH]; simpl; intros Hh a; [reflexivity|].
  apply andb_true_iff in Hh as [Hx Hh]. rewrite Hx. simpl. now apply IH.
Qed.

Lemma set_discard_absent (x : value) (s : list value) :
  set_mem x s = false -> set_discard x s = s.
Proof.
  unfold set_mem, set_discard. induction s as [|y s IH]; simpl; [reflexivity|].
  intros H. apply orb_false_iff in H as [H1 H2]. rewrite H1. simpl.
  now rewrite IH.
Qed.

(** C10.  Patching a set with a set-shaped delta never raises.  The result is
    the base for the empty delta, the payload of [replace] when the delta has
    one, and otherwise the base without the elements listed under [discard]
    and with those listed under [add]; discarding an element that the set does
    not hold leaves it as it is, where deleting an absent key of a dict
    raises. *)
Theorem patch_set_total :
  (forall (a : list value) (items : dict) (ds adds : list value),
      marker_elems discard items = Some ds ->
      marker_elems add items = Some adds ->
      patch default_options (VSet a) (VDict items)
      = Ok (if JsonDiffer.is_empty items then VSet a
            else match dict_get (VSym replace) items with
                 | Some b => b
                 | None =>
                     VSet (fold_left (fun s x => set_add x s) adds
                             (fold_left (fun s x => set_discard x s) ds a))
                 end))
  /\ (forall (x : value) (s : list value),
         set_mem x s = false -> set_discard x s = s)
  /\ patch default_options (VSet [VInt 1])
           (VDict [(VSym discard, VList [VInt 2])]) = Ok (VSet [VInt 1])
  /\ patch default_options (VDict [(VInt 1, VNone)])
           (VDict [(VSym delete, VList [VInt 2])]) = Raise KeyError.
Proof.
  split; [|split; [exact set_discard_absent|split; reflexivity]].
  intros a items ds adds Hd Ha.
  unfold patch, JsonDiffer.patch. simpl.
  destruct items as [|it items]; [reflexivity|].
  set (its := it :: items) in *. simpl.
  destruct (dict_get (VSym replace) its); [reflexivity|].
  unfold marker_elems in Hd, Ha.
  assert (H1 : match dict_get (VSym discard) its with
               | Some v => xs <- py_iter v ;; for_each set_discard_op xs a
               | None => Ok a
               end = Ok (fold_left (fun s x => set_discard x s) ds a)).
  { destruct (dict_get (VSym discard) its) as [v|].
    - destruct (py_iter v) as [l|]; [|discriminate]. simpl.
      destruct (forallb hashable l) eqn:Hl; [|discriminate].
      injection Hd as <-.
      apply (set_ops_total set_discard l Hl a).
    - now injection Hd as <-. }
  rewrite H1. simpl.
  destruct (dict_get (VSym add) its) as [v|].
  - destruct (py_iter v) as [l|]; [|discriminate]. simpl.
    destruct (forallb hashable l) eqn:Hl; [|discriminate].
    injection Ha as <-.
    unfold set_add_op.
    now rewrite (set_ops_total set_add l Hl).
  - now injection Ha as <-.
Qed.

Lemma patch_set_total_witness :
  patch default_options (VSet [VInt 1; VInt 2])
        (VDict [(VSym discard, VSet [VInt 2; VInt 5]);
                (VSym add, VList [VInt 7])])
  = Ok (VSet [VInt 1; VInt 7]).
Proof.
  apply (proj1 patch_set_total [VInt 1; VInt 2]
               [(VSym discard, VSet [VInt 2; VInt 5]);
                (VSym add, VList [VInt 7])]
               [VInt 2; VInt 5] [VInt 7]); reflexivity.
Defined.

(** ** Marshalling *)

Lemma eqb_append_l (e s t : string) :
  String.eqb (e ++ s) (e ++ t) = String.eqb s t.
Proof.
  induction e as [|c e IH]; simpl; [reflexivity|].
  now rewrite Ascii.eqb_refl.
Qed.

Lemma prefix_append (e t : string) : String.prefix e (e ++ t) = true.
Proof.
  induction e as [|c e IH]; simpl; [now destruct t|].
  destruct (ascii_dec c c); congruence.
Qed.

Lemma prefix_true_append (e t : string) :
  String.prefix e t = true -> exists t', t = (e ++ t')%string.
Proof.
  revert t; induction e as [|c e IH]; intros t.
  - exists t. reflexivity.
  - destruct t as [|c' t]; simpl; [discriminate|].
    destruct (ascii_dec c c'); [|discriminate]. subst.
    intros H. destruct (IH _ H) as [t' ->]. now exists t'.
Qed.

Lemma append_inj_l (e s t : string) : (e ++ s = e ++ t)%string -> s = t.
Proof.
  induction e as [|c e IH]; simpl; intros H; [assumption|].
  injection H as H. auto.
Qed.

Lemma label_inj (y z : Symbol) : label y = label z -> y = z.
Proof. destruct y, z; simpl; intros H; congruence. Qed.

Section symbol_map.
Variable options : Options.
Let e := escape_str options.

Lemma _symbol_map_eq :
  JsonDiffer._symbol_map options
  = map (fun y => ((e ++ label y)%string, y)) _all_symbols_.
Proof.
  unfold JsonDiffer._symbol_map, _all_symbols_. fold e. simpl.
  repeat (rewrite ?eqb_append_l; simpl). reflexivity.
Qed.

Lemma symbol_map_get_label (y : Symbol) :
  JsonDiffer.symbol_map_get options (e ++ label y) = Some y.
Proof.
  unfold JsonDiffer.symbol_map_get. rewrite _symbol_map_eq. simpl.
  rewrite !eqb_append_l. destruct y; reflexivity.
Qed.

Lemma symbol_map_get_Some (x : string) (y : Symbol) :
  JsonDiffer.symbol_map_get options x = Some y -> x = (e ++ label y)%string.
Proof.
  unfold JsonDiffer.symbol_map_get. rewrite _symbol_map_eq.
  destruct (find _ _) as [[k z]|] eqn:F; [|discriminate].
  simpl. intros [= ->]. apply find_some in F as [Hin Heq].
  apply String.eqb_eq in Heq. simpl in Heq. subst x.
  apply in_map_iff in Hin as [z [[= <- <-] _]]. reflexivity.
Qed.
End symbol_map.

Lemma fold_dict_set_fresh (f g : value -> value) (items : dict) :
  forall acc : dict,
    forallb hashable (map f (dict_keys items)) = true ->
    NoDup (dict_keys acc ++ map f (dict_keys items)) ->
    fold_left (fun acc kv => dict_set (f (fst kv)) (g (snd kv)) acc) items acc
    = acc ++ map (fun kv => (f (fst kv), g (snd kv))) items.
Proof.
  induction items as [|[k v] items IH]; simpl; intros acc Hh Hnd.
  - now rewrite app_nil_r.
  - apply andb_true_iff in Hh as [Hk Hh].
    assert (Hfresh : dict_get (f k) acc = None).
    { apply dict_get_None; auto. apply NoDup_remove_2 in Hnd.
      intros Hin. apply Hnd. apply in_or_app. now left. }
    rewrite (dict_set_absent _ _ _ Hfresh), IH; auto.
    + now rewrite <- app_assoc.
    + unfold dict_keys in *. rewrite map_app, <- app_assoc. exact Hnd.
Qed.

Section escape_token.
Variable c : ascii.
Variable m : bool.
Let e : string := String c EmptyString.
Let o : Options := {| syntax := compact; marshal_opt := m; escape_str := e |}.

(** The token does not begin the name of a marker. *)
Hypothesis token_free : forall y, String.prefix e (label y) = false.

Lemma unescape_escape (k : value) :
  JsonDiffer._unescape o (JsonDiffer._escape o k) = k.
Proof.
  destruct k as [| z | t | y | l | l | l | l]; simpl; try reflexivity.
  - destruct (String.prefix e t) eqn:P; simpl.
    + destruct (JsonDiffer.symbol_map_get o (String c t)) as [y|] eqn:G.
      * apply symbol_map_get_Some in G. simpl in G. injection G as G.
        subst t. now rewrite token_free in P.
      * destruct (ascii_dec c c); [|congruence]. now destruct t.
    + destruct (JsonDiffer.symbol_map_get o t) as [y|] eqn:G.
      * apply symbol_map_get_Some in G. subst t.
        change (escape_str o) with e in P. now rewrite prefix_append in P.
      * now rewrite P.
  - pose proof (symbol_map_get_label o y) as G. simpl in G. now rewrite G.
Qed.

Lemma escape_hashable (k : value) :
  hashable k = true -> hashable (JsonDiffer._escape o k) = true.
Proof.
  destruct k; simpl; auto. now destruct (String.prefix e s).
Qed.

Lemma escape_keys_NoDup (ks : list value) :
  NoDup ks -> NoDup (map (JsonDiffer._escape o) ks).
Proof.
  intros H. apply Injective_map_NoDup_in; [|assumption].
  intros x y _ _ E. rewrite <- (unescape_escape x), <- (unescape_escape y).
  now rewrite E.
Qed.

Lemma unmarshal_marshal (d : value) :
  wf d = true -> JsonDiffer.unmarshal o (JsonDiffer.marshal o d) = d.
Proof.
  assert (Hseq : forall l,
             Forall (fun d => wf d = true ->
                     JsonDiffer.unmarshal o (JsonDiffer.marshal o d) = d) l ->
             forallb wf l = true ->
             map (JsonDiffer.unmarshal o) (map (JsonDiffer.marshal o) l) = l).
  { intros l IH Hwf. rewrite map_map.
    rewrite forallb_forall in Hwf. rewrite Forall_forall in IH.
    rewrite <- (map_id l) at 2. apply map_ext_in. intros x Hx. auto. }
  induction d as [| z | t | y | l IH | l IH | l IH | l IH] using value_rect';
    intros Hwf.
  - reflexivity.
  - reflexivity.
  - pose proof (unescape_escape (VStr t)) as E. simpl in E |- *.
    destruct (String.prefix e t); exact E.
  - exact (unescape_escape (VSym y)).
  - change (VList (map (JsonDiffer.unmarshal o) (map (JsonDiffer.marshal o) l))
            = VList l).
    f_equal. now apply Hseq.
  - change (VTuple (map (JsonDiffer.unmarshal o)
                        (map (JsonDiffer.marshal o) l)) = VTuple l).
    f_equal. now apply Hseq.
  - reflexivity.
  - simpl in Hwf. apply andb_true_iff in Hwf as [Hwf Hd].
    apply andb_true_iff in Hwf as [Hv Hh].
    apply distinct_NoDup in Hd; auto.
    cbn [JsonDiffer.marshal].
    rewrite (fold_dict_set_fresh (JsonDiffer._escape o) (JsonDiffer.marshal o)).
    + cbn [JsonDiffer.unmarshal app].
      rewrite (fold_dict_set_fresh (JsonDiffer._unescape o)
                                   (JsonDiffer.unmarshal o)).
      * cbn [app]. f_equal. rewrite map_map. cbn [fst snd].
        rewrite <- (map_id l) at 2. apply map_ext_in. intros [k v] Hin.
        cbn [fst snd]. rewrite unescape_escape. f_equal.
        rewrite Forall_forall in IH. apply (IH _ Hin).
        rewrite forallb_forall in Hv. apply Hv in Hin.
        now apply andb_true_iff in Hin.
      * unfold dict_keys. rewrite !map_map. cbn [fst snd].
        rewrite forallb_forall in *. intros x Hx.
        apply in_map_iff in Hx as [[k v] [<- Hin]]. cbn [fst snd].
        rewrite unescape_escape. apply Hh. now apply (in_map fst) in Hin.
      * unfold dict_keys. rewrite !map_map. cbn [fst snd app map].
        erewrite map_ext; [exact Hd|]. intros [k v]. cbn [fst snd].
        now rewrite unescape_escape.
    + unfold dict_keys. rewrite forallb_forall in *. intros x Hx.
      apply in_map_iff in Hx as [k [<- Hin]]. apply escape_hashable. auto.
    + cbn [dict_keys app map]. now apply escape_keys_NoDup.
Qed.
End escape_token.

(** C4 (as amended).  For an escape token of one character that begins no
    marker name, the default ["$"] among them, [unmarshal] undoes [marshal]
    on every well-formed value: [marshal] puts the token before the name of a
    marker and before a string that starts with the token, and [unmarshal]
    maps an escaped marker name back to the marker and removes the first
    character of any other string that starts with the token. *)
Theorem marshal_roundtrip (c : ascii) (m : bool) (d : value) :
  (forall y, String.prefix (String c EmptyString) (label y) = false) ->
  wf d = true ->
  let o := {| syntax := compact; marshal_opt := m;
              escape_str := String c EmptyString |} in
  JsonDiffer.unmarshal o (JsonDiffer.marshal o d) = d
  /\ (forall y, JsonDiffer.marshal o (VSym y) = VStr (String c (label y))
                /\ JsonDiffer.unmarshal o (VStr (String c (label y))) = VSym y)
  /\ (forall t, JsonDiffer.marshal o (VStr (String c t))
                = VStr (String c (String c t)))
  /\ (forall t, (forall y, t <> label y) ->
                JsonDiffer.unmarshal o (VStr (String c t)) = VStr t).
Proof.
  intros Hc Hwf o. split; [now apply unmarshal_marshal|].
  split; [|split].
  - intros y. split; [reflexivity|].
    pose proof (symbol_map_get_label o y) as G. simpl in G |- *.
    now rewrite G.
  - intros t. simpl. destruct (ascii_dec c c); [|congruence]. now destruct t.
  - intros t Ht. simpl.
    destruct (JsonDiffer.symbol_map_get o (String c t)) as [y|] eqn:G.
    + apply symbol_map_get_Some in G. simpl in G. injection G as G.
      now apply Ht in G.
    + destruct (ascii_dec c c); [|congruence]. now destruct t.
Qed.

Lemma marshal_roundtrip_witness :
  let d := VDict [(VSym delete, VList [VStr "$delete"; VStr "$"; VStr "x"]);
                  (VStr "$k", VTuple [VSym replace; VInt 3])] in
  JsonDiffer.unmarshal default_options (JsonDiffer.marshal default_options d)
  = d.
Proof.
  intros d.
  apply (marshal_roundtrip "$"%char false d).
  - intros y. destruct y; reflexivity.
  - reflexivity.
Defined.

(** C4 as stated fails for a token that begins a marker name: with the token
    ["d"] the string ["delete"] and the marker [delete] are both written
    ["ddelete"], and reading it back gives the marker. *)
Lemma marshal_roundtrip_token_d :
  let o := {| syntax := compact; marshal_opt := true; escape_str := "d" |} in
  JsonDiffer.unmarshal o (JsonDiffer.marshal o (VStr "delete"))
  <> VStr "delete".
Proof. vm_compute. discriminate. Qed.

(** With a token of two characters [unmarshal] still removes one character. *)
Example marshal_two_character_token :
  let o := {| syntax := compact; marshal_opt := true; escape_str := "ab" |} in
  JsonDiffer.marshal o (VStr "abc") = VStr "ababc"
  /\ JsonDiffer.unmarshal o (VStr "ababc") = VStr "babc".
Proof. split; reflexivity. Qed.

(** ** The edit script of the sequence differ *)

Lemma nth_map_lt {A B : Type} (f : A -> B) (l : list A) (d : A) (d' : B)
      (i : nat) :
  (i < length l)%nat -> nth i (map f l) d' = f (nth i l d).
Proof.
  revert i; induction l as [|x l IH]; intros [|i] H; simpl in *; try lia; auto.
  apply IH. lia.
Qed.

Section backtracking.
Variable sim : value -> value -> value * Q.
Variables X Y : list value.
Variable C : table.
Let D := map (fun x => map (fun y => sim x y) Y) X.

Lemma dget_tab (i j : nat) :
  (i < length X)%nat -> (j < length Y)%nat ->
  dget D i j = sim (nth i X VNone) (nth j Y VNone).
Proof.
  intros Hi Hj. unfold dget, D.
  rewrite (nth_map_lt (fun x => map (fun y => sim x y) Y) X VNone) by assumption.
  now rewrite (nth_map_lt (fun y => sim (nth i X VNone) y) Y VNone).
Qed.

Lemma skipn_nth (l : list value) (i : nat) :
  (i < length l)%nat -> skipn i l = nth i l VNone :: skipn (S i) l.
Proof.
  revert i; induction l as [|x l IH]; intros [|i] H; simpl in *; try lia; auto.
  apply IH. lia.
Qed.

Lemma backtrack_alignment (i : nat) :
  forall (j : nat) (r : list edit),
    (i <= length X)%nat -> (j <= length Y)%nat ->
    alignment sim i j (skipn i X) (skipn j Y) (rev r) ->
    alignment sim 0 0 X Y (JsonDiffer._list_diff_0_from D C X Y i j r).
Proof.
  induction i as [|i IHi]; induction j as [|j IHj]; intros r Hi Hj Hal.
  - exact Hal.
  - simpl. apply IHj; auto; try lia.
    rewrite rev_unit, (skipn_nth Y j) by lia. now constructor.
  - simpl. apply IHi; auto; try lia.
    rewrite rev_unit, (skipn_nth X i) by lia. now constructor.
  - cbn [JsonDiffer._list_diff_0_from].
    destruct (Qlt_bool 0 (snd (dget D i j))
              && Qeq_bool (tget C (S i) (S j))
                          (tget C i j + snd (dget D i j))) eqn:Ed.
    + apply IHi; try lia.
      rewrite rev_unit, (skipn_nth X i), (skipn_nth Y j) by lia.
      apply andb_true_iff in Ed as [Ed _].
      rewrite dget_tab in * by lia.
      constructor; auto.
      unfold Qlt_bool in Ed. apply negb_true_iff in Ed.
      destruct (Qlt_le_dec 0 (snd (sim (nth i X VNone) (nth j Y VNone))))
        as [H|H]; auto.
      apply Qle_bool_iff in H. congruence.
    + destruct (Qle_bool (tget C i (S j)) (tget C (S i) j)) eqn:El.
      * apply IHj; auto; try lia.
        rewrite rev_unit, (skipn_nth Y j) by lia. now constructor.
      * unfold Qlt_bool. rewrite El. cbn [negb].
        apply IHi; auto; try lia.
        rewrite rev_unit, (skipn_nth X i) by lia. now constructor.
Qed.

Lemma _list_diff_0_alignment :
  alignment sim 0 0 X Y (JsonDiffer._list_diff_0 D C X Y).
Proof.
  unfold JsonDiffer._list_diff_0. apply backtrack_alignment; auto.
  rewrite !skipn_all. constructor.
Qed.
End backtracking.

Lemma VPos_inj (p q : nat) : VPos p = VPos q -> p = q.
Proof. unfold VPos. intros [= H]. lia. Qed.

Lemma collect_alignment sim i j xs ys es :
  alignment sim i j xs ys es ->
  forall ins del (ch : dict) t,
    (forall k, In k (dict_keys ch) -> exists p, k = VPos p /\ (p < j)%nat) ->
    fold_left JsonDiffer.collect_step es (ins, del, ch, t)
    = (ins ++ inserted_of es, rev (deleted_of es) ++ del, ch ++ changed_of es,
       total_of t es).
Proof.
  induction 1 as [i j | i j x xs y ys es Hs Hal IH | i j xs y ys es Hal IH
                  | i j x xs ys es Hal IH]; intros ins del ch t Hch.
  - simpl. now rewrite !app_nil_r.
  - cbn [fold_left JsonDiffer.collect_step].
    change (0 =? 1) with false. change (0 =? -1) with false.
    change (0 =? 0) with true. cbn [andb].
    unfold changed_of, inserted_of, deleted_of, total_of.
    cbn [flat_map fold_left snd]. change (0 =? 1) with false.
    change (0 =? -1) with false. change (0 =? 0) with true. cbn [andb app].
    fold (changed_of es) (inserted_of es) (deleted_of es).
    destruct (Qlt_bool (snd (sim x y)) 1).
    + rewrite dict_set_absent.
      * rewrite IH; [now rewrite <- app_assoc|].
        intros k Hk. unfold dict_keys in Hk. rewrite map_app in Hk.
        apply in_app_or in Hk as [Hk|[<-|[]]].
        -- destruct (Hch k Hk) as [p [-> Hp]]. exists p. split; auto.
        -- exists j. split; auto.
      * apply dict_get_None; [reflexivity|]. intros Hin.
        destruct (Hch _ Hin) as [p [E Hp]]. apply VPos_inj in E. lia.
    + rewrite IH; [reflexivity|].
      intros k Hk. destruct (Hch k Hk) as [p [-> Hp]]. exists p. split; auto.
  - cbn [fold_left JsonDiffer.collect_step].
    change (1 =? 1) with true. cbn iota.
    unfold changed_of, inserted_of, deleted_of, total_of.
    cbn [flat_map fold_left snd]. change (1 =? 1) with true.
    change (1 =? -1) with false. change (1 =? 0) with false. cbn [andb app].
    fold (changed_of es) (inserted_of es) (deleted_of es).
    rewrite IH; [now rewrite <- app_assoc|].
    intros k Hk. destruct (Hch k Hk) as [p [-> Hp]]. exists p. split; auto.
  - cbn [fold_left JsonDiffer.collect_step].
    change (-1 =? 1) with false. change (-1 =? -1) with true. cbn iota.
    unfold changed_of, inserted_of, deleted_of, total_of.
    cbn [flat_map fold_left snd]. change (-1 =? 1) with false.
    change (-1 =? -1) with true. change (-1 =? 0) with false. cbn [andb app].
    fold (changed_of es) (inserted_of es) (deleted_of es).
    rewrite IH; [|exact Hch].
    cbn [rev]. now rewrite <- app_assoc.
Qed.

Lemma edit_script_alignment sim X Y :
  alignment sim 0 0 X Y (edit_script sim X Y).
Proof. apply _list_diff_0_alignment. Qed.

Lemma list_diff_parts_eq sim X Y :
  JsonDiffer.list_diff_parts sim X Y
  = (inserted_of (edit_script sim X Y), changed_of (edit_script sim X Y),
     rev (deleted_of (edit_script sim X Y)),
     script_score (length X) (edit_script sim X Y)).
Proof.
  unfold JsonDiffer.list_diff_parts. fold (edit_script sim X Y).
  rewrite (collect_alignment sim 0 0 X Y _ (edit_script_alignment sim X Y));
    [|intros k []].
  cbn [app]. now rewrite app_nil_r.
Qed.

(** Where the entries of a script point. *)
Lemma alignment_deleted sim i j xs ys es :
  alignment sim i j xs ys es ->
  StronglySorted lt (map fst (deleted_of es))
  /\ Forall (fun pv => (i <= fst pv < i + length xs)%nat
                       /\ snd pv = nth (fst pv - i) xs VNone) (deleted_of es).
Proof.
  induction 1 as [i j | i j x xs y ys es Hs Hal [IH1 IH2]
                  | i j xs y ys es Hal [IH1 IH2]
                  | i j x xs ys es Hal [IH1 IH2]];
    unfold deleted_of; cbn [flat_map]; try fold (deleted_of es).
  - split; constructor.
  - change (0 =? -1) with false. cbn [app]. split; auto.
    eapply Forall_impl; [|exact IH2]. intros [p v] [Hp Hv]. simpl in *.
    split; [lia|]. rewrite Hv. replace (p - i)%nat with (S (p - S i)) by lia.
    reflexivity.
  - change (1 =? -1) with false. cbn [app]. auto.
  - change (-1 =? -1) with true. cbn [app map fst]. split.
    + constructor; auto. rewrite Forall_map.
      eapply Forall_impl; [|exact IH2]. intros [p v] [Hp _]. simpl in *. lia.
    + constructor.
      * simpl. split; [lia|]. now rewrite Nat.sub_diag.
      * eapply Forall_impl; [|exact IH2]. intros [p v] [Hp Hv]. simpl in *.
        split; [lia|]. rewrite Hv.
        replace (p - i)%nat with (S (p - S i)) by lia. reflexivity.
Qed.

Lemma StronglySorted_snoc {A : Type} (R : A -> A -> Prop) (l : list A) (x : A) :
  StronglySorted R l -> Forall (fun y => R y x) l ->
  StronglySorted R (l ++ [x]).
Proof.
  induction 1 as [|y l Hl IH Hy]; intros Hx; simpl.
  - repeat constructor.
  - inversion Hx; subst. constructor; auto.
    apply Forall_app. split; auto.
Qed.

Lemma StronglySorted_rev_lt (l : list nat) :
  StronglySorted lt l -> StronglySorted gt (rev l).
Proof.
  induction 1 as [|x l Hl IH Hx]; simpl; [constructor|].
  apply StronglySorted_snoc; auto.
  apply Forall_rev. eapply Forall_impl; [|exact Hx]. intros; lia.
Qed.

Lemma dict_get_set_same (k v : value) (d : dict) :
  hashable k = true -> dict_get k (dict_set k v d) = Some v.
Proof.
  intros Hk. unfold dict_get.
  induction d as [|[k' v'] d IH]; simpl.
  - now rewrite py_eq_refl_hashable.
  - destruct (py_eq k k') eqn:E; simpl; rewrite E; auto.
Qed.

Lemma dict_get_set_other (k k' v : value) (d : dict) :
  hashable k = true -> hashable k' = true -> k <> k' ->
  dict_get k (dict_set k' v d) = dict_get k d.
Proof.
  intros Hk Hk' Hne. unfold dict_get.
  assert (E : py_eq k k' = false) by now apply py_eq_hashable_neq.
  induction d as [|[k0 v0] d IH]; simpl.
  - now rewrite E.
  - destruct (py_eq k' k0) eqn:E0; simpl.
    + apply py_eq_hashable in E0; auto. subst k0. now rewrite E.
    + destruct (py_eq k k0); auto.
Qed.

Lemma changed_of_keys (es : list edit) (k : value) :
  In k (dict_keys (changed_of es)) ->
  exists d p s, k = VPos p /\ In (0, d, p, s) es /\ Qlt_bool s 1 = true.
Proof.
  unfold changed_of, dict_keys. rewrite in_map_iff.
  intros [[k' v] [<- Hin]]. apply in_flat_map in Hin as [[[[sg d] p] s] [He Hin]].
  destruct (sg =? 0) eqn:Es; [|destruct Hin].
  destruct (Qlt_bool s 1) eqn:El; [|destruct Hin].
  destruct Hin as [[= <- <-]|[]]. apply Z.eqb_eq in Es. subst.
  exists d, p, s. auto.
Qed.

Lemma changed_of_no_marker (es : list edit) (y : Symbol) :
  dict_get (VSym y) (changed_of es) = None.
Proof.
  apply dict_get_None; [reflexivity|]. intros H.
  apply changed_of_keys in H as (d & p & s & E & _). discriminate.
Qed.

Lemma emit_list_diff_partial (a b : value) (s : Q) ins (ch : dict) del items :
  CompactJsonDiffSyntax.emit_list_diff a b s ins ch del = VDict items ->
  items <> [] -> isinstance_dict b = false ->
  items = match del with
          | [] => fun d => d
          | _ => dict_set (VSym delete) (VList (map (fun pv => VPos (fst pv)) del))
          end
            (match ins with
             | [] => ch
             | _ => dict_set (VSym insert)
                      (VList (map (fun pv => VTuple [VPos (fst pv); snd pv]) ins))
                      ch
             end).
Proof.
  unfold CompactJsonDiffSyntax.emit_list_diff,
    CompactJsonDiffSyntax.replacement.
  intros H Hne Hb. rewrite Hb in H.
  destruct (Qeq_bool s 0); [subst b; discriminate|].
  destruct (Qeq_bool s 1); [injection H as <-; congruence|].
  injection H as <-. now destruct del.
Qed.

(** C6 (as amended).  The [deleted] component of the sequence differ lists
    (position, value) pairs of the first sequence in strictly descending
    order of position, and the [delete] entry of a partial sequence delta
    lists these positions in that order. *)
Theorem list_diff_deleted_descending
        (same : value -> value -> bool) (X Y : list value) :
  let sim := JsonDiffer._obj_diff default_options same in
  let deleted := list_diff_deleted sim X Y in
  StronglySorted gt (map fst deleted)
  /\ Forall (fun pv => (fst pv < length X)%nat /\ snd pv = nth (fst pv) X VNone)
            deleted
  /\ forall a b items ps,
      fst (JsonDiffer._list_diff default_options sim a b X Y) = VDict items ->
      isinstance_dict b = false ->
      dict_get (VSym delete) items = Some ps ->
      ps = VList (map (fun pv => VPos (fst pv)) deleted) /\ deleted <> [].
Proof.
  intros sim deleted.
  pose proof (alignment_deleted _ _ _ _ _ _ (edit_script_alignment sim X Y))
    as [Hs Hf].
  assert (Ed : deleted = rev (deleted_of (edit_script sim X Y))).
  { unfold deleted, list_diff_deleted. now rewrite list_diff_parts_eq. }
  split; [|split].
  - rewrite Ed, map_rev. now apply StronglySorted_rev_lt.
  - rewrite Ed. apply Forall_rev. eapply Forall_impl; [|exact Hf].
    intros [p v] [Hp Hv]. simpl in *. rewrite Nat.sub_0_r in Hv. split; [lia|auto].
  - intros a b items ps Hd Hb Hg.
    unfold JsonDiffer._list_diff in Hd. rewrite list_diff_parts_eq in Hd.
    cbn [fst syntax default_options syn_emit_list_diff compact] in Hd.
    apply emit_list_diff_partial in Hd; auto.
    + rewrite <- Ed in Hd. subst items.
      destruct deleted as [|pv deleted'] eqn:E.
      * exfalso.
        destruct (inserted_of (edit_script sim X Y)).
        -- now rewrite changed_of_no_marker in Hg.
        -- rewrite dict_get_set_other, changed_of_no_marker in Hg;
             try reflexivity; discriminate.
      * rewrite dict_get_set_same in Hg by reflexivity.
        injection Hg as <-. split; [reflexivity|discriminate].
    + intros ->. discriminate.
Qed.

(** C6 as stated fails: from [[1, 2, 3]] to [[1]] the positions are listed
    as [[2, 1]]. *)
Lemma list_diff_deleted_not_ascending :
  let X := [VInt 1; VInt 2; VInt 3] in
  let Y := [VInt 1] in
  let sim := JsonDiffer._obj_diff default_options never_same in
  map fst (list_diff_deleted sim X Y) = [2; 1]%nat
  /\ ~ Sorted lt (map fst (list_diff_deleted sim X Y))
  /\ diff default_options never_same (VList X) (VList Y)
     = VDict [(VSym delete, VList [VInt 2; VInt 1])].
Proof.
  assert (E : map fst (list_diff_deleted
                         (JsonDiffer._obj_diff default_options never_same)
                         [VInt 1; VInt 2; VInt 3] [VInt 1]) = [2; 1]%nat)
    by (vm_compute; reflexivity).
  cbv zeta. rewrite E. split; [reflexivity|split].
  - intros H. inversion H as [|? ? _ Hd]; subst.
    inversion Hd as [|? ? Hlt]; subst. lia.
  - vm_compute. reflexivity.
Qed.

Lemma list_diff_deleted_descending_witness :
  let X := [VInt 1; VInt 2; VInt 3] in
  let Y := [VInt 1] in
  let sim := JsonDiffer._obj_diff default_options never_same in
  VList [VInt 2; VInt 1]
  = VList (map (fun pv => VPos (fst pv)) (list_diff_deleted sim X Y))
  /\ list_diff_deleted sim X Y <> [].
Proof.
  intros X Y sim.
  apply (proj2 (proj2 (list_diff_deleted_descending never_same X Y))
               (VList X) (VList Y)
               [(VSym delete, VList [VInt 2; VInt 1])]
               (VList [VInt 2; VInt 1]));
    vm_compute; reflexivity.
Defined.

Lemma alignment_matches sim i j xs ys es :
  alignment sim i j xs ys es ->
  forall d pos s,
    In (0, d, pos, s) es ->
    (j <= pos < j + length ys)%nat
    /\ (exists p, (i <= p < i + length xs)%nat
                  /\ sim (nth (p - i) xs VNone) (nth (pos - j) ys VNone)
                     = (d, s))
    /\ (Qlt_bool s 1 = true -> dict_get (VPos pos) (changed_of es) = Some d).
Proof.
  induction 1 as [i j | i j x xs y ys es Hs Hal IH | i j xs y ys es Hal IH
                  | i j x xs ys es Hal IH]; intros d pos s Hin.
  - destruct Hin.
  - destruct Hin as [[= <- <- <-]|Hin].
    + split; [simpl; lia|split].
      * exists i. split; [simpl; lia|]. rewrite !Nat.sub_diag. simpl.
        now destruct (sim x y).
      * intros Hlt. unfold changed_of. cbn [flat_map].
        change (0 =? 0) with true. cbn [andb]. rewrite Hlt.
        unfold dict_get. simpl. now rewrite Z.eqb_refl.
    + destruct (IH _ _ _ Hin) as (Hp & (p & Hpi & Hsim) & Hg).
      split; [simpl; lia|split].
      * exists p. split; [simpl; lia|].
        replace (p - i)%nat with (S (p - S i)) by lia.
        replace (pos - j)%nat with (S (pos - S j)) by lia. exact Hsim.
      * intros Hlt. unfold changed_of. cbn [flat_map].
        fold (changed_of es). change (0 =? 0) with true. cbn [andb].
        destruct (Qlt_bool (snd (sim x y)) 1); cbn [app]; auto.
        unfold dict_get. cbn [assoc_by]. unfold VPos at 1 2. cbn [py_eq].
        destruct (Z.eqb_spec (Z.of_nat pos) (Z.of_nat j)); [lia|].
        now apply Hg.
  - destruct Hin as [[=]|Hin].
    destruct (IH _ _ _ Hin) as (Hp & (p & Hpi & Hsim) & Hg).
    split; [simpl; lia|split].
    + exists p. split; [lia|].
      replace (pos - j)%nat with (S (pos - S j)) by lia. exact Hsim.
    + intros Hlt. unfold changed_of. cbn [flat_map]. now apply Hg.
  - destruct Hin as [[=]|Hin].
    destruct (IH _ _ _ Hin) as (Hp & (p & Hpi & Hsim) & Hg).
    split; [lia|split].
    + exists p. split; [simpl; lia|].
      replace (p - i)%nat with (S (p - S i)) by lia. exact Hsim.
    + intros Hlt. unfold changed_of. cbn [flat_map]. now apply Hg.
Qed.

(** C5 (as amended).  In the edit script of the sequence differ a matched
    pair [X[i-1]], [Y[j-1]] with nested similarity below 1 is recorded in
    [changed] under [j-1], its position in the second sequence [Y]; and when
    the delta emitted for the two sequences is a partial one, a dict that is
    not empty, that position is the key of the nested delta in it. *)
Theorem list_diff_changed_key
        (same : value -> value -> bool) (X Y : list value) :
  let sim := JsonDiffer._obj_diff default_options same in
  forall d pos s,
    In (0, d, pos, s) (edit_script sim X Y) -> Qlt_bool s 1 = true ->
    (pos < length Y)%nat
    /\ (exists i, (i < length X)%nat
                  /\ sim (nth i X VNone) (nth pos Y VNone) = (d, s))
    /\ dict_get (VPos pos) (list_diff_changed sim X Y) = Some d
    /\ forall a b items,
        fst (JsonDiffer._list_diff default_options sim a b X Y) = VDict items ->
        items <> [] -> isinstance_dict b = false ->
        dict_get (VPos pos) items = Some d.
Proof.
  intros sim d pos s Hin Hlt.
  destruct (alignment_matches _ _ _ _ _ _ (edit_script_alignment sim X Y)
                              _ _ _ Hin) as (Hp & (p & Hpi & Hsim) & Hg).
  specialize (Hg Hlt). rewrite Nat.sub_0_r in Hsim.
  split; [lia|split; [|split]].
  - exists p. split; [lia|]. now rewrite Nat.sub_0_r in Hsim.
  - unfold list_diff_changed. now rewrite list_diff_parts_eq.
  - intros a b items Hd Hne Hb.
    unfold JsonDiffer._list_diff in Hd. rewrite list_diff_parts_eq in Hd.
    cbn [fst syntax default_options syn_emit_list_diff compact] in Hd.
    apply emit_list_diff_partial in Hd; auto. subst items.
    destruct (rev (deleted_of (edit_script sim X Y)));
      destruct (inserted_of (edit_script sim X Y));
      rewrite ?dict_get_set_other by (reflexivity || discriminate); exact Hg.
Qed.

Lemma list_diff_changed_key_witness :
  let X := [VList [VInt 1; VInt 2]] in
  let Y := [VInt 0; VList [VInt 1; VInt 3]] in
  let sim := JsonDiffer._obj_diff default_options never_same in
  let d := fst (sim (VList [VInt 1; VInt 2]) (VList [VInt 1; VInt 3])) in
  dict_get (VPos 1) (list_diff_changed sim X Y) = Some d
  /\ exists items,
       diff default_options never_same (VList X) (VList Y) = VDict items
       /\ items <> []
       /\ dict_get (VPos 1) items = Some d.
Proof.
  intros X Y sim d.
  assert (Hin : In (0, d, 1%nat, 1 # 3) (edit_script sim X Y))
    by (vm_compute; right; now left).
  destruct (list_diff_changed_key never_same X Y d 1%nat (1 # 3) Hin eq_refl)
    as (_ & _ & Hc & He).
  split; [exact Hc|].
  exists [(VInt 1, d); (VSym insert, VList [VTuple [VInt 0; VInt 0]])].
  split; [vm_compute; reflexivity|split; [discriminate|]].
  apply (He (VList X) (VList Y)); [vm_compute; reflexivity|discriminate|].
  reflexivity.
Defined.

(** C5 as stated fails: from [[[1, 2]]] to [[0, [1, 3]]] the pair [X[0]],
    [Y[1]] is matched with similarity 1/3 and its delta is recorded under 1,
    not under the source position 0. *)
Lemma list_diff_changed_not_source_position :
  let X := [VList [VInt 1; VInt 2]] in
  let Y := [VInt 0; VList [VInt 1; VInt 3]] in
  let sim := JsonDiffer._obj_diff default_options never_same in
  let r := sim (nth 0 X VNone) (nth 1 Y VNone) in
  In (0, fst r, 1%nat, snd r) (edit_script sim X Y)
  /\ (snd r < 1)%Q
  /\ dict_get (VPos 0) (list_diff_changed sim X Y) = None
  /\ dict_get (VPos 1) (list_diff_changed sim X Y) = Some (fst r)
  /\ diff default_options never_same (VList X) (VList Y)
     = VDict [(VInt 1, fst r);
              (VSym insert, VList [VTuple [VInt 0; VInt 0]])].
Proof.
  cbv zeta. repeat split; try (vm_compute; reflexivity).
  vm_compute. right. now left.
Qed.

(** ** The set differ *)

Lemma flat_map_filter {A B : Type} (p : A -> bool) (f : A -> list B)
      (l : list A) :
  flat_map (fun x => if p x then [] else f x) l
  = flat_map f (filter (fun x => negb (p x)) l).
Proof.
  induction l as [|x l IH]; simpl; [reflexivity|].
  destruct (p x); simpl; now rewrite IH.
Qed.

Lemma set_ranking_eq sim (a b added : list value) :
  JsonDiffer.set_ranking sim a b added
  = pair_ranking sim (set_difference a b) added.
Proof.
  unfold JsonDiffer.set_ranking, pair_ranking, set_difference.
  now rewrite flat_map_filter.
Qed.

Lemma greedy_matches_done ranking (r2 a2 : list value) :
  JsonDiffer.is_empty r2 || JsonDiffer.is_empty a2 = true ->
  greedy_matches ranking r2 a2 = [].
Proof. intros H. destruct ranking as [|[[s x] y] rest]; simpl; now rewrite ?H. Qed.

Lemma greedy_spec ranking :
  forall (r2 a2 : list value) (sc : Q) (nc : nat),
    ranking = [] \/ JsonDiffer.is_empty r2 || JsonDiffer.is_empty a2 = false ->
    (fst (JsonDiffer.greedy ranking r2 a2 sc nc)
     == sc + Qsum (map (fun t => fst (fst t)) (greedy_matches ranking r2 a2)))%Q
    /\ snd (JsonDiffer.greedy ranking r2 a2 sc nc)
       = (nc + length (greedy_matches ranking r2 a2))%nat.
Proof.
  induction ranking as [|[[s x] y] rest IH]; intros r2 a2 sc nc Hne.
  - simpl. split; [ring|lia].
  - destruct Hne as [Hne|Hne]; [discriminate|].
    cbn [JsonDiffer.greedy greedy_matches]. rewrite Hne.
    destruct (set_mem x r2 && set_mem y a2).
    + destruct (JsonDiffer.is_empty (set_discard x r2)
                || JsonDiffer.is_empty (set_discard y a2)) eqn:E.
      * rewrite (greedy_matches_done _ _ _ E). simpl. split; [ring|lia].
      * destruct (IH (set_discard x r2) (set_discard y a2) (sc + s)%Q (S nc))
          as [H1 H2]; [now right|].
        rewrite H1, H2. simpl. split; [ring|lia].
    + rewrite Hne. apply IH. now right.
Qed.

Lemma sorted_desc_nil {A : Type} (key : A -> Q) (l : list A) :
  l = [] -> sorted_desc key l = [].
Proof. now intros ->. Qed.

Lemma set_difference_self (a : list value) :
  forallb hashable a = true -> set_difference a a = [].
Proof.
  intros Hh. unfold set_difference.
  rewrite forallb_forall in Hh.
  assert (H : forall l, incl l a -> filter (fun x => negb (set_mem x a)) l = []).
  { induction l as [|x l IH]; simpl; intros Hi; [reflexivity|].
    assert (Hx : set_mem x a = true).
    { apply set_mem_In; [apply Hh|]; apply Hi; now left. }
    rewrite Hx. simpl. apply IH. intros y Hy. apply Hi. now right. }
  apply H, incl_refl.
Qed.

Lemma _set_diff_similarity sim (b0 : value) (a b : list value) :
  set_difference a b <> [] \/ set_difference b a <> [] ->
  (snd (JsonDiffer._set_diff default_options sim b0 a b)
   == set_similarity sim a b)%Q.
Proof.
  intros Hne. unfold JsonDiffer._set_diff, set_similarity, s_common_greedy.
  set (removed := set_difference a b) in *.
  set (added := set_difference b a) in *.
  assert (E : JsonDiffer.is_empty removed && JsonDiffer.is_empty added = false).
  { destruct removed, added; simpl; auto. destruct Hne; congruence. }
  rewrite E, set_ranking_eq. fold removed.
  set (n_common := (length a - length removed)%nat).
  destruct (greedy_spec (pair_ranking sim removed added) removed added
                        (inject_Z (Z.of_nat n_common)) n_common) as [H1 _].
  { destruct removed as [|x r]; [left; reflexivity|].
    destruct added as [|y ad]; [left|right; reflexivity].
    unfold pair_ranking. apply sorted_desc_nil.
    clear. induction (x :: r) as [|z l IH]; simpl; auto. }
  destruct (JsonDiffer.greedy _ _ _ _ _) as [sc nc]. cbn [fst snd] in *.
  assert (Hn : (length a + length added =? 0)%nat = false).
  { apply Nat.eqb_neq. destruct added as [|y ad]; simpl; [|lia].
    destruct a as [|x a']; simpl; [|lia].
    destruct Hne as [H|H]; exfalso; apply H; reflexivity. }
  rewrite Hn. cbn [negb snd]. now rewrite H1.
Qed.

(** The ranking is the stable sort by descending similarity. *)
Lemma insert_desc_perm {A : Type} (key : A -> Q) (x : A) (l : list A) :
  Permutation (insert_desc key x l) (x :: l).
Proof.
  induction l as [|y l IH]; cbn [insert_desc]; [reflexivity|].
  destruct (Qlt_bool (key x) (key y)); [|reflexivity].
  rewrite IH. apply perm_swap.
Qed.

Lemma sorted_desc_perm {A : Type} (key : A -> Q) (l : list A) :
  Permutation (sorted_desc key l) l.
Proof.
  unfold sorted_desc. induction l as [|x l IH]; cbn [fold_right];
    [reflexivity|].
  rewrite insert_desc_perm. now constructor.
Qed.

Lemma insert_desc_sorted {A : Type} (key : A -> Q) (x : A) (l : list A) :
  StronglySorted (fun t u => (key u <= key t)%Q) l ->
  StronglySorted (fun t u => (key u <= key t)%Q) (insert_desc key x l).
Proof.
  induction 1 as [|y l Hl IH Hy]; cbn [insert_desc].
  - repeat constructor.
  - unfold Qlt_bool. destruct (Qle_bool (key y) (key x)) eqn:E; cbn [negb].
    + apply Qle_bool_iff in E. constructor; [now constructor|].
      constructor; [exact E|].
      eapply Forall_impl; [|exact Hy]. intros z Hz. cbv beta in *.
      now apply (Qle_trans _ (key y)).
    + assert (Hxy : (key x <= key y)%Q).
      { destruct (Qlt_le_dec (key x) (key y)) as [H|H]; [now apply Qlt_le_weak|].
        apply Qle_bool_iff in H. congruence. }
      constructor; [exact IH|].
      rewrite Forall_forall. intros z Hz.
      apply (Permutation_in _ (insert_desc_perm key x l)) in Hz.
      destruct Hz as [<-|Hz]; [exact Hxy|].
      rewrite Forall_forall in Hy. now apply Hy.
Qed.

Lemma sorted_desc_sorted {A : Type} (key : A -> Q) (l : list A) :
  StronglySorted (fun t u => (key u <= key t)%Q) (sorted_desc key l).
Proof.
  unfold sorted_desc. induction l as [|x l IH]; cbn [fold_right];
    [constructor|].
  now apply insert_desc_sorted.
Qed.

Lemma insert_desc_stable {A : Type} (key : A -> Q) (s : Q) (x : A)
      (l : list A) :
  filter (fun t => Qeq_bool (key t) s) (insert_desc key x l)
  = filter (fun t => Qeq_bool (key t) s) (x :: l).
Proof.
  induction l as [|y l IH]; cbn [insert_desc]; [reflexivity|].
  destruct (Qlt_bool (key x) (key y)) eqn:E; [|reflexivity].
  cbn [filter] in IH |- *. rewrite IH.
  destruct (Qeq_bool (key x) s) eqn:Ex; [|reflexivity].
  destruct (Qeq_bool (key y) s) eqn:Ey; [|reflexivity].
  exfalso. apply Qeq_bool_eq in Ex, Ey.
  unfold Qlt_bool in E. apply negb_true_iff in E.
  assert (H : Qle_bool (key y) (key x) = true)
    by (apply Qle_bool_iff; rewrite Ex, Ey; apply Qle_refl).
  congruence.
Qed.

Lemma sorted_desc_stable {A : Type} (key : A -> Q) (s : Q) (l : list A) :
  filter (fun t => Qeq_bool (key t) s) (sorted_desc key l)
  = filter (fun t => Qeq_bool (key t) s) l.
Proof.
  unfold sorted_desc. induction l as [|x l IH]; cbn [fold_right];
    [reflexivity|].
  rewrite insert_desc_stable. cbn [filter]. now rewrite IH.
Qed.

(** A ranking that is descending and keeps the pairs of each similarity in
    the order in which they were generated is determined by the pairs: it is
    the one that the stable sort gives. *)
Lemma with_score_head (t : Q * value * value) l :
  with_score (score t) (t :: l) = t :: with_score (score t) l.
Proof.
  unfold with_score. cbn [filter].
  assert (E : Qeq_bool (score t) (score t) = true)
    by (apply Qeq_bool_iff; reflexivity).
  now rewrite E.
Qed.

Lemma with_score_In s t l :
  In t (with_score s l) -> In t l /\ (score t == s)%Q.
Proof.
  unfold with_score. intros H. apply filter_In in H as [H1 H2].
  split; [exact H1|]. now apply Qeq_bool_iff.
Qed.

Lemma descending_head t l u :
  descending (t :: l) -> In u (t :: l) -> (score u <= score t)%Q.
Proof.
  intros H [<-|Hin]; [apply Qle_refl|].
  apply StronglySorted_inv in H as [_ H].
  rewrite Forall_forall in H. now apply H.
Qed.

Lemma descending_heads x l1 y l2 :
  descending (x :: l1) -> descending (y :: l2) ->
  (forall s, with_score s (x :: l1) = with_score s (y :: l2)) ->
  (score x <= score y)%Q.
Proof.
  intros _ H2 H.
  assert (Hin : In x (with_score (score x) (y :: l2))).
  { rewrite <- H, with_score_head. now left. }
  apply with_score_In in Hin as [Hin _].
  now apply (descending_head y l2 x H2).
Qed.

Lemma stable_descending_unique l1 :
  forall l2,
    descending l1 -> descending l2 ->
    (forall s, with_score s l1 = with_score s l2) -> l1 = l2.
Proof.
  induction l1 as [|x l1 IH]; intros [|y l2] H1 H2 H.
  - reflexivity.
  - specialize (H (score y)). rewrite with_score_head in H. discriminate H.
  - specialize (H (score x)). rewrite with_score_head in H. discriminate H.
  - assert (Exy : (score x == score y)%Q).
    { apply Qle_antisym.
      - apply (descending_heads x l1 y l2 H1 H2 H).
      - apply (descending_heads y l2 x l1 H2 H1). intros s. symmetry. apply H. }
    assert (E : x = y).
    { pose proof (H (score x)) as Hx. rewrite with_score_head in Hx.
      unfold with_score in Hx. cbn [filter] in Hx.
      assert (Ey : Qeq_bool (score y) (score x) = true)
        by (apply Qeq_bool_iff; now symmetry).
      rewrite Ey in Hx. now injection Hx. }
    subst y. f_equal. apply IH.
    + now apply StronglySorted_inv in H1.
    + now apply StronglySorted_inv in H2.
    + intros s. specialize (H s). unfold with_score in *. cbn [filter] in H.
      destruct (Qeq_bool (score x) s); [now injection H|exact H].
Qed.

Lemma ranking_unique sim (removed added : list value) ranking :
  descending ranking ->
  (forall s, with_score s ranking
             = with_score s (scored_pairs sim removed added)) ->
  ranking = pair_ranking sim removed added.
Proof.
  intros Hd Hs. apply stable_descending_unique; [exact Hd| |].
  - apply (sorted_desc_sorted (fun t => fst (fst t))).
  - intros s. rewrite Hs. symmetry.
    apply (sorted_desc_stable (fun t => fst (fst t))).
Qed.

(** The set differ under an iteration order. *)
Lemma set_iter_nil (set_iter : list value -> list value) (l : list value) :
  (forall l, Permutation (set_iter l) l) -> set_iter l = [] <-> l = [].
Proof.
  intros Hp. split; intros H.
  - apply Permutation_nil. rewrite <- H. apply Hp.
  - subst l. apply Permutation_nil. symmetry. apply Hp.
Qed.

Lemma set_diff_in_order_similarity set_iter sim (b0 : value) (a b : list value) :
  (forall l, Permutation (set_iter l) l) ->
  set_difference a b <> [] \/ set_difference b a <> [] ->
  (snd (SetOrder._set_diff set_iter sim b0 a b)
   == (Q_of_nat (length a - length (set_iter (set_difference a b)))
       + Qsum (map score
                   (greedy_matches
                      (pair_ranking sim (set_iter (set_difference a b))
                                    (set_iter (set_difference b a)))
                      (set_iter (set_difference a b))
                      (set_iter (set_difference b a)))))
      / Q_of_nat (length a + length (set_iter (set_difference b a))))%Q.
Proof.
  intros Hp Hne. unfold SetOrder._set_diff.
  assert (Hne' : set_iter (set_difference a b) <> []
                 \/ set_iter (set_difference b a) <> []).
  { destruct Hne as [H|H]; [left|right]; intros E; apply H;
      now apply (set_iter_nil set_iter _ Hp). }
  set (removed := set_iter (set_difference a b)) in *.
  set (added := set_iter (set_difference b a)) in *.
  assert (E : JsonDiffer.is_empty removed && JsonDiffer.is_empty added = false).
  { destruct removed, added; simpl; auto. destruct Hne'; congruence. }
  rewrite E. fold (pair_ranking sim removed added).
  set (n_common := (length a - length removed)%nat).
  destruct (greedy_spec (pair_ranking sim removed added) removed added
                        (inject_Z (Z.of_nat n_common)) n_common) as [H1 _].
  { destruct removed as [|x r]; [left; reflexivity|].
    destruct added as [|y ad]; [left|right; reflexivity].
    unfold pair_ranking. apply sorted_desc_nil.
    clear. induction (x :: r) as [|z l IH]; simpl; auto. }
  destruct (JsonDiffer.greedy _ _ _ _ _) as [sc nc]. cbn [fst snd] in *.
  assert (Hn : (length a + length added =? 0)%nat = false).
  { apply Nat.eqb_neq. destruct added as [|y ad]; simpl; [|lia].
    destruct a as [|x a']; simpl; [|lia].
    destruct Hne as [H|H]; exfalso; [now apply H|].
    destruct Hne' as [H'|H']; [|now apply H'].
    apply H'. apply (set_iter_nil set_iter _ Hp). reflexivity. }
  rewrite Hn. cbn [negb snd]. unfold Q_of_nat, score. now rewrite H1.
Qed.

Lemma set_diff_insertion_order sim (b0 : value) (a b : list value) :
  JsonDiffer._set_diff default_options sim b0 a b
  = SetOrder._set_diff insertion_order sim b0 a b.
Proof.
  unfold JsonDiffer._set_diff, SetOrder._set_diff, insertion_order.
  rewrite set_ranking_eq. reflexivity.
Qed.

Lemma set_iter_one (set_iter : list value -> list value) (x : value) :
  (forall l, Permutation (set_iter l) l) -> set_iter [x] = [x].
Proof.
  intros Hp. apply Permutation_length_1_inv. symmetry. apply Hp.
Qed.

Lemma set_iter_two (set_iter : list value -> list value) (x y : value) :
  (forall l, Permutation (set_iter l) l) ->
  set_iter [x; y] = [x; y] \/ set_iter [x; y] = [y; x].
Proof.
  intros Hp. apply Permutation_length_2_inv. symmetry. apply Hp.
Qed.

(** C7.  For two sets [A] and [B] whose differences [removed = A - B] and
    [added = B - A] are not both empty, and whatever the order in which the
    two differences are iterated, the similarity is
    [(n_common + s_common_greedy) / (|A| + |added|)] with
    [n_common = |A| - |removed|], where [s_common_greedy] sums the
    similarities of the pairs that are matched greedily along the ranking of
    every removed element with every added one: the ranking is by descending
    similarity and keeps pairs of the same similarity in the order in which
    they were generated, and there is exactly one such ranking.  From
    [{1, 2, 3}] to [{2, 3, 4}] the delta discards 1 and adds 4 and the
    similarity is 1/2 in every iteration order; from
    [{0, 1, 2, 3, (1, 2, 3), (3, 4)}] to
    [{0, 1, 2, 3, (1, 2, 7), (1, 2, 3, 4)}] the best pair is taken first and
    the similarity is 19/32 in every iteration order. *)
Theorem set_diff_similarity
        (same : value -> value -> bool) (set_iter : list value -> list value)
        (a b : list value) :
  is_sound same -> forallb hashable a = true ->
  (forall l, Permutation (set_iter l) l) ->
  set_difference a b <> [] \/ set_difference b a <> [] ->
  let sim := JsonDiffer._obj_diff default_options same in
  let removed := set_iter (set_difference a b) in
  let added := set_iter (set_difference b a) in
  (forall ranking,
      Permutation ranking (scored_pairs sim removed added) ->
      descending ranking ->
      (forall s, with_score s ranking
                 = with_score s (scored_pairs sim removed added)) ->
      (snd (SetOrder._set_diff set_iter sim (VSet b) a b)
       == (Q_of_nat (length a - length removed)
           + Qsum (map score (greedy_matches ranking removed added)))
          / Q_of_nat (length a + length added))%Q)
  /\ (exists ranking,
         Permutation ranking (scored_pairs sim removed added)
         /\ descending ranking
         /\ forall s, with_score s ranking
                      = with_score s (scored_pairs sim removed added))
  /\ (exists order,
         (forall l, Permutation (order l) l)
         /\ similarity default_options same (VSet a) (VSet b)
            = snd (SetOrder._set_diff order sim (VSet b) a b))
  /\ (forall order,
         (forall l, Permutation (order l) l) ->
         let r := SetOrder._set_diff
                    order (JsonDiffer._obj_diff default_options never_same)
                    (VSet [VInt 2; VInt 3; VInt 4])
                    [VInt 1; VInt 2; VInt 3] [VInt 2; VInt 3; VInt 4] in
         fst r = VDict [(VSym discard, VSet [VInt 1]);
                        (VSym add, VSet [VInt 4])]
         /\ (snd r == 1 # 2)%Q)
  /\ (forall order,
         (forall l, Permutation (order l) l) ->
         let A := [VInt 0; VInt 1; VInt 2; VInt 3;
                   VTuple [VInt 1; VInt 2; VInt 3]; VTuple [VInt 3; VInt 4]] in
         let B := [VInt 0; VInt 1; VInt 2; VInt 3;
                   VTuple [VInt 1; VInt 2; VInt 7];
                   VTuple [VInt 1; VInt 2; VInt 3; VInt 4]] in
         (snd (SetOrder._set_diff
                 order (JsonDiffer._obj_diff default_options never_same)
                 (VSet B) A B) == 19 # 32)%Q)
  /\ diff default_options never_same
          (VSet [VInt 1; VInt 2; VInt 3]) (VSet [VInt 2; VInt 3; VInt 4])
     = VDict [(VSym discard, VSet [VInt 1]); (VSym add, VSet [VInt 4])]
  /\ (similarity default_options never_same
                 (VSet [VInt 1; VInt 2; VInt 3]) (VSet [VInt 2; VInt 3; VInt 4])
      == 1 # 2)%Q.
Proof.
  intros Hs Hh Hp Hne sim removed added.
  split; [|split; [|split; [|split; [|split; [|split]]]]];
    try reflexivity.
  - intros ranking _ Hd Hst.
    rewrite (ranking_unique sim removed added ranking Hd Hst).
    apply (set_diff_in_order_similarity set_iter sim (VSet b) a b Hp Hne).
  - exists (pair_ranking sim removed added). split; [|split].
    + apply sorted_desc_perm.
    + apply (sorted_desc_sorted (fun t => fst (fst t))).
    + intros s. apply (sorted_desc_stable (fun t => fst (fst t))).
  - exists insertion_order. split; [intros l; apply Permutation_refl|].
    unfold similarity, JsonDiffer.similarity. cbn [JsonDiffer._obj_diff].
    destruct (same (VSet a) (VSet b)) eqn:E.
    + apply Hs in E. injection E as <-.
      rewrite (set_difference_self a Hh) in Hne. destruct Hne; congruence.
    + fold sim. now rewrite set_diff_insertion_order.
  - intros order Ho. unfold SetOrder._set_diff.
    change (set_difference [VInt 1; VInt 2; VInt 3] [VInt 2; VInt 3; VInt 4])
      with [VInt 1].
    change (set_difference [VInt 2; VInt 3; VInt 4] [VInt 1; VInt 2; VInt 3])
      with [VInt 4].
    rewrite !(set_iter_one order _ Ho). split; vm_compute; reflexivity.
  - intros order Ho A B. unfold SetOrder._set_diff.
    change (set_difference A B)
      with [VTuple [VInt 1; VInt 2; VInt 3]; VTuple [VInt 3; VInt 4]].
    change (set_difference B A)
      with [VTuple [VInt 1; VInt 2; VInt 7];
            VTuple [VInt 1; VInt 2; VInt 3; VInt 4]].
    destruct (set_iter_two order (VTuple [VInt 1; VInt 2; VInt 3])
                           (VTuple [VInt 3; VInt 4]) Ho) as [-> | ->];
      destruct (set_iter_two order (VTuple [VInt 1; VInt 2; VInt 7])
                             (VTuple [VInt 1; VInt 2; VInt 3; VInt 4]) Ho)
        as [-> | ->];
      vm_compute; reflexivity.
Qed.

Lemma set_diff_similarity_witness :
  let a := [VInt 0; VTuple [VInt 1; VInt 2; VInt 3]; VTuple [VInt 3; VInt 4]] in
  let b := [VInt 0; VTuple [VInt 1; VInt 2; VInt 7];
            VTuple [VInt 1; VInt 2; VInt 3; VInt 4]] in
  let sim := JsonDiffer._obj_diff default_options never_same in
  let removed := rev (set_difference a b) in
  let added := rev (set_difference b a) in
  exists ranking,
    Permutation ranking (scored_pairs sim removed added)
    /\ descending ranking
    /\ (snd (SetOrder._set_diff (@rev value) sim (VSet b) a b)
        == (Q_of_nat (length a - length removed)
            + Qsum (map score (greedy_matches ranking removed added)))
           / Q_of_nat (length a + length added))%Q.
Proof.
  intros a b sim removed added.
  assert (Hs : is_sound never_same) by (intros x y H; discriminate H).
  assert (Hp : forall l : list value, Permutation (rev l) l)
    by (intros l; symmetry; apply Permutation_rev).
  assert (Hne : set_difference a b <> [] \/ set_difference b a <> [])
    by (left; vm_compute; discriminate).
  destruct (set_diff_similarity never_same (@rev value) a b Hs eq_refl Hp Hne)
    as (Hall & (ranking & H1 & H2 & H3) & _).
  exists ranking. split; [exact H1|split; [exact H2|]].
  apply (Hall ranking H1 H2 H3).
Defined.

(** The order matters when the best pairs tie: from [{(1, 2), (5, 3)}] to
    [{(1, 3), (1, 4)}] three pairs have similarity 1/3, and the similarity
    of the sets is 1/12 when [(1, 2)] is matched with [(1, 3)] and 1/6 when
    it is matched with [(1, 4)]. *)
Example set_similarity_depends_on_order :
  let A := [VTuple [VInt 1; VInt 2]; VTuple [VInt 5; VInt 3]] in
  let B := [VTuple [VInt 1; VInt 3]; VTuple [VInt 1; VInt 4]] in
  let sim := JsonDiffer._obj_diff default_options never_same in
  (snd (SetOrder._set_diff insertion_order sim (VSet B) A B) == 1 # 12)%Q
  /\ (snd (SetOrder._set_diff (@rev value) sim (VSet B) A B) == 1 # 6)%Q.
Proof. split; vm_compute; reflexivity. Qed.

(** ** The dict differ *)

Lemma dict_step_present sim (b : dict) rm nr nm sm ch k v w :
  dict_get k b = Some w -> isinstance_Symbol w = false ->
  JsonDiffer.dict_step sim b (rm, nr, nm, sm, ch) (k, v)
  = (rm, nr, S nm, (sm + ((1 # 2) + (1 # 2) * snd (sim v w)))%Q,
     if Qlt_bool (snd (sim v w)) 1 then dict_set k (fst (sim v w)) ch else ch).
Proof.
  intros G Hw. unfold JsonDiffer.dict_step. cbn [fst snd]. now rewrite G, Hw.
Qed.

Lemma dict_step_absent sim (b : dict) rm nr nm sm ch k v :
  dict_get k b = None ->
  JsonDiffer.dict_step sim b (rm, nr, nm, sm, ch) (k, v)
  = (dict_set k v rm, S nr, nm, sm, ch).
Proof.
  intros G. unfold JsonDiffer.dict_step. cbn [fst snd]. now rewrite G.
Qed.

Lemma dict_step_counts sim (b : dict) :
  no_marker_values b ->
  forall (a : dict) rm nr nm sm ch,
    snd (fst (fst (fst (fold_left (JsonDiffer.dict_step sim b) a
                                  (rm, nr, nm, sm, ch)))))
    = (nr + length (map_removed a b))%nat
    /\ snd (fst (fst (fold_left (JsonDiffer.dict_step sim b) a
                                (rm, nr, nm, sm, ch))))
       = (nm + length (map_matched a b))%nat
    /\ (snd (fst (fold_left (JsonDiffer.dict_step sim b) a
                            (rm, nr, nm, sm, ch)))
        == sm + matched_weight sim a b)%Q.
Proof.
  intros Hb. induction a as [|[k v] a IH]; intros rm nr nm sm ch.
  - simpl. unfold matched_weight. simpl. split; [lia|split; [lia|ring]].
  - cbn [fold_left].
    unfold map_removed, map_matched, matched_weight, map_matched.
    cbn [filter fst]. unfold dict_mem.
    destruct (dict_get k b) as [w|] eqn:G.
    + rewrite (dict_step_present _ _ _ _ _ _ _ _ _ _ G
                 (Hb w (dict_get_In _ _ _ G))).
      destruct (IH rm nr (S nm)
                   (sm + ((1 # 2) + (1 # 2) * snd (sim v w)))%Q
                   (if Qlt_bool (snd (sim v w)) 1
                    then dict_set k (fst (sim v w)) ch else ch))
        as (H1 & H2 & H3).
      rewrite H1, H2, H3. cbn [negb length map Qsum fst snd]. rewrite G.
      unfold map_removed, map_matched, matched_weight, map_matched, dict_mem.
      split; [lia|split; [lia|ring]].
    + rewrite (dict_step_absent _ _ _ _ _ _ _ _ _ G).
      destruct (IH (dict_set k v rm) (S nr) nm sm ch) as (H1 & H2 & H3).
      rewrite H1, H2, H3. cbn [negb length].
      unfold map_removed, map_matched, matched_weight, map_matched, dict_mem.
      split; [lia|split; [lia|reflexivity]].
Qed.

Lemma added_step_count (a b : dict) :
  forall n ad,
    fst (fold_left (JsonDiffer.added_step a) b (n, ad))
    = (n + length (map_added a b))%nat.
Proof.
  induction b as [|[k v] b IH]; intros n ad; simpl; [lia|].
  unfold JsonDiffer.added_step at 2. cbn [fst snd].
  destruct (dict_mem k a); cbn [negb]; rewrite IH; simpl; lia.
Qed.

Lemma _dict_diff_similarity sim (a0 b0 : value) (a b : dict) :
  no_marker_values b ->
  (snd (JsonDiffer._dict_diff default_options sim a0 b0 a b)
   == map_similarity sim a b)%Q.
Proof.
  intros Hb. unfold JsonDiffer._dict_diff, map_similarity.
  destruct (dict_step_counts sim b Hb a [] O O 0%Q []) as (H1 & H2 & H3).
  pose proof (added_step_count a b O []) as H4.
  destruct (fold_left (JsonDiffer.dict_step sim b) a _)
    as [[[[rm nr] nm] sm] ch].
  destruct (fold_left (JsonDiffer.added_step a) b _) as [na ad].
  cbn [fst snd] in *. subst nr nm na. cbn [plus].
  destruct (_ =? 0)%nat; cbn [negb]; [reflexivity|].
  rewrite H3. now rewrite Qplus_0_l.
Qed.

(** ** The similarity table *)

Lemma nth_list_set {A : Type} (l : list A) (i i' : nat) (x d : A) :
  nth i' (list_set l i x) d
  = if (i =? i')%nat && (i <? length l)%nat then x else nth i' l d.
Proof.
  revert i i'; induction l as [|y l IH]; intros i i'.
  - cbn [list_set length]. rewrite Nat.ltb_irrefl || idtac.
    destruct (i <? 0)%nat eqn:E; [apply Nat.ltb_lt in E; lia|].
    now rewrite andb_false_r.
  - destruct i as [|i], i' as [|i']; simpl; auto.
Qed.

Lemma length_list_set {A : Type} (l : list A) (i : nat) (x : A) :
  length (list_set l i x) = length l.
Proof.
  revert i; induction l as [|y l IH]; intros [|i]; simpl; auto.
Qed.

Lemma tget_tset (C : table) (m n i j i' j' : nat) (x : Q) :
  dims C m n -> (i <= m)%nat -> (j <= n)%nat ->
  tget (tset C i j x) i' j'
  = if (i =? i')%nat && (j =? j')%nat then x else tget C i' j'.
Proof.
  intros [Hl Hr] Hi Hj. unfold tget, tset. rewrite nth_list_set.
  destruct (Nat.eqb_spec i i') as [<-|Hne]; simpl; [|reflexivity].
  destruct (Nat.ltb_spec i (length C)); [|lia].
  rewrite nth_list_set, Hr by assumption.
  destruct (Nat.eqb_spec j j'); simpl; [|reflexivity].
  destruct (Nat.ltb_spec j (S n)); [reflexivity|lia].
Qed.

Lemma dims_tset (C : table) (m n i j : nat) (x : Q) :
  dims C m n -> dims (tset C i j x) m n.
Proof.
  intros [Hl Hr]. unfold tset. split.
  - now rewrite length_list_set.
  - intros i' Hi'. rewrite nth_list_set.
    destruct ((i =? i')%nat && (i <? length C)%nat) eqn:E; [|now apply Hr].
    apply andb_true_iff in E as [E _]. apply Nat.eqb_eq in E. subst.
    rewrite length_list_set. now apply Hr.
Qed.

Lemma tget_repeat (m n i j : nat) :
  tget (repeat (repeat 0%Q n) m) i j = 0%Q.
Proof.
  unfold tget.
  assert (H : forall k (l : list Q), (forall x, In x l -> x = 0%Q) ->
                                     nth k l 0%Q = 0%Q).
  { intros k l Hl. destruct (Nat.lt_ge_cases k (length l)).
    - apply Hl, nth_In. assumption.
    - now apply nth_overflow. }
  apply H. intros x Hx.
  destruct (Nat.lt_ge_cases i (length (repeat (repeat 0%Q n) m))) as [Hi|Hi].
  - assert (Hr : In (nth i (repeat (repeat 0%Q n) m) []) (repeat (repeat 0%Q n) m))
      by now apply nth_In.
    apply repeat_spec in Hr. rewrite Hr in Hx. now apply repeat_spec in Hx.
  - rewrite nth_overflow in Hx by assumption. destruct Hx.
Qed.

Lemma dims_repeat (m n : nat) : dims (repeat (repeat 0%Q (n + 1)) (m + 1)) m n.
Proof.
  split.
  - rewrite repeat_length. lia.
  - intros i Hi.
    assert (Hr : In (nth i (repeat (repeat 0%Q (n + 1)) (m + 1)) [])
                    (repeat (repeat 0%Q (n + 1)) (m + 1))).
    { apply nth_In. rewrite repeat_length. lia. }
    apply repeat_spec in Hr. rewrite Hr, repeat_length. lia.
Qed.

Section fill_table.
Variable D : list (list (value * Q)).
Variables m n : nat.

Lemma filled_step (C : table) (i j : nat) :
  (1 <= i <= m)%nat -> (1 <= j <= n)%nat ->
  filled D m n C i j ->
  filled D m n (tset C i j (cell_rule D C i j)) i (S j).
Proof.
  intros Hi Hj (Hd & H0 & H1 & Hc).
  assert (Hget : forall i' j', (i', j') <> (i, j) ->
                   tget (tset C i j (cell_rule D C i j)) i' j' = tget C i' j').
  { intros i' j' Hne. rewrite (tget_tset C m n) by (auto; lia).
    destruct (Nat.eqb_spec i i'), (Nat.eqb_spec j j'); simpl; auto.
    subst. congruence. }
  assert (Hrule : forall i' j', (1 <= i')%nat -> (1 <= j')%nat ->
                    (i' < i \/ (i' = i /\ j' <= j))%nat ->
                    cell_rule D (tset C i j (cell_rule D C i j)) i' j'
                    = cell_rule D C i' j').
  { intros i' j' Hi' Hj' Hlt. unfold cell_rule.
    rewrite !Hget; auto; intros [= E1 E2]; lia. }
  split; [now apply dims_tset|split; [|split]].
  - intros j'. apply eq_trans with (tget C 0%nat j'); auto.
    apply Hget. intros [= E1 E2]. lia.
  - intros i'. apply eq_trans with (tget C i' 0%nat); auto.
    apply Hget. intros [= E1 E2]. lia.
  - intros i' j' Hi' Hj' Hlt.
    rewrite Hrule by lia.
    destruct (Nat.eq_dec i' i) as [->|Hne];
      [destruct (Nat.eq_dec j' j) as [->|Hne]|].
    + rewrite (tget_tset C m n) by (auto; lia).
      now rewrite !Nat.eqb_refl.
    + rewrite Hget by (intros [= E]; lia). apply Hc; lia.
    + rewrite Hget by (intros [= E1 E2]; lia). apply Hc; lia.
Qed.

Lemma filled_row (i : nat) :
  (1 <= i <= m)%nat ->
  forall (len j : nat) (C : table),
    (1 <= j)%nat -> (j + len = S n)%nat ->
    filled D m n C i j ->
    filled D m n
           (fold_left
              (fun C j =>
                 let s := snd (dget D (i - 1) (j - 1)) in
                 tset C i j
                      (Qmax (Qmax (tget C i (j - 1)) (tget C (i - 1) j))
                            (tget C (i - 1) (j - 1) + s)))
              (seq j len) C)
           i (S n).
Proof.
  intros Hi. induction len as [|len IH]; intros j C Hj Hlen HC.
  - simpl. replace (S n) with j by lia. exact HC.
  - cbn [seq fold_left]. apply IH; [lia|lia|].
    apply (filled_step C i j); auto. lia.
Qed.

Lemma filled_next_row (C : table) (i : nat) :
  filled D m n C i (S n) -> filled D m n C (S i) 1.
Proof.
  intros (Hd & H0 & H1 & Hc). repeat split; auto; try apply Hd.
  intros i' j' Hi' Hj' Hlt. apply Hc; auto. lia.
Qed.

Lemma filled_rows :
  forall (len i : nat) (C : table),
    (1 <= i)%nat -> (i + len = S m)%nat ->
    filled D m n C i 1 ->
    filled D m n
           (fold_left
              (fun C i =>
                 fold_left
                   (fun C j =>
                      let s := snd (dget D (i - 1) (j - 1)) in
                      tset C i j
                           (Qmax (Qmax (tget C i (j - 1)) (tget C (i - 1) j))
                                 (tget C (i - 1) (j - 1) + s)))
                   (seq 1 n) C)
              (seq i len) C)
           (S m) 1.
Proof.
  induction len as [|len IH]; intros i C Hi Hlen HC.
  - simpl. replace (S m) with i by lia. exact HC.
  - cbn [seq fold_left]. apply IH; [lia|lia|].
    apply filled_next_row. apply filled_row; auto; lia.
Qed.

Lemma fill_table_filled :
  filled D m n (JsonDiffer.fill_table D m n) (S m) 1.
Proof.
  unfold JsonDiffer.fill_table. apply filled_rows; [lia|lia|].
  split; [apply dims_repeat|split; [|split]].
  - intros j'. apply tget_repeat.
  - intros i'. apply tget_repeat.
  - intros i' j' Hi' Hj' Hlt. lia.
Qed.

Lemma fill_table_rule (i j : nat) :
  (i < m)%nat -> (j < n)%nat ->
  tget (JsonDiffer.fill_table D m n) (S i) (S j)
  = Qmax (Qmax (tget (JsonDiffer.fill_table D m n) (S i) j)
               (tget (JsonDiffer.fill_table D m n) i (S j)))
         (tget (JsonDiffer.fill_table D m n) i j + snd (dget D i j)).
Proof.
  intros Hi Hj. destruct fill_table_filled as (_ & _ & _ & Hc).
  rewrite Hc by lia. unfold cell_rule. cbn [Nat.sub]. now rewrite !Nat.sub_0_r.
Qed.

Lemma fill_table_border (i j : nat) :
  tget (JsonDiffer.fill_table D m n) 0 j = 0%Q
  /\ tget (JsonDiffer.fill_table D m n) i 0 = 0%Q.
Proof. destruct fill_table_filled as (_ & H0 & H1 & _). auto. Qed.
End fill_table.

Lemma Q_of_nat_S (k : nat) : (Q_of_nat (S k) == Q_of_nat k + 1)%Q.
Proof.
  unfold Q_of_nat. rewrite Nat2Z.inj_succ, <- Z.add_1_r, inject_Z_plus.
  reflexivity.
Qed.

Lemma Q_of_nat_le (k l : nat) : (k <= l)%nat -> (Q_of_nat k <= Q_of_nat l)%Q.
Proof. intros H. unfold Q_of_nat. rewrite <- Zle_Qle. lia. Qed.

Lemma Q_of_nat_lt (k l : nat) : (k < l)%nat -> (Q_of_nat k < Q_of_nat l)%Q.
Proof. intros H. unfold Q_of_nat. rewrite <- Zlt_Qlt. lia. Qed.

Lemma Q_of_nat_plus (k l : nat) :
  (Q_of_nat (k + l) == Q_of_nat k + Q_of_nat l)%Q.
Proof.
  unfold Q_of_nat. rewrite Nat2Z.inj_add, inject_Z_plus. reflexivity.
Qed.

Section table_bounds.
Variable D : list (list (value * Q)).
Variables m n : nat.
Let C := JsonDiffer.fill_table D m n.

Hypothesis score_bounds :
  forall i j, (i < m)%nat -> (j < n)%nat ->
              (0 <= snd (dget D i j) <= 1)%Q.

Lemma table_bounds (i : nat) :
  forall j, (i <= m)%nat -> (j <= n)%nat ->
            (0 <= tget C i j <= Q_of_nat (Nat.min i j))%Q.
Proof.
  induction i as [|i IHi]; intros j Hi Hj.
  - unfold C. rewrite (proj1 (fill_table_border D m n 0 j)).
    simpl. split; apply Qle_refl.
  - induction j as [|j IHj].
    + unfold C. rewrite (proj2 (fill_table_border D m n (S i) 0)).
      rewrite Nat.min_0_r. split; apply Qle_refl.
    + unfold C. rewrite fill_table_rule by lia. fold C.
      destruct (IHi j) as [A1 A2]; [lia|lia|].
      destruct (IHi (S j)) as [B1 B2]; [lia|lia|].
      destruct IHj as [C1 C2]; [lia|].
      destruct (score_bounds i j) as [S1 S2]; [lia|lia|].
      pose proof (Q_of_nat_le (Nat.min (S i) j) (Nat.min (S i) (S j))
                              ltac:(lia)) as L1.
      pose proof (Q_of_nat_le (Nat.min i (S j)) (Nat.min (S i) (S j))
                              ltac:(lia)) as L2.
      assert (L3 : (Q_of_nat (Nat.min i j) + 1
                    == Q_of_nat (Nat.min (S i) (S j)))%Q).
      { rewrite <- Q_of_nat_S. now rewrite <- Nat.succ_min_distr. }
      split.
      * eapply Qle_trans; [exact C1|].
        eapply Qle_trans; [apply Q.le_max_l|apply Q.le_max_l].
      * apply Q.max_lub; [apply Q.max_lub|].
        -- eapply Qle_trans; eauto.
        -- eapply Qle_trans; eauto.
        -- rewrite <- L3. lra.
Qed.

Lemma table_diagonal (k : nat) :
  (k <= m)%nat -> (k <= n)%nat ->
  (forall i, (i < k)%nat -> (snd (dget D i i) == 1)%Q) ->
  (tget C k k == Q_of_nat k)%Q.
Proof.
  induction k as [|k IH]; intros Hm Hn Hd.
  - unfold C. now rewrite (proj1 (fill_table_border D m n 0 0)).
  - apply Qle_antisym.
    + destruct (table_bounds (S k) (S k)) as [_ H]; auto.
      now rewrite Nat.min_id in H.
    + unfold C. rewrite fill_table_rule by lia. fold C.
      eapply Qle_trans; [|apply Q.le_max_r].
      rewrite IH, Hd, Q_of_nat_S by (auto; lia). apply Qle_refl.
Qed.
End table_bounds.

(** ** Sequences whose elements agree pairwise *)

Lemma Qlt_bool_iff (x y : Q) : Qlt_bool x y = true <-> (x < y)%Q.
Proof.
  unfold Qlt_bool. rewrite negb_true_iff. split.
  - intros H. apply Qnot_le_lt. intros Hle. apply Qle_bool_iff in Hle.
    congruence.
  - intros H. destruct (Qle_bool y x) eqn:E; [|reflexivity].
    apply Qle_bool_iff in E. apply Qlt_not_le in H. contradiction.
Qed.

Lemma Qlt_bool_false (x y : Q) : Qlt_bool x y = false <-> (y <= x)%Q.
Proof.
  unfold Qlt_bool. rewrite negb_false_iff. apply Qle_bool_iff.
Qed.

Lemma backtrack_diagonal D C X Y (k : nat) :
  forall r,
    (forall i, (i < k)%nat ->
               Qlt_bool 0 (snd (dget D i i)) = true
               /\ Qeq_bool (tget C (S i) (S i))
                           (tget C i i + snd (dget D i i)) = true) ->
    JsonDiffer._list_diff_0_from D C X Y k k r
    = map (fun i => (0, fst (dget D i i), i, snd (dget D i i))) (seq 0 k)
      ++ rev r.
Proof.
  induction k as [|k IH]; intros r Hk.
  - reflexivity.
  - cbn [JsonDiffer._list_diff_0_from].
    destruct (Hk k) as [H1 H2]; [lia|]. rewrite H1, H2. cbn [andb].
    rewrite IH by (intros; apply Hk; lia).
    rewrite rev_unit, seq_S, map_app. cbn [map Nat.add].
    now rewrite <- app_assoc.
Qed.

Lemma matches_collected (f : nat -> value * Q) (l : list nat) :
  (forall i, In i l -> (snd (f i) == 1)%Q) ->
  let es := map (fun i => (0, fst (f i), i, snd (f i))) l in
  inserted_of es = [] /\ deleted_of es = [] /\ changed_of es = []
  /\ forall t, (total_of t es == t + Q_of_nat (length l))%Q.
Proof.
  induction l as [|i l IH]; intros Hl; cbn zeta.
  - repeat split. intros t. unfold total_of, Q_of_nat. simpl. ring.
  - destruct IH as (I1 & I2 & I3 & I4); [intros; apply Hl; now right|].
    cbn zeta in *. cbn [map].
    unfold inserted_of, deleted_of, changed_of, total_of in *.
    cbn [flat_map fold_left snd].
    change (0 =? 1) with false. change (0 =? -1) with false.
    change (0 =? 0) with true. cbn [andb app].
    rewrite I1, I2, I3.
    assert (E : Qlt_bool (snd (f i)) 1 = false).
    { apply Qlt_bool_false. rewrite (Hl i) by now left. apply Qle_refl. }
    rewrite E. repeat split.
    intros t. rewrite I4. cbn [length]. rewrite Q_of_nat_S, (Hl i) by now left.
    ring.
Qed.

Lemma Forall2_nth_lt {A B : Type} (P : A -> B -> Prop) (l1 : list A)
      (l2 : list B) (d1 : A) (d2 : B) :
  Forall2 P l1 l2 ->
  forall i, (i < length l1)%nat -> P (nth i l1 d1) (nth i l2 d2).
Proof.
  induction 1 as [|x y l1 l2 Hxy _ IH]; intros [|i] Hi; simpl in *;
    try lia; auto.
  apply IH. lia.
Qed.

Lemma emit_list_diff_one (a b : value) (s : Q) ins ch del :
  (s == 1)%Q ->
  CompactJsonDiffSyntax.emit_list_diff a b s ins ch del = VDict [].
Proof.
  intros Hs. unfold CompactJsonDiffSyntax.emit_list_diff.
  destruct (Qeq_bool s 0) eqn:E0.
  - apply Qeq_bool_eq in E0. rewrite Hs in E0. discriminate.
  - now rewrite (Qeq_eq_bool _ _ Hs).
Qed.

Lemma _list_diff_equal sim (a b : value) (X Y : list value) :
  Forall2 (fun x y => (snd (sim x y) == 1)%Q) X Y ->
  (forall x y, In x X -> In y Y -> (0 <= snd (sim x y) <= 1)%Q) ->
  fst (JsonDiffer._list_diff default_options sim a b X Y) = VDict []
  /\ (snd (JsonDiffer._list_diff default_options sim a b X Y) == 1)%Q.
Proof.
  intros Heq Hb.
  pose proof (Forall2_length Heq) as Hlen.
  set (D := map (fun x => map (fun y => sim x y) Y) X).
  set (n := length X) in *.
  assert (HD : forall i j, (i < n)%nat -> (j < n)%nat ->
                           dget D i j = sim (nth i X VNone) (nth j Y VNone)).
  { intros i j Hi Hj. apply dget_tab; [exact Hi|]. rewrite <- Hlen. exact Hj. }
  assert (Hbd : forall i j, (i < n)%nat -> (j < n)%nat ->
                            (0 <= snd (dget D i j) <= 1)%Q).
  { intros i j Hi Hj. rewrite HD by assumption.
    apply Hb; apply nth_In; [exact Hi|]. rewrite <- Hlen. exact Hj. }
  assert (Hdg : forall i, (i < n)%nat -> (snd (dget D i i) == 1)%Q).
  { intros i Hi. rewrite HD by assumption.
    apply (Forall2_nth_lt _ _ _ VNone VNone Heq). exact Hi. }
  assert (Hes : edit_script sim X Y
                = map (fun i => (0, fst (dget D i i), i, snd (dget D i i)))
                      (seq 0 n)).
  { unfold edit_script, JsonDiffer._list_diff_0. fold D. fold n.
    rewrite <- Hlen. rewrite backtrack_diagonal; [apply app_nil_r|].
    intros i Hi. split.
    - apply Qlt_bool_iff. rewrite Hdg by assumption. reflexivity.
    - apply Qeq_eq_bool.
      rewrite (table_diagonal D n n Hbd (S i)), (table_diagonal D n n Hbd i),
        Hdg, Q_of_nat_S; try lia; try reflexivity.
      + intros k Hk. apply Hdg. lia.
      + intros k Hk. apply Hdg. lia. }
  destruct (matches_collected (fun i => dget D i i) (seq 0 n))
    as (I1 & I2 & I3 & I4).
  { intros i Hi. apply in_seq in Hi. apply Hdg. lia. }
  cbv zeta in I1, I2, I3, I4. rewrite <- Hes in I1, I2, I3, I4.
  unfold JsonDiffer._list_diff. rewrite list_diff_parts_eq.
  cbn [fst snd syntax default_options syn_emit_list_diff compact].
  assert (Hs : (script_score (length X) (edit_script sim X Y) == 1)%Q).
  { unfold script_score. rewrite I1. cbn [length]. rewrite Nat.add_0_r.
    fold n. destruct (Nat.eqb_spec n 0) as [E|E]; [reflexivity|].
    rewrite I4, length_seq, Qplus_0_l.
    apply Qmult_inv_r. intros H0.
    pose proof (Q_of_nat_lt 0 n ltac:(lia)) as Hlt.
    change (inject_Z (Z.of_nat n)) with (Q_of_nat n) in H0.
    rewrite H0 in Hlt. now apply Qlt_irrefl in Hlt. }
  split; [now apply emit_list_diff_one|exact Hs].
Qed.

(** ** The score of an edit script *)

Lemma alignment_score sim i j xs ys es :
  alignment sim i j xs ys es ->
  (forall x y, In x xs -> In y ys -> (0 <= snd (sim x y) <= 1)%Q) ->
  forall t,
    (t <= total_of t es)%Q
    /\ (total_of t es
        <= t + Q_of_nat (length xs) + Q_of_nat (length (inserted_of es)))%Q
    /\ ((total_of t es
         == t + Q_of_nat (length xs) + Q_of_nat (length (inserted_of es)))%Q ->
        Forall2 (fun x y => (snd (sim x y) == 1)%Q) xs ys
        /\ inserted_of es = [] /\ deleted_of es = []).
Proof.
  induction 1 as [i j | i j x xs y ys es Hs Hal IH | i j xs y ys es Hal IH
                  | i j x xs ys es Hal IH]; intros Hb t.
  - unfold total_of, Q_of_nat, inject_Z. simpl.
    split; [lra|split; [lra|intros _; split; [constructor|split; reflexivity]]].
  - destruct (IH (fun x' y' Hx Hy => Hb x' y' (or_intror Hx) (or_intror Hy))
                 (t + snd (sim x y))%Q) as (L & U & E).
    destruct (Hb x y (or_introl eq_refl) (or_introl eq_refl)) as [S0 S1].
    assert (T : total_of t ((0, fst (sim x y), j, snd (sim x y)) :: es)
                = total_of (t + snd (sim x y)) es) by reflexivity.
    assert (I : inserted_of ((0, fst (sim x y), j, snd (sim x y)) :: es)
                = inserted_of es) by reflexivity.
    assert (Dl : deleted_of ((0, fst (sim x y), j, snd (sim x y)) :: es)
                 = deleted_of es) by reflexivity.
    rewrite T, I, Dl. cbn [length].
    pose proof (Q_of_nat_S (length xs)) as HS.
    split; [lra|split; [lra|]].
    intros Heq. destruct E as (F & I1 & D1); [lra|].
    split; [constructor; [lra|exact F]|split; assumption].
  - destruct (IH (fun x' y' Hx Hy => Hb x' y' Hx (or_intror Hy)) (t + 0)%Q)
      as (L & U & E).
    assert (T : total_of t ((1, y, j, 0%Q) :: es) = total_of (t + 0) es)
      by reflexivity.
    assert (I : inserted_of ((1, y, j, 0%Q) :: es) = (j, y) :: inserted_of es)
      by reflexivity.
    rewrite T, I. cbn [length].
    pose proof (Q_of_nat_S (length (inserted_of es))) as HS.
    split; [lra|split; [lra|]].
    intros Heq. exfalso. lra.
  - destruct (IH (fun x' y' Hx Hy => Hb x' y' (or_intror Hx) Hy) (t + 0)%Q)
      as (L & U & E).
    assert (T : total_of t ((-1, x, i, 0%Q) :: es) = total_of (t + 0) es)
      by reflexivity.
    assert (I : inserted_of ((-1, x, i, 0%Q) :: es) = inserted_of es)
      by reflexivity.
    rewrite T, I. cbn [length].
    pose proof (Q_of_nat_S (length xs)) as HS.
    split; [lra|split; [lra|]].
    intros Heq. exfalso. lra.
Qed.

Lemma Qdiv_unit_bounds (t n : Q) :
  (0 < n)%Q -> (0 <= t <= n)%Q -> (0 <= t / n <= 1)%Q.
Proof.
  intros Hn [H0 H1]. split.
  - apply Qle_shift_div_l; [assumption|]. lra.
  - apply Qle_shift_div_r; [assumption|]. lra.
Qed.

Lemma Qdiv_eq_one (t n : Q) : (0 < n)%Q -> (t / n == 1)%Q -> (t == n)%Q.
Proof.
  intros Hn H.
  assert (Hne : ~ (n == 0)%Q) by (intros E; rewrite E in Hn; lra).
  rewrite <- (Qmult_div_r t n Hne), H. ring.
Qed.

Lemma Qdiv_lt_one (t n : Q) : (0 < n)%Q -> (t < n)%Q -> (t / n < 1)%Q.
Proof.
  intros Hn H. apply Qlt_shift_div_r; [assumption|]. lra.
Qed.

Lemma Qdiv_pos (t n : Q) : (0 < n)%Q -> (0 < t)%Q -> (0 < t / n)%Q.
Proof.
  intros Hn H. apply Qlt_shift_div_l; [assumption|]. lra.
Qed.

Lemma script_score_facts sim (X Y : list value) :
  (forall x y, In x X -> In y Y -> (0 <= snd (sim x y) <= 1)%Q) ->
  let s := script_score (length X) (edit_script sim X Y) in
  (0 <= s <= 1)%Q
  /\ ((s == 1)%Q ->
      Forall2 (fun x y => (snd (sim x y) == 1)%Q) X Y
      /\ inserted_of (edit_script sim X Y) = []
      /\ deleted_of (edit_script sim X Y) = []).
Proof.
  intros Hb s.
  destruct (alignment_score _ _ _ _ _ _ (edit_script_alignment sim X Y) Hb 0%Q)
    as (L & U & E).
  unfold s, script_score.
  set (es := edit_script sim X Y) in *.
  rewrite Qplus_0_l, <- Q_of_nat_plus in U, E.
  destruct (Nat.eqb_spec (length X + length (inserted_of es)) 0) as [E0|E0].
  - split; [lra|]. intros _. apply E. rewrite E0 in *.
    unfold Q_of_nat in *. simpl in *. unfold inject_Z in *. lra.
  - fold (Q_of_nat (length X + length (inserted_of es))).
    assert (Hpos : (Q_of_nat 0 < Q_of_nat (length X + length (inserted_of es)))%Q)
      by (apply Q_of_nat_lt; lia).
    change (Q_of_nat 0) with 0%Q in Hpos.
    split; [apply Qdiv_unit_bounds; auto|].
    intros H1. apply E. now apply Qdiv_eq_one.
Qed.

(** ** Patching a sequence *)

Lemma patch_list_eq (a0 : list value) (items : dict) :
  items <> [] -> dict_get (VSym replace) items = None ->
  CompactJsonDiffSyntax.patch (VList a0) (VDict items)
  = (a3 <- patch_seq a0 items ;; Ok (VList a3))
  /\ CompactJsonDiffSyntax.patch (VTuple a0) (VDict items)
     = (a3 <- patch_seq a0 items ;; Ok (VTuple a3)).
Proof.
  intros Hne Hr. destruct items as [|it items]; [congruence|].
  cbn [CompactJsonDiffSyntax.patch]. rewrite Hr. unfold patch_seq.
  split.
  - destruct (match dict_get (VSym delete) (it :: items) with
              | Some v => _ | None => _ end) as [a1|e]; [|reflexivity].
    cbn [bind].
    destruct (match dict_get (VSym insert) (it :: items) with
              | Some v => _ | None => _ end) as [a2|e]; reflexivity.
  - destruct (match dict_get (VSym delete) (it :: items) with
              | Some v => _ | None => _ end) as [a1|e]; [|reflexivity].
    cbn [bind].
    destruct (match dict_get (VSym insert) (it :: items) with
              | Some v => _ | None => _ end) as [a2|e]; reflexivity.
Qed.

Lemma for_each_app {A S : Type} (body : S -> A -> result S)
      (xs ys : list A) (st : S) :
  for_each body (xs ++ ys) st = (st' <- for_each body xs st ;; for_each body ys st').
Proof.
  revert st; induction xs as [|x xs IH]; intros st; simpl; [reflexivity|].
  destruct (body st x); simpl; auto.
Qed.

Lemma firstn_skipn_middle {A : Type} (P : list A) (x : A) (K : list A) :
  firstn (length P) (P ++ x :: K) = P
  /\ skipn (S (length P)) (P ++ x :: K) = K
  /\ skipn (length P) (P ++ K) = K
  /\ firstn (length P) (P ++ K) = P
  /\ forall d, nth (length P) (P ++ x :: K) d = x.
Proof.
  repeat split.
  - rewrite firstn_app, Nat.sub_diag, firstn_all. simpl. apply app_nil_r.
  - rewrite skipn_app. rewrite skipn_all2 by lia.
    replace (S (length P) - length P)%nat with 1%nat by lia. reflexivity.
  - rewrite skipn_app, Nat.sub_diag, skipn_all. reflexivity.
  - rewrite firstn_app, Nat.sub_diag, firstn_all. simpl. apply app_nil_r.
  - intros d. induction P; simpl; auto.
Qed.

Lemma norm_index_middle (P : list value) (x : value) (K : list value) :
  norm_index (length (P ++ x :: K)) (Z.of_nat (length P)) = Ok (length P).
Proof.
  unfold norm_index. rewrite length_app. cbn [length].
  destruct (Z.ltb_spec (Z.of_nat (length P)) 0); [lia|].
  destruct (Z.leb_spec 0 (Z.of_nat (length P))); [|lia].
  destruct (Z.ltb_spec (Z.of_nat (length P))
                       (Z.of_nat (length P + S (length K)))); [|lia].
  simpl. now rewrite Nat2Z.id.
Qed.

Lemma list_pop_middle (P : list value) (x : value) (K : list value) :
  list_pop (VPos (length P)) (P ++ x :: K) = Ok (P ++ K).
Proof.
  unfold list_pop, VPos. cbn [py_index bind]. rewrite norm_index_middle.
  cbn [bind]. destruct (firstn_skipn_middle P x K) as (E1 & E2 & _).
  now rewrite E1, E2.
Qed.

Lemma list_insert_middle (P : list value) (y : value) (K : list value) :
  list_insert (VPos (length P)) y (P ++ K) = Ok (P ++ y :: K).
Proof.
  unfold list_insert, VPos. cbn [py_index bind].
  destruct (Z.ltb_spec (Z.of_nat (length P)) 0); [lia|].
  rewrite Nat2Z.id, length_app, Nat.min_l by lia.
  destruct (firstn_skipn_middle P y K) as (_ & _ & E3 & E4 & _).
  now rewrite E3, E4.
Qed.

Lemma list_getitem_middle (P : list value) (x : value) (K : list value) :
  list_getitem (Z.of_nat (length P)) (P ++ x :: K) = Ok x.
Proof.
  unfold list_getitem. rewrite norm_index_middle. cbn [bind].
  destruct (firstn_skipn_middle P x K) as (_ & _ & _ & _ & E5).
  now rewrite E5.
Qed.

Lemma list_setitem_middle (P : list value) (x y : value) (K : list value) :
  list_setitem (Z.of_nat (length P)) y (P ++ x :: K) = Ok (P ++ y :: K).
Proof.
  unfold list_setitem. rewrite norm_index_middle. cbn [bind].
  destruct (firstn_skipn_middle P x K) as (E1 & E2 & _).
  now rewrite E1, E2.
Qed.

Lemma pops_alignment sim i j xs ys es :
  alignment sim i j xs ys es ->
  forall P : list value,
    length P = i ->
    for_each (fun a1 pos => list_pop pos a1)
             (map (fun pv => VPos (fst pv)) (rev (deleted_of es))) (P ++ xs)
    = Ok (P ++ kept_of es xs).
Proof.
  induction 1 as [i j | i j x xs y ys es Hs Hal IH | i j xs y ys es Hal IH
                  | i j x xs ys es Hal IH]; intros P HP.
  - reflexivity.
  - change (deleted_of ((0, fst (sim x y), j, snd (sim x y)) :: es))
      with (deleted_of es).
    cbn [kept_of]. change (0 =? 0) with true. cbn iota.
    specialize (IH (P ++ [x])). rewrite <- !app_assoc in IH. apply IH.
    rewrite length_app. simpl. lia.
  - change (deleted_of ((1, y, j, 0%Q) :: es)) with (deleted_of es).
    replace (kept_of ((1, y, j, 0%Q) :: es) xs) with (kept_of es xs)
      by (destruct xs; reflexivity).
    now apply IH.
  - change (deleted_of ((-1, x, i, 0%Q) :: es)) with ((i, x) :: deleted_of es).
    cbn [rev kept_of]. change (-1 =? 0) with false. change (-1 =? 1) with false.
    cbn iota. rewrite map_app, for_each_app.
    specialize (IH (P ++ [x])). rewrite <- !app_assoc in IH. cbn [app] in IH.
    rewrite IH by (rewrite length_app; simpl; lia).
    cbn [bind map for_each fst]. subst i. rewrite list_pop_middle. reflexivity.
Qed.

Lemma inserts_alignment sim i j xs ys es :
  alignment sim i j xs ys es ->
  forall P : list value,
    length P = j ->
    for_each insert_step
             (map (fun pv => VTuple [VPos (fst pv); snd pv]) (inserted_of es))
             (P ++ kept_of es xs)
    = Ok (P ++ merged_of es xs).
Proof.
  induction 1 as [i j | i j x xs y ys es Hs Hal IH | i j xs y ys es Hal IH
                  | i j x xs ys es Hal IH]; intros P HP.
  - reflexivity.
  - change (inserted_of ((0, fst (sim x y), j, snd (sim x y)) :: es))
      with (inserted_of es).
    cbn [kept_of merged_of]. change (0 =? 0) with true. cbn iota.
    specialize (IH (P ++ [x])). rewrite <- !app_assoc in IH. apply IH.
    rewrite length_app. simpl. lia.
  - change (inserted_of ((1, y, j, 0%Q) :: es)) with ((j, y) :: inserted_of es).
    replace (kept_of ((1, y, j, 0%Q) :: es) xs) with (kept_of es xs)
      by (destruct xs; reflexivity).
    replace (merged_of ((1, y, j, 0%Q) :: es) xs) with (y :: merged_of es xs)
      by (destruct xs; reflexivity).
    cbn [map for_each fst snd]. unfold insert_step at 1.
    cbn [unpack2 py_iter bind fst snd]. subst j.
    rewrite list_insert_middle. cbn [bind].
    specialize (IH (P ++ [y])). rewrite <- !app_assoc in IH. apply IH.
    rewrite length_app. simpl. lia.
  - change (inserted_of ((-1, x, i, 0%Q) :: es)) with (inserted_of es).
    cbn [kept_of merged_of]. change (-1 =? 0) with false.
    change (-1 =? 1) with false. cbn iota. now apply IH.
Qed.

Lemma change_step_position (P : list value) (x : value) (K : list value)
      (d r : value) :
  CompactJsonDiffSyntax.patch x d = Ok r ->
  change_step (P ++ x :: K) (VPos (length P), d) = Ok (P ++ r :: K).
Proof.
  intros Hr. unfold change_step, VPos. cbn [fst snd py_eq negb andb py_int bind].
  rewrite list_getitem_middle. cbn [bind]. rewrite Hr. cbn [bind].
  apply list_setitem_middle.
Qed.

Lemma changes_alignment sim i j xs ys es :
  alignment sim i j xs ys es ->
  (forall x y, In x xs -> In y ys ->
               (snd (sim x y) <= 1)%Q
               /\ ((snd (sim x y) == 1)%Q -> py_eq x y = true)
               /\ exists r, CompactJsonDiffSyntax.patch x (fst (sim x y)) = Ok r
                            /\ py_eq r y = true) ->
  (forall y, In y ys -> py_eq y y = true) ->
  forall P : list value,
    length P = j ->
    exists L,
      for_each change_step (changed_of es) (P ++ merged_of es xs) = Ok (P ++ L)
      /\ Forall2 (fun r y => py_eq r y = true) L ys.
Proof.
  induction 1 as [i j | i j x xs y ys es Hs Hal IH | i j xs y ys es Hal IH
                  | i j x xs ys es Hal IH]; intros Hp Hrefl P HP.
  - exists []. split; [reflexivity|constructor].
  - destruct (Hp x y (or_introl eq_refl) (or_introl eq_refl))
      as (S1 & Heq & r & Hr & Hry).
    assert (IH' : forall P', length P' = S j ->
                    exists L, for_each change_step (changed_of es)
                                       (P' ++ merged_of es xs) = Ok (P' ++ L)
                              /\ Forall2 (fun r y => py_eq r y = true) L ys).
    { apply IH.
      - intros x' y' Hx Hy. apply Hp; now right.
      - intros y' Hy. apply Hrefl. now right. }
    cbn [merged_of]. change (0 =? 0) with true. cbn iota.
    unfold changed_of. cbn [flat_map]. fold (changed_of es).
    change (0 =? 0) with true. cbn [andb].
    destruct (Qlt_bool (snd (sim x y)) 1) eqn:El.
    + cbn [app for_each]. subst j.
      rewrite (change_step_position P x _ _ r Hr). cbn [bind].
      destruct (IH' (P ++ [r])) as (L & HL & HF);
        [rewrite length_app; simpl; lia|].
      rewrite <- !app_assoc in HL. cbn [app] in HL.
      exists (r :: L). split; [exact HL|now constructor].
    + cbn [app]. apply Qlt_bool_false in El.
      destruct (IH' (P ++ [x])) as (L & HL & HF);
        [rewrite length_app; simpl; lia|].
      rewrite <- !app_assoc in HL. cbn [app] in HL.
      exists (x :: L). split; [exact HL|].
      constructor; [|exact HF]. apply Heq. now apply Qle_antisym.
  - replace (merged_of ((1, y, j, 0%Q) :: es) xs) with (y :: merged_of es xs)
      by (destruct xs; reflexivity).
    change (changed_of ((1, y, j, 0%Q) :: es)) with (changed_of es).
    destruct (IH (fun x' y' Hx Hy => Hp x' y' Hx (or_intror Hy))
                 (fun y' Hy => Hrefl y' (or_intror Hy)) (P ++ [y]))
      as (L & HL & HF); [rewrite length_app; simpl; lia|].
    rewrite <- !app_assoc in HL. cbn [app] in HL.
    exists (y :: L). split; [exact HL|].
    constructor; [|exact HF]. apply Hrefl. now left.
  - cbn [merged_of]. change (-1 =? 0) with false. change (-1 =? 1) with false.
    cbn iota. change (changed_of ((-1, x, i, 0%Q) :: es)) with (changed_of es).
    apply IH; auto. intros x' y' Hx Hy. apply Hp; auto. now right.
Qed.

Lemma dict_get_app (k : value) (d1 d2 : dict) :
  dict_get k (d1 ++ d2)
  = match dict_get k d1 with Some v => Some v | None => dict_get k d2 end.
Proof.
  unfold dict_get. induction d1 as [|[k' v'] d1 IH]; simpl; [reflexivity|].
  now destruct (py_eq k k').
Qed.

Lemma partial_items (es : list edit) :
  match rev (deleted_of es) with
  | [] => fun d => d
  | _ => dict_set (VSym delete)
           (VList (map (fun pv => VPos (fst pv)) (rev (deleted_of es))))
  end
    (match inserted_of es with
     | [] => changed_of es
     | _ => dict_set (VSym insert)
              (VList (map (fun pv => VTuple [VPos (fst pv); snd pv])
                          (inserted_of es)))
              (changed_of es)
     end)
  = changed_of es ++ insert_entry (inserted_of es)
               ++ delete_entry (rev (deleted_of es)).
Proof.
  assert (E1 : match inserted_of es with
               | [] => changed_of es
               | _ => dict_set (VSym insert)
                        (VList (map (fun pv => VTuple [VPos (fst pv); snd pv])
                                    (inserted_of es)))
                        (changed_of es)
               end = changed_of es ++ insert_entry (inserted_of es)).
  { unfold insert_entry. destruct (inserted_of es).
    - now rewrite app_nil_r.
    - apply dict_set_absent, changed_of_no_marker. }
  rewrite E1. unfold delete_entry. destruct (rev (deleted_of es)).
  - now rewrite !app_nil_r.
  - rewrite dict_set_absent; [now rewrite <- app_assoc|].
    rewrite dict_get_app, changed_of_no_marker.
    unfold insert_entry. now destruct (inserted_of es).
Qed.

Lemma change_step_marker (a3 : list value) (y : Symbol) (v : value) :
  y = insert \/ y = delete -> change_step a3 (VSym y, v) = Ok a3.
Proof. intros [-> | ->]; reflexivity. Qed.

Lemma patch_seq_partial sim (X Y : list value) :
  (forall x y, In x X -> In y Y ->
               (snd (sim x y) <= 1)%Q
               /\ ((snd (sim x y) == 1)%Q -> py_eq x y = true)
               /\ exists r, CompactJsonDiffSyntax.patch x (fst (sim x y)) = Ok r
                            /\ py_eq r y = true) ->
  (forall y, In y Y -> py_eq y y = true) ->
  let es := edit_script sim X Y in
  exists L,
    patch_seq X (changed_of es ++ insert_entry (inserted_of es)
                            ++ delete_entry (rev (deleted_of es))) = Ok L
    /\ Forall2 (fun r y => py_eq r y = true) L Y.
Proof.
  intros Hp Hrefl es.
  pose proof (edit_script_alignment sim X Y) as Hal. fold es in Hal.
  pose proof (pops_alignment _ _ _ _ _ _ Hal [] eq_refl) as H1.
  pose proof (inserts_alignment _ _ _ _ _ _ Hal [] eq_refl) as H2.
  destruct (changes_alignment _ _ _ _ _ _ Hal Hp Hrefl [] eq_refl)
    as (L & H3 & HF).
  cbn [app] in H1, H2, H3.
  exists L. split; [|exact HF]. unfold patch_seq.
  assert (D1 : match dict_get (VSym delete)
                       (changed_of es ++ insert_entry (inserted_of es)
                                   ++ delete_entry (rev (deleted_of es))) with
               | Some v =>
                   ps <- py_iter v ;;
                   for_each (fun a1 pos => list_pop pos a1) ps X
               | None => Ok X
               end = Ok (kept_of es X)).
  { rewrite !dict_get_app, changed_of_no_marker.
    replace (dict_get (VSym delete) (insert_entry (inserted_of es)))
      with (@None value)
      by (unfold insert_entry; now destruct (inserted_of es)).
    unfold delete_entry. destruct (rev (deleted_of es)) eqn:E.
    - simpl in H1. exact H1.
    - cbn -[for_each map]. exact H1. }
  rewrite D1. cbn [bind].
  assert (D2 : match dict_get (VSym insert)
                       (changed_of es ++ insert_entry (inserted_of es)
                                   ++ delete_entry (rev (deleted_of es))) with
               | Some v => its <- py_iter v ;;
                           for_each insert_step its (kept_of es X)
               | None => Ok (kept_of es X)
               end = Ok (merged_of es X)).
  { rewrite !dict_get_app, changed_of_no_marker.
    unfold insert_entry. destruct (inserted_of es) eqn:E.
    - replace (dict_get (VSym insert) [] ) with (@None value) by reflexivity.
      replace (dict_get (VSym insert) (delete_entry (rev (deleted_of es))))
        with (@None value)
        by (unfold delete_entry; now destruct (rev (deleted_of es))).
      simpl in H2. exact H2.
    - cbn -[for_each map]. exact H2. }
  rewrite D2. cbn [bind].
  rewrite for_each_app, H3. cbn [bind].
  unfold insert_entry, delete_entry.
  destruct (inserted_of es); destruct (rev (deleted_of es)); reflexivity.
Qed.

(** ** Reflexivity of equality on well-formed values *)

Lemma dict_get_distinct (k v : value) (d : dict) :
  forallb hashable (dict_keys d) = true -> NoDup (dict_keys d) ->
  In (k, v) d -> dict_get k d = Some v.
Proof.
  unfold dict_get. induction d as [|[k' v'] d IH]; simpl; intros Hh Hnd Hin;
    [destruct Hin|].
  apply andb_true_iff in Hh as [Hk Hh]. inversion Hnd as [|? ? Hn Hnd']; subst.
  destruct Hin as [[= -> ->]|Hin].
  - now rewrite py_eq_refl_hashable.
  - destruct (py_eq k k') eqn:E.
    + assert (Hkh : hashable k = true).
      { rewrite forallb_forall in Hh. apply Hh.
        now apply (in_map fst) in Hin. }
      apply py_eq_hashable in E; auto. subst k'.
      exfalso. apply Hn. now apply (in_map fst) in Hin.
    + now apply IH.
Qed.

Lemma wf_dict_inv (d : dict) :
  wf (VDict d) = true ->
  forallb hashable (dict_keys d) = true /\ NoDup (dict_keys d)
  /\ forall k v, In (k, v) d -> wf k = true /\ wf v = true.
Proof.
  simpl. intros H. apply andb_true_iff in H as [H Hd].
  apply andb_true_iff in H as [Hv Hh].
  split; [exact Hh|split].
  - now apply distinct_NoDup.
  - intros k v Hin. rewrite forallb_forall in Hv.
    apply Hv in Hin. now apply andb_true_iff in Hin.
Qed.

Lemma wf_set_inv (l : list value) :
  wf (VSet l) = true ->
  forallb hashable l = true /\ NoDup l /\ forall x, In x l -> wf x = true.
Proof.
  simpl. intros H. apply andb_true_iff in H as [H Hd].
  apply andb_true_iff in H as [Hv Hh].
  split; [exact Hh|split].
  - now apply distinct_NoDup.
  - now apply forallb_forall.
Qed.

Lemma py_eq_refl (a : value) : wf a = true -> py_eq a a = true.
Proof.
  induction a as [| z | s | y | l IH | l IH | l IH | l IH] using value_rect';
    intros Hwf.
  - reflexivity.
  - apply Z.eqb_refl.
  - apply String.eqb_refl.
  - apply Symbol_eqb_refl.
  - simpl in *. apply seq_eq_Forall2. rewrite forallb_forall in Hwf.
    induction IH as [|x l Hx _ IHl]; constructor.
    + apply Hx, Hwf. now left.
    + apply IHl. intros; apply Hwf. now right.
  - simpl in *. apply seq_eq_Forall2. rewrite forallb_forall in Hwf.
    induction IH as [|x l Hx _ IHl]; constructor.
    + apply Hx, Hwf. now left.
    + apply IHl. intros; apply Hwf. now right.
  - destruct (wf_set_inv l Hwf) as (Hh & _ & Hw).
    cbn [py_eq]. rewrite Nat.eqb_refl. cbn [andb].
    apply forallb_forall. intros x Hx. apply existsb_exists.
    exists x. split; [exact Hx|]. rewrite Forall_forall in IH. auto.
  - destruct (wf_dict_inv l Hwf) as (Hh & Hnd & Hw).
    cbn [py_eq]. rewrite Nat.eqb_refl. cbn [andb].
    apply forallb_forall. intros [k v] Hin. cbn [fst snd].
    change (assoc_by (fun k' => py_eq k k') l) with (dict_get k l).
    rewrite (dict_get_distinct k v l Hh Hnd Hin).
    rewrite Forall_forall in IH. apply (IH _ Hin). cbn [snd].
    now apply (Hw k v).
Qed.

(** ** What the dict differ records *)

Lemma dict_step_records sim (b : dict) :
  no_marker_values b ->
  forall (a : dict) rm nr nm sm ch,
    forallb hashable (dict_keys a) = true ->
    NoDup (dict_keys rm ++ dict_keys a) ->
    NoDup (dict_keys ch ++ dict_keys a) ->
    fst (fst (fst (fst (fold_left (JsonDiffer.dict_step sim b) a
                                  (rm, nr, nm, sm, ch)))))
    = rm ++ map_removed a b
    /\ snd (fold_left (JsonDiffer.dict_step sim b) a (rm, nr, nm, sm, ch))
       = ch ++ map_changed sim a b.
Proof.
  intros Hb. induction a as [|[k v] a IH]; intros rm nr nm sm ch Hh Hr Hc.
  - simpl. now rewrite !app_nil_r.
  - cbn [dict_keys map fst] in Hh, Hr, Hc. cbn [forallb] in Hh.
    apply andb_true_iff in Hh as [Hk Hh].
    cbn [fold_left]. unfold map_removed, map_changed.
    cbn [filter flat_map fst snd]. unfold dict_mem.
    fold (map_changed sim a b).
    destruct (dict_get k b) as [w|] eqn:G.
    + rewrite (dict_step_present _ _ _ _ _ _ _ _ _ _ G
                 (Hb w (dict_get_In _ _ _ G))).
      cbn [negb]. fold (map_removed a b).
      destruct (Qlt_bool (snd (sim v w)) 1).
      * rewrite dict_set_absent.
        -- destruct (IH rm nr (S nm)
                        (sm + ((1 # 2) + (1 # 2) * snd (sim v w)))%Q
                        (ch ++ [(k, fst (sim v w))])) as [H1 H2]; auto.
           ++ eapply NoDup_remove_1. exact Hr.
           ++ unfold dict_keys. rewrite map_app, <- app_assoc. exact Hc.
           ++ rewrite H1, H2. now rewrite <- app_assoc.
        -- apply dict_get_None; auto. apply NoDup_remove_2 in Hc.
           intros Hin. apply Hc, in_or_app. now left.
      * apply IH; auto.
        -- eapply NoDup_remove_1. exact Hr.
        -- eapply NoDup_remove_1. exact Hc.
    + rewrite (dict_step_absent _ _ _ _ _ _ _ _ _ G). cbn [negb].
      fold (map_removed a b). rewrite dict_set_absent.
      * destruct (IH (rm ++ [(k, v)]) (S nr) nm sm ch) as [H1 H2]; auto.
        -- unfold dict_keys. rewrite map_app, <- app_assoc. exact Hr.
        -- eapply NoDup_remove_1. exact Hc.
        -- rewrite H1, H2. now rewrite <- app_assoc.
      * apply dict_get_None; auto. apply NoDup_remove_2 in Hr.
        intros Hin. apply Hr, in_or_app. now left.
Qed.

Lemma added_step_records (a b : dict) :
  forall n ad,
    forallb hashable (dict_keys b) = true ->
    NoDup (dict_keys ad ++ dict_keys b) ->
    snd (fold_left (JsonDiffer.added_step a) b (n, ad))
    = ad ++ map_added a b.
Proof.
  induction b as [|[k v] b IH]; intros n ad Hh Hnd.
  - simpl. now rewrite app_nil_r.
  - cbn [dict_keys map fst] in Hh, Hnd. cbn [forallb] in Hh.
    apply andb_true_iff in Hh as [Hk Hh].
    cbn [fold_left]. unfold JsonDiffer.added_step at 2, map_added.
    cbn [filter fst snd]. fold (map_added a b).
    destruct (dict_mem k a); cbn [negb].
    + apply IH; auto. eapply NoDup_remove_1. exact Hnd.
    + rewrite dict_set_absent.
      * rewrite IH; auto; [now rewrite <- app_assoc|].
        unfold dict_keys. rewrite map_app, <- app_assoc. exact Hnd.
      * apply dict_get_None; auto. apply NoDup_remove_2 in Hnd.
        intros Hin. apply Hnd, in_or_app. now left.
Qed.

Lemma keys_filter_In (p : value * value -> bool) (d : dict) (k : value) :
  In k (dict_keys (filter p d)) -> In k (dict_keys d).
Proof.
  unfold dict_keys. rewrite !in_map_iff. intros [kv [E H]].
  apply filter_In in H as [H _]. eauto.
Qed.

Lemma keys_filter_NoDup (p : value * value -> bool) (d : dict) :
  NoDup (dict_keys d) -> NoDup (dict_keys (filter p d)).
Proof.
  induction d as [|[k v] d IH]; simpl; intros H; [constructor|].
  inversion H as [|? ? Hn Hd]; subst.
  destruct (p (k, v)); simpl; auto.
  constructor; auto. intros Hin. apply Hn. eapply keys_filter_In. exact Hin.
Qed.

Lemma map_changed_In sim (a b : dict) (k d : value) :
  In (k, d) (map_changed sim a b) ->
  exists v w, In (k, v) a /\ dict_get k b = Some w
              /\ d = fst (sim v w) /\ Qlt_bool (snd (sim v w)) 1 = true.
Proof.
  unfold map_changed. rewrite in_flat_map. intros [[k' v] [Hin H]].
  cbn [fst snd] in H. destruct (dict_get k' b) as [w|] eqn:G; [|destruct H].
  destruct (Qlt_bool (snd (sim v w)) 1) eqn:E; [|destruct H].
  destruct H as [[= <- <-]|[]]. exists v, w. auto.
Qed.

Lemma map_changed_keys_In sim (a b : dict) (k : value) :
  In k (dict_keys (map_changed sim a b)) -> In k (dict_keys a).
Proof.
  unfold dict_keys at 1. rewrite in_map_iff. intros [[k' d] [<- H]].
  apply map_changed_In in H as (v & w & Hin & _).
  now apply (in_map fst) in Hin.
Qed.

Lemma map_changed_NoDup sim (a b : dict) :
  NoDup (dict_keys a) -> NoDup (dict_keys (map_changed sim a b)).
Proof.
  induction a as [|[k v] a IH]; intros H; [constructor|].
  inversion H as [|? ? Hn Hd]; subst.
  unfold map_changed. cbn [flat_map fst snd]. fold (map_changed sim a b).
  destruct (dict_get k b) as [w|]; [|now apply IH].
  destruct (Qlt_bool (snd (sim v w)) 1); [|now apply IH].
  cbn [app dict_keys map fst]. constructor; [|now apply IH].
  intros Hin. apply Hn. eapply map_changed_keys_In. exact Hin.
Qed.

Lemma dict_update_fresh (ad : dict) :
  forall ch : dict,
    forallb hashable (dict_keys ad) = true ->
    NoDup (dict_keys ch ++ dict_keys ad) ->
    dict_update ch ad = ch ++ ad.
Proof.
  unfold dict_update.
  induction ad as [|[k v] ad IH]; intros ch Hh Hnd; simpl.
  - now rewrite app_nil_r.
  - cbn [dict_keys map fst forallb] in Hh, Hnd.
    apply andb_true_iff in Hh as [Hk Hh].
    rewrite dict_set_absent.
    + rewrite IH; auto; [now rewrite <- app_assoc|].
      unfold dict_keys. rewrite map_app, <- app_assoc. exact Hnd.
    + apply dict_get_None; auto. apply NoDup_remove_2 in Hnd.
      intros Hin. apply Hnd, in_or_app. now left.
Qed.

Lemma hashable_keys_filter (p : value * value -> bool) (d : dict) :
  forallb hashable (dict_keys d) = true ->
  forallb hashable (dict_keys (filter p d)) = true.
Proof.
  rewrite !forallb_forall. intros H k Hk. apply H.
  eapply keys_filter_In. exact Hk.
Qed.

Lemma map_added_fresh (a b : dict) (k : value) :
  forallb hashable (dict_keys b) = true ->
  In k (dict_keys (map_added a b)) -> ~ In k (dict_keys a).
Proof.
  intros Hh. unfold dict_keys at 1, map_added. rewrite in_map_iff.
  intros [[k' v] [<- H]]. apply filter_In in H as [Hin Hm].
  cbn [fst] in *. apply negb_true_iff in Hm.
  apply dict_mem_false; auto.
  rewrite forallb_forall in Hh. apply Hh. now apply (in_map fst) in Hin.
Qed.

(** ** Patching a dict with what the differ records *)

Lemma patch_dict_eq (a : dict) (items : dict) :
  items <> [] -> dict_get (VSym replace) items = None ->
  CompactJsonDiffSyntax.patch (VDict a) (VDict items)
  = (a' <- for_each dict_patch_step items a ;; Ok (VDict a')).
Proof.
  intros Hne Hr. destruct items as [|it items]; [congruence|].
  cbn [CompactJsonDiffSyntax.patch]. now rewrite Hr.
Qed.

(** ** Patching a dict: where [KeyError] comes from *)

Lemma for_each_raise {A S : Type} (body : S -> A -> result S) (e : exn)
      (xs : list A) :
  forall st,
    for_each body xs st = Raise e
    <-> exists pre x post st1,
          xs = pre ++ x :: post
          /\ for_each body pre st = Ok st1 /\ body st1 x = Raise e.
Proof.
  induction xs as [|x xs IH]; intros st.
  - split; [discriminate|]. intros (pre & y & post & st1 & E & _).
    now destruct pre.
  - cbn [for_each]. destruct (body st x) as [st'|e'] eqn:Eb; cbn [bind].
    + rewrite IH. split.
      * intros (pre & y & post & st1 & -> & H1 & H2).
        exists (x :: pre), y, post, st1. cbn [app for_each].
        rewrite Eb. cbn [bind]. auto.
      * intros (pre & y & post & st1 & E & H1 & H2).
        destruct pre as [|x' pre]; cbn [app for_each] in E, H1.
        -- injection E as <- <-. injection H1 as <-. congruence.
        -- injection E as <- ->. rewrite Eb in H1. cbn [bind] in H1.
           exists pre, y, post, st1. auto.
    + split.
      * intros [= ->]. exists [], x, xs, st. auto.
      * intros (pre & y & post & st1 & E & H1 & H2).
        destruct pre as [|x' pre]; cbn [app for_each] in E, H1.
        -- injection E as <- <-. injection H1 as <-. congruence.
        -- injection E as <- ->. rewrite Eb in H1. discriminate H1.
Qed.

(** C9 (as amended).  Patching a dict applies the entries of the delta one
    after the other, and it raises [KeyError] exactly when one entry does on
    the dict as the entries before it left it.  The entry under the [delete]
    marker, when it lists distinct hashable keys, does exactly when one of
    them is not a key of this dict.  An entry under an ordinary key does only
    from within the patch of the value the dict holds under that key; when
    the dict lacks the key, the payload is added and nothing fails.  So
    [patch({"x": 1}, {delete: ["y"]})] raises [KeyError],
    [patch({"x": 1}, {"y": 2, delete: ["y"]})] does not, and
    [patch({"k": {"x": 1}}, {"k": {delete: ["y"]}})] does. *)
Theorem patch_dict_missing_key :
  (forall (a items : dict),
      items <> [] -> dict_get (VSym replace) items = None ->
      (patch default_options (VDict a) (VDict items) = Raise KeyError
       <-> exists pre k v post a1,
             items = pre ++ (k, v) :: post
             /\ for_each dict_patch_step pre a = Ok a1
             /\ dict_patch_step a1 (k, v) = Raise KeyError))
  /\ (forall (a1 : dict) (kdels : list value),
         forallb hashable kdels = true -> NoDup kdels ->
         (dict_patch_step a1 (VSym delete, VList kdels) = Raise KeyError
          <-> exists k, In k kdels /\ dict_mem k a1 = false))
  /\ (forall (a1 : dict) (k v : value),
         py_eq k (VSym delete) = false ->
         dict_patch_step a1 (k, v) = Raise KeyError ->
         exists av, dict_get k a1 = Some av
                    /\ patch default_options av v = Raise KeyError)
  /\ (forall (a1 : dict) (k v : value),
         hashable k = true -> k <> VSym delete -> dict_mem k a1 = false ->
         dict_patch_step a1 (k, v) = Ok (a1 ++ [(k, v)]))
  /\ patch default_options (VDict [(VStr "x", VInt 1)])
           (VDict [(VSym delete, VList [VStr "y"])]) = Raise KeyError
  /\ patch default_options (VDict [(VStr "x", VInt 1)])
           (VDict [(VStr "y", VInt 2); (VSym delete, VList [VStr "y"])])
     = Ok (VDict [(VStr "x", VInt 1)])
  /\ patch default_options (VDict [(VStr "k", VDict [(VStr "x", VInt 1)])])
           (VDict [(VStr "k", VDict [(VSym delete, VList [VStr "y"])])])
     = Raise KeyError.
Proof.
  split; [|split; [|split; [|split; [|split; [|split]]]]];
    try reflexivity.
  - intros a items Hne Hr.
    unfold patch, JsonDiffer.patch.
    cbn [marshal_opt default_options syntax syn_patch compact].
    rewrite (patch_dict_eq a items Hne Hr).
    pose proof (for_each_raise dict_patch_step KeyError items a) as Hfe.
    split.
    + intros H.
      destruct (for_each dict_patch_step items a) as [a'|e]; cbn [bind] in H;
        [discriminate|].
      injection H as ->.
      destruct (proj1 Hfe eq_refl) as (pre & [k v] & post & a1 & H1 & H2 & H3).
      exists pre, k, v, post, a1. auto.
    + intros (pre & k & v & post & a1 & H1 & H2 & H3).
      rewrite (proj2 Hfe); [reflexivity|].
      exists pre, (k, v), post, a1. auto.
  - intros a1 kdels Hh Hnd.
    destruct (for_each_dict_del kdels Hh Hnd a1) as [H1 H2].
    unfold dict_patch_step. cbn [fst snd py_eq Symbol_eqb py_iter bind].
    split.
    + intros H. destruct (all_keys_or_missing kdels a1 Hh) as [Hi|Hm]; auto.
      destruct (H1 Hi) as [a' Ha']. rewrite Ha' in H. discriminate.
    + intros Hm. now rewrite (H2 Hm).
  - intros a1 k v Hd H. unfold dict_patch_step in H. cbn [fst snd] in H.
    rewrite Hd in H.
    destruct (dict_get k a1) as [av|]; [|cbn in H; discriminate].
    exists av. split; [reflexivity|].
    destruct (py_eq av (VSym missing)); [discriminate|].
    unfold patch, JsonDiffer.patch.
    cbn [marshal_opt default_options syntax syn_patch compact].
    destruct (CompactJsonDiffSyntax.patch av v); [discriminate|].
    cbn [bind] in H. now injection H as ->.
  - intros a1 k v Hk Hd Hm. unfold dict_patch_step. cbn [fst snd].
    assert (Ed : py_eq k (VSym delete) = false)
      by (apply py_eq_hashable_neq; auto).
    rewrite Ed. unfold dict_mem in Hm.
    destruct (dict_get k a1) eqn:Eg; [discriminate|].
    cbn [py_eq Symbol_eqb]. now rewrite (dict_set_absent _ _ _ Eg).
Qed.

Lemma patch_dict_missing_key_witness :
  (patch default_options (VDict [(VStr "k", VDict [(VStr "x", VInt 1)]);
                                 (VStr "z", VInt 0)])
         (VDict [(VStr "z", VInt 1);
                 (VStr "k", VDict [(VSym delete, VList [VStr "y"])])])
   = Raise KeyError)
  /\ dict_patch_step [(VStr "x", VInt 1)]
                     (VSym delete, VList [VStr "x"; VStr "y"])
     = Raise KeyError
  /\ dict_patch_step [(VStr "x", VInt 1)] (VStr "y", VInt 2)
     = Ok [(VStr "x", VInt 1); (VStr "y", VInt 2)].
Proof.
  split; [|split].
  - apply (proj1 patch_dict_missing_key
                 [(VStr "k", VDict [(VStr "x", VInt 1)]); (VStr "z", VInt 0)]
                 [(VStr "z", VInt 1);
                  (VStr "k", VDict [(VSym delete, VList [VStr "y"])])]).
    + discriminate.
    + reflexivity.
    + exists [(VStr "z", VInt 1)], (VStr "k"),
        (VDict [(VSym delete, VList [VStr "y"])]), [],
        [(VStr "k", VDict [(VStr "x", VInt 1)]); (VStr "z", VInt 1)].
      split; [reflexivity|split; reflexivity].
  - apply (proj1 (proj2 patch_dict_missing_key)
                 [(VStr "x", VInt 1)] [VStr "x"; VStr "y"]).
    + reflexivity.
    + repeat constructor; simpl; intuition discriminate.
    + exists (VStr "y"). split; [right; now left|reflexivity].
  - apply (proj1 (proj2 (proj2 (proj2 patch_dict_missing_key)))
                 [(VStr "x", VInt 1)] (VStr "y") (VInt 2));
      try reflexivity; discriminate.
Defined.

(** C9 as stated fails: an entry for a key that the base lacks is applied
    without error. *)
Lemma patch_dict_absent_key_inserts :
  ~ (exists e, patch default_options (VDict [(VStr "x", VInt 1)])
                     (VDict [(VStr "y", VInt 2)]) = Raise e).
Proof. intros [e H]. vm_compute in H. discriminate. Qed.

Lemma dict_get_middle (k v : value) (p q : dict) :
  hashable k = true -> ~ In k (dict_keys p) ->
  dict_get k (p ++ (k, v) :: q) = Some v.
Proof.
  intros Hk Hn. rewrite dict_get_app.
  apply (dict_get_None k p Hk) in Hn. rewrite Hn.
  unfold dict_get. simpl. now rewrite py_eq_refl_hashable.
Qed.

Lemma dict_set_middle (k v r : value) (p q : dict) :
  hashable k = true -> ~ In k (dict_keys p) ->
  dict_set k r (p ++ (k, v) :: q) = p ++ (k, r) :: q.
Proof.
  intros Hk. induction p as [|[k' v'] p IH]; simpl; intros Hn.
  - now rewrite py_eq_refl_hashable.
  - assert (E : py_eq k k' = false).
    { apply py_eq_hashable_neq; auto. }
    rewrite E, IH; auto.
Qed.

Lemma patched_key sim (b : dict) (kv : value * value) :
  fst (patched sim b kv) = fst kv.
Proof.
  unfold patched. destruct (dict_get (fst kv) b); auto.
  destruct (Qlt_bool _ _); auto. now destruct (CompactJsonDiffSyntax.patch _ _).
Qed.

Lemma patch_changed_phase sim (b : dict) :
  forall a2 p : dict,
    forallb hashable (dict_keys (p ++ a2)) = true ->
    NoDup (dict_keys (p ++ a2)) ->
    (forall k v, In (k, v) a2 ->
                 k <> VSym delete /\ py_eq v (VSym missing) = false
                 /\ forall w, dict_get k b = Some w ->
                              exists r, CompactJsonDiffSyntax.patch
                                          v (fst (sim v w)) = Ok r) ->
    for_each dict_patch_step (map_changed sim a2 b) (p ++ a2)
    = Ok (p ++ map (patched sim b) a2).
Proof.
  induction a2 as [|[k v] a2 IH]; intros p Hh Hnd Ha; [reflexivity|].
  assert (Hk : hashable k = true).
  { rewrite forallb_forall in Hh. apply Hh. unfold dict_keys.
    rewrite map_app. apply in_or_app. right. now left. }
  assert (Hnp : ~ In k (dict_keys p)).
  { unfold dict_keys in Hnd. rewrite map_app in Hnd.
    apply NoDup_remove_2 in Hnd. intros Hin. apply Hnd, in_or_app. now left. }
  destruct (Ha k v (or_introl eq_refl)) as (Hd & Hm & Hp).
  assert (IH' : forall r,
             for_each dict_patch_step (map_changed sim a2 b)
                      ((p ++ [(k, r)]) ++ a2)
             = Ok ((p ++ [(k, r)]) ++ map (patched sim b) a2)).
  { intros r. apply IH.
    - unfold dict_keys in *. rewrite !map_app in *. cbn [map fst] in *.
      rewrite <- app_assoc. exact Hh.
    - unfold dict_keys in *. rewrite !map_app in *. cbn [map fst] in *.
      rewrite <- app_assoc. exact Hnd.
    - intros k' v' Hin. apply Ha. now right. }
  unfold map_changed. cbn [flat_map map fst snd]. fold (map_changed sim a2 b).
  unfold patched at 1. cbn [fst snd].
  destruct (dict_get k b) as [w|] eqn:G.
  - destruct (Qlt_bool (snd (sim v w)) 1).
    + destruct (Hp w eq_refl) as [r Hr]. rewrite Hr.
      cbn [app for_each]. unfold dict_patch_step at 1. cbn [fst snd].
      assert (Ed : py_eq k (VSym delete) = false)
        by now apply py_eq_hashable_neq.
      rewrite Ed, (dict_get_middle k v p a2 Hk Hnp), Hm, Hr. cbn [bind].
      rewrite (dict_set_middle k v r p a2 Hk Hnp).
      specialize (IH' r). rewrite <- !app_assoc in IH'. exact IH'.
    + cbn [app]. specialize (IH' v). rewrite <- !app_assoc in IH'. exact IH'.
  - cbn [app]. specialize (IH' v). rewrite <- !app_assoc in IH'. exact IH'.
Qed.

Lemma patch_added_phase (ad : dict) :
  forall a1 : dict,
    forallb hashable (dict_keys ad) = true ->
    NoDup (dict_keys a1 ++ dict_keys ad) ->
    (forall k, In k (dict_keys ad) -> k <> VSym delete) ->
    for_each dict_patch_step ad a1 = Ok (a1 ++ ad).
Proof.
  induction ad as [|[k v] ad IH]; intros a1 Hh Hnd Hd.
  - simpl. now rewrite app_nil_r.
  - cbn [dict_keys map fst forallb] in Hh, Hnd.
    apply andb_true_iff in Hh as [Hk Hh].
    assert (G : dict_get k a1 = None).
    { apply dict_get_None; auto. apply NoDup_remove_2 in Hnd.
      intros Hin. apply Hnd, in_or_app. now left. }
    cbn [for_each]. unfold dict_patch_step at 1. cbn [fst snd].
    assert (Ed : py_eq k (VSym delete) = false).
    { apply py_eq_hashable_neq; auto. apply Hd. now left. }
    rewrite Ed, G. cbn [py_eq Symbol_eqb bind].
    rewrite (dict_set_absent _ _ _ G), IH; auto.
    + now rewrite <- app_assoc.
    + unfold dict_keys. rewrite map_app, <- app_assoc. exact Hnd.
    + intros k' Hk'. apply Hd. now right.
Qed.

Lemma filter_filter_and {A : Type} (p q : A -> bool) (l : list A) :
  filter q (filter p l) = filter (fun x => p x && q x) l.
Proof.
  induction l as [|x l IH]; simpl; [reflexivity|].
  destruct (p x); simpl; [destruct (q x)|]; now rewrite IH.
Qed.

Lemma patch_delete_phase (ks : list value) :
  forall a2 : dict,
    forallb hashable ks = true -> NoDup ks -> incl ks (dict_keys a2) ->
    for_each (fun a kdel => dict_del kdel a) ks a2 = Ok (without_keys ks a2).
Proof.
  induction ks as [|k ks IH]; intros a2 Hh Hnd Hin.
  - simpl. unfold without_keys. simpl.
    f_equal. clear. induction a2 as [|x a2 IHa]; simpl; [reflexivity|].
    f_equal. exact IHa.
  - cbn [forallb] in Hh. apply andb_true_iff in Hh as [Hk Hh].
    inversion Hnd as [|? ? Hn Hnd']; subst.
    cbn [for_each]. unfold dict_del at 1. rewrite Hk. cbn [negb].
    assert (Hm : dict_mem k a2 = true).
    { apply dict_mem_In; auto. apply Hin. now left. }
    rewrite Hm. cbn [bind]. rewrite IH; auto.
    + unfold without_keys, dict_remove. now rewrite filter_filter_and.
    + intros k' Hk'. apply dict_keys_remove; auto. split.
      * apply Hin. now right.
      * intros ->. contradiction.
Qed.

Lemma without_keys_In (ks : list value) (d : dict) (k v : value) :
  forallb hashable ks = true ->
  (In (k, v) (without_keys ks d) <-> In (k, v) d /\ ~ In k ks).
Proof.
  intros Hh. unfold without_keys. rewrite filter_In. cbn [fst].
  rewrite forallb_forall. rewrite forallb_forall in Hh.
  split; intros [H1 H2]; split; auto.
  - intros Hin. specialize (H2 k Hin). apply negb_true_iff in H2.
    rewrite py_eq_refl_hashable in H2; auto. discriminate.
  - intros k' Hk'. apply negb_true_iff. apply py_eq_hashable_neq; auto.
    intros ->. contradiction.
Qed.

Lemma map_removed_keys (a b : dict) (k : value) :
  forallb hashable (dict_keys a) = true ->
  (In k (dict_keys (map_removed a b))
   <-> In k (dict_keys a) /\ dict_get k b = None).
Proof.
  intros Hh. unfold dict_keys at 1, map_removed. rewrite in_map_iff. split.
  - intros [[k' v] [<- H]]. apply filter_In in H as [Hin Hm]. cbn [fst] in *.
    split; [now apply (in_map fst) in Hin|].
    unfold dict_mem in Hm. now destruct (dict_get k' b).
  - intros [Hin G]. unfold dict_keys in Hin. apply in_map_iff in Hin.
    destruct Hin as [[k' v] [<- Hin]]. exists (k', v). split; [reflexivity|].
    apply filter_In. split; [exact Hin|]. cbn [fst] in *.
    unfold dict_mem. now rewrite G.
Qed.

Lemma patch_dict_result sim (a b : dict) :
  wf (VDict a) = true -> wf (VDict b) = true ->
  plain_keys a -> plain_keys b ->
  (forall k v, In (k, v) a -> py_eq v (VSym missing) = false) ->
  (forall k v w, In (k, v) a -> dict_get k b = Some w ->
                 exists r, CompactJsonDiffSyntax.patch v (fst (sim v w)) = Ok r) ->
  for_each dict_patch_step
           (map_changed sim a b ++ map_added a b
                        ++ delete_keys_entry (map_removed a b)) a
  = Ok (without_keys (dict_keys (map_removed a b))
                     (map (patched sim b) a ++ map_added a b)).
Proof.
  intros Hwa Hwb Hpa Hpb Hmiss Hpatch.
  destruct (wf_dict_inv a Hwa) as (Hha & Hna & _).
  destruct (wf_dict_inv b Hwb) as (Hhb & Hnb & _).
  rewrite for_each_app.
  assert (P1 : for_each dict_patch_step (map_changed sim a b) a
               = Ok (map (patched sim b) a)).
  { apply (patch_changed_phase sim b a []); auto.
    intros k v Hin. split; [|split].
    - apply Hpa. now apply (in_map fst) in Hin.
    - eapply Hmiss. exact Hin.
    - intros w G. eapply Hpatch; eauto. }
  rewrite P1. cbn [bind]. rewrite for_each_app.
  assert (Hk1 : dict_keys (map (patched sim b) a) = dict_keys a).
  { unfold dict_keys. rewrite map_map. apply map_ext. apply patched_key. }
  rewrite patch_added_phase.
  2:{ now apply hashable_keys_filter. }
  2:{ rewrite Hk1. apply NoDup_app; auto.
      - now apply keys_filter_NoDup.
      - intros k Hk Hk'. now apply (map_added_fresh a b k Hhb) in Hk'. }
  2:{ intros k Hk. apply Hpb. eapply keys_filter_In. exact Hk. }
  cbn [bind]. unfold delete_keys_entry.
  destruct (map_removed a b) as [|kv rm] eqn:E.
  - cbn [for_each dict_keys map]. unfold without_keys. cbn [forallb].
    f_equal. generalize (map (patched sim b) a ++ map_added a b). clear.
    induction l as [|x l IH]; simpl; [reflexivity|]. f_equal. exact IH.
  - cbn [for_each]. unfold dict_patch_step. cbn [fst snd py_eq Symbol_eqb].
    cbn [py_iter bind]. rewrite <- E.
    rewrite patch_delete_phase.
    + reflexivity.
    + now apply hashable_keys_filter.
    + now apply keys_filter_NoDup.
    + intros k Hk. unfold dict_keys. rewrite map_app. apply in_or_app. left.
      fold (dict_keys (map (patched sim b) a)). rewrite Hk1.
      eapply keys_filter_In. exact Hk.
Qed.

Lemma patch_dict_equal sim (a b : dict) :
  wf (VDict a) = true -> wf (VDict b) = true ->
  (forall k v w, In (k, v) a -> dict_get k b = Some w ->
                 (snd (sim v w) <= 1)%Q
                 /\ ((snd (sim v w) == 1)%Q -> py_eq v w = true)
                 /\ exists r, CompactJsonDiffSyntax.patch v (fst (sim v w)) = Ok r
                              /\ py_eq r w = true) ->
  py_eq (VDict (without_keys (dict_keys (map_removed a b))
                             (map (patched sim b) a ++ map_added a b)))
        (VDict b) = true.
Proof.
  intros Hwa Hwb H.
  destruct (wf_dict_inv a Hwa) as (Hha & Hna & _).
  destruct (wf_dict_inv b Hwb) as (Hhb & Hnb & Hvb).
  set (ks := dict_keys (map_removed a b)).
  set (a1 := map (patched sim b) a ++ map_added a b).
  assert (Hks : forallb hashable ks = true) by now apply hashable_keys_filter.
  assert (Hk1 : dict_keys (map (patched sim b) a) = dict_keys a).
  { unfold dict_keys. rewrite map_map. apply map_ext. apply patched_key. }
  assert (Hent : forall k v', In (k, v') (without_keys ks a1) ->
                   exists w, dict_get k b = Some w /\ py_eq v' w = true).
  { intros k v' Hin. apply without_keys_In in Hin as [Hin Hnk]; auto.
    apply in_app_or in Hin as [Hin|Hin].
    - apply in_map_iff in Hin as [[k0 v0] [E Hin0]].
      assert (Ek : k = k0).
      { pose proof (patched_key sim b (k0, v0)) as Ek. now rewrite E in Ek. }
      subst k0.
      destruct (dict_get k b) as [w|] eqn:G.
      + exists w. split; [reflexivity|].
        destruct (H k v0 w Hin0 G) as (S1 & Heq & r & Hr & Hrw).
        unfold patched in E. cbn [fst snd] in E. rewrite G in E.
        destruct (Qlt_bool (snd (sim v0 w)) 1) eqn:El.
        * rewrite Hr in E. injection E as <-. exact Hrw.
        * injection E as <-. apply Heq. apply Qlt_bool_false in El.
          now apply Qle_antisym.
      + exfalso. apply Hnk. apply map_removed_keys; auto. split; auto.
        now apply (in_map fst) in Hin0.
    - apply filter_In in Hin as [Hin _]. exists v'. split.
      + now apply dict_get_distinct.
      + apply py_eq_refl. now apply (Hvb k v'). }
  assert (Hin' : forall k, In k (dict_keys b) ->
                           In k (dict_keys (without_keys ks a1))).
  { intros k Hk. unfold dict_keys in Hk. apply in_map_iff in Hk.
    destruct Hk as [[k0 w] [<- Hkw]]. cbn [fst].
    assert (Hkh : hashable k0 = true).
    { rewrite forallb_forall in Hhb. apply Hhb.
      now apply (in_map fst) in Hkw. }
    assert (Hnr : ~ In k0 ks).
    { intros Hr. apply map_removed_keys in Hr as [_ G]; auto.
      rewrite (dict_get_distinct k0 w b Hhb Hnb Hkw) in G. discriminate. }
    destruct (dict_mem k0 a) eqn:Hm.
    - apply dict_mem_In in Hm; auto. unfold dict_keys in Hm.
      apply in_map_iff in Hm as [[k1 v1] [E1 Hin1]]. cbn [fst] in E1. subst k1.
      unfold dict_keys. apply in_map_iff.
      exists (patched sim b (k0, v1)). split; [apply patched_key|].
      rewrite (surjective_pairing (patched sim b (k0, v1))).
      apply without_keys_In; auto. rewrite patched_key. cbn [fst].
      split; [|exact Hnr].
      rewrite <- (patched_key sim b (k0, v1)) at 1.
      rewrite <- surjective_pairing. apply in_or_app. left.
      now apply in_map.
    - unfold dict_keys. apply in_map_iff. exists (k0, w). split; [reflexivity|].
      apply without_keys_In; auto. split; [|exact Hnr].
      apply in_or_app. right. apply filter_In. split; [exact Hkw|].
      cbn [fst]. now rewrite Hm. }
  cbn [py_eq]. apply andb_true_iff. split.
  - apply Nat.eqb_eq.
    rewrite <- (length_map fst (without_keys ks a1)), <- (length_map fst b).
    apply Nat.le_antisymm.
    + apply NoDup_incl_length.
      * apply keys_filter_NoDup. unfold a1, dict_keys. rewrite map_app.
        fold (dict_keys (map (patched sim b) a)). rewrite Hk1.
        apply NoDup_app; auto.
        -- now apply keys_filter_NoDup.
        -- intros k Hk Hk'. now apply (map_added_fresh a b k Hhb) in Hk'.
      * intros k Hk. apply in_map_iff in Hk as [[k0 v0] [<- Hin]].
        destruct (Hent _ _ Hin) as (w & G & _). cbn [fst].
        apply dict_get_Some_key in G.
        -- now apply (in_map fst) in G.
        -- apply without_keys_In in Hin as [Hin _]; auto.
           assert (Hall : forallb hashable (dict_keys a1) = true).
           { unfold a1, dict_keys. rewrite map_app, forallb_app.
             fold (dict_keys (map (patched sim b) a)). rewrite Hk1, Hha.
             now apply hashable_keys_filter. }
           rewrite forallb_forall in Hall. apply Hall.
           now apply (in_map fst) in Hin.
    + apply NoDup_incl_length; auto.
  - apply forallb_forall. intros [k v'] Hin. cbn [fst snd].
    destruct (Hent _ _ Hin) as (w & G & Hw).
    change (assoc_by (fun k' => py_eq k k') b) with (dict_get k b).
    now rewrite G.
Qed.

(** ** Scores of dicts *)

Lemma Qsum_bounds (l : list Q) :
  (forall x, In x l -> (0 <= x <= 1)%Q) ->
  (0 <= Qsum l <= Q_of_nat (length l))%Q
  /\ ((Qsum l == Q_of_nat (length l))%Q -> forall x, In x l -> (x == 1)%Q).
Proof.
  induction l as [|x l IH]; intros Hl.
  - unfold Q_of_nat, inject_Z. simpl. split; [lra|]. intros _ x [].
  - destruct IH as [[L U] E]; [intros; apply Hl; now right|].
    destruct (Hl x (or_introl eq_refl)) as [X0 X1].
    cbn [Qsum length]. pose proof (Q_of_nat_S (length l)) as HS.
    split; [lra|]. intros Heq y [<-|Hy].
    + lra.
    + apply E; [lra|exact Hy].
Qed.

Lemma Qsum_ones (l : list Q) :
  (forall x, In x l -> (x == 1)%Q) -> (Qsum l == Q_of_nat (length l))%Q.
Proof.
  induction l as [|x l IH]; intros Hl.
  - reflexivity.
  - cbn [Qsum length]. rewrite Q_of_nat_S.
    rewrite IH by (intros; apply Hl; now right).
    rewrite (Hl x (or_introl eq_refl)). ring.
Qed.

Lemma map_matched_In (a b : dict) (k v : value) :
  In (k, v) (map_matched a b)
  <-> In (k, v) a /\ exists w, dict_get k b = Some w.
Proof.
  unfold map_matched. rewrite filter_In. cbn [fst]. unfold dict_mem.
  destruct (dict_get k b) as [w|]; split; intros [H1 H2]; split; eauto;
    try discriminate. now destruct H2.
Qed.

Lemma map_split_length (a b : dict) :
  (length (map_removed a b) + length (map_matched a b) = length a)%nat.
Proof.
  unfold map_removed, map_matched. induction a as [|kv a IH]; simpl; auto.
  destruct (dict_mem (fst kv) b); simpl; lia.
Qed.

Lemma map_similarity_facts sim (a b : dict) :
  (forall k v w, In (k, v) a -> dict_get k b = Some w ->
                 (0 <= snd (sim v w) <= 1)%Q) ->
  (0 <= map_similarity sim a b <= 1)%Q
  /\ ((map_similarity sim a b == 1)%Q ->
      map_removed a b = [] /\ map_added a b = []
      /\ forall k v w, In (k, v) a -> dict_get k b = Some w ->
                       (snd (sim v w) == 1)%Q).
Proof.
  intros Hb. unfold map_similarity, matched_weight.
  set (ws := map (fun kv => match dict_get (fst kv) b with
                            | Some w => ((1 # 2) + (1 # 2) * snd (sim (snd kv) w))%Q
                            | None => 0%Q
                            end) (map_matched a b)).
  assert (Hws : forall x, In x ws -> (0 <= x <= 1)%Q).
  { intros x Hx. apply in_map_iff in Hx as [[k v] [<- Hin]]. cbn [fst snd].
    apply map_matched_In in Hin as [Hin [w G]]. rewrite G.
    destruct (Hb k v w Hin G). lra. }
  destruct (Qsum_bounds ws Hws) as [[L U] E].
  assert (Hlen : length ws = length (map_matched a b)) by apply length_map.
  rewrite Hlen in U, E.
  set (nr := length (map_removed a b)) in *.
  set (nm := length (map_matched a b)) in *.
  set (na := length (map_added a b)) in *.
  pose proof (Q_of_nat_le nm (nr + nm + na) ltac:(lia)) as Hle.
  destruct (Nat.eqb_spec (nr + nm + na) 0) as [E0|E0].
  - split; [lra|]. intros _.
    assert (nr = 0 /\ nm = 0 /\ na = 0)%nat as (R0 & M0 & A0) by lia.
    apply length_zero_iff_nil in R0, A0. split; [exact R0|split; [exact A0|]].
    intros k v w Hin G. exfalso.
    assert (Hm : In (k, v) (map_matched a b)).
    { apply map_matched_In. eauto. }
    apply length_zero_iff_nil in M0. rewrite M0 in Hm. destruct Hm.
  - fold (Q_of_nat (nr + nm + na)).
    assert (Hpos : (0 < Q_of_nat (nr + nm + na))%Q).
    { change 0%Q with (Q_of_nat 0). apply Q_of_nat_lt. lia. }
    split; [apply Qdiv_unit_bounds; auto; lra|].
    intros H1. apply Qdiv_eq_one in H1; auto.
    assert (Hnm : (Q_of_nat (nr + nm + na) <= Q_of_nat nm)%Q) by lra.
    unfold Q_of_nat in Hnm. rewrite <- Zle_Qle in Hnm.
    assert (nr = 0 /\ na = 0)%nat as (R0 & A0) by lia.
    split; [now apply length_zero_iff_nil|].
    split; [now apply length_zero_iff_nil|].
    intros k v w Hin G.
    assert (Hx : ((1 # 2) + (1 # 2) * snd (sim v w) == 1)%Q).
    { apply E.
      - rewrite H1, R0, A0. now rewrite Nat.add_0_r.
      - apply in_map_iff. exists (k, v). cbn [fst snd]. rewrite G.
        split; [reflexivity|]. apply map_matched_In. eauto. }
    lra.
Qed.

Lemma filter_nil_forall {A : Type} (p : A -> bool) (l : list A) :
  filter p l = [] -> forall x, In x l -> p x = false.
Proof.
  intros H x Hx. destruct (p x) eqn:E; [|reflexivity].
  assert (Hin : In x (filter p l)) by (apply filter_In; auto).
  rewrite H in Hin. destruct Hin.
Qed.

Lemma forall_filter_nil {A : Type} (p : A -> bool) (l : list A) :
  (forall x, In x l -> p x = false) -> filter p l = [].
Proof.
  induction l as [|x l IH]; simpl; intros H; [reflexivity|].
  rewrite (H x (or_introl eq_refl)). apply IH. intros; apply H. now right.
Qed.

Lemma dict_all_matched_eq (a b : dict) :
  wf (VDict a) = true -> wf (VDict b) = true ->
  map_removed a b = [] -> map_added a b = [] ->
  (forall k v w, In (k, v) a -> dict_get k b = Some w -> py_eq v w = true) ->
  py_eq (VDict a) (VDict b) = true.
Proof.
  intros Hwa Hwb Hr Had Hv.
  destruct (wf_dict_inv a Hwa) as (Hha & Hna & _).
  destruct (wf_dict_inv b Hwb) as (Hhb & Hnb & _).
  assert (Hab : forall k v, In (k, v) a -> exists w, dict_get k b = Some w).
  { intros k v Hin. pose proof (filter_nil_forall _ _ Hr (k, v) Hin) as Hm.
    cbn [fst] in Hm. apply negb_false_iff in Hm. unfold dict_mem in Hm.
    destruct (dict_get k b) as [w|]; [eauto|discriminate]. }
  cbn [py_eq]. apply andb_true_iff. split.
  - apply Nat.eqb_eq. rewrite <- (length_map fst a), <- (length_map fst b).
    apply Nat.le_antisymm; apply NoDup_incl_length; auto.
    + intros k Hk. apply in_map_iff in Hk as [[k0 v0] [<- Hin]]. cbn [fst].
      destruct (Hab _ _ Hin) as [w G].
      apply dict_get_Some_key in G.
      * now apply (in_map fst) in G.
      * rewrite forallb_forall in Hha. apply Hha.
        now apply (in_map fst) in Hin.
    + intros k Hk. apply in_map_iff in Hk as [[k0 w0] [<- Hin]]. cbn [fst].
      pose proof (filter_nil_forall _ _ Had (k0, w0) Hin) as Hm.
      cbn [fst] in Hm. apply negb_false_iff in Hm.
      apply dict_mem_In in Hm; auto.
      rewrite forallb_forall in Hhb. apply Hhb. now apply (in_map fst) in Hin.
  - apply forallb_forall. intros [k v] Hin. cbn [fst snd].
    change (assoc_by (fun k' => py_eq k k') b) with (dict_get k b).
    destruct (Hab _ _ Hin) as [w G]. rewrite G. eapply Hv; eauto.
Qed.

Lemma dict_eq_all_matched (a b : dict) :
  wf (VDict a) = true -> wf (VDict b) = true ->
  py_eq (VDict a) (VDict b) = true ->
  map_removed a b = [] /\ map_added a b = []
  /\ forall k v, In (k, v) a ->
                 exists w, dict_get k b = Some w /\ py_eq v w = true.
Proof.
  intros Hwa Hwb Heq.
  destruct (wf_dict_inv a Hwa) as (Hha & Hna & _).
  destruct (wf_dict_inv b Hwb) as (Hhb & Hnb & _).
  cbn [py_eq] in Heq. apply andb_true_iff in Heq as [Hlen Hall].
  apply Nat.eqb_eq in Hlen. rewrite forallb_forall in Hall.
  assert (Hab : forall k v, In (k, v) a ->
                            exists w, dict_get k b = Some w /\ py_eq v w = true).
  { intros k v Hin. specialize (Hall _ Hin). cbn [fst snd] in Hall.
    change (assoc_by (fun k' => py_eq k k') b) with (dict_get k b) in Hall.
    destruct (dict_get k b) as [w|]; [eauto|discriminate]. }
  assert (Hincl : incl (dict_keys a) (dict_keys b)).
  { intros k Hk. apply in_map_iff in Hk as [[k0 v0] [<- Hin]]. cbn [fst].
    destruct (Hab _ _ Hin) as (w & G & _).
    apply dict_get_Some_key in G.
    - now apply (in_map fst) in G.
    - rewrite forallb_forall in Hha. apply Hha. now apply (in_map fst) in Hin. }
  split; [|split; [|exact Hab]].
  - apply forall_filter_nil. intros [k v] Hin. cbn [fst].
    destruct (Hab _ _ Hin) as (w & G & _). unfold dict_mem. now rewrite G.
  - apply forall_filter_nil. intros [k w] Hin. cbn [fst].
    apply negb_false_iff. apply dict_mem_In.
    + rewrite forallb_forall in Hhb. apply Hhb. now apply (in_map fst) in Hin.
    + apply (@NoDup_length_incl _ (dict_keys a) (dict_keys b) Hna); auto.
      * unfold dict_keys. rewrite !length_map. lia.
      * now apply (in_map fst) in Hin.
Qed.

Lemma map_similarity_one sim (a b : dict) :
  map_removed a b = [] -> map_added a b = [] ->
  (forall k v w, In (k, v) a -> dict_get k b = Some w ->
                 (snd (sim v w) == 1)%Q) ->
  (map_similarity sim a b == 1)%Q.
Proof.
  intros Hr Had Hs. unfold map_similarity, matched_weight.
  rewrite Hr, Had. cbn [length Nat.add]. rewrite Nat.add_0_r.
  destruct (Nat.eqb_spec (length (map_matched a b)) 0) as [E|E];
    [reflexivity|].
  rewrite Qsum_ones.
  - rewrite length_map. apply Qmult_inv_r. intros H0.
    assert (Hlt : (Q_of_nat 0 < Q_of_nat (length (map_matched a b)))%Q)
      by (apply Q_of_nat_lt; lia).
    change (inject_Z (Z.of_nat (length (map_matched a b))))
      with (Q_of_nat (length (map_matched a b))) in H0.
    rewrite H0 in Hlt. now apply Qlt_irrefl in Hlt.
  - intros x Hx. apply in_map_iff in Hx as [[k v] [<- Hin]]. cbn [fst snd].
    apply map_matched_In in Hin as [Hin [w G]]. rewrite G.
    rewrite (Hs k v w Hin G). reflexivity.
Qed.

(** ** Scores of sets *)

Lemma insert_desc_In {A : Type} (key : A -> Q) (x y : A) (l : list A) :
  In y (insert_desc key x l) -> y = x \/ In y l.
Proof.
  induction l as [|z l IH]; simpl.
  - intros [<-|[]]. now left.
  - destruct (Qlt_bool (key x) (key z)); simpl.
    + intros [<-|H]; [right; now left|]. destruct (IH H); auto.
    + intros [<-|[<-|H]]; auto.
Qed.

Lemma sorted_desc_In {A : Type} (key : A -> Q) (y : A) (l : list A) :
  In y (sorted_desc key l) -> In y l.
Proof.
  unfold sorted_desc. induction l as [|x l IH]; simpl; [auto|].
  intros H. apply insert_desc_In in H as [->|H]; auto.
Qed.

Lemma pair_ranking_In sim (removed added : list value) s x y :
  In (s, x, y) (pair_ranking sim removed added) ->
  In x removed /\ In y added /\ s = snd (sim x y).
Proof.
  intros H. apply sorted_desc_In in H. apply in_flat_map in H as [x' [Hx H]].
  apply in_map_iff in H as [y' [[= <- <- <-] Hy]]. auto.
Qed.

Lemma greedy_matches_In ranking :
  forall (r2 a2 : list value) t,
    In t (greedy_matches ranking r2 a2) -> In t ranking.
Proof.
  induction ranking as [|[[s x] y] rest IH]; intros r2 a2 t; simpl; [auto|].
  destruct (JsonDiffer.is_empty r2 || JsonDiffer.is_empty a2); [intros []|].
  destruct (set_mem x r2 && set_mem y a2).
  - intros [<-|H]; [now left|right; eauto].
  - intros H. right. eauto.
Qed.

Lemma set_discard_length (x : value) (s : list value) :
  set_mem x s = true -> (length (set_discard x s) < length s)%nat.
Proof.
  unfold set_mem, set_discard. induction s as [|y s IH]; simpl; [discriminate|].
  destruct (py_eq x y); simpl.
  - intros _. pose proof (filter_length_le (fun y => negb (py_eq x y)) s). lia.
  - intros H. apply IH in H. lia.
Qed.

Lemma greedy_matches_length ranking :
  forall (r2 a2 : list value),
    (length (greedy_matches ranking r2 a2) <= length r2)%nat.
Proof.
  induction ranking as [|[[s x] y] rest IH]; intros r2 a2; simpl; [lia|].
  destruct (JsonDiffer.is_empty r2 || JsonDiffer.is_empty a2); [simpl; lia|].
  destruct (set_mem x r2 && set_mem y a2) eqn:E; [|apply IH].
  apply andb_true_iff in E as [E _]. apply set_discard_length in E.
  simpl. specialize (IH (set_discard x r2) (set_discard y a2)). lia.
Qed.

Lemma set_difference_In (a b : list value) (x : value) :
  In x (set_difference a b) -> In x a.
Proof. unfold set_difference. intros H. now apply filter_In in H. Qed.

Lemma set_similarity_facts sim (a b : list value) :
  (forall x y, In x a -> In y b -> (0 <= snd (sim x y) <= 1)%Q) ->
  set_difference a b <> [] \/ set_difference b a <> [] ->
  (0 <= set_similarity sim a b < 1)%Q.
Proof.
  intros Hb Hne. unfold set_similarity, s_common_greedy.
  set (removed := set_difference a b) in *.
  set (added := set_difference b a) in *.
  set (ms := greedy_matches (pair_ranking sim removed added) removed added).
  assert (Hms : forall x, In x (map (fun t => fst (fst t)) ms) ->
                          (0 <= x <= 1)%Q).
  { intros q Hq. apply in_map_iff in Hq as [[[s x] y] [<- Hin]]. cbn [fst].
    apply greedy_matches_In, pair_ranking_In in Hin as (Hx & Hy & ->).
    apply Hb; eapply set_difference_In; eauto. }
  destruct (Qsum_bounds _ Hms) as [[L U] _]. rewrite length_map in U.
  pose proof (greedy_matches_length (pair_ranking sim removed added)
                                    removed added) as Hlen.
  fold ms in Hlen.
  assert (Hra : (length removed <= length a)%nat)
    by apply filter_length_le.
  fold (Q_of_nat (length a - length removed)).
  fold (Q_of_nat (length a + length added)).
  assert (Hnum : (Q_of_nat (length a - length removed)
                  + Q_of_nat (length ms) <= Q_of_nat (length a))%Q).
  { rewrite <- Q_of_nat_plus. apply Q_of_nat_le. lia. }
  assert (H0 : (0 <= Q_of_nat (length a - length removed))%Q).
  { change 0%Q with (Q_of_nat 0). apply Q_of_nat_le. lia. }
  assert (Hlt : (Q_of_nat (length a - length removed)
                 + Qsum (map (fun t => fst (fst t)) ms)
                 < Q_of_nat (length a + length added))%Q).
  { destruct added as [|y ad] eqn:Ea.
    - assert (Hr : removed <> []) by (destruct Hne; congruence).
      assert (Hms0 : ms = []).
      { unfold ms, pair_ranking.
        replace (flat_map _ removed) with (@nil (Q * value * value));
          [reflexivity|].
        clear. induction removed; simpl; auto. }
      rewrite Hms0. cbn [map Qsum length]. rewrite Nat.add_0_r, Qplus_0_r.
      apply Q_of_nat_lt. destruct removed; [congruence|]. simpl in *. lia.
    - eapply Qle_lt_trans; [|apply (Q_of_nat_lt (length a)); simpl; lia].
      lra. }
  assert (Hpos : (0 < Q_of_nat (length a + length added))%Q) by lra.
  split.
  - apply Qle_shift_div_l; [exact Hpos|]. lra.
  - now apply Qdiv_lt_one.
Qed.

(** ** Equality and patching of sets *)

Lemma set_eq_intro (l1 l2 : list value) :
  forallb hashable l1 = true -> NoDup l1 -> NoDup l2 ->
  (forall x, In x l1 <-> In x l2) ->
  py_eq (VSet l1) (VSet l2) = true.
Proof.
  intros Hh H1 H2 Hiff. cbn [py_eq]. apply andb_true_iff. split.
  - apply Nat.eqb_eq. apply Nat.le_antisymm; apply NoDup_incl_length; auto;
      intros x Hx; now apply Hiff.
  - apply forallb_forall. intros x Hx. rewrite forallb_forall in Hh.
    apply (set_mem_In x l2 (Hh x Hx)). now apply Hiff.
Qed.

Lemma set_difference_spec (a b : list value) (x : value) :
  forallb hashable a = true ->
  (In x (set_difference a b) <-> In x a /\ ~ In x b).
Proof.
  intros Hh. unfold set_difference. rewrite filter_In, negb_true_iff.
  rewrite forallb_forall in Hh. split; intros [H1 H2]; split; auto.
  - now apply set_mem_not_In; auto.
  - apply set_mem_not_In; auto.
Qed.

Lemma set_eq_elim (a b : list value) :
  wf (VSet a) = true -> wf (VSet b) = true ->
  py_eq (VSet a) (VSet b) = true ->
  set_difference a b = [] /\ set_difference b a = [].
Proof.
  intros Hwa Hwb Heq.
  destruct (wf_set_inv a Hwa) as (Hha & Hna & _).
  destruct (wf_set_inv b Hwb) as (Hhb & Hnb & _).
  cbn [py_eq] in Heq. apply andb_true_iff in Heq as [Hlen Hall].
  apply Nat.eqb_eq in Hlen. rewrite forallb_forall in Hall.
  assert (Hab : incl a b).
  { intros x Hx. apply set_mem_In; [|now apply Hall].
    rewrite forallb_forall in Hha. now apply Hha. }
  assert (Hba : incl b a).
  { apply (@NoDup_length_incl _ a b Hna); auto. lia. }
  split; apply forall_filter_nil; intros x Hx; apply negb_false_iff.
  - apply set_mem_In; auto. rewrite forallb_forall in Hha. now apply Hha.
  - apply set_mem_In; auto. rewrite forallb_forall in Hhb. now apply Hhb.
Qed.

Lemma fold_set_discard (ds : list value) :
  forall s x,
    forallb hashable ds = true ->
    (In x (fold_left (fun s d => set_discard d s) ds s)
     <-> In x s /\ ~ In x ds)
    /\ (NoDup s -> NoDup (fold_left (fun s d => set_discard d s) ds s)).
Proof.
  induction ds as [|d ds IH]; intros s x Hh; simpl.
  - split; [tauto|auto].
  - apply andb_true_iff in Hh as [Hd Hh].
    destruct (IH (set_discard d s) x Hh) as [I1 I2]. split.
    + rewrite I1. unfold set_discard. rewrite filter_In, negb_true_iff.
      rewrite (py_eq_hashable_neq d x Hd). intuition congruence.
    + intros Hn. apply I2. now apply NoDup_filter.
Qed.

Lemma fold_set_add (adds : list value) :
  forall s x,
    forallb hashable adds = true ->
    (In x (fold_left (fun s d => set_add d s) adds s) <-> In x s \/ In x adds)
    /\ (NoDup s -> NoDup (fold_left (fun s d => set_add d s) adds s)).
Proof.
  induction adds as [|d adds IH]; intros s x Hh; simpl.
  - split; [tauto|auto].
  - apply andb_true_iff in Hh as [Hd Hh].
    destruct (IH (set_add d s) x Hh) as [I1 I2].
    unfold set_add in *. destruct (set_mem d s) eqn:Em.
    + apply set_mem_In in Em; auto. split.
      * rewrite I1. intuition (subst; auto).
      * exact I2.
    + apply set_mem_not_In in Em; auto. split.
      * rewrite I1, in_app_iff. simpl. tauto.
      * intros Hn. apply I2. apply NoDup_app; auto.
        -- repeat constructor. intros [].
        -- intros y Hy [<-|[]]. contradiction.
Qed.

Lemma patch_set_result (a : list value) (items : dict) (ds adds : list value) :
  items <> [] -> dict_get (VSym replace) items = None ->
  marker_elems discard items = Some ds ->
  marker_elems add items = Some adds ->
  CompactJsonDiffSyntax.patch (VSet a) (VDict items)
  = Ok (VSet (fold_left (fun s x => set_add x s) adds
                        (fold_left (fun s x => set_discard x s) ds a))).
Proof.
  intros Hne Hr Hd Ha. destruct items as [|it items]; [congruence|].
  set (its := it :: items) in *.
  cbn [CompactJsonDiffSyntax.patch]. fold its. rewrite Hr.
  unfold marker_elems in Hd, Ha.
  assert (H1 : match dict_get (VSym discard) its with
               | Some v => xs <- py_iter v ;; for_each set_discard_op xs a
               | None => Ok a
               end = Ok (fold_left (fun s x => set_discard x s) ds a)).
  { destruct (dict_get (VSym discard) its) as [v|].
    - destruct (py_iter v) as [l|]; [|discriminate]. simpl.
      destruct (forallb hashable l) eqn:Hl; [|discriminate].
      injection Hd as <-.
      apply (set_ops_total set_discard l Hl a).
    - now injection Hd as <-. }
  rewrite H1. cbn [bind].
  destruct (dict_get (VSym add) its) as [v|].
  - destruct (py_iter v) as [l|]; [|discriminate]. cbn [bind].
    destruct (forallb hashable l) eqn:Hl; [|discriminate].
    injection Ha as <-.
    unfold set_add_op.
    now rewrite (set_ops_total set_add l Hl).
  - now injection Ha as <-.
Qed.

(** ** The delta of two values *)

Lemma patch_empty (a : value) :
  CompactJsonDiffSyntax.patch a (VDict []) = Ok a.
Proof. reflexivity. Qed.

Lemma patch_replacement (a b : value) :
  CompactJsonDiffSyntax.patch a (CompactJsonDiffSyntax.replacement b) = Ok b.
Proof.
  unfold CompactJsonDiffSyntax.replacement.
  destruct b; try reflexivity.
Qed.

Lemma diff_ok_same (a : value) :
  wf a = true -> diff_ok a a (VDict [], 1%Q).
Proof.
  intros Hwf. pose proof (py_eq_refl a Hwf) as Hr.
  split; [cbn; lra|split; [|split]].
  - intros _. auto.
  - reflexivity.
  - exists a. split; [apply patch_empty|exact Hr].
Qed.

Lemma diff_ok_equal (a b : value) :
  py_eq a b = true -> diff_ok a b (VDict [], 1%Q).
Proof.
  intros Hr.
  split; [cbn; lra|split; [|split]].
  - intros _. auto.
  - reflexivity.
  - exists a. split; [apply patch_empty|exact Hr].
Qed.

Lemma diff_ok_replace (a b : value) :
  wf b = true -> py_eq a b = false ->
  diff_ok a b (CompactJsonDiffSyntax.replacement b, 0%Q).
Proof.
  intros Hwf Hne.
  split; [cbn; lra|split; [|split]].
  - cbn. intros H. discriminate.
  - congruence.
  - exists b. split; [apply patch_replacement|now apply py_eq_refl].
Qed.

Lemma diff_ok_value (a b : value) :
  wf b = true ->
  diff_ok a b
          (if negb (py_eq a b)
           then (CompactJsonDiffSyntax.emit_value_diff a b 0, 0%Q)
           else (CompactJsonDiffSyntax.emit_value_diff a b 1, 1%Q)).
Proof.
  intros Hwf. destruct (py_eq a b) eqn:E; cbn [negb].
  - now apply diff_ok_equal.
  - now apply diff_ok_replace.
Qed.

Lemma Forall2_impl_In {A B : Type} (P Q : A -> B -> Prop)
      (l1 : list A) (l2 : list B) :
  Forall2 P l1 l2 ->
  (forall x y, In x l1 -> In y l2 -> P x y -> Q x y) ->
  Forall2 Q l1 l2.
Proof.
  induction 1 as [|x y l1 l2 Hxy _ IH]; intros H; constructor.
  - apply H; simpl; auto.
  - apply IH. intros x' y' Hx Hy. apply H; simpl; auto.
Qed.

Lemma _list_diff_eq sim (a0 b0 : value) (X Y : list value) :
  JsonDiffer._list_diff default_options sim a0 b0 X Y
  = (CompactJsonDiffSyntax.emit_list_diff
       a0 b0 (script_score (length X) (edit_script sim X Y))
       (inserted_of (edit_script sim X Y)) (changed_of (edit_script sim X Y))
       (rev (deleted_of (edit_script sim X Y))),
     script_score (length X) (edit_script sim X Y)).
Proof.
  unfold JsonDiffer._list_diff. now rewrite list_diff_parts_eq.
Qed.

Lemma diff_ok_list sim (mk : list value -> value) (X Y : list value) :
  mk = VList \/ mk = VTuple ->
  wf (mk Y) = true ->
  (forall x y, In x X -> In y Y -> diff_ok x y (sim x y)) ->
  diff_ok (mk X) (mk Y)
          (JsonDiffer._list_diff default_options sim (mk X) (mk Y) X Y).
Proof.
  intros Hmk Hwf Hel.
  assert (Hpy : forall L, py_eq (mk L) (mk Y) = seq_eq py_eq L Y)
    by (destruct Hmk as [-> | ->]; reflexivity).
  assert (Hnd : isinstance_dict (mk Y) = false)
    by (destruct Hmk as [-> | ->]; reflexivity).
  assert (HwY : forall y, In y Y -> py_eq y y = true).
  { intros y Hy. apply py_eq_refl.
    assert (H : forallb wf Y = true) by (destruct Hmk as [-> | ->]; exact Hwf).
    rewrite forallb_forall in H. auto. }
  assert (Hb : forall x y, In x X -> In y Y -> (0 <= snd (sim x y) <= 1)%Q).
  { intros x y Hx Hy. apply (Hel x y Hx Hy). }
  destruct (script_score_facts sim X Y Hb) as [HB HE1]. cbv zeta in HB, HE1.
  assert (E1 : (script_score (length X) (edit_script sim X Y) == 1)%Q ->
               py_eq (mk X) (mk Y) = true).
  { intros H1. rewrite Hpy. apply seq_eq_Forall2.
    destruct (HE1 H1) as (F & _ & _).
    apply (Forall2_impl_In _ _ _ _ F). intros x y Hx Hy Hs.
    now apply (Hel x y Hx Hy). }
  rewrite _list_diff_eq. unfold diff_ok. cbn [fst snd].
  split; [exact HB|split; [|split]].
  - intros H1. split; [now apply emit_list_diff_one|now apply E1].
  - intros Heq. rewrite Hpy in Heq. apply seq_eq_Forall2 in Heq.
    assert (F : Forall2 (fun x y => (snd (sim x y) == 1)%Q) X Y).
    { apply (Forall2_impl_In _ _ _ _ Heq). intros x y Hx Hy Hxy.
      now apply (Hel x y Hx Hy). }
    destruct (_list_diff_equal sim (mk X) (mk Y) X Y F Hb) as [_ H1].
    rewrite _list_diff_eq in H1. exact H1.
  - unfold CompactJsonDiffSyntax.emit_list_diff.
    destruct (Qeq_bool _ 0) eqn:E0.
    + exists (mk Y). split; [apply patch_replacement|now apply py_eq_refl].
    + destruct (Qeq_bool _ 1) eqn:E1'.
      * exists (mk X). split; [apply patch_empty|].
        apply E1. now apply Qeq_bool_eq.
      * destruct (patch_seq_partial sim X Y) as (L & HL & HF); auto.
        { intros x y Hx Hy. destruct (Hel x y Hx Hy) as (B1 & B2 & _ & B4).
          split; [apply B1|split; [apply B2|exact B4]]. }
        cbv zeta in HL.
        pose proof (partial_items (edit_script sim X Y)) as Hit.
        cbv beta in Hit.
        match goal with
        | |- exists x, CompactJsonDiffSyntax.patch _ (VDict ?d) = _ /\ _ =>
            replace d with (changed_of (edit_script sim X Y)
                            ++ insert_entry (inserted_of (edit_script sim X Y))
                            ++ delete_entry (rev (deleted_of (edit_script sim X Y))))
        end.
        2:{ rewrite <- Hit. now destruct (rev (deleted_of (edit_script sim X Y))). }
        set (items := changed_of (edit_script sim X Y) ++ _ ++ _) in *.
        destruct items as [|it items'] eqn:Eit.
        -- exists (mk X). split; [apply patch_empty|].
           cbv in HL. injection HL as <-. rewrite Hpy.
           now apply seq_eq_Forall2.
        -- exists (mk L). split.
           ++ assert (Hr : dict_get (VSym replace) (it :: items') = None).
              { rewrite <- Eit. unfold items.
                rewrite !dict_get_app, changed_of_no_marker.
                unfold insert_entry, delete_entry.
                destruct (inserted_of _); destruct (rev (deleted_of _));
                  reflexivity. }
              destruct (patch_list_eq X (it :: items')
                                      ltac:(discriminate) Hr) as [P1 P2].
              destruct Hmk as [-> | ->]; [rewrite P1|rewrite P2];
                rewrite HL; reflexivity.
           ++ rewrite Hpy. now apply seq_eq_Forall2.
Qed.

Lemma In_decidable_hashable (x : value) (l : list value) :
  hashable x = true -> In x l \/ ~ In x l.
Proof.
  intros Hx. destruct (set_mem x l) eqn:E.
  - left. now apply set_mem_In.
  - right. now apply set_mem_not_In.
Qed.

Lemma set_difference_nil_incl (a b : list value) :
  forallb hashable a = true -> set_difference a b = [] -> incl a b.
Proof.
  intros Hh Hd x Hx. pose proof (filter_nil_forall _ _ Hd x Hx) as Hm.
  apply negb_false_iff in Hm. apply set_mem_In; auto.
  rewrite forallb_forall in Hh. auto.
Qed.

Lemma hashable_filter (p : value -> bool) (l : list value) :
  forallb hashable l = true -> forallb hashable (filter p l) = true.
Proof.
  rewrite !forallb_forall. intros H x Hx. apply filter_In in Hx as [Hx _]. auto.
Qed.

Lemma patched_set_equal (a b : list value) :
  wf (VSet a) = true -> wf (VSet b) = true ->
  py_eq (VSet (fold_left (fun s x => set_add x s) (set_difference b a)
                 (fold_left (fun s x => set_discard x s)
                            (set_difference a b) a)))
        (VSet b) = true.
Proof.
  intros Hwa Hwb.
  destruct (wf_set_inv a Hwa) as (Hha & Hna & _).
  destruct (wf_set_inv b Hwb) as (Hhb & Hnb & _).
  set (removed := set_difference a b). set (added := set_difference b a).
  assert (Hhr : forallb hashable removed = true) by now apply hashable_filter.
  assert (Hhd : forallb hashable added = true) by now apply hashable_filter.
  assert (Hiff : forall x,
             In x (fold_left (fun s x => set_add x s) added
                     (fold_left (fun s x => set_discard x s) removed a))
             <-> In x b).
  { intros x.
    rewrite (proj1 (fold_set_add added _ x Hhd)).
    rewrite (proj1 (fold_set_discard removed a x Hhr)).
    unfold removed, added. rewrite !set_difference_spec by assumption.
    split.
    - intros [[Ha Hn]|[Hb _]]; [|exact Hb].
      rewrite forallb_forall in Hha.
      destruct (In_decidable_hashable x b (Hha x Ha)); tauto.
    - intros Hb. rewrite forallb_forall in Hhb.
      destruct (In_decidable_hashable x a (Hhb x Hb)); tauto. }
  apply set_eq_intro; auto.
  - apply forallb_forall. intros x Hx. apply Hiff in Hx.
    rewrite forallb_forall in Hhb. auto.
  - apply (proj2 (fold_set_add added _ VNone Hhd)).
    now apply (proj2 (fold_set_discard removed a VNone Hhr)).
Qed.

Lemma diff_ok_set sim (a b : list value) :
  wf (VSet a) = true -> wf (VSet b) = true ->
  (forall x y, In x a -> In y b -> (0 <= snd (sim x y) <= 1)%Q) ->
  diff_ok (VSet a) (VSet b)
          (JsonDiffer._set_diff default_options sim (VSet b) a b).
Proof.
  intros Hwa Hwb Hb.
  destruct (wf_set_inv a Hwa) as (Hha & Hna & _).
  destruct (wf_set_inv b Hwb) as (Hhb & Hnb & _).
  destruct (JsonDiffer.is_empty (set_difference a b)
            && JsonDiffer.is_empty (set_difference b a)) eqn:Eempty.
  - unfold JsonDiffer._set_diff. rewrite Eempty.
    apply diff_ok_equal.
    apply andb_true_iff in Eempty as [Er Ea].
    assert (Hr : set_difference a b = [])
      by (destruct (set_difference a b); [reflexivity|discriminate]).
    assert (Had : set_difference b a = [])
      by (destruct (set_difference b a); [reflexivity|discriminate]).
    apply set_eq_intro; auto. intros x. split.
    + now apply set_difference_nil_incl.
    + now apply set_difference_nil_incl.
  - assert (Hne : set_difference a b <> [] \/ set_difference b a <> []).
    { destruct (set_difference a b); [|left; discriminate].
      destruct (set_difference b a); [discriminate|right; discriminate]. }
    pose proof (_set_diff_similarity sim (VSet b) a b Hne) as Hs.
    destruct (set_similarity_facts sim a b Hb Hne) as [S0 S1].
    rewrite <- Hs in S0, S1.
    unfold diff_ok. split; [lra|split; [|split]].
    + intros H1. rewrite H1 in S1. now apply Qlt_irrefl in S1.
    + intros Heq. destruct (set_eq_elim a b Hwa Hwb Heq) as [Hr Had].
      destruct Hne; contradiction.
    + clear Hs S0 S1. unfold JsonDiffer._set_diff. rewrite Eempty.
      destruct (JsonDiffer.greedy _ _ _ _ _) as [sc nc]. cbn [fst snd].
      cbn [syntax default_options syn_emit_set_diff compact].
      unfold CompactJsonDiffSyntax.emit_set_diff.
      destruct (Qeq_bool _ 0 || (_ =? _)%nat).
      * exists (VSet b). split; [apply patch_replacement|now apply py_eq_refl].
      * eexists. split; [|apply (patched_set_equal a b Hwa Hwb)].
        assert (Hhr : forallb hashable (set_difference a b) = true)
          by now apply hashable_filter.
        assert (Hhd : forallb hashable (set_difference b a) = true)
          by now apply hashable_filter.
        destruct (set_difference a b) as [|r rs] eqn:Er;
          destruct (set_difference b a) as [|d ds] eqn:Ed.
        -- destruct Hne; congruence.
        -- apply patch_set_result; try reflexivity; try discriminate.
           unfold marker_elems. cbn -[forallb]. now rewrite Hhd.
        -- apply patch_set_result; try reflexivity; try discriminate.
           unfold marker_elems. cbn -[forallb]. now rewrite Hhr.
        -- apply patch_set_result; try reflexivity; try discriminate.
           ++ unfold marker_elems. cbn -[forallb]. now rewrite Hhr.
           ++ unfold marker_elems. cbn -[forallb]. now rewrite Hhd.
Qed.

Lemma plain_not_marker (v : value) (y : Symbol) :
  plain v = true -> isinstance_Symbol v = false /\ py_eq v (VSym y) = false
                    /\ v <> VSym y.
Proof. destruct v; simpl; intros H; try discriminate; repeat split; discriminate. Qed.

Lemma plain_dict_inv (d : dict) :
  plain (VDict d) = true ->
  plain_keys d /\ no_marker_values d
  /\ forall k v, In (k, v) d -> plain k = true /\ plain v = true.
Proof.
  simpl. rewrite forallb_forall. intros H.
  assert (Hkv : forall k v, In (k, v) d -> plain k = true /\ plain v = true).
  { intros k v Hin. apply H in Hin. now apply andb_true_iff in Hin. }
  split; [|split; [|exact Hkv]].
  - intros k y Hk. unfold dict_keys in Hk.
    apply in_map_iff in Hk as [[k0 v0] [<- Hin]].
    apply (plain_not_marker k0 y). now apply (Hkv k0 v0).
  - intros w Hw. apply in_map_iff in Hw as [[k0 v0] [<- Hin]].
    apply (plain_not_marker v0 add). now apply (Hkv k0 v0).
Qed.

Lemma _dict_diff_eq sim (a0 b0 : value) (a b : dict) :
  wf (VDict a) = true -> wf (VDict b) = true -> no_marker_values b ->
  fst (JsonDiffer._dict_diff default_options sim a0 b0 a b)
  = CompactJsonDiffSyntax.emit_dict_diff
      a0 b0 (snd (JsonDiffer._dict_diff default_options sim a0 b0 a b))
      (map_added a b) (map_changed sim a b) (map_removed a b).
Proof.
  intros Hwa Hwb Hb.
  destruct (wf_dict_inv a Hwa) as (Hha & Hna & _).
  destruct (wf_dict_inv b Hwb) as (Hhb & Hnb & _).
  unfold JsonDiffer._dict_diff.
  destruct (dict_step_records sim b Hb a [] O O 0%Q [] Hha Hna Hna)
    as [R1 R2].
  pose proof (added_step_records a b O [] Hhb Hnb) as R3.
  destruct (fold_left (JsonDiffer.dict_step sim b) a _)
    as [[[[rm nr] nm] sm] ch].
  destruct (fold_left (JsonDiffer.added_step a) b _) as [na ad].
  cbn [fst snd app] in *. now subst.
Qed.

Lemma emit_dict_diff_partial sim (a0 b0 : value) (s : Q) (a b : dict) :
  wf (VDict a) = true -> wf (VDict b) = true ->
  plain_keys a -> plain_keys b ->
  Qeq_bool s 0 = false -> Qeq_bool s 1 = false ->
  CompactJsonDiffSyntax.emit_dict_diff a0 b0 s (map_added a b)
                                       (map_changed sim a b) (map_removed a b)
  = VDict (map_changed sim a b ++ map_added a b
                       ++ delete_keys_entry (map_removed a b)).
Proof.
  intros Hwa Hwb Hpa Hpb E0 E1.
  destruct (wf_dict_inv a Hwa) as (Hha & Hna & _).
  destruct (wf_dict_inv b Hwb) as (Hhb & Hnb & _).
  unfold CompactJsonDiffSyntax.emit_dict_diff. rewrite E0, E1.
  rewrite dict_update_fresh.
  - unfold delete_keys_entry. destruct (map_removed a b) as [|kv rm].
    + now rewrite app_nil_r.
    + rewrite dict_set_absent; [now rewrite <- app_assoc|].
      apply dict_get_None; [reflexivity|]. intros Hin.
      unfold dict_keys in Hin. rewrite map_app in Hin.
      apply in_app_or in Hin as [Hin|Hin].
      * apply map_changed_keys_In in Hin. now apply (Hpa _ delete) in Hin.
      * apply keys_filter_In in Hin. now apply (Hpb _ delete) in Hin.
  - now apply hashable_keys_filter.
  - apply NoDup_app.
    + now apply map_changed_NoDup.
    + now apply keys_filter_NoDup.
    + intros k Hk Hk'. apply map_changed_keys_In in Hk.
      now apply (map_added_fresh a b k Hhb) in Hk'.
Qed.

Lemma emit_dict_diff_one (a b : value) (s : Q) (ad ch rm : dict) :
  (s == 1)%Q -> CompactJsonDiffSyntax.emit_dict_diff a b s ad ch rm = VDict [].
Proof.
  intros Hs. unfold CompactJsonDiffSyntax.emit_dict_diff.
  destruct (Qeq_bool s 0) eqn:E0.
  - apply Qeq_bool_eq in E0. rewrite Hs in E0. discriminate.
  - now rewrite (Qeq_eq_bool _ _ Hs).
Qed.

Lemma diff_ok_dict sim (a b : dict) :
  wf (VDict a) = true -> wf (VDict b) = true ->
  plain (VDict a) = true -> plain (VDict b) = true ->
  (forall k v w, In (k, v) a -> In w (map snd b) -> diff_ok v w (sim v w)) ->
  diff_ok (VDict a) (VDict b)
          (JsonDiffer._dict_diff default_options sim (VDict a) (VDict b) a b).
Proof.
  intros Hwa Hwb Hpla Hplb Hel.
  destruct (plain_dict_inv a Hpla) as (Hpa & _ & Hva).
  destruct (plain_dict_inv b Hplb) as (Hpb & Hb & _).
  assert (Hel' : forall k v w, In (k, v) a -> dict_get k b = Some w ->
                               diff_ok v w (sim v w)).
  { intros k v w Hin G. apply (Hel k v w Hin). eapply dict_get_In. exact G. }
  pose proof (_dict_diff_similarity sim (VDict a) (VDict b) a b Hb) as Hs.
  destruct (map_similarity_facts sim a b) as [HB HE1].
  { intros k v w Hin G. apply (Hel' k v w Hin G). }
  assert (E1 : (snd (JsonDiffer._dict_diff default_options sim (VDict a)
                                           (VDict b) a b) == 1)%Q ->
               py_eq (VDict a) (VDict b) = true).
  { intros H1. rewrite Hs in H1. destruct (HE1 H1) as (Hr & Had & Hone).
    apply dict_all_matched_eq; auto. intros k v w Hin G.
    apply (Hel' k v w Hin G). now apply (Hone k v w). }
  unfold diff_ok. rewrite _dict_diff_eq by assumption.
  set (s := snd (JsonDiffer._dict_diff default_options sim (VDict a)
                                       (VDict b) a b)) in *.
  split; [rewrite Hs; exact HB|split; [|split]].
  - intros H1. split; [now apply emit_dict_diff_one|now apply E1].
  - intros Heq. rewrite Hs.
    destruct (dict_eq_all_matched a b Hwa Hwb Heq) as (Hr & Had & Hm).
    apply map_similarity_one; auto. intros k v w Hin G.
    destruct (Hm k v Hin) as (w' & G' & Hvw). rewrite G in G'.
    injection G' as <-. now apply (Hel' k v w Hin G).
  - destruct (Qeq_bool s 0) eqn:E0.
    { unfold CompactJsonDiffSyntax.emit_dict_diff. rewrite E0.
      exists (VDict b). split; [apply patch_replacement|now apply py_eq_refl]. }
    destruct (Qeq_bool s 1) eqn:E1'.
    { unfold CompactJsonDiffSyntax.emit_dict_diff. rewrite E0, E1'.
      exists (VDict a). split; [apply patch_empty|].
      apply E1. now apply Qeq_bool_eq. }
    rewrite (emit_dict_diff_partial sim _ _ s a b) by assumption.
    pose proof (patch_dict_result sim a b Hwa Hwb Hpa Hpb) as Hres.
    pose proof (patch_dict_equal sim a b Hwa Hwb) as Heq.
    set (items := map_changed sim a b ++ map_added a b
                              ++ delete_keys_entry (map_removed a b)) in *.
    assert (Hres' : for_each dict_patch_step items a
                    = Ok (without_keys (dict_keys (map_removed a b))
                            (map (patched sim b) a ++ map_added a b))).
    { apply Hres.
      - intros k v Hin. apply (plain_not_marker v missing).
        now apply (Hva k v).
      - intros k v w Hin G. destruct (Hel' k v w Hin G) as (_ & _ & _ & r & Hr & _).
        eauto. }
    assert (Heq' : py_eq (VDict (without_keys (dict_keys (map_removed a b))
                                   (map (patched sim b) a ++ map_added a b)))
                         (VDict b) = true).
    { apply Heq. intros k v w Hin G.
      destruct (Hel' k v w Hin G) as (B1 & B2 & _ & B4).
      split; [apply B1|split; [apply B2|exact B4]]. }
    destruct items as [|it items'] eqn:Eit.
    + exists (VDict a). split; [apply patch_empty|].
      cbn in Hres'. injection Hres' as Hres'. rewrite Hres'. exact Heq'.
    + eexists. split; [|exact Heq'].
      assert (Hr : dict_get (VSym replace) (it :: items') = None).
      { rewrite <- Eit. apply dict_get_None; [reflexivity|]. intros Hin.
        unfold items, dict_keys in Hin. rewrite !map_app in Hin.
        apply in_app_or in Hin as [Hin|Hin];
          [|apply in_app_or in Hin as [Hin|Hin]].
        - apply map_changed_keys_In in Hin. now apply (Hpa _ replace) in Hin.
        - apply keys_filter_In in Hin. now apply (Hpb _ replace) in Hin.
        - unfold delete_keys_entry in Hin.
          destruct (map_removed a b); simpl in Hin; [destruct Hin|].
          destruct Hin as [Hin|[]]. discriminate. }
      rewrite (patch_dict_eq a (it :: items') ltac:(discriminate) Hr).
      rewrite Hres'. reflexivity.
Qed.

Section obj_diff.
Variable same : value -> value -> bool.
Hypothesis same_sound : is_sound same.

Let sim := JsonDiffer._obj_diff default_options same.

Lemma obj_diff_same (a b : value) :
  same a b = true -> sim a b = (VDict [], 1%Q).
Proof.
  intros H. unfold sim. destruct a; cbn [JsonDiffer._obj_diff]; rewrite H;
    reflexivity.
Qed.

Lemma obj_diff_ok (a : value) :
  forall b, wf a = true -> plain a = true -> wf b = true -> plain b = true ->
            diff_ok a b (sim a b).
Proof.
  induction a as [| z | s | y | X IH | X IH | X IH | d IH] using value_rect';
    intros b Hwa Hpa Hwb Hpb;
    (match goal with
     | |- diff_ok ?a b _ => destruct (same a b) eqn:Es
     end;
     [rewrite (obj_diff_same _ _ Es); apply same_sound in Es; subst b;
      now apply diff_ok_same|]);
    unfold sim; cbn [JsonDiffer._obj_diff]; rewrite Es.
  - destruct b; now apply diff_ok_value.
  - destruct b; now apply diff_ok_value.
  - destruct b; now apply diff_ok_value.
  - destruct b; now apply diff_ok_value.
  - destruct b as [| | | | Y | | |]; try now apply diff_ok_value.
    apply (diff_ok_list _ VList X Y); auto.
    intros x y Hx Hy. rewrite Forall_forall in IH.
    cbn [wf plain] in Hwa, Hpa, Hwb, Hpb. rewrite forallb_forall in *.
    apply IH; auto.
  - destruct b as [| | | | | Y | |]; try now apply diff_ok_value.
    apply (diff_ok_list _ VTuple X Y); auto.
    intros x y Hx Hy. rewrite Forall_forall in IH.
    cbn [wf plain] in Hwa, Hpa, Hwb, Hpb. rewrite forallb_forall in *.
    apply IH; auto.
  - destruct b as [| | | | | | Y |]; try now apply diff_ok_value.
    apply diff_ok_set; auto.
    intros x y Hx Hy. rewrite Forall_forall in IH.
    destruct (wf_set_inv X Hwa) as (_ & _ & HwX).
    destruct (wf_set_inv Y Hwb) as (_ & _ & HwY).
    cbn [plain] in Hpa, Hpb. rewrite forallb_forall in *.
    apply (IH x Hx y); auto.
  - destruct b as [| | | | | | | e]; try now apply diff_ok_value.
    apply diff_ok_dict; auto.
    intros k v w Hin Hw. rewrite Forall_forall in IH.
    destruct (wf_dict_inv d Hwa) as (_ & _ & Hwd).
    destruct (wf_dict_inv e Hwb) as (_ & _ & Hwe).
    destruct (plain_dict_inv d Hpa) as (_ & _ & Hpd).
    destruct (plain_dict_inv e Hpb) as (_ & _ & Hpe).
    apply in_map_iff in Hw as [[k' w'] [<- Hin']]. cbn [snd].
    apply (proj2 (IH _ Hin)); cbn [snd].
    + apply (Hwd k v Hin).
    + apply (Hpd k v Hin).
    + apply (Hwe k' w' Hin').
    + apply (Hpe k' w' Hin').
Qed.
End obj_diff.

(** * The laws of the differ *)

Lemma never_same_sound : is_sound never_same.
Proof. intros a b H. discriminate H. Qed.

(** With exact scores the round trip holds for all well-formed values of the
    value model: patching [a] with the delta from [a] to [b] succeeds and
    gives a value equal to [b].  What breaks it in the source is the rounding
    of the scores alone. *)
Lemma roundtrip_exact_scores (same : value -> value -> bool) (a b : value) :
  is_sound same ->
  wf a = true -> plain a = true -> wf b = true -> plain b = true ->
  exists r, patch default_options a (diff default_options same a b) = Ok r
            /\ py_eq r b = true.
Proof.
  intros Hs Hwa Hpa Hwb Hpb.
  destruct (obj_diff_ok same Hs a b Hwa Hpa Hwb Hpb) as (_ & _ & _ & r & Hr & E).
  exists r. split; [exact Hr|exact E].
Qed.

Lemma nested_neq (n : nat) : nested n (VInt 1) <> nested n (VInt 2).
Proof.
  induction n as [|n IH]; cbn [nested]; [discriminate|].
  intros [= H]. now apply IH.
Qed.

Lemma nested_not_symbol (n : nat) (z : Z) :
  isinstance_Symbol (nested n (VInt z)) = false.
Proof. now destruct n. Qed.

Lemma nested_diff_any (same : value -> value -> bool)
      (set_iter : list value -> list value) :
  is_sound same ->
  forall n,
    Binary64._obj_diff same set_iter (nested n (VInt 1)) (nested n (VInt 2))
    = Binary64._obj_diff never_same insertion_order
                         (nested n (VInt 1)) (nested n (VInt 2)).
Proof.
  intros Hs. induction n as [|n IH].
  - cbn [nested Binary64._obj_diff].
    destruct (same (VInt 1) (VInt 2)) eqn:E; [|reflexivity].
    apply Hs in E. discriminate E.
  - cbn [nested Binary64._obj_diff].
    destruct (same _ _) eqn:E.
    { apply Hs in E. injection E as E. now apply nested_neq in E. }
    unfold never_same at 1. unfold Binary64._dict_diff.
    cbn [fold_left]. unfold Binary64.dict_step.
    cbn [fst snd]. unfold dict_get. cbn [assoc_by py_eq].
    change (String.eqb "k" "k") with true. cbv iota.
    rewrite (nested_not_symbol n 2). now rewrite IH.
Qed.

Lemma deep_dicts_score (same : value -> value -> bool)
      (set_iter : list value -> list value) :
  is_sound same ->
  forall n, (54 <= n)%nat ->
    Binary64._obj_diff same set_iter (nested n (VInt 1)) (nested n (VInt 2))
    = (VDict [], Binary64.f1).
Proof.
  intros Hs. induction 1 as [|n Hle IH].
  - rewrite (nested_diff_any same set_iter Hs 54). vm_compute. reflexivity.
  - cbn [nested Binary64._obj_diff].
    destruct (same _ _) eqn:E.
    { apply Hs in E. injection E as E. now apply nested_neq in E. }
    unfold Binary64._dict_diff.
    cbn [fold_left]. unfold Binary64.dict_step.
    cbn [fst snd]. unfold dict_get. cbn [assoc_by py_eq].
    change (String.eqb "k" "k") with true. cbv iota.
    rewrite (nested_not_symbol n 2), IH. vm_compute. reflexivity.
Qed.

(** C1.  The round trip [patch(a, diff(a, b)) == b] fails in the source for
    dicts nested 54 deep or deeper that differ in their innermost value
    only: a matched key weighs [0.5 + 0.5 * s], which from that depth on
    rounds to [1.0], the score at which the emitter writes the empty delta;
    patching [a] with it gives [a], which is not [b].  This holds for every
    sound identity test and every iteration order of sets. *)
Theorem roundtrip_fails_from_depth_54
        (same : value -> value -> bool) (set_iter : list value -> list value)
        (n : nat) :
  is_sound same -> (54 <= n)%nat ->
  let a := nested n (VInt 1) in
  let b := nested n (VInt 2) in
  py_eq a b = false
  /\ (Binary64.similarity same set_iter a b =? Binary64.f1)%float = true
  /\ Binary64.diff same set_iter a b = VDict []
  /\ patch default_options a (Binary64.diff same set_iter a b) = Ok a.
Proof.
  intros Hs Hn a b. unfold Binary64.similarity, Binary64.diff, a, b.
  rewrite (deep_dicts_score same set_iter Hs n Hn). cbn [fst snd].
  split; [|split; [reflexivity|split; [reflexivity|reflexivity]]].
  clear Hn. induction n as [|n IH]; [reflexivity|].
  cbn [nested py_eq]. cbn. rewrite IH. reflexivity.
Qed.

Lemma roundtrip_fails_from_depth_54_witness :
  let a := nested 54 (VInt 1) in
  let b := nested 54 (VInt 2) in
  py_eq a b = false
  /\ (Binary64.similarity never_same insertion_order a b =? Binary64.f1)%float
     = true
  /\ Binary64.diff never_same insertion_order a b = VDict []
  /\ patch default_options a (Binary64.diff never_same insertion_order a b)
     = Ok a.
Proof.
  apply (roundtrip_fails_from_depth_54 never_same insertion_order 54
                                     never_same_sound).
  apply le_n.
Defined.

(** One level less and the score is the largest double below 1: the delta
    is written and the round trip holds. *)
Example roundtrip_holds_at_depth_53 :
  let a := nested 53 (VInt 1) in
  let b := nested 53 (VInt 2) in
  (Binary64.similarity never_same insertion_order a b <? Binary64.f1)%float
  = true
  /\ patch default_options a (Binary64.diff never_same insertion_order a b)
     = Ok b.
Proof. split; vm_compute; reflexivity. Qed.

(** C2.  Identity.  The delta of a value against itself, and against any
    value equal to it, is the empty dict, and their similarity is 1, whether
    or not the two arguments are the same object. *)
Theorem diff_identity (same : value -> value -> bool) (a b : value) :
  is_sound same ->
  wf a = true -> plain a = true -> wf b = true -> plain b = true ->
  py_eq a b = true ->
  (diff default_options same a a = VDict []
   /\ (similarity default_options same a a == 1)%Q)
  /\ (diff default_options same a b = VDict []
      /\ (similarity default_options same a b == 1)%Q).
Proof.
  intros Hs Hwa Hpa Hwb Hpb Heq.
  destruct (obj_diff_ok same Hs a a Hwa Hpa Hwa Hpa) as (_ & A1 & A2 & _).
  destruct (obj_diff_ok same Hs a b Hwa Hpa Hwb Hpb) as (_ & B1 & B2 & _).
  pose proof (A2 (py_eq_refl a Hwa)) as Sa. pose proof (B2 Heq) as Sb.
  unfold diff, similarity, JsonDiffer.diff, JsonDiffer.similarity.
  cbn [marshal_opt default_options].
  split; (split; [|assumption]).
  - apply (A1 Sa).
  - apply (B1 Sb).
Qed.

Lemma diff_identity_witness :
  let a := VDict [(VStr "k", VList [VInt 1; VSet [VInt 2; VInt 3]]);
                  (VInt 7, VTuple [VNone])] in
  let b := VDict [(VInt 7, VTuple [VNone]);
                  (VStr "k", VList [VInt 1; VSet [VInt 3; VInt 2]])] in
  (diff default_options never_same a a = VDict []
   /\ (similarity default_options never_same a a == 1)%Q)
  /\ (diff default_options never_same a b = VDict []
      /\ (similarity default_options never_same a b == 1)%Q).
Proof.
  intros a b.
  apply (diff_identity never_same a b never_same_sound);
    vm_compute; reflexivity.
Defined.

(** C8.  For two maps every key of both weighs [0.5 + 0.5 * s], where [s]
    is the similarity of its two values, and the similarity of the maps is
    the total weight divided by the number of removed, matched and added
    keys, or 1 when there is no key at all; from [{"a": 1, "b": 2}] to
    [{"a": 1, "b": 3}] the delta is [{"b": 3}] and the similarity 3/4. *)
Theorem dict_diff_similarity (same : value -> value -> bool) (a b : dict) :
  is_sound same ->
  wf (VDict a) = true -> plain (VDict a) = true ->
  wf (VDict b) = true -> plain (VDict b) = true ->
  (similarity default_options same (VDict a) (VDict b)
   == map_similarity (JsonDiffer._obj_diff default_options same) a b)%Q
  /\ diff default_options never_same
          (VDict [(VStr "a", VInt 1); (VStr "b", VInt 2)])
          (VDict [(VStr "a", VInt 1); (VStr "b", VInt 3)])
     = VDict [(VStr "b", VInt 3)]
  /\ (similarity default_options never_same
                 (VDict [(VStr "a", VInt 1); (VStr "b", VInt 2)])
                 (VDict [(VStr "a", VInt 1); (VStr "b", VInt 3)])
      == 3 # 4)%Q.
Proof.
  intros Hs Hwa Hpa Hwb Hpb. split; [|split; reflexivity].
  unfold similarity, JsonDiffer.similarity. cbn [JsonDiffer._obj_diff].
  destruct (same (VDict a) (VDict b)) eqn:E.
  - apply Hs in E. injection E as <-. cbn [snd]. symmetry.
    destruct (wf_dict_inv a Hwa) as (Hha & Hna & Hwv).
    destruct (plain_dict_inv a Hpa) as (_ & _ & Hpv).
    destruct (dict_eq_all_matched a a Hwa Hwa (py_eq_refl _ Hwa))
      as (Hr & Had & _).
    apply map_similarity_one; auto.
    intros k v w Hin G. rewrite (dict_get_distinct k v a Hha Hna Hin) in G.
    injection G as <-.
    destruct (obj_diff_ok same Hs v v) as (_ & _ & E2 & _);
      try apply (Hwv k v Hin); try apply (Hpv k v Hin).
    apply E2. apply py_eq_refl. apply (Hwv k v Hin).
  - apply _dict_diff_similarity. apply (plain_dict_inv b Hpb).
Qed.

Lemma dict_diff_similarity_witness :
  let a := [(VStr "a", VList [VInt 1; VInt 2]); (VStr "b", VInt 2);
            (VStr "c", VNone)] in
  let b := [(VStr "a", VList [VInt 1; VInt 3]); (VStr "b", VInt 2);
            (VStr "d", VNone)] in
  (similarity default_options never_same (VDict a) (VDict b)
   == map_similarity (JsonDiffer._obj_diff default_options never_same) a b)%Q.
Proof.
  intros a b.
  apply (dict_diff_similarity never_same a b never_same_sound);
    vm_compute; reflexivity.
Defined.

(** * Further properties of the differ *)

(** X1.  The similarity of two well-formed values of the value model lies
    between 0 and 1. *)
Theorem similarity_bounds (same : value -> value -> bool) (a b : value) :
  is_sound same ->
  wf a = true -> plain a = true -> wf b = true -> plain b = true ->
  (0 <= similarity default_options same a b <= 1)%Q.
Proof.
  intros Hs Hwa Hpa Hwb Hpb.
  apply (obj_diff_ok same Hs a b Hwa Hpa Hwb Hpb).
Qed.

Lemma similarity_bounds_witness :
  (0 <= similarity default_options never_same
                   (VList [VInt 1; VSet [VInt 2]; VDict [(VStr "k", VNone)]])
                   (VList [VSet [VInt 2; VInt 3]; VDict [(VStr "k", VInt 0)]])
   <= 1)%Q.
Proof.
  apply (similarity_bounds never_same _ _ never_same_sound);
    vm_compute; reflexivity.
Defined.

(** X2.  The delta is the empty dict exactly when the similarity is 1: the
    score and the delta of the differ agree on whether anything differs. *)
Theorem empty_delta_iff_full_score
        (same : value -> value -> bool) (a b : value) :
  is_sound same ->
  wf a = true -> plain a = true -> wf b = true -> plain b = true ->
  (diff default_options same a b = VDict []
   <-> (similarity default_options same a b == 1)%Q).
Proof.
  intros Hs Hwa Hpa Hwb Hpb.
  destruct (obj_diff_ok same Hs a b Hwa Hpa Hwb Hpb)
    as (_ & E1 & E2 & r & Hr & Hrb).
  unfold diff, similarity, JsonDiffer.diff, JsonDiffer.similarity.
  cbn [marshal_opt default_options].
  split.
  - intros Hd. apply E2. rewrite Hd in Hr. cbn in Hr. injection Hr as <-.
    exact Hrb.
  - intros H1. now apply E1.
Qed.

Lemma empty_delta_iff_full_score_witness :
  let a := VSet [VInt 1; VTuple [VInt 2; VStr "x"]] in
  let b := VSet [VTuple [VInt 2; VStr "x"]; VInt 1] in
  diff default_options never_same a b = VDict []
  <-> (similarity default_options never_same a b == 1)%Q.
Proof.
  intros a b.
  apply (empty_delta_iff_full_score never_same a b never_same_sound);
    vm_compute; reflexivity.
Defined.

Lemma obj_diff_zero (same : value -> value -> bool) (a b : value) :
  (snd (JsonDiffer._obj_diff default_options same a b) == 0)%Q ->
  fst (JsonDiffer._obj_diff default_options same a b)
  = CompactJsonDiffSyntax.replacement b.
Proof.
  assert (Hval : (snd (if negb (py_eq a b)
                       then (CompactJsonDiffSyntax.emit_value_diff a b 0, 0%Q)
                       else (CompactJsonDiffSyntax.emit_value_diff a b 1, 1%Q))
                  == 0)%Q ->
                 fst (if negb (py_eq a b)
                      then (CompactJsonDiffSyntax.emit_value_diff a b 0, 0%Q)
                      else (CompactJsonDiffSyntax.emit_value_diff a b 1, 1%Q))
                 = CompactJsonDiffSyntax.replacement b).
  { destruct (py_eq a b); cbn; [discriminate|reflexivity]. }
  assert (Hlist : forall X Y,
             (snd (JsonDiffer._list_diff
                     default_options
                     (fun x y => JsonDiffer._obj_diff default_options same x y)
                     a b X Y) == 0)%Q ->
             fst (JsonDiffer._list_diff
                    default_options
                    (fun x y => JsonDiffer._obj_diff default_options same x y)
                    a b X Y)
             = CompactJsonDiffSyntax.replacement b).
  { intros X Y. unfold JsonDiffer._list_diff.
    destruct (JsonDiffer.list_diff_parts _ X Y) as [[[ins ch] del] s].
    cbn [fst snd syntax default_options syn_emit_list_diff compact].
    intros H. unfold CompactJsonDiffSyntax.emit_list_diff.
    now rewrite (Qeq_eq_bool _ _ H). }
  destruct a; cbn [JsonDiffer._obj_diff];
    (destruct (same _ b); [cbn; discriminate|]);
    destruct b; try exact Hval; try apply Hlist.
  - unfold JsonDiffer._set_diff.
    destruct (JsonDiffer.is_empty _ && JsonDiffer.is_empty _);
      [cbn; discriminate|].
    destruct (JsonDiffer.greedy _ _ _ _ _) as [sc nc].
    cbn [fst snd syntax default_options syn_emit_set_diff compact].
    intros H. unfold CompactJsonDiffSyntax.emit_set_diff.
    now rewrite (Qeq_eq_bool _ _ H).
  - unfold JsonDiffer._dict_diff.
    destruct (fold_left (JsonDiffer.dict_step _ _) _ _)
      as [[[[rm nr] nm] sm] ch].
    destruct (fold_left (JsonDiffer.added_step _) _ _) as [na ad].
    cbn [fst snd syntax default_options syn_emit_dict_diff compact].
    intros H. unfold CompactJsonDiffSyntax.emit_dict_diff.
    now rewrite (Qeq_eq_bool _ _ H).
Qed.

(** X3.  When the similarity of two values is 0 the delta is the full
    replacement: the second value itself, under the [replace] marker if it is
    a dict; applied to any base whatever this delta gives the second
    value. *)
Theorem zero_similarity_replaces
        (same : value -> value -> bool) (a b : value) :
  (similarity default_options same a b == 0)%Q ->
  diff default_options same a b
  = (if isinstance_dict b then VDict [(VSym replace, b)] else b)
  /\ forall c, patch default_options c (diff default_options same a b) = Ok b.
Proof.
  intros H. apply obj_diff_zero in H.
  unfold diff, patch, JsonDiffer.diff, JsonDiffer.patch.
  cbn [marshal_opt default_options syntax syn_patch compact].
  rewrite H. split; [reflexivity|]. intros c. apply patch_replacement.
Qed.

Lemma zero_similarity_replaces_witness :
  let a := VDict [(VStr "x", VInt 1)] in
  let b := VDict [(VStr "y", VList [VInt 2])] in
  diff default_options never_same a b = VDict [(VSym replace, b)]
  /\ forall c, patch default_options c (diff default_options never_same a b)
               = Ok b.
Proof.
  intros a b. apply (zero_similarity_replaces never_same a b).
  vm_compute. reflexivity.
Defined.

(** X4.  Unless both values are dicts, both tuples, both lists or both sets,
    they are compared as wholes: when they are equal the delta is empty and
    the similarity 1, and otherwise the delta is the full replacement and the
    similarity 0.  So a dict against a list, a list against a tuple or a set
    against a scalar is always replaced. *)
Theorem whole_value_rule (same : value -> value -> bool) (a b : value) :
  is_sound same -> wf a = true -> same_container a b = false ->
  (diff default_options same a b, similarity default_options same a b)
  = if py_eq a b then (VDict [], 1%Q)
    else (CompactJsonDiffSyntax.replacement b, 0%Q).
Proof.
  intros Hs Hwa Hc.
  unfold diff, similarity, JsonDiffer.diff, JsonDiffer.similarity.
  cbn [marshal_opt default_options].
  rewrite <- surjective_pairing.
  destruct (same a b) eqn:Es.
  - rewrite (obj_diff_same same a b Es). apply Hs in Es. subst b.
    now rewrite (py_eq_refl a Hwa).
  - destruct a; destruct b; try discriminate Hc;
      cbn [JsonDiffer._obj_diff]; rewrite Es;
      match goal with
      | |- context [negb (py_eq ?x ?y)] => destruct (py_eq x y)
      end; reflexivity.
Qed.

Lemma whole_value_rule_witness :
  (diff default_options never_same (VList [VInt 1]) (VTuple [VInt 1]),
   similarity default_options never_same (VList [VInt 1]) (VTuple [VInt 1]))
  = (VTuple [VInt 1], 0%Q).
Proof.
  apply (whole_value_rule never_same (VList [VInt 1]) (VTuple [VInt 1])
                          never_same_sound); reflexivity.
Defined.

(** ** The edit script has the largest total similarity *)

Lemma total_of_shift (es : list edit) :
  forall t, (total_of t es == t + total_of 0 es)%Q.
Proof.
  unfold total_of. induction es as [|e es IH]; intros t; simpl.
  - ring.
  - rewrite (IH (t + snd e)%Q), (IH (0 + snd e)%Q). ring.
Qed.

Lemma total_of_cons (e : edit) (es : list edit) :
  (total_of 0 (e :: es) == snd e + total_of 0 es)%Q.
Proof.
  change (total_of 0 (e :: es)) with (total_of (0 + snd e) es).
  rewrite total_of_shift. ring.
Qed.

Section table_optimal.
Variable D : list (list (value * Q)).
Variables m n : nat.
Let C := JsonDiffer.fill_table D m n.

Hypothesis score_nonneg :
  forall i j, (i < m)%nat -> (j < n)%nat -> (0 <= snd (dget D i j))%Q.

Lemma table_step_down (i j : nat) :
  (i < m)%nat -> (j <= n)%nat -> (tget C i j <= tget C (S i) j)%Q.
Proof.
  intros Hi Hj. destruct j as [|j].
  - unfold C. rewrite (proj2 (fill_table_border D m n i 0)),
      (proj2 (fill_table_border D m n (S i) 0)). apply Qle_refl.
  - unfold C at 2. rewrite fill_table_rule by lia. fold C.
    eapply Qle_trans; [|apply Q.le_max_l]. apply Q.le_max_r.
Qed.

Lemma table_step_right (i j : nat) :
  (i <= m)%nat -> (j < n)%nat -> (tget C i j <= tget C i (S j))%Q.
Proof.
  intros Hi Hj. destruct i as [|i].
  - unfold C. rewrite (proj1 (fill_table_border D m n 0 j)),
      (proj1 (fill_table_border D m n 0 (S j))). apply Qle_refl.
  - unfold C at 2. rewrite fill_table_rule by lia. fold C.
    eapply Qle_trans; [|apply Q.le_max_l]. apply Q.le_max_l.
Qed.

Lemma table_step_diagonal (i j : nat) :
  (i < m)%nat -> (j < n)%nat ->
  (tget C i j + snd (dget D i j) <= tget C (S i) (S j))%Q.
Proof.
  intros Hi Hj. unfold C at 2. rewrite fill_table_rule by lia. fold C.
  apply Q.le_max_r.
Qed.

Lemma backtrack_total (X Y : list value) (i : nat) :
  forall (j : nat) (r : list edit),
    (i <= m)%nat -> (j <= n)%nat ->
    (total_of 0 (JsonDiffer._list_diff_0_from D C X Y i j r)
     == tget C i j + total_of 0 (rev r))%Q.
Proof.
  induction i as [|i IHi]; induction j as [|j IHj]; intros r Hi Hj.
  - cbn [JsonDiffer._list_diff_0_from]. unfold C.
    rewrite (proj1 (fill_table_border D m n 0 0)). unfold edit. lra.
  - cbn [JsonDiffer._list_diff_0_from]. rewrite IHj by lia.
    rewrite rev_unit, total_of_cons. cbn [snd]. unfold C.
    rewrite (proj1 (fill_table_border D m n 0 j)),
      (proj1 (fill_table_border D m n 0 (S j))). unfold edit. lra.
  - cbn [JsonDiffer._list_diff_0_from]. rewrite IHi by lia.
    rewrite rev_unit, total_of_cons. cbn [snd]. unfold C.
    rewrite (proj2 (fill_table_border D m n i 0)),
      (proj2 (fill_table_border D m n (S i) 0)). unfold edit. lra.
  - cbn [JsonDiffer._list_diff_0_from].
    pose proof (score_nonneg i j ltac:(lia) ltac:(lia)) as S0.
    pose proof (table_step_down i j ltac:(lia) ltac:(lia)) as M1.
    assert (R : tget C (S i) (S j)
                = Qmax (Qmax (tget C (S i) j) (tget C i (S j)))
                       (tget C i j + snd (dget D i j))).
    { unfold C. apply fill_table_rule; lia. }
    destruct (Qlt_bool 0 (snd (dget D i j))
              && Qeq_bool (tget C (S i) (S j))
                          (tget C i j + snd (dget D i j))) eqn:Ed.
    + apply andb_true_iff in Ed as [_ Ed]. apply Qeq_bool_eq in Ed.
      rewrite IHi by lia. rewrite rev_unit, total_of_cons. cbn [snd].
      rewrite Ed. unfold edit. lra.
    + assert (Hmax : (tget C (S i) (S j)
                      == Qmax (tget C (S i) j) (tget C i (S j)))%Q).
      { rewrite R. apply Q.max_l.
        destruct (Qlt_le_dec 0 (snd (dget D i j))) as [Hpos|Hz].
        - apply andb_false_iff in Ed as [Ed|Ed].
          + apply Qlt_bool_iff in Hpos. congruence.
          + destruct (Q.max_spec (Qmax (tget C (S i) j) (tget C i (S j)))
                                 (tget C i j + snd (dget D i j)))
              as [[Hlt Hm]|[Hle _]]; [|exact Hle].
            rewrite <- R in Hm. apply Qeq_eq_bool in Hm. congruence.
        - assert (Hs0 : (snd (dget D i j) == 0)%Q) by now apply Qle_antisym.
          rewrite Hs0, Qplus_0_r.
          eapply Qle_trans; [exact M1|apply Q.le_max_l]. }
      destruct (Qle_bool (tget C i (S j)) (tget C (S i) j)) eqn:El.
      * apply Qle_bool_iff in El.
        rewrite IHj by lia. rewrite rev_unit, total_of_cons. cbn [snd].
        rewrite Hmax, (Q.max_l _ _ El). unfold edit. lra.
      * unfold Qlt_bool. rewrite El. cbn [negb].
        rewrite IHi by lia. rewrite rev_unit, total_of_cons. cbn [snd].
        assert (El' : (tget C (S i) j <= tget C i (S j))%Q).
        { apply Qlt_le_weak. apply Qlt_bool_iff. unfold Qlt_bool.
          now rewrite El. }
        rewrite Hmax, (Q.max_r _ _ El'). unfold edit. lra.
Qed.
End table_optimal.

Lemma skipn_cons_inv (l : list value) (i : nat) (x : value) (xs : list value) :
  x :: xs = skipn i l ->
  (i < length l)%nat /\ x = nth i l VNone /\ xs = skipn (S i) l.
Proof.
  intros H. assert (Hi : (i < length l)%nat).
  { destruct (Nat.lt_ge_cases i (length l)) as [Hlt|Hge]; [exact Hlt|].
    rewrite skipn_all2 in H by lia. discriminate. }
  split; [exact Hi|]. rewrite (skipn_nth l i Hi) in H. now injection H.
Qed.

Lemma alignment_upper sim (X Y : list value) i j xs ys es :
  let D := map (fun x => map (fun y => sim x y) Y) X in
  let C := JsonDiffer.fill_table D (length X) (length Y) in
  alignment sim i j xs ys es ->
  xs = skipn i X -> ys = skipn j Y ->
  (i <= length X)%nat -> (j <= length Y)%nat ->
  (tget C i j + total_of 0 es <= tget C (length X) (length Y))%Q.
Proof.
  intros D C.
  induction 1 as [i j | i j x xs y ys es Hs Hal IH | i j xs y ys es Hal IH
                  | i j x xs ys es Hal IH]; intros Hx Hy Hi Hj.
  - assert (i = length X).
    { apply (f_equal (@length value)) in Hx. rewrite length_skipn in Hx.
      simpl in Hx. lia. }
    assert (j = length Y).
    { apply (f_equal (@length value)) in Hy. rewrite length_skipn in Hy.
      simpl in Hy. lia. }
    subst i j. unfold total_of. simpl. rewrite Qplus_0_r. apply Qle_refl.
  - apply skipn_cons_inv in Hx as (Hi' & -> & Hx').
    apply skipn_cons_inv in Hy as (Hj' & -> & Hy').
    specialize (IH Hx' Hy' Hi' Hj').
    pose proof (table_step_diagonal D (length X) (length Y) i j Hi' Hj') as Hd.
    fold C in Hd. unfold D in Hd. rewrite dget_tab in Hd by assumption.
    rewrite total_of_cons. cbn [snd]. unfold edit in *. lra.
  - apply skipn_cons_inv in Hy as (Hj' & -> & Hy').
    specialize (IH Hx Hy' Hi Hj').
    pose proof (table_step_right D (length X) (length Y) i j Hi Hj') as Hd.
    fold C in Hd. rewrite total_of_cons. cbn [snd]. unfold edit in *. lra.
  - apply skipn_cons_inv in Hx as (Hi' & -> & Hx').
    specialize (IH Hx' Hy Hi' Hj).
    pose proof (table_step_down D (length X) (length Y) i j Hi' Hj) as Hd.
    fold C in Hd. rewrite total_of_cons. cbn [snd]. unfold edit in *. lra.
Qed.

Lemma edit_script_total sim (X Y : list value) :
  (forall x y, In x X -> In y Y -> (0 <= snd (sim x y))%Q) ->
  let D := map (fun x => map (fun y => sim x y) Y) X in
  (total_of 0 (edit_script sim X Y)
   == tget (JsonDiffer.fill_table D (length X) (length Y))
           (length X) (length Y))%Q
  /\ forall es, alignment sim 0 0 X Y es ->
                (total_of 0 es <= total_of 0 (edit_script sim X Y))%Q.
Proof.
  intros Hb D.
  assert (Hn : forall i j, (i < length X)%nat -> (j < length Y)%nat ->
                           (0 <= snd (dget D i j))%Q).
  { intros i j Hi Hj. unfold D. rewrite dget_tab by assumption.
    apply Hb; now apply nth_In. }
  assert (E : (total_of 0 (edit_script sim X Y)
               == tget (JsonDiffer.fill_table D (length X) (length Y))
                       (length X) (length Y))%Q).
  { unfold edit_script, JsonDiffer._list_diff_0. fold D.
    rewrite (backtrack_total D (length X) (length Y) Hn X Y (length X)
                             (length Y) []) by lia.
    unfold total_of. simpl. apply Qplus_0_r. }
  split; [exact E|].
  intros es Hal. rewrite E.
  pose proof (alignment_upper sim X Y 0 0 X Y es Hal eq_refl eq_refl
                              ltac:(lia) ltac:(lia)) as H.
  cbv zeta in H. fold D in H.
  rewrite (proj1 (fill_table_border D (length X) (length Y) 0 0)) in H.
  now rewrite Qplus_0_l in H.
Qed.

(** X5.  The edit script of the sequence differ is a best one: it steps
    through both sequences element by element, and no other such script for
    the two sequences, whatever pairs it matches, has a larger total
    similarity. *)
Theorem edit_script_optimal
        (same : value -> value -> bool) (X Y : list value) (es : list edit) :
  is_sound same ->
  wf (VList X) = true -> plain (VList X) = true ->
  wf (VList Y) = true -> plain (VList Y) = true ->
  let sim := JsonDiffer._obj_diff default_options same in
  alignment sim 0 0 X Y (edit_script sim X Y)
  /\ (alignment sim 0 0 X Y es ->
      (total_of 0 es <= total_of 0 (edit_script sim X Y))%Q).
Proof.
  intros Hs Hwx Hpx Hwy Hpy sim.
  split; [apply edit_script_alignment|].
  apply (edit_script_total sim X Y).
  intros x y Hx Hy. cbn [wf plain] in *. rewrite forallb_forall in *.
  apply (obj_diff_ok same Hs x y); auto.
Qed.

Lemma edit_script_optimal_witness :
  let sim := JsonDiffer._obj_diff default_options never_same in
  let X := [VInt 1; VInt 2; VInt 3] in
  let Y := [VInt 1; VInt 3; VInt 4] in
  let es := [(-1, VInt 1, 0%nat, 0%Q); (1, VInt 1, 0%nat, 0%Q);
             (-1, VInt 2, 1%nat, 0%Q); (-1, VInt 3, 2%nat, 0%Q);
             (1, VInt 3, 1%nat, 0%Q); (1, VInt 4, 2%nat, 0%Q)] in
  (total_of 0 es <= total_of 0 (edit_script sim X Y))%Q.
Proof.
  intros sim X Y es.
  apply (proj2 (edit_script_optimal never_same X Y es never_same_sound
                                    eq_refl eq_refl eq_refl eq_refl)).
  repeat constructor.
Defined.

(** ** What the sequence differ inserts *)

Lemma alignment_inserted sim i j xs ys es :
  alignment sim i j xs ys es ->
  StronglySorted lt (map fst (inserted_of es))
  /\ Forall (fun pv => (j <= fst pv < j + length ys)%nat
                       /\ snd pv = nth (fst pv - j) ys VNone) (inserted_of es)
  /\ (length xs + length (inserted_of es)
      = length ys + length (deleted_of es))%nat.
Proof.
  induction 1 as [i j | i j x xs y ys es Hs Hal (IH1 & IH2 & IH3)
                  | i j xs y ys es Hal (IH1 & IH2 & IH3)
                  | i j x xs ys es Hal (IH1 & IH2 & IH3)].
  - repeat split; constructor.
  - change (inserted_of ((0, fst (sim x y), j, snd (sim x y)) :: es))
      with (inserted_of es).
    change (deleted_of ((0, fst (sim x y), j, snd (sim x y)) :: es))
      with (deleted_of es).
    split; [exact IH1|split; [|simpl; lia]].
    eapply Forall_impl; [|exact IH2]. intros [p v] [Hp Hv]. simpl in *.
    split; [lia|]. rewrite Hv. replace (p - j)%nat with (S (p - S j)) by lia.
    reflexivity.
  - change (inserted_of ((1, y, j, 0%Q) :: es)) with ((j, y) :: inserted_of es).
    change (deleted_of ((1, y, j, 0%Q) :: es)) with (deleted_of es).
    split; [|split; [|simpl; lia]].
    + cbn [map fst]. constructor; auto. rewrite Forall_map.
      eapply Forall_impl; [|exact IH2]. intros [p v] [Hp _]. simpl in *. lia.
    + constructor.
      * simpl. split; [lia|]. now rewrite Nat.sub_diag.
      * eapply Forall_impl; [|exact IH2]. intros [p v] [Hp Hv]. simpl in *.
        split; [lia|]. rewrite Hv.
        replace (p - j)%nat with (S (p - S j)) by lia. reflexivity.
  - change (inserted_of ((-1, x, i, 0%Q) :: es)) with (inserted_of es).
    change (deleted_of ((-1, x, i, 0%Q) :: es)) with ((i, x) :: deleted_of es).
    split; [exact IH1|split; [exact IH2|simpl; lia]].
Qed.

(** X6.  The [inserted] component of the sequence differ lists (position,
    value) pairs in strictly ascending order of position, each value being
    the element of the second sequence at that position; and the elements
    are accounted for: the first sequence plus the insertions is as long as
    the second plus the deletions. *)
Theorem list_diff_inserted_ascending
        (same : value -> value -> bool) (X Y : list value) :
  let sim := JsonDiffer._obj_diff default_options same in
  StronglySorted lt (map fst (list_diff_inserted sim X Y))
  /\ Forall (fun pv => (fst pv < length Y)%nat
                       /\ snd pv = nth (fst pv) Y VNone)
            (list_diff_inserted sim X Y)
  /\ (length X + length (list_diff_inserted sim X Y)
      = length Y + length (list_diff_deleted sim X Y))%nat.
Proof.
  intros sim.
  destruct (alignment_inserted _ _ _ _ _ _ (edit_script_alignment sim X Y))
    as (H1 & H2 & H3).
  unfold list_diff_inserted, list_diff_deleted.
  rewrite list_diff_parts_eq. cbn [fst snd].
  split; [exact H1|split].
  - eapply Forall_impl; [|exact H2]. intros [p v] [Hp Hv]. simpl in *.
    rewrite Nat.sub_0_r in Hv. split; [lia|exact Hv].
  - now rewrite length_rev.
Qed.

(** ** The deltas that the differ emits *)

Lemma wf_dict_intro (d : dict) :
  (forall k v, In (k, v) d -> wf k = true /\ wf v = true) ->
  forallb hashable (dict_keys d) = true -> NoDup (dict_keys d) ->
  wf (VDict d) = true.
Proof.
  intros Hv Hh Hn. cbn [wf]. fold (dict_keys d).
  rewrite Hh, (proj2 (distinct_NoDup _ Hh) Hn), !andb_true_r.
  apply forallb_forall. intros [k v] Hin. cbn [fst snd].
  destruct (Hv k v Hin) as [-> ->]. reflexivity.
Qed.

Lemma escapable_dict_intro (d : dict) :
  (forall k v, In (k, v) d ->
               (isinstance_Symbol k = true \/ plain k = true)
               /\ escapable v = true) ->
  escapable (VDict d) = true.
Proof.
  intros H. cbn [escapable]. apply forallb_forall. intros [k v] Hin.
  cbn [fst snd]. destruct (H k v Hin) as [[Hk|Hk] ->]; rewrite Hk;
    [reflexivity|now rewrite orb_true_r].
Qed.

Lemma plain_escapable (v : value) : plain v = true -> escapable v = true.
Proof.
  induction v as [| z | s | y | l IH | l IH | l IH | l IH] using value_rect';
    cbn [plain escapable]; auto.
  - rewrite !forallb_forall. rewrite Forall_forall in IH. auto.
  - rewrite !forallb_forall. rewrite Forall_forall in IH. auto.
  - rewrite !forallb_forall. rewrite Forall_forall in IH.
    intros H [k v] Hin. specialize (H _ Hin). cbn [fst snd] in *.
    apply andb_true_iff in H as [Hk Hv]. rewrite Hk, orb_true_r.
    apply (proj2 (IH _ Hin)). exact Hv.
Qed.

Lemma replacement_ok (b : value) :
  wf b = true -> plain b = true ->
  wf (CompactJsonDiffSyntax.replacement b) = true
  /\ escapable (CompactJsonDiffSyntax.replacement b) = true.
Proof.
  intros Hw Hp. pose proof (plain_escapable b Hp) as He.
  unfold CompactJsonDiffSyntax.replacement.
  destruct (isinstance_dict b); [|auto].
  cbn [wf escapable forallb map fst snd hashable distinct set_mem existsb
       isinstance_Symbol orb andb negb].
  now rewrite Hw, He.
Qed.

Lemma changed_of_In (es : list edit) (k v : value) :
  In (k, v) (changed_of es) ->
  exists p s, k = VPos p /\ In (0, v, p, s) es.
Proof.
  unfold changed_of. intros Hin.
  apply in_flat_map in Hin as [[[[sg d] p] s] [He Hin]].
  destruct (sg =? 0) eqn:Es; [|destruct Hin].
  destruct (Qlt_bool s 1); [|destruct Hin].
  destruct Hin as [[= <- <-]|[]]. apply Z.eqb_eq in Es. subst.
  exists p, s. auto.
Qed.

Lemma alignment_changed_NoDup sim i j xs ys es :
  alignment sim i j xs ys es ->
  NoDup (dict_keys (changed_of es))
  /\ forall k, In k (dict_keys (changed_of es)) ->
               exists p, k = VPos p /\ (j <= p)%nat.
Proof.
  induction 1 as [i j | i j x xs y ys es Hs Hal [IH1 IH2]
                  | i j xs y ys es Hal [IH1 IH2]
                  | i j x xs ys es Hal [IH1 IH2]].
  - split; [constructor|intros k []].
  - unfold changed_of. cbn [flat_map]. fold (changed_of es).
    change (0 =? 0) with true. cbn [andb].
    destruct (Qlt_bool (snd (sim x y)) 1); cbn [app dict_keys map fst].
    + split.
      * constructor; [|exact IH1]. intros Hin.
        destruct (IH2 _ Hin) as [p [E Hp]]. apply VPos_inj in E. lia.
      * intros k [<-|Hin]; [exists j; split; [reflexivity|lia]|].
        destruct (IH2 _ Hin) as [p [E Hp]]. exists p. split; [exact E|lia].
    + split; [exact IH1|]. intros k Hin.
      destruct (IH2 _ Hin) as [p [E Hp]]. exists p. split; [exact E|lia].
  - change (changed_of ((1, y, j, 0%Q) :: es)) with (changed_of es).
    split; [exact IH1|]. intros k Hin.
    destruct (IH2 _ Hin) as [p [E Hp]]. exists p. split; [exact E|lia].
  - change (changed_of ((-1, x, i, 0%Q) :: es)) with (changed_of es).
    split; [exact IH1|exact IH2].
Qed.

Lemma list_delta_ok sim (a0 b0 : value) (X Y : list value) :
  (forall x y, In x X -> In y Y ->
               wf (fst (sim x y)) = true /\ escapable (fst (sim x y)) = true) ->
  forallb wf Y = true -> forallb plain Y = true ->
  wf b0 = true -> plain b0 = true ->
  wf (fst (JsonDiffer._list_diff default_options sim a0 b0 X Y)) = true
  /\ escapable (fst (JsonDiffer._list_diff default_options sim a0 b0 X Y))
     = true.
Proof.
  intros Hel HwY HpY Hwb Hpb. rewrite _list_diff_eq. cbn [fst].
  unfold CompactJsonDiffSyntax.emit_list_diff.
  destruct (Qeq_bool _ 0); [now apply replacement_ok|].
  destruct (Qeq_bool _ 1); [split; reflexivity|].
  set (es := edit_script sim X Y).
  pose proof (edit_script_alignment sim X Y) as Hal. fold es in Hal.
  pose proof (partial_items es) as Hit. cbv beta in Hit.
  match goal with
  | |- wf (VDict ?d) = true /\ _ =>
      replace d with (changed_of es ++ insert_entry (inserted_of es)
                                 ++ delete_entry (rev (deleted_of es)))
  end.
  2:{ rewrite <- Hit. now destruct (rev (deleted_of es)). }
  rewrite forallb_forall in HwY, HpY.
  destruct (alignment_inserted _ _ _ _ _ _ Hal) as (_ & Hins & _).
  rewrite Forall_forall in Hins.
  destruct (alignment_changed_NoDup _ _ _ _ _ _ Hal) as [Hnd Hkeys].
  assert (Hent : forall k v,
             In (k, v) (changed_of es ++ insert_entry (inserted_of es)
                                   ++ delete_entry (rev (deleted_of es))) ->
             (wf k = true /\ wf v = true)
             /\ (isinstance_Symbol k = true \/ plain k = true)
             /\ escapable v = true /\ hashable k = true).
  { intros k v Hin. apply in_app_or in Hin as [Hin|Hin];
      [|apply in_app_or in Hin as [Hin|Hin]].
    - apply changed_of_In in Hin as (p & s & -> & Hin).
      destruct (alignment_matches _ _ _ _ _ _ Hal _ _ _ Hin)
        as (Hp & (q & Hq & Hsim) & _).
      rewrite !Nat.sub_0_r in Hsim.
      destruct (Hel (nth q X VNone) (nth p Y VNone)) as [W E];
        [apply nth_In; lia|apply nth_In; lia|].
      rewrite Hsim in W, E. cbn [fst] in W, E.
      repeat split; auto.
    - unfold insert_entry in Hin. destruct (inserted_of es) eqn:Ei;
        [destruct Hin|]. rewrite <- Ei in *. destruct Hin as [[= <- <-]|[]].
      assert (Hv : forall pv, In pv (inserted_of es) ->
                              wf (snd pv) = true /\ plain (snd pv) = true).
      { intros pv Hpv. destruct (Hins pv Hpv) as [Hp Hv].
        rewrite Nat.sub_0_r in Hv. rewrite Hv.
        split; [apply HwY|apply HpY]; apply nth_In; simpl in Hp; lia. }
      repeat split; auto.
      + cbn [wf]. apply forallb_forall. intros t Ht.
        apply in_map_iff in Ht as [pv [<- Hpv]]. cbn [wf forallb VPos].
        now rewrite (proj1 (Hv pv Hpv)).
      + cbn [escapable]. apply forallb_forall. intros t Ht.
        apply in_map_iff in Ht as [pv [<- Hpv]]. cbn [escapable forallb VPos].
        now rewrite (plain_escapable _ (proj2 (Hv pv Hpv))).
    - unfold delete_entry in Hin. destruct (rev (deleted_of es)) eqn:Ed;
        [destruct Hin|]. rewrite <- Ed in *. destruct Hin as [[= <- <-]|[]].
      repeat split; auto.
      + cbn [wf]. apply forallb_forall. intros t Ht.
        apply in_map_iff in Ht as [pv [<- Hpv]]. reflexivity.
      + cbn [escapable]. apply forallb_forall. intros t Ht.
        apply in_map_iff in Ht as [pv [<- Hpv]]. reflexivity. }
  split.
  - apply wf_dict_intro.
    + intros k v Hin. apply (Hent k v Hin).
    + apply forallb_forall. intros k Hk. unfold dict_keys in Hk.
      apply in_map_iff in Hk as [[k' v'] [<- Hin]]. apply (Hent k' v' Hin).
    + unfold dict_keys. rewrite !map_app. apply NoDup_app; [exact Hnd| |].
      * unfold insert_entry, delete_entry.
        destruct (inserted_of es); destruct (rev (deleted_of es));
          cbn [map app fst]; repeat constructor; simpl; intuition discriminate.
      * intros k Hk Hk'. destruct (Hkeys k Hk) as [p [-> _]].
        unfold insert_entry, delete_entry in Hk'.
        destruct (inserted_of es); destruct (rev (deleted_of es));
          cbn [map app fst] in Hk'; simpl in Hk'; intuition discriminate.
  - apply escapable_dict_intro. intros k v Hin.
    destruct (Hent k v Hin) as (_ & H1 & H2 & _). auto.
Qed.

Lemma set_filter_ok (p : value -> bool) (a : list value) :
  wf (VSet a) = true -> plain (VSet a) = true ->
  wf (VSet (filter p a)) = true /\ escapable (VSet (filter p a)) = true.
Proof.
  intros Hw Hp. destruct (wf_set_inv a Hw) as (Hh & Hn & Hwf).
  cbn [plain] in Hp. rewrite forallb_forall in Hp.
  assert (Hhf : forallb hashable (filter p a) = true)
    by now apply hashable_filter.
  split.
  - cbn [wf]. rewrite Hhf, (proj2 (distinct_NoDup _ Hhf) (NoDup_filter p Hn)),
      !andb_true_r.
    apply forallb_forall. intros x Hx. apply filter_In in Hx as [Hx _]. auto.
  - cbn [escapable]. apply forallb_forall. intros x Hx.
    apply filter_In in Hx as [Hx _]. auto.
Qed.

Lemma set_delta_ok sim (a b : list value) :
  wf (VSet a) = true -> plain (VSet a) = true ->
  wf (VSet b) = true -> plain (VSet b) = true ->
  wf (fst (JsonDiffer._set_diff default_options sim (VSet b) a b)) = true
  /\ escapable (fst (JsonDiffer._set_diff default_options sim (VSet b) a b))
     = true.
Proof.
  intros Hwa Hpa Hwb Hpb. unfold JsonDiffer._set_diff.
  destruct (JsonDiffer.is_empty _ && JsonDiffer.is_empty _);
    [split; reflexivity|].
  destruct (JsonDiffer.greedy _ _ _ _ _) as [sc nc].
  cbn [fst snd syntax default_options syn_emit_set_diff compact].
  unfold CompactJsonDiffSyntax.emit_set_diff.
  destruct (Qeq_bool _ 0 || (_ =? _)%nat); [now apply replacement_ok|].
  destruct (set_filter_ok (fun x => negb (set_mem x b)) a Hwa Hpa) as [R1 R2].
  destruct (set_filter_ok (fun x => negb (set_mem x a)) b Hwb Hpb) as [A1 A2].
  fold (set_difference a b) in R1, R2. fold (set_difference b a) in A1, A2.
  destruct (set_difference a b) as [|r rs] eqn:Er;
    destruct (set_difference b a) as [|d ds] eqn:Ed;
    cbn [dict_set py_eq Symbol_eqb];
    cbn [wf escapable forallb map fst snd hashable distinct set_mem existsb
         py_eq Symbol_eqb isinstance_Symbol orb andb negb] in *;
    rewrite ?R1, ?R2, ?A1, ?A2; split; reflexivity.
Qed.

Lemma dict_delta_ok sim (a b : dict) :
  wf (VDict a) = true -> plain (VDict a) = true ->
  wf (VDict b) = true -> plain (VDict b) = true ->
  (forall k v w, In (k, v) a -> In w (map snd b) ->
                 wf (fst (sim v w)) = true /\ escapable (fst (sim v w)) = true) ->
  wf (fst (JsonDiffer._dict_diff default_options sim (VDict a) (VDict b) a b))
  = true
  /\ escapable
       (fst (JsonDiffer._dict_diff default_options sim (VDict a) (VDict b) a b))
     = true.
Proof.
  intros Hwa Hpla Hwb Hplb Hel.
  destruct (plain_dict_inv a Hpla) as (Hpa & _ & Hva).
  destruct (plain_dict_inv b Hplb) as (Hpb & Hb & Hvb).
  destruct (wf_dict_inv a Hwa) as (Hha & Hna & Hwva).
  destruct (wf_dict_inv b Hwb) as (Hhb & Hnb & Hwvb).
  rewrite _dict_diff_eq by assumption.
  destruct (Qeq_bool (snd (JsonDiffer._dict_diff default_options sim (VDict a)
                                                 (VDict b) a b)) 0) eqn:E0.
  { unfold CompactJsonDiffSyntax.emit_dict_diff. rewrite E0.
    now apply replacement_ok. }
  destruct (Qeq_bool (snd (JsonDiffer._dict_diff default_options sim (VDict a)
                                                 (VDict b) a b)) 1) eqn:E1.
  { unfold CompactJsonDiffSyntax.emit_dict_diff. rewrite E0, E1.
    split; reflexivity. }
  rewrite (emit_dict_diff_partial sim _ _ _ a b) by assumption.
  assert (Hkr : forall k, In k (dict_keys (map_removed a b)) ->
                          wf k = true /\ plain k = true /\ hashable k = true).
  { intros k Hk. apply keys_filter_In in Hk. unfold dict_keys in Hk.
    apply in_map_iff in Hk as [[k' v'] [<- Hin]]. cbn [fst].
    split; [apply (Hwva k' v' Hin)|split; [apply (Hva k' v' Hin)|]].
    rewrite forallb_forall in Hha. apply Hha. now apply (in_map fst) in Hin. }
  assert (Hent : forall k v,
             In (k, v) (map_changed sim a b ++ map_added a b
                                    ++ delete_keys_entry (map_removed a b)) ->
             (wf k = true /\ wf v = true)
             /\ (isinstance_Symbol k = true \/ plain k = true)
             /\ escapable v = true /\ hashable k = true).
  { intros k v Hin. apply in_app_or in Hin as [Hin|Hin];
      [|apply in_app_or in Hin as [Hin|Hin]].
    - apply map_changed_In in Hin as (v0 & w & Hin & G & -> & _).
      destruct (Hel k v0 w Hin (dict_get_In _ _ _ G)) as [W E].
      rewrite forallb_forall in Hha.
      repeat split; auto.
      + apply (Hwva k v0 Hin).
      + right. apply (Hva k v0 Hin).
      + apply Hha. now apply (in_map fst) in Hin.
    - apply filter_In in Hin as [Hin _]. rewrite forallb_forall in Hhb.
      repeat split.
      + apply (Hwvb k v Hin).
      + apply (Hwvb k v Hin).
      + right. apply (Hvb k v Hin).
      + apply plain_escapable. apply (Hvb k v Hin).
      + apply Hhb. now apply (in_map fst) in Hin.
    - unfold delete_keys_entry in Hin.
      destruct (map_removed a b) eqn:Er; [destruct Hin|]. rewrite <- Er in *.
      destruct Hin as [[= <- <-]|[]]. repeat split; auto.
      + cbn [wf]. apply forallb_forall. intros k Hk. apply (Hkr k Hk).
      + cbn [escapable]. apply forallb_forall. intros k Hk.
        apply plain_escapable. apply (Hkr k Hk). }
  split.
  - apply wf_dict_intro.
    + intros k v Hin. apply (Hent k v Hin).
    + apply forallb_forall. intros k Hk. unfold dict_keys in Hk.
      apply in_map_iff in Hk as [[k' v'] [<- Hin]]. apply (Hent k' v' Hin).
    + unfold dict_keys. rewrite !map_app. rewrite app_assoc.
      apply NoDup_app.
      * apply NoDup_app.
        -- now apply map_changed_NoDup.
        -- now apply keys_filter_NoDup.
        -- intros k Hk Hk'. apply map_changed_keys_In in Hk.
           now apply (map_added_fresh a b k Hhb) in Hk'.
      * unfold delete_keys_entry. destruct (map_removed a b);
          cbn [map fst]; repeat constructor. intros [].
      * intros k Hk Hk'. unfold delete_keys_entry in Hk'.
        destruct (map_removed a b); cbn [map fst] in Hk'; [destruct Hk'|].
        destruct Hk' as [<-|[]].
        apply in_app_or in Hk as [Hk|Hk].
        -- apply map_changed_keys_In in Hk. now apply (Hpa _ delete) in Hk.
        -- apply keys_filter_In in Hk. now apply (Hpb _ delete) in Hk.
  - apply escapable_dict_intro. intros k v Hin.
    destruct (Hent k v Hin) as (_ & H1 & H2 & _). auto.
Qed.

Lemma value_delta_ok (a b : value) :
  wf b = true -> plain b = true ->
  let r := if negb (py_eq a b)
           then (CompactJsonDiffSyntax.emit_value_diff a b 0, 0%Q)
           else (CompactJsonDiffSyntax.emit_value_diff a b 1, 1%Q) in
  wf (fst r) = true /\ escapable (fst r) = true.
Proof.
  intros Hw Hp. destruct (negb (py_eq a b)); cbn [fst].
  - now apply replacement_ok.
  - split; reflexivity.
Qed.

Section delta_shape.
Variable same : value -> value -> bool.

Let sim := JsonDiffer._obj_diff default_options same.

Lemma obj_diff_delta_ok (a : value) :
  forall b, wf a = true -> plain a = true -> wf b = true -> plain b = true ->
            wf (fst (sim a b)) = true /\ escapable (fst (sim a b)) = true.
Proof.
  induction a as [| z | s | y | X IH | X IH | X IH | d IH] using value_rect';
    intros b Hwa Hpa Hwb Hpb; unfold sim; cbn [JsonDiffer._obj_diff];
    (match goal with
     | |- context [same ?a b] => destruct (same a b) eqn:Es
     end; [split; reflexivity|]).
  - destruct b; now apply value_delta_ok.
  - destruct b; now apply value_delta_ok.
  - destruct b; now apply value_delta_ok.
  - destruct b; now apply value_delta_ok.
  - destruct b as [| | | | Y | | |]; try now apply value_delta_ok.
    apply list_delta_ok; auto.
    intros x y Hx Hy. rewrite Forall_forall in IH.
    cbn [wf plain] in Hwa, Hpa, Hwb, Hpb. rewrite forallb_forall in *.
    apply IH; auto.
  - destruct b as [| | | | | Y | |]; try now apply value_delta_ok.
    apply list_delta_ok; auto.
    intros x y Hx Hy. rewrite Forall_forall in IH.
    cbn [wf plain] in Hwa, Hpa, Hwb, Hpb. rewrite forallb_forall in *.
    apply IH; auto.
  - destruct b as [| | | | | | Y |]; try now apply value_delta_ok.
    now apply set_delta_ok.
  - destruct b as [| | | | | | | e]; try now apply value_delta_ok.
    apply dict_delta_ok; auto.
    intros k v w Hin Hw. rewrite Forall_forall in IH.
    destruct (wf_dict_inv d Hwa) as (_ & _ & Hwd).
    destruct (wf_dict_inv e Hwb) as (_ & _ & Hwe).
    destruct (plain_dict_inv d Hpa) as (_ & _ & Hpd).
    destruct (plain_dict_inv e Hpb) as (_ & _ & Hpe).
    apply in_map_iff in Hw as [[k' w'] [<- Hin']]. cbn [snd].
    apply (proj2 (IH _ Hin)); cbn [snd].
    + apply (Hwd k v Hin).
    + apply (Hpd k v Hin).
    + apply (Hwe k' w' Hin').
    + apply (Hpe k' w' Hin').
Qed.
End delta_shape.

Lemma obj_diff_options (m : bool) (e : string) same (a b : value) :
  JsonDiffer._obj_diff {| syntax := compact; marshal_opt := m; escape_str := e |}
                       same a b
  = JsonDiffer._obj_diff default_options same a b.
Proof. reflexivity. Qed.

Lemma dict_set_In (k v : value) (d : dict) (k' v' : value) :
  In (k', v') (dict_set k v d) ->
  (k' = k \/ In k' (dict_keys d)) /\ (v' = v \/ In v' (map snd d)).
Proof.
  induction d as [|[k0 v0] d IH]; cbn [dict_set dict_keys map fst snd].
  - intros [[= <- <-]|[]]. auto.
  - destruct (py_eq k k0).
    + intros [[= <- <-]|Hin].
      * split; [right; left; reflexivity|left; reflexivity].
      * split; right; right.
        -- now apply (in_map fst) in Hin.
        -- now apply (in_map snd) in Hin.
    + intros [[= <- <-]|Hin].
      * split; right; left; reflexivity.
      * destruct (IH Hin) as [[->|H1] [->|H2]]; split; auto;
          right; right; assumption.
Qed.

Lemma fold_dict_set_In (f g : value -> value) (items : dict) :
  forall (acc : dict) (k v : value),
    In (k, v)
       (fold_left (fun acc kv => dict_set (f (fst kv)) (g (snd kv)) acc)
                  items acc) ->
    (In k (dict_keys acc) \/ exists kv, In kv items /\ k = f (fst kv))
    /\ (In v (map snd acc) \/ exists kv, In kv items /\ v = g (snd kv)).
Proof.
  induction items as [|kv items IH]; cbn [fold_left]; intros acc k v Hin.
  - split; left.
    + now apply (in_map fst) in Hin.
    + now apply (in_map snd) in Hin.
  - destruct (IH _ _ _ Hin) as [Hk Hv]. split.
    + destruct Hk as [Hk|[kv' [Hi E]]].
      * unfold dict_keys in Hk. apply in_map_iff in Hk as [[k1 v1] [<- Hk]].
        destruct (dict_set_In _ _ _ _ _ Hk) as [[->|H1] _]; auto.
        right. exists kv. split; [now left|reflexivity].
      * right. exists kv'. split; [now right|exact E].
    + destruct Hv as [Hv|[kv' [Hi E]]].
      * apply in_map_iff in Hv as [[k1 v1] [<- Hv]].
        destruct (dict_set_In _ _ _ _ _ Hv) as [_ [->|H1]]; auto.
        right. exists kv. split; [now left|reflexivity].
      * right. exists kv'. split; [now right|exact E].
Qed.

Section escaping.
Variable o : Options.

Lemma escape_plain (k : value) :
  isinstance_Symbol k = true \/ plain k = true ->
  plain (JsonDiffer._escape o k) = true.
Proof.
  destruct k; cbn [isinstance_Symbol plain JsonDiffer._escape];
    intros [H|H]; try discriminate; auto.
  - now destruct (String.prefix _ _).
Qed.

Lemma marshal_plain (d : value) :
  escapable d = true -> plain (JsonDiffer.marshal o d) = true.
Proof.
  induction d as [| z | s | y | l IH | l IH | l IH | l IH] using value_rect';
    cbn [escapable]; intros He.
  - reflexivity.
  - reflexivity.
  - apply escape_plain. now right.
  - discriminate.
  - cbn [JsonDiffer.marshal plain]. rewrite forallb_forall in *.
    rewrite Forall_forall in IH. intros x Hx.
    apply in_map_iff in Hx as [x0 [<- Hx]]. auto.
  - cbn [JsonDiffer.marshal plain]. rewrite forallb_forall in *.
    rewrite Forall_forall in IH. intros x Hx.
    apply in_map_iff in Hx as [x0 [<- Hx]]. auto.
  - exact He.
  - cbn [JsonDiffer.marshal plain]. rewrite forallb_forall in *.
    rewrite Forall_forall in IH. intros [k v] Hin.
    apply (fold_dict_set_In (JsonDiffer._escape o) (JsonDiffer.marshal o))
      in Hin as [[[]|[kv [Hi ->]]] [[]|[kv' [Hi' ->]]]].
    cbn [fst snd]. apply andb_true_iff. split.
    + apply escape_plain. specialize (He _ Hi).
      apply andb_true_iff in He as [He _]. now apply orb_true_iff in He.
    + apply (proj2 (IH _ Hi')). specialize (He _ Hi').
      now apply andb_true_iff in He as [_ He].
Qed.
End escaping.

(** X7.  The delta of two well-formed values of the value model is a
    well-formed value itself: the keys of its dicts are hashable and pairwise
    distinct and the elements of its sets likewise; and the markers in it
    occur as keys of dicts only, never as a value or an element, inside a set
    or inside a key. *)
Theorem diff_delta_well_formed (same : value -> value -> bool) (a b : value) :
  wf a = true -> plain a = true -> wf b = true -> plain b = true ->
  wf (diff default_options same a b) = true
  /\ escapable (diff default_options same a b) = true.
Proof.
  intros Hwa Hpa Hwb Hpb. unfold diff, JsonDiffer.diff.
  cbn [marshal_opt default_options].
  now apply obj_diff_delta_ok.
Qed.

Lemma diff_delta_well_formed_witness :
  let a := VDict [(VStr "k", VList [VInt 1; VSet [VInt 2; VInt 3]; VInt 5]);
                  (VStr "gone", VNone)] in
  let b := VDict [(VStr "new", VTuple [VStr "x"]);
                  (VStr "k", VList [VInt 0; VInt 1; VSet [VInt 3; VInt 4]])] in
  wf (diff default_options never_same a b) = true
  /\ escapable (diff default_options never_same a b) = true.
Proof.
  intros a b.
  apply (diff_delta_well_formed never_same a b); vm_compute; reflexivity.
Defined.

(** X8.  Escaping is transparent.  With [marshal=True] on both sides and an
    escape token of one character that begins no marker name, patching [a]
    with the escaped delta from [a] to [b] does what patching it with the
    plain delta does: [unmarshal] gives back the delta that [marshal] was
    given. *)
Theorem marshal_transparent (c : ascii) (same : value -> value -> bool)
        (a b : value) :
  (forall y, String.prefix (String c EmptyString) (label y) = false) ->
  wf a = true -> plain a = true -> wf b = true -> plain b = true ->
  let o := {| syntax := compact; marshal_opt := true;
              escape_str := String c EmptyString |} in
  patch o a (diff o same a b)
  = patch default_options a (diff default_options same a b).
Proof.
  intros Hc Hwa Hpa Hwb Hpb o.
  unfold patch, diff, JsonDiffer.patch, JsonDiffer.diff, o.
  cbn [marshal_opt syntax syn_patch compact default_options].
  rewrite obj_diff_options.
  destruct (obj_diff_delta_ok same a b Hwa Hpa Hwb Hpb) as [Hwd _].
  now rewrite (unmarshal_marshal c true Hc _ Hwd).
Qed.

Lemma marshal_transparent_witness :
  let a := VDict [(VStr "$k", VList [VInt 1; VSet [VInt 2; VInt 3]; VInt 5]);
                  (VStr "gone", VNone)] in
  let b := VDict [(VStr "$new", VTuple [VStr "$x"]);
                  (VStr "$k", VList [VInt 0; VInt 1; VSet [VInt 3; VInt 4]])] in
  let o := {| syntax := compact; marshal_opt := true; escape_str := "$" |} in
  patch o a (diff o never_same a b)
  = patch default_options a (diff default_options never_same a b).
Proof.
  intros a b.
  apply (marshal_transparent "$"%char never_same a b);
    [intros y; destruct y; reflexivity| | | |]; vm_compute; reflexivity.
Defined.

(** X9.  With [marshal=True] the delta that [diff] returns holds no marker
    object at all, whatever the escape token: every marker has become a
    string. *)
Theorem marshalled_delta_plain (e : string) (same : value -> value -> bool)
        (a b : value) :
  wf a = true -> plain a = true -> wf b = true -> plain b = true ->
  plain (diff {| syntax := compact; marshal_opt := true; escape_str := e |}
              same a b) = true.
Proof.
  intros Hwa Hpa Hwb Hpb. unfold diff, JsonDiffer.diff. cbn [marshal_opt].
  rewrite obj_diff_options. apply marshal_plain.
  now apply obj_diff_delta_ok.
Qed.

Lemma marshalled_delta_plain_witness :
  let a := VDict [(VStr "k", VList [VInt 1; VSet [VInt 2; VInt 3]; VInt 5]);
                  (VStr "gone", VNone)] in
  let b := VDict [(VStr "new", VTuple [VStr "x"]);
                  (VStr "k", VList [VInt 0; VInt 1; VSet [VInt 3; VInt 4]])] in
  plain (diff {| syntax := compact; marshal_opt := true; escape_str := "@" |}
              never_same a b) = true.
Proof.
  intros a b.
  apply (marshalled_delta_plain "@" never_same a b); vm_compute; reflexivity.
Defined.

(** ** Patching a sequence *)

Lemma norm_index_Ok (n : nat) (z : Z) (i : nat) :
  norm_index n z = Ok i -> (i < n)%nat.
Proof.
  unfold norm_index.
  destruct (z <? 0) eqn:E;
    match goal with
    | |- context [(0 <=? ?u) && (?u <? ?w)] =>
        destruct (Z.leb_spec 0 u); destruct (Z.ltb_spec u w)
    end; cbn [andb]; intros [= <-]; lia.
Qed.

Lemma pops_length (ps : list value) :
  forall a a', for_each (fun a1 pos => list_pop pos a1) ps a = Ok a' ->
               (length a' + length ps = length a)%nat.
Proof.
  induction ps as [|p ps IH]; cbn [for_each length]; intros a a' H.
  - injection H as <-. lia.
  - unfold list_pop in H at 1.
    destruct (py_index p) as [z|]; [|discriminate]. cbn [bind] in H.
    destruct (norm_index (length a) z) as [i|] eqn:En; [|discriminate].
    cbn [bind] in H. apply norm_index_Ok in En. apply IH in H.
    rewrite length_app, length_firstn, length_skipn in H. lia.
Qed.

Lemma inserts_length (its : list value) :
  forall a a', for_each insert_step its a = Ok a' ->
               (length a' = length a + length its)%nat.
Proof.
  induction its as [|it its IH]; cbn [for_each length]; intros a a' H.
  - injection H as <-. lia.
  - unfold insert_step in H at 1.
    destruct (unpack2 it) as [[p x]|]; [|discriminate]. cbn [bind fst snd] in H.
    unfold list_insert in H at 1.
    destruct (py_index p) as [z|]; [|discriminate]. cbn [bind] in H.
    apply IH in H. rewrite H, length_app. cbn [length].
    rewrite length_firstn, length_skipn. lia.
Qed.

Lemma changes_length (items : dict) :
  forall a a', for_each change_step items a = Ok a' -> length a' = length a.
Proof.
  induction items as [|kv items IH]; cbn [for_each]; intros a a' H.
  - now injection H as <-.
  - unfold change_step in H at 1.
    destruct (negb (py_eq (fst kv) (VSym delete))
              && negb (py_eq (fst kv) (VSym insert))).
    + destruct (py_int (fst kv)) as [z|]; [|discriminate]. cbn [bind] in H.
      unfold list_getitem, list_setitem in H.
      destruct (norm_index (length a) z) as [i|] eqn:En; [|discriminate].
      cbn [bind] in H.
      destruct (CompactJsonDiffSyntax.patch (nth i a VNone) (snd kv)) as [y|];
        [|discriminate].
      cbn [bind] in H. apply norm_index_Ok in En. apply IH in H.
      rewrite H, length_app. cbn [length].
      rewrite length_firstn, length_skipn. lia.
    + cbn [bind] in H. now apply IH.
Qed.

Lemma patch_seq_length (a0 : list value) (items : dict) (a3 : list value) :
  patch_seq a0 items = Ok a3 ->
  (length a3 + listed delete items = length a0 + listed insert items)%nat.
Proof.
  unfold patch_seq, listed. intros H.
  destruct (dict_get (VSym delete) items) as [v|].
  - destruct (py_iter v) as [ps|]; [|discriminate]. cbn [bind] in H.
    destruct (for_each _ ps a0) as [a1|] eqn:E1; [|discriminate].
    cbn [bind] in H. apply pops_length in E1.
    destruct (dict_get (VSym insert) items) as [w|].
    + destruct (py_iter w) as [its|]; [|discriminate]. cbn [bind] in H.
      destruct (for_each insert_step its a1) as [a2|] eqn:E2; [|discriminate].
      cbn [bind] in H. apply inserts_length in E2. apply changes_length in H.
      lia.
    + cbn [bind] in H. apply changes_length in H. lia.
  - cbn [bind] in H.
    destruct (dict_get (VSym insert) items) as [w|].
    + destruct (py_iter w) as [its|]; [|discriminate]. cbn [bind] in H.
      destruct (for_each insert_step its a0) as [a2|] eqn:E2; [|discriminate].
      cbn [bind] in H. apply inserts_length in E2. apply changes_length in H.
      lia.
    + cbn [bind] in H. apply changes_length in H. lia.
Qed.

(** X10.  Patching a list or a tuple with a delta that is a dict, not empty
    and without the [replace] marker, gives, when it gives a result, a
    sequence of the same type: a tuple stays a tuple and a list a list.  Its
    length is that of the base less the number of positions listed under
    [delete] plus the number of items listed under [insert]. *)
Theorem patch_sequence_shape (a0 : list value) (items : dict) (r : value) :
  items <> [] -> dict_get (VSym replace) items = None ->
  (patch default_options (VList a0) (VDict items) = Ok r ->
   exists l, r = VList l
             /\ (length l + listed delete items
                 = length a0 + listed insert items)%nat)
  /\ (patch default_options (VTuple a0) (VDict items) = Ok r ->
      exists l, r = VTuple l
                /\ (length l + listed delete items
                    = length a0 + listed insert items)%nat).
Proof.
  intros Hne Hr. destruct (patch_list_eq a0 items Hne Hr) as [EL ET].
  unfold patch, JsonDiffer.patch.
  cbn [marshal_opt default_options syntax syn_patch compact].
  rewrite EL, ET.
  destruct (patch_seq a0 items) as [a3|] eqn:E; cbn [bind];
    split; intros H; try discriminate; injection H as <-;
    exists a3; (split; [reflexivity|now apply patch_seq_length]).
Qed.

Lemma patch_sequence_shape_witness :
  let a0 := [VInt 1; VInt 2; VInt 3] in
  let items := [(VSym delete, VList [VInt 0]);
                (VSym insert, VList [VTuple [VInt 1; VStr "x"];
                                     VTuple [VInt 2; VStr "y"]])] in
  let r := VTuple [VInt 2; VStr "x"; VStr "y"; VInt 3] in
  exists l, r = VTuple l
            /\ (length l + listed delete items
                = length a0 + listed insert items)%nat.
Proof.
  intros a0 items r.
  apply (patch_sequence_shape a0 items r);
    [discriminate|reflexivity|vm_compute; reflexivity].
Defined.

Lemma drop_positions_app (ps : list nat) (P Q : list value) :
  forall i, drop_positions i ps (P ++ Q)
            = drop_positions i ps P ++ drop_positions (i + length P) ps Q.
Proof.
  induction P as [|x P IH]; cbn [app drop_positions length]; intros i.
  - now rewrite Nat.add_0_r.
  - rewrite IH, Nat.add_succ_r. cbn [Nat.add].
    now destruct (existsb (Nat.eqb i) ps).
Qed.

Lemma drop_positions_ext (ps qs : list nat) (X : list value) :
  forall i,
    (forall j, (i <= j < i + length X)%nat ->
               existsb (Nat.eqb j) ps = existsb (Nat.eqb j) qs) ->
    drop_positions i ps X = drop_positions i qs X.
Proof.
  induction X as [|x X IH]; cbn [drop_positions length]; intros i H;
    [reflexivity|].
  rewrite (H i) by lia. rewrite (IH (S i)); [reflexivity|].
  intros j Hj. apply H. lia.
Qed.

Lemma drop_positions_none (ps : list nat) (X : list value) :
  forall i,
    (forall j, (i <= j < i + length X)%nat -> ~ In j ps) ->
    drop_positions i ps X = X.
Proof.
  induction X as [|x X IH]; cbn [drop_positions length]; intros i H;
    [reflexivity|].
  assert (E : existsb (Nat.eqb i) ps = false).
  { destruct (existsb (Nat.eqb i) ps) eqn:E; [|reflexivity].
    apply existsb_exists in E as [q [Hq E]]. apply Nat.eqb_eq in E. subst q.
    exfalso. apply (H i); [lia|exact Hq]. }
  rewrite E, (IH (S i)); [reflexivity|].
  intros j Hj. apply H. lia.
Qed.

Lemma descending_below_lt (ps : list nat) :
  forall hi, descending_below hi ps = true -> forall q, In q ps -> (q < hi)%nat.
Proof.
  induction ps as [|p ps IH]; cbn [descending_below]; intros hi H q Hq;
    [destruct Hq|].
  apply andb_true_iff in H as [Hp H]. apply Nat.ltb_lt in Hp.
  destruct Hq as [<-|Hq]; [exact Hp|].
  specialize (IH p H q Hq). lia.
Qed.

Lemma descending_below_mono (ps : list nat) (hi hi' : nat) :
  (hi <= hi')%nat -> descending_below hi ps = true ->
  descending_below hi' ps = true.
Proof.
  destruct ps as [|p ps]; cbn [descending_below]; [reflexivity|].
  intros Hle H. apply andb_true_iff in H as [Hp H]. apply Nat.ltb_lt in Hp.
  rewrite H, andb_true_r. apply Nat.ltb_lt. lia.
Qed.

Lemma existsb_eqb_cons_other (j p : nat) (ps : list nat) :
  j <> p -> existsb (Nat.eqb j) (p :: ps) = existsb (Nat.eqb j) ps.
Proof.
  intros H. cbn [existsb]. apply Nat.eqb_neq in H. now rewrite H.
Qed.

Lemma split_at (X : list value) (p : nat) :
  (p < length X)%nat ->
  exists P x K, X = P ++ x :: K /\ length P = p.
Proof.
  intros H. exists (firstn p X), (nth p X VNone), (skipn (S p) X). split.
  - rewrite <- (firstn_skipn p X) at 1. f_equal.
    revert p H. induction X as [|x X IH]; cbn [length]; intros p H; [lia|].
    destruct p as [|p]; [reflexivity|]. cbn [skipn nth]. apply IH. lia.
  - rewrite length_firstn. lia.
Qed.

Lemma pops_descending (ps : list nat) :
  forall X, descending_below (length X) ps = true ->
            for_each (fun a1 pos => list_pop pos a1) (map VPos ps) X
            = Ok (drop_positions 0 ps X).
Proof.
  induction ps as [|p ps IH]; intros X H.
  - cbn [map for_each]. rewrite drop_positions_none; [reflexivity|].
    intros j _ [].
  - cbn [descending_below] in H. apply andb_true_iff in H as [Hp H].
    apply Nat.ltb_lt in Hp.
    destruct (split_at X p Hp) as (P & x & K & -> & HP).
    cbn [map for_each]. rewrite <- HP at 1. rewrite list_pop_middle.
    cbn [bind]. rewrite IH.
    + f_equal. rewrite !drop_positions_app. cbn [Nat.add]. rewrite HP.
      cbn [drop_positions]. cbn [existsb]. rewrite Nat.eqb_refl. cbn [orb].
      pose proof (descending_below_lt ps p H) as Hlt.
      rewrite (drop_positions_ext (p :: ps) ps P 0).
      * f_equal. rewrite !drop_positions_none; [reflexivity| |].
        -- intros j Hj [<-|Hin]; [lia|]. apply Hlt in Hin. lia.
        -- intros j Hj Hin. apply Hlt in Hin. lia.
      * intros j Hj. apply existsb_eqb_cons_other. lia.
    + apply (descending_below_mono ps p); [|exact H].
      rewrite length_app. lia.
Qed.

Lemma list_pop_out_of_range (X : list value) (z : Z) :
  list_pop (VInt z) X = Raise IndexError
  <-> (z < - Z.of_nat (length X) \/ Z.of_nat (length X) <= z)%Z.
Proof.
  unfold list_pop, norm_index. cbn [py_index bind].
  destruct (Z.ltb_spec z 0);
    match goal with
    | |- context [(0 <=? ?u) && (?u <? ?w)] =>
        destruct (Z.leb_spec 0 u); destruct (Z.ltb_spec u w)
    end; cbn [andb bind]; split; intros H'; try discriminate; try reflexivity;
    lia.
Qed.

(** X11.  Positions under [delete] are taken out one after the other, each
    one counted in the sequence as the earlier ones left it.  When they go
    strictly down from below the length of the base, as [diff] lists them,
    the result is the base without the elements at exactly these positions.
    A single position that fits a machine word raises [IndexError] exactly
    when it is neither a position of the base nor the negative of one counted
    from the end. *)
Theorem patch_delete_descending (X : list value) :
  (forall ps : list nat,
      descending_below (length X) ps = true ->
      patch default_options (VList X)
            (VDict [(VSym delete, VList (map VPos ps))])
      = Ok (VList (drop_positions 0 ps X)))
  /\ (forall z : Z,
         (- 2 ^ 63 <= z < 2 ^ 63)%Z ->
         (patch default_options (VList X)
                (VDict [(VSym delete, VList [VInt z])])
          = Raise IndexError
          <-> (z < - Z.of_nat (length X) \/ Z.of_nat (length X) <= z)%Z)).
Proof.
  split.
  - intros ps H.
    destruct (patch_list_eq X [(VSym delete, VList (map VPos ps))]) as [E _];
      [discriminate|reflexivity|].
    unfold patch, JsonDiffer.patch.
    cbn [marshal_opt default_options syntax syn_patch compact].
    rewrite E. unfold patch_seq.
    change (dict_get (VSym delete) [(VSym delete, VList (map VPos ps))])
      with (Some (VList (map VPos ps))).
    change (dict_get (VSym insert) [(VSym delete, VList (map VPos ps))])
      with (@None value).
    cbn [py_iter bind]. rewrite (pops_descending ps X H). reflexivity.
  - intros z _.
    destruct (patch_list_eq X [(VSym delete, VList [VInt z])]) as [E _];
      [discriminate|reflexivity|].
    unfold patch, JsonDiffer.patch.
    cbn [marshal_opt default_options syntax syn_patch compact].
    rewrite E. unfold patch_seq.
    change (dict_get (VSym delete) [(VSym delete, VList [VInt z])])
      with (Some (VList [VInt z])).
    change (dict_get (VSym insert) [(VSym delete, VList [VInt z])])
      with (@None value).
    cbn [py_iter bind for_each].
    rewrite <- (list_pop_out_of_range X z).
    destruct (list_pop (VInt z) X) as [a1|e]; cbn [bind for_each change_step];
      split; intros H; try discriminate; injection H as ->; reflexivity.
Qed.

Lemma patch_delete_descending_witness :
  let X := [VStr "a"; VStr "b"; VStr "c"; VStr "d"] in
  patch default_options (VList X)
        (VDict [(VSym delete, VList (map VPos [3; 1]%nat))])
  = Ok (VList [VStr "a"; VStr "c"])
  /\ patch default_options (VList X) (VDict [(VSym delete, VList [VInt 4])])
     = Raise IndexError.
Proof.
  intros X. split.
  - apply (proj1 (patch_delete_descending X) [3; 1]%nat). reflexivity.
  - apply (proj2 (patch_delete_descending X) 4%Z).
    + split; [discriminate|reflexivity].
    + right. cbn. lia.
Defined.

Lemma ascending_within_ge (ps : list nat) :
  forall lo n, ascending_within lo n ps = true ->
               forall q, In q ps -> (lo <= q)%nat.
Proof.
  induction ps as [|p ps IH]; cbn [ascending_within]; intros lo n H q Hq;
    [destruct Hq|].
  apply andb_true_iff in H as [H H']. apply andb_true_iff in H as [H1 H2].
  apply Nat.leb_le in H1. destruct Hq as [<-|Hq]; [exact H1|].
  specialize (IH _ _ H' q Hq). lia.
Qed.

Lemma firstn_firstn_le (X : list value) (i j : nat) :
  (i <= j)%nat -> firstn i (firstn j X) = firstn i X.
Proof. intros H. rewrite firstn_firstn. f_equal. lia. Qed.

Lemma list_insert_at (X : list value) (p : nat) (v : value) :
  (p <= length X)%nat ->
  list_insert (VPos p) v X = Ok (firstn p X ++ v :: skipn p X).
Proof.
  intros H. unfold list_insert, VPos. cbn [py_index bind].
  destruct (Z.ltb_spec (Z.of_nat p) 0); [lia|].
  now rewrite Nat2Z.id, Nat.min_l by lia.
Qed.

Lemma inserts_ascending (ins : list (nat * value)) :
  forall lo X,
    ascending_within lo (length X) (map fst ins) = true ->
    exists l,
      for_each insert_step
               (map (fun pv => VTuple [VPos (fst pv); snd pv]) ins) X = Ok l
      /\ firstn lo l = firstn lo X
      /\ drop_positions 0 (map fst ins) l = X
      /\ forall p v, In (p, v) ins -> nth_error l p = Some v.
Proof.
  induction ins as [|[p v] ins IH]; intros lo X H.
  - exists X. cbn [map for_each]. split; [reflexivity|split; [reflexivity|]].
    split; [|intros p v []].
    apply drop_positions_none. intros j _ [].
  - cbn [map fst ascending_within] in H.
    apply andb_true_iff in H as [H H']. apply andb_true_iff in H as [H1 H2].
    apply Nat.leb_le in H1, H2.
    set (P := firstn p X). set (K := skipn p X).
    assert (HP : length P = p) by (unfold P; rewrite length_firstn; lia).
    assert (HX : X = P ++ K) by (unfold P, K; now rewrite firstn_skipn).
    assert (Hlen : length (P ++ v :: K) = S (length X)).
    { rewrite HX, !length_app. cbn [length]. lia. }
    rewrite <- Hlen in H'.
    destruct (IH (S p) (P ++ v :: K) H') as (l & Hl & Hf & Hd & Hn).
    pose proof (ascending_within_ge _ _ _ H') as Hge.
    exists l. cbn [map for_each fst snd]. unfold insert_step at 1.
    cbn [unpack2 py_iter bind fst snd]. rewrite (list_insert_at X p v H2).
    cbn [bind]. fold P K. split; [exact Hl|].
    assert (Hf' : firstn (S p) l = P ++ [v]).
    { rewrite Hf. rewrite <- HP at 1.
      change (P ++ v :: K) with (P ++ [v] ++ K). rewrite app_assoc.
      replace (S (length P)) with (length (P ++ [v]) + 0)%nat
        by (rewrite length_app; cbn [length]; lia).
      rewrite firstn_app_2. cbn [firstn]. now rewrite app_nil_r. }
    assert (Hl' : l = (P ++ [v]) ++ skipn (S p) l).
    { rewrite <- Hf'. now rewrite firstn_skipn. }
    split; [|split].
    + rewrite <- (firstn_firstn_le l lo (S p)) by lia.
      rewrite Hf'. rewrite HX at 1.
      rewrite !firstn_app. replace (lo - length P)%nat with 0%nat by lia.
      cbn [firstn]. reflexivity.
    + rewrite Hl' in Hd |- *.
      rewrite !drop_positions_app in Hd |- *. cbn [Nat.add] in *.
      rewrite HP in *. cbn [drop_positions length] in *.
      rewrite length_app in *. cbn [length] in *.
      replace (length P + 1)%nat with (S p) in * by lia.
      cbn [existsb]. rewrite Nat.eqb_refl. cbn [orb].
      assert (Ep : existsb (Nat.eqb p) (map fst ins) = false).
      { destruct (existsb (Nat.eqb p) (map fst ins)) eqn:E; [|reflexivity].
        apply existsb_exists in E as [q [Hq E]]. apply Nat.eqb_eq in E.
        subst q. apply Hge in Hq. lia. }
      rewrite Ep in Hd.
      assert (E0 : forall qs, (forall q, In q qs -> (p <= q)%nat) ->
                              drop_positions 0 qs P = P).
      { intros qs Hqs. apply drop_positions_none. intros j Hj Hin.
        apply Hqs in Hin. lia. }
      rewrite E0 in Hd by (intros q Hq; apply Hge in Hq; lia).
      rewrite E0 by (intros q [<-|Hq]; [lia|apply Hge in Hq; lia]).
      rewrite app_nil_r.
      rewrite (drop_positions_ext (p :: map fst ins) (map fst ins) _ (S p))
        by (intros j Hj; apply existsb_eqb_cons_other; lia).
      rewrite HX. f_equal.
      change (P ++ v :: K) with (P ++ [v] ++ K) in Hd.
      rewrite <- app_assoc in Hd. apply app_inv_head in Hd.
      cbn [app] in Hd. now injection Hd.
    + intros q w [[= <- <-]|Hin]; [|now apply Hn].
      rewrite Hl'. rewrite nth_error_app1
        by (rewrite length_app; cbn [length]; lia).
      rewrite nth_error_app2 by lia. rewrite HP, Nat.sub_diag. reflexivity.
Qed.

(** X12.  Items under [insert] are put in one after the other.  When their
    positions go strictly up and each is a position of the sequence as the
    earlier ones left it, as [diff] lists them, patching succeeds, every item
    sits at its recorded position in the result, and the result without
    these positions is the base. *)
Theorem patch_insert_ascending (X : list value) (ins : list (nat * value)) :
  ascending_within 0 (length X) (map fst ins) = true ->
  exists l,
    patch default_options (VList X)
          (VDict [(VSym insert,
                   VList (map (fun pv => VTuple [VPos (fst pv); snd pv]) ins))])
    = Ok (VList l)
    /\ length l = (length X + length ins)%nat
    /\ drop_positions 0 (map fst ins) l = X
    /\ forall p v, In (p, v) ins -> nth_error l p = Some v.
Proof.
  intros H. destruct (inserts_ascending ins 0 X H) as (l & Hl & _ & Hd & Hn).
  exists l.
  set (its := map (fun pv => VTuple [VPos (fst pv); snd pv]) ins) in *.
  destruct (patch_list_eq X [(VSym insert, VList its)]) as [E _];
    [discriminate|reflexivity|].
  unfold patch, JsonDiffer.patch.
  cbn [marshal_opt default_options syntax syn_patch compact].
  rewrite E. unfold patch_seq.
  change (dict_get (VSym delete) [(VSym insert, VList its)])
    with (@None value).
  change (dict_get (VSym insert) [(VSym insert, VList its)])
    with (Some (VList its)).
  cbn [py_iter bind]. rewrite Hl. cbn [bind for_each change_step].
  split; [reflexivity|split; [|split; [exact Hd|exact Hn]]].
  apply inserts_length in Hl. rewrite Hl. unfold its. now rewrite length_map.
Qed.

Lemma patch_insert_ascending_witness :
  exists l,
    patch default_options (VList [VStr "a"; VStr "b"])
          (VDict [(VSym insert,
                   VList (map (fun pv => VTuple [VPos (fst pv); snd pv])
                              [(0%nat, VStr "x"); (2%nat, VStr "y");
                               (4%nat, VStr "z")]))])
    = Ok (VList l)
    /\ length l = (2 + 3)%nat
    /\ drop_positions 0 [0; 2; 4]%nat l = [VStr "a"; VStr "b"]
    /\ forall p v, In (p, v) [(0%nat, VStr "x"); (2%nat, VStr "y");
                              (4%nat, VStr "z")] ->
                   nth_error l p = Some v.
Proof.
  apply (patch_insert_ascending
           [VStr "a"; VStr "b"]
           [(0%nat, VStr "x"); (2%nat, VStr "y"); (4%nat, VStr "z")]).
  reflexivity.
Defined.

(** ** When a container is replaced as a whole *)

Lemma alignment_trivial sim (xs ys : list value) :
  forall i j, exists es, alignment sim i j xs ys es /\ (total_of 0 es == 0)%Q.
Proof.
  induction xs as [|x xs IHx].
  - induction ys as [|y ys IHy]; intros i j.
    + exists []. split; [constructor|reflexivity].
    + destruct (IHy i (S j)) as (es & Hal & Ht).
      exists ((1, y, j, 0%Q) :: es). split; [now constructor|].
      rewrite total_of_cons, Ht. cbn [snd]. reflexivity.
  - intros i j. destruct (IHx (S i) j) as (es & Hal & Ht).
    exists ((-1, x, i, 0%Q) :: es). split; [now constructor|].
    rewrite total_of_cons, Ht. cbn [snd]. reflexivity.
Qed.

Lemma alignment_through sim (x y : value) (K L : list value) :
  (0 < snd (sim x y))%Q ->
  forall P Q i j,
  exists es, alignment sim i j (P ++ x :: K) (Q ++ y :: L) es
             /\ (total_of 0 es == snd (sim x y))%Q.
Proof.
  intros Hs. induction P as [|p P IHP].
  - induction Q as [|q Q IHQ]; intros i j.
    + destruct (alignment_trivial sim K L (S i) (S j)) as (es & Hal & Ht).
      exists ((0, fst (sim x y), j, snd (sim x y)) :: es).
      split; [now constructor|].
      rewrite total_of_cons, Ht. cbn [snd]. ring.
    + destruct (IHQ i (S j)) as (es & Hal & Ht).
      exists ((1, q, j, 0%Q) :: es). split; [now constructor|].
      rewrite total_of_cons, Ht. cbn [snd]. ring.
  - intros Q i j. destruct (IHP Q (S i) j) as (es & Hal & Ht).
    exists ((-1, p, i, 0%Q) :: es). split; [now constructor|].
    rewrite total_of_cons, Ht. cbn [snd]. ring.
Qed.

Lemma alignment_no_match sim i j xs ys es :
  alignment sim i j xs ys es ->
  (forall x y, In x xs -> In y ys -> (snd (sim x y) == 0)%Q) ->
  (total_of 0 es == 0)%Q.
Proof.
  induction 1 as [i j | i j x xs y ys es Hs Hal IH | i j xs y ys es Hal IH
                  | i j x xs ys es Hal IH]; intros Hz.
  - reflexivity.
  - exfalso. rewrite (Hz x y) in Hs by (now left). lra.
  - rewrite total_of_cons, IH; [cbn [snd]; ring|].
    intros x' y' Hx Hy. apply Hz; [exact Hx|now right].
  - rewrite total_of_cons, IH; [cbn [snd]; ring|].
    intros x' y' Hx Hy. apply Hz; [now right|exact Hy].
Qed.

Lemma script_score_zero sim (X Y : list value) :
  (forall x y, In x X -> In y Y -> (0 <= snd (sim x y))%Q) ->
  ((script_score (length X) (edit_script sim X Y) == 0)%Q
   <-> (X <> [] \/ Y <> [])
       /\ forall x y, In x X -> In y Y -> (snd (sim x y) == 0)%Q).
Proof.
  intros Hb.
  pose proof (edit_script_alignment sim X Y) as Hal.
  destruct (alignment_inserted _ _ _ _ _ _ Hal) as (_ & Hfa & Hlen).
  destruct (edit_script_total sim X Y Hb) as [_ Hopt].
  unfold script_score.
  set (es := edit_script sim X Y) in *.
  set (n := (length X + length (inserted_of es))%nat) in *.
  destruct (Nat.eqb_spec n 0) as [En|En].
  - split; [intros H; discriminate H|]. intros [[HX|HY] _]; exfalso.
    + destruct X; [congruence|]. cbn [length] in n. lia.
    + destruct Y; [congruence|]. cbn [length] in Hlen. lia.
  - assert (Hn : (0 < inject_Z (Z.of_nat n))%Q).
    { change 0%Q with (inject_Z 0). rewrite <- Zlt_Qlt. lia. }
    assert (Hne : ~ (inject_Z (Z.of_nat n) == 0)%Q) by lra.
    split.
    + intros H.
      assert (Ht : (total_of 0 es == 0)%Q).
      { rewrite <- (Qmult_div_r (total_of 0 es) _ Hne), H. ring. }
      split.
      * destruct X as [|x X]; [|left; discriminate].
        destruct Y as [|y Y]; [|right; discriminate].
        exfalso. apply En. unfold n.
        destruct (inserted_of es) as [|pv ins]; [reflexivity|].
        apply Forall_inv in Hfa. cbn [length] in Hfa. lia.
      * intros x y Hx Hy.
        destruct (Qlt_le_dec 0 (snd (sim x y))) as [Hpos|Hle].
        -- exfalso.
           apply in_split in Hx as (P & K & ->).
           apply in_split in Hy as (Q & L & ->).
           destruct (alignment_through sim x y K L Hpos P Q 0%nat 0%nat)
             as (es' & Hal' & Ht').
           specialize (Hopt es' Hal'). fold es in Hopt.
           rewrite Ht', Ht in Hopt. lra.
        -- specialize (Hb x y Hx Hy). lra.
    + intros [_ Hz].
      rewrite (alignment_no_match _ _ _ _ _ _ Hal Hz).
      unfold Qdiv. ring.
Qed.

(** X13.  Two lists are as dissimilar as can be, with similarity 0 and so a
    delta that replaces the whole list, exactly when not both are empty and
    no element of the first has a positive similarity with an element of the
    second; one pair of similar elements anywhere in the two lists is enough
    for a positional delta. *)
Theorem list_similarity_zero (same : value -> value -> bool)
        (X Y : list value) :
  is_sound same ->
  wf (VList X) = true -> plain (VList X) = true ->
  wf (VList Y) = true -> plain (VList Y) = true ->
  ((similarity default_options same (VList X) (VList Y) == 0)%Q
   <-> (X <> [] \/ Y <> [])
       /\ forall x y, In x X -> In y Y ->
                      (similarity default_options same x y == 0)%Q).
Proof.
  intros Hs Hwx Hpx Hwy Hpy.
  assert (Hel : forall x y, In x X -> In y Y ->
                            diff_ok x y (JsonDiffer._obj_diff default_options
                                                              same x y)).
  { intros x y Hx Hy. cbn [wf plain] in *. rewrite forallb_forall in *.
    apply (obj_diff_ok same Hs x y); auto. }
  unfold similarity, JsonDiffer.similarity. cbn [JsonDiffer._obj_diff].
  destruct (same (VList X) (VList Y)) eqn:Es.
  - cbn [snd fst syntax default_options syn_emit_value_diff compact].
    split; [intros H; discriminate H|]. intros [Hne Hz]. exfalso.
    apply Hs in Es. injection Es as <-.
    destruct X as [|x X]; [destruct Hne; congruence|].
    assert (Hx : In x (x :: X)) by now left.
    destruct (Hel x x Hx Hx) as (_ & _ & E & _).
    cbn [wf] in Hwx. apply andb_true_iff in Hwx as [Hwx _].
    specialize (E (py_eq_refl x Hwx)). rewrite (Hz x x Hx Hx) in E.
    discriminate E.
  - rewrite _list_diff_eq. cbn [snd].
    apply (script_score_zero
             (fun x y => JsonDiffer._obj_diff default_options same x y) X Y).
    intros x y Hx Hy. apply (Hel x y Hx Hy).
Qed.

Lemma list_similarity_zero_witness :
  let X := [VInt 1; VList [VStr "a"]] in
  let Y := [VStr "b"; VInt 2; VList [VStr "c"]] in
  (similarity default_options never_same (VList X) (VList Y) == 0)%Q
  <-> (X <> [] \/ Y <> [])
      /\ forall x y, In x X -> In y Y ->
                     (similarity default_options never_same x y == 0)%Q.
Proof.
  intros X Y.
  apply (list_similarity_zero never_same X Y never_same_sound);
    vm_compute; reflexivity.
Defined.

Lemma map_added_nil (b : dict) : map_added [] b = b.
Proof.
  unfold map_added. induction b as [|kv b IH]; cbn [filter]; [reflexivity|].
  now rewrite IH.
Qed.

Lemma map_similarity_zero sim (a b : dict) :
  (forall k v w, In (k, v) a -> dict_get k b = Some w ->
                 (0 <= snd (sim v w) <= 1)%Q) ->
  ((map_similarity sim a b == 0)%Q
   <-> (a <> [] \/ b <> []) /\ map_matched a b = []).
Proof.
  intros Hb. unfold map_similarity, matched_weight.
  pose proof (map_split_length a b) as Hsplit.
  set (f := fun kv : value * value =>
              match dict_get (fst kv) b with
              | Some w => ((1 # 2) + (1 # 2) * snd (sim (snd kv) w))%Q
              | None => 0%Q
              end).
  assert (Hf : forall kv, In kv (map_matched a b) -> ((1 # 2) <= f kv <= 1)%Q).
  { intros [k v] Hin. apply map_matched_In in Hin as [Hin [w G]].
    unfold f. cbn [fst snd]. rewrite G. destruct (Hb k v w Hin G). lra. }
  set (n := (length (map_removed a b) + length (map_matched a b)
             + length (map_added a b))%nat).
  assert (Hne : n <> 0%nat <-> (a <> [] \/ b <> [])).
  { unfold n. split.
    - intros H. destruct a as [|x a]; [|left; discriminate].
      destruct b as [|y b]; [|right; discriminate]. now cbn in H.
    - intros [H|H].
      + destruct a; [congruence|]. cbn [length] in Hsplit. lia.
      + destruct a as [|x a].
        * rewrite map_added_nil. destruct b; [congruence|]. cbn [length]. lia.
        * cbn [length] in Hsplit. lia. }
  destruct (Nat.eqb_spec n 0) as [E0|E0].
  - split; [intros H; discriminate H|]. intros [H _]. apply Hne in H. lia.
  - assert (Hpos : (0 < inject_Z (Z.of_nat n))%Q).
    { change 0%Q with (inject_Z 0). rewrite <- Zlt_Qlt. lia. }
    assert (Hnz : ~ (inject_Z (Z.of_nat n) == 0)%Q) by lra.
    split.
    + intros H. split; [now apply Hne|].
      assert (Ht : (Qsum (map f (map_matched a b)) == 0)%Q).
      { rewrite <- (Qmult_div_r (Qsum (map f (map_matched a b))) _ Hnz), H.
        ring. }
      destruct (map_matched a b) as [|kv l]; [reflexivity|]. exfalso.
      cbn [map Qsum] in Ht.
      destruct (Qsum_bounds (map f l)) as [[L _] _].
      { intros x Hx. apply in_map_iff in Hx as [kv' [<- Hin]].
        destruct (Hf kv' (or_intror Hin)). lra. }
      destruct (Hf kv (or_introl eq_refl)). lra.
    + intros [_ H]. rewrite H. cbn [map Qsum]. unfold Qdiv. ring.
Qed.

(** X14.  Two dicts have similarity 0, and so a delta that replaces the
    whole dict, exactly when not both are empty and they have no key in
    common: a common key weighs at least one half, whatever its two
    values. *)
Theorem dict_similarity_zero (same : value -> value -> bool) (a b : dict) :
  is_sound same ->
  wf (VDict a) = true -> plain (VDict a) = true ->
  wf (VDict b) = true -> plain (VDict b) = true ->
  ((similarity default_options same (VDict a) (VDict b) == 0)%Q
   <-> (a <> [] \/ b <> [])
       /\ forall k v, In (k, v) a -> dict_mem k b = false).
Proof.
  intros Hs Hwa Hpa Hwb Hpb.
  destruct (wf_dict_inv a Hwa) as (Hha & Hna & Hwva).
  destruct (wf_dict_inv b Hwb) as (Hhb & Hnb & Hwvb).
  destruct (plain_dict_inv a Hpa) as (_ & _ & Hpva).
  destruct (plain_dict_inv b Hpb) as (_ & Hnm & Hpvb).
  assert (Hm : map_matched a b = []
               <-> forall k v, In (k, v) a -> dict_mem k b = false).
  { split.
    - intros E k v Hin. destruct (dict_mem k b) eqn:Em; [|reflexivity].
      exfalso. unfold dict_mem in Em.
      destruct (dict_get k b) as [w|] eqn:G; [|discriminate].
      assert (H : In (k, v) (map_matched a b))
        by (apply map_matched_In; eauto).
      rewrite E in H. destruct H.
    - intros H. destruct (map_matched a b) as [|[k v] l] eqn:E; [reflexivity|].
      exfalso.
      assert (Hin : In (k, v) (map_matched a b)) by (rewrite E; now left).
      apply map_matched_In in Hin as [Hin [w G]].
      specialize (H k v Hin). unfold dict_mem in H. rewrite G in H.
      discriminate. }
  rewrite <- Hm.
  unfold similarity, JsonDiffer.similarity. cbn [JsonDiffer._obj_diff].
  destruct (same (VDict a) (VDict b)) eqn:Es.
  - cbn [snd]. split; [intros H; discriminate H|]. intros [Hne E]. exfalso.
    apply Hs in Es. injection Es as <-.
    destruct a as [|[k v] a]; [destruct Hne; congruence|].
    pose proof (proj1 Hm E k v (or_introl eq_refl)) as E'.
    apply dict_mem_false in E'.
    + apply E'. now left.
    + cbn [dict_keys map fst forallb] in Hha.
      now apply andb_true_iff in Hha as [Hk _].
  - rewrite _dict_diff_similarity by exact Hnm.
    apply map_similarity_zero. intros k v w Hin G.
    apply (obj_diff_ok same Hs v w).
    + apply (Hwva k v Hin).
    + apply (Hpva k v Hin).
    + apply dict_get_In in G. apply in_map_iff in G as [[k' w'] [<- Hin']].
      apply (Hwvb k' w' Hin').
    + apply dict_get_In in G. apply in_map_iff in G as [[k' w'] [<- Hin']].
      apply (Hpvb k' w' Hin').
Qed.

Lemma dict_similarity_zero_witness :
  let a := [(VStr "x", VInt 1); (VStr "y", VList [VInt 2])] in
  let b := [(VStr "z", VInt 1)] in
  (similarity default_options never_same (VDict a) (VDict b) == 0)%Q
  <-> (a <> [] \/ b <> [])
      /\ forall k v, In (k, v) a -> dict_mem k b = false.
Proof.
  intros a b.
  apply (dict_similarity_zero never_same a b never_same_sound);
    vm_compute; reflexivity.
Defined.

(** ** What the delta of two dicts holds *)

Lemma map_changed_intro sim (a b : dict) (k v w : value) :
  In (k, v) a -> dict_get k b = Some w ->
  Qlt_bool (snd (sim v w)) 1 = true ->
  In (k, fst (sim v w)) (map_changed sim a b).
Proof.
  intros Hin G Hlt. unfold map_changed. apply in_flat_map.
  exists (k, v). split; [exact Hin|]. cbn [fst snd]. rewrite G, Hlt. now left.
Qed.

Lemma key_In_entry (k : value) (d : dict) :
  In k (dict_keys d) -> exists v, In (k, v) d.
Proof.
  unfold dict_keys. intros H. apply in_map_iff in H as [[k' v] [<- H]].
  now exists v.
Qed.

(** X15.  When the similarity of two dicts is neither 0 nor 1, so that the
    emitter writes a partial delta, the delta is a dict that holds, under a
    key of the second dict, the value of the second dict when the first
    lacks the key, and otherwise the delta of the two values when their
    similarity is below 1 and nothing when it is not; it holds nothing under
    any other key; under [delete] it lists the keys of the first dict that
    the second lacks, in the order of the first, when there is one; and it
    holds no other marker. *)
Theorem dict_delta_lookup (same : value -> value -> bool) (a b : dict) :
  wf (VDict a) = true -> plain (VDict a) = true ->
  wf (VDict b) = true -> plain (VDict b) = true ->
  Qeq_bool (similarity default_options same (VDict a) (VDict b)) 0 = false ->
  Qeq_bool (similarity default_options same (VDict a) (VDict b)) 1 = false ->
  exists items,
    diff default_options same (VDict a) (VDict b) = VDict items
    /\ (forall k, hashable k = true -> isinstance_Symbol k = false ->
                  dict_get k items
                  = match dict_get k b with
                    | None => None
                    | Some w =>
                        match dict_get k a with
                        | None => Some w
                        | Some v =>
                            if Qlt_bool (similarity default_options same v w) 1
                            then Some (diff default_options same v w)
                            else None
                        end
                    end)
    /\ dict_get (VSym delete) items
       = match map_removed a b with
         | [] => None
         | _ => Some (VList (dict_keys (map_removed a b)))
         end
    /\ forall y, y <> delete -> dict_get (VSym y) items = None.
Proof.
  intros Hwa Hpla Hwb Hplb E0 E1.
  destruct (wf_dict_inv a Hwa) as (Hha & Hna & Hwva).
  destruct (wf_dict_inv b Hwb) as (Hhb & Hnb & Hwvb).
  destruct (plain_dict_inv a Hpla) as (Hpa & _ & Hpva).
  destruct (plain_dict_inv b Hplb) as (Hpb & Hnm & Hpvb).
  set (sim := fun x y => JsonDiffer._obj_diff default_options same x y).
  pose proof (obj_diff_delta_ok same (VDict a) (VDict b) Hwa Hpla Hwb Hplb)
    as [Hwd _].
  unfold diff, similarity, JsonDiffer.diff, JsonDiffer.similarity in *.
  cbn [marshal_opt default_options] in *.
  cbn [JsonDiffer._obj_diff] in E0, E1, Hwd |- *.
  destruct (same (VDict a) (VDict b)) eqn:Es; [discriminate E1|].
  fold sim in E0, E1, Hwd |- *.
  set (s := snd (JsonDiffer._dict_diff default_options sim (VDict a) (VDict b)
                                       a b)) in *.
  assert (Heq : fst (JsonDiffer._dict_diff default_options sim (VDict a)
                                           (VDict b) a b)
                = VDict (map_changed sim a b ++ map_added a b
                           ++ delete_keys_entry (map_removed a b))).
  { rewrite _dict_diff_eq by assumption. fold s.
    now apply emit_dict_diff_partial. }
  rewrite Heq in Hwd |- *.
  set (items := map_changed sim a b ++ map_added a b
                            ++ delete_keys_entry (map_removed a b)) in *.
  destruct (wf_dict_inv items Hwd) as (Hhi & Hni & _).
  assert (Hkeys : forall k, In k (dict_keys items) ->
                            (exists v w, In (k, v) a /\ dict_get k b = Some w
                                         /\ Qlt_bool (snd (sim v w)) 1 = true)
                            \/ In k (dict_keys (map_added a b))
                            \/ k = VSym delete).
  { intros k Hin. unfold items, dict_keys in Hin. rewrite !map_app in Hin.
    apply in_app_or in Hin as [Hin|Hin];
      [|apply in_app_or in Hin as [Hin|Hin]].
    - left. apply key_In_entry in Hin as [d Hin].
      apply map_changed_In in Hin as (v & w & H1 & H2 & _ & H3). eauto.
    - right. left. exact Hin.
    - right. right. unfold delete_keys_entry in Hin.
      destruct (map_removed a b); cbn [map fst] in Hin; [destruct Hin|].
      now destruct Hin as [<-|[]]. }
  exists items. split; [reflexivity|split; [|split]].
  - intros k Hk Hnk.
    assert (Hkd : k <> VSym delete) by (intros ->; discriminate Hnk).
    destruct (dict_get k b) as [w|] eqn:Gb.
    + destruct (dict_get k a) as [v|] eqn:Ga.
      * pose proof (dict_get_Some_key k v a Hk Ga) as Hin.
        change (JsonDiffer._obj_diff default_options same v w)
          with (sim v w).
        destruct (Qlt_bool (snd (sim v w)) 1) eqn:Hlt.
        -- apply (dict_get_distinct k _ items Hhi Hni).
           unfold items. apply in_or_app. left.
           apply (map_changed_intro sim a b k v w Hin Gb Hlt).
        -- apply dict_get_None; [exact Hk|]. intros Hi.
           destruct (Hkeys k Hi) as [(v0 & w0 & Hin0 & G0 & Hlt0)|[Had|Hd]].
           ++ rewrite (dict_get_distinct k v0 a Hha Hna Hin0) in Ga.
              injection Ga as ->. rewrite Gb in G0. injection G0 as <-.
              congruence.
           ++ apply (map_added_fresh a b k Hhb) in Had. apply Had.
              now apply (in_map fst) in Hin.
           ++ contradiction.
      * pose proof (dict_get_Some_key k w b Hk Gb) as Hin.
        apply (dict_get_distinct k w items Hhi Hni).
        unfold items. apply in_or_app. right. apply in_or_app. left.
        unfold map_added. apply filter_In. split; [exact Hin|].
        cbn [fst]. unfold dict_mem. now rewrite Ga.
    + apply dict_get_None; [exact Hk|]. intros Hi.
      destruct (Hkeys k Hi) as [(v0 & w0 & Hin0 & G0 & Hlt)|[Had|Hd]].
      * congruence.
      * apply keys_filter_In in Had.
        apply (dict_get_None k b Hk) in Gb. contradiction.
      * contradiction.
  - unfold items. rewrite !dict_get_app.
    assert (Hc : dict_get (VSym delete) (map_changed sim a b) = None).
    { apply dict_get_None; [reflexivity|]. intros Hin.
      apply map_changed_keys_In in Hin. now apply (Hpa _ delete) in Hin. }
    assert (Had : dict_get (VSym delete) (map_added a b) = None).
    { apply dict_get_None; [reflexivity|]. intros Hin.
      apply keys_filter_In in Hin. now apply (Hpb _ delete) in Hin. }
    rewrite Hc, Had. now destruct (map_removed a b).
  - intros y Hy. apply dict_get_None; [reflexivity|]. intros Hi.
    destruct (Hkeys _ Hi) as [(v0 & w0 & Hin0 & _)|[Had|Hd]].
    + apply (in_map fst) in Hin0. now apply (Hpa _ y) in Hin0.
    + apply keys_filter_In in Had. now apply (Hpb _ y) in Had.
    + congruence.
Qed.

Lemma dict_delta_lookup_witness :
  let a := [(VStr "same", VInt 1); (VStr "changed", VList [VInt 1; VInt 2]);
            (VStr "gone", VNone)] in
  let b := [(VStr "changed", VList [VInt 1; VInt 3]); (VStr "same", VInt 1);
            (VStr "new", VStr "x")] in
  exists items,
    diff default_options never_same (VDict a) (VDict b) = VDict items
    /\ (forall k, hashable k = true -> isinstance_Symbol k = false ->
                  dict_get k items
                  = match dict_get k b with
                    | None => None
                    | Some w =>
                        match dict_get k a with
                        | None => Some w
                        | Some v =>
                            if Qlt_bool
                                 (similarity default_options never_same v w) 1
                            then Some (diff default_options never_same v w)
                            else None
                        end
                    end)
    /\ dict_get (VSym delete) items
       = match map_removed a b with
         | [] => None
         | _ => Some (VList (dict_keys (map_removed a b)))
         end
    /\ forall y, y <> delete -> dict_get (VSym y) items = None.
Proof.
  intros a b.
  apply (dict_delta_lookup never_same a b); vm_compute; reflexivity.
Defined.

(** ** What the delta of two sets holds *)

Lemma _set_diff_eq sim (b0 : value) (a b : list value) :
  set_difference a b <> [] \/ set_difference b a <> [] ->
  fst (JsonDiffer._set_diff default_options sim b0 a b)
  = CompactJsonDiffSyntax.emit_set_diff
      a b0 (snd (JsonDiffer._set_diff default_options sim b0 a b))
      (set_difference b a) (set_difference a b).
Proof.
  intros Hne. unfold JsonDiffer._set_diff.
  destruct (JsonDiffer.is_empty (set_difference a b)
            && JsonDiffer.is_empty (set_difference b a)) eqn:E.
  - exfalso. apply andb_true_iff in E as [E1 E2].
    destruct (set_difference a b); [|discriminate].
    destruct (set_difference b a); [|discriminate].
    destruct Hne; congruence.
  - destruct (JsonDiffer.greedy _ _ _ _ _) as [sc nc]. reflexivity.
Qed.

Lemma set_difference_full (a b : list value) :
  (length (set_difference a b) =? length a)%nat
  = negb (existsb (fun x => set_mem x b) a).
Proof.
  unfold set_difference. induction a as [|x a IH]; [reflexivity|].
  cbn [filter existsb]. destruct (set_mem x b); cbn [negb orb length].
  - apply Nat.eqb_neq.
    pose proof (filter_length_le (fun x => negb (set_mem x b)) a). lia.
  - exact IH.
Qed.

Lemma set_similarity_pos sim (a b : list value) :
  (forall x y, In x a -> In y b -> (0 <= snd (sim x y) <= 1)%Q) ->
  existsb (fun x => set_mem x b) a = true ->
  (0 < set_similarity sim a b)%Q.
Proof.
  intros Hb Hc. unfold set_similarity, s_common_greedy.
  pose proof (set_difference_full a b) as Hfull. rewrite Hc in Hfull.
  apply Nat.eqb_neq in Hfull.
  set (removed := set_difference a b) in *.
  set (added := set_difference b a) in *.
  set (ms := greedy_matches (pair_ranking sim removed added) removed added).
  assert (Hms : forall x, In x (map (fun t => fst (fst t)) ms) ->
                          (0 <= x <= 1)%Q).
  { intros q Hq. apply in_map_iff in Hq as [[[s x] y] [<- Hin]]. cbn [fst].
    apply greedy_matches_In, pair_ranking_In in Hin as (Hx & Hy & ->).
    apply Hb; eapply set_difference_In; eauto. }
  destruct (Qsum_bounds _ Hms) as [[L _] _].
  assert (Hra : (length removed <= length a)%nat)
    by apply filter_length_le.
  fold (Q_of_nat (length a - length removed)).
  fold (Q_of_nat (length a + length added)).
  assert (H1 : (0 < Q_of_nat (length a - length removed))%Q).
  { change 0%Q with (Q_of_nat 0). apply Q_of_nat_lt. lia. }
  assert (H2 : (0 < Q_of_nat (length a + length added))%Q).
  { change 0%Q with (Q_of_nat 0). apply Q_of_nat_lt. lia. }
  apply Qlt_shift_div_l; [exact H2|]. lra.
Qed.

(** X16.  The delta of two sets is the empty dict when neither holds an
    element that the other lacks; when they differ and have an element in
    common, it is a dict that holds under [discard] the elements of the first
    that the second lacks and under [add] those of the second that the first
    lacks, each entry present only when it lists an element; and when they
    have no element in common it is the second set itself, however similar
    their elements are. *)
Theorem set_delta_rule (same : value -> value -> bool) (a b : list value) :
  is_sound same ->
  wf (VSet a) = true -> plain (VSet a) = true ->
  wf (VSet b) = true -> plain (VSet b) = true ->
  diff default_options same (VSet a) (VSet b)
  = if JsonDiffer.is_empty (set_difference a b)
       && JsonDiffer.is_empty (set_difference b a)
    then VDict []
    else if existsb (fun x => set_mem x b) a
         then VDict (match set_difference a b with
                     | [] => []
                     | _ => [(VSym discard, VSet (set_difference a b))]
                     end
                     ++ match set_difference b a with
                        | [] => []
                        | _ => [(VSym add, VSet (set_difference b a))]
                        end)
         else VSet b.
Proof.
  intros Hs Hwa Hpa Hwb Hpb.
  unfold diff, JsonDiffer.diff. cbn [marshal_opt default_options].
  cbn [JsonDiffer._obj_diff].
  destruct (same (VSet a) (VSet b)) eqn:Es.
  - apply Hs in Es. injection Es as <-.
    destruct (wf_set_inv a Hwa) as (Hha & _).
    now rewrite (set_difference_self a Hha).
  - destruct (JsonDiffer.is_empty (set_difference a b)
              && JsonDiffer.is_empty (set_difference b a)) eqn:E.
    + unfold JsonDiffer._set_diff. now rewrite E.
    + assert (Hne : set_difference a b <> [] \/ set_difference b a <> []).
      { destruct (set_difference a b); [|left; discriminate].
        destruct (set_difference b a); [discriminate E|right; discriminate]. }
      rewrite (_set_diff_eq _ _ a b Hne).
      unfold CompactJsonDiffSyntax.emit_set_diff.
      rewrite set_difference_full.
      destruct (existsb (fun x => set_mem x b) a) eqn:Ec; cbn [negb].
      * assert (E0 : Qeq_bool
                       (snd (JsonDiffer._set_diff
                               default_options
                               (fun x y => JsonDiffer._obj_diff default_options
                                                                same x y)
                               (VSet b) a b)) 0 = false).
        { destruct (Qeq_bool _ 0) eqn:E0; [|reflexivity].
          apply Qeq_bool_eq in E0.
          rewrite (_set_diff_similarity _ _ a b Hne) in E0.
          assert (Hpos : (0 < set_similarity
                                (fun x y => JsonDiffer._obj_diff
                                              default_options same x y) a b)%Q).
          { apply set_similarity_pos; [|exact Ec]. intros x y Hx Hy.
            destruct (wf_set_inv a Hwa) as (_ & _ & HwX).
            destruct (wf_set_inv b Hwb) as (_ & _ & HwY).
            cbn [plain] in Hpa, Hpb. rewrite forallb_forall in *.
            apply (obj_diff_ok same Hs x y); auto. }
          rewrite E0 in Hpos. lra. }
        rewrite E0. cbn [orb].
        destruct (set_difference a b); destruct (set_difference b a);
          reflexivity.
      * rewrite orb_true_r. reflexivity.
Qed.

Lemma set_delta_rule_witness :
  diff default_options never_same
       (VSet [VInt 1; VInt 2; VTuple [VInt 3]])
       (VSet [VInt 2; VStr "x"])
  = VDict [(VSym discard, VSet [VInt 1; VTuple [VInt 3]]);
           (VSym add, VSet [VStr "x"])].
Proof.
  apply (set_delta_rule never_same [VInt 1; VInt 2; VTuple [VInt 3]]
                        [VInt 2; VStr "x"] never_same_sound);
    vm_compute; reflexivity.
Defined.

(** ** What patching a dict leaves alone *)

Lemma dict_get_remove_other (k kdel : value) (d : dict) :
  hashable k = true -> hashable kdel = true -> kdel <> k ->
  dict_get k (dict_remove kdel d) = dict_get k d.
Proof.
  intros Hk Hd Hne. unfold dict_get, dict_remove.
  induction d as [|[k0 v0] d IH]; cbn [filter assoc_by fst]; [reflexivity|].
  destruct (py_eq kdel k0) eqn:E; cbn [negb assoc_by].
  - apply py_eq_hashable in E; [|exact Hd]. subst k0.
    assert (E' : py_eq k kdel = false)
      by (apply py_eq_hashable_neq; [exact Hk|congruence]).
    now rewrite E'.
  - now rewrite IH.
Qed.

Lemma dels_frame (k : value) (kdels : list value) :
  hashable k = true -> ~ In k kdels ->
  forall a a', for_each (fun a2 kdel => dict_del kdel a2) kdels a = Ok a' ->
               dict_get k a' = dict_get k a.
Proof.
  intros Hk. induction kdels as [|kdel kdels IH]; intros Hn a a' H.
  - cbn [for_each] in H. now injection H as <-.
  - cbn [for_each] in H. unfold dict_del in H at 1.
    destruct (hashable kdel) eqn:Hd; cbn [negb] in H; [|discriminate].
    destruct (dict_mem kdel a); [|discriminate]. cbn [bind] in H.
    rewrite (IH (fun Hin => Hn (or_intror Hin)) _ _ H).
    apply dict_get_remove_other; auto. intros ->. apply Hn. now left.
Qed.

Lemma dict_patch_frame (k : value) (items : dict) :
  hashable k = true ->
  (forall k0 v0, In (k0, v0) items ->
                 hashable k0 = true /\ k <> k0
                 /\ (k0 = VSym delete ->
                     forall kdels, py_iter v0 = Ok kdels -> ~ In k kdels)) ->
  forall a a', for_each dict_patch_step items a = Ok a' ->
               dict_get k a' = dict_get k a.
Proof.
  intros Hk. induction items as [|[k0 v0] items IH]; intros Hit a a' H.
  - cbn [for_each] in H. now injection H as <-.
  - cbn [for_each] in H.
    destruct (dict_patch_step a (k0, v0)) as [a1|] eqn:E1; [|discriminate].
    cbn [bind] in H.
    rewrite (IH (fun k1 v1 Hin => Hit k1 v1 (or_intror Hin)) _ _ H).
    destruct (Hit k0 v0 (or_introl eq_refl)) as (Hk0 & Hne & Hdel).
    unfold dict_patch_step in E1. cbn [fst snd] in E1.
    destruct (py_eq k0 (VSym delete)) eqn:Ed.
    + apply py_eq_hashable in Ed; [|exact Hk0].
      destruct (py_iter v0) as [kdels|] eqn:Ei; [|discriminate].
      cbn [bind] in E1. apply (dels_frame k kdels Hk (Hdel Ed kdels eq_refl) _ _ E1).
    + destruct (py_eq _ (VSym missing)).
      * injection E1 as <-. now apply dict_get_set_other.
      * destruct (CompactJsonDiffSyntax.patch _ v0) as [x|]; [|discriminate].
        cbn [bind] in E1. injection E1 as <-. now apply dict_get_set_other.
Qed.

(** X17.  Patching a dict leaves alone what the delta does not mention: when
    the delta is a dict without the [replace] marker and patching gives a
    result, the result is a dict, and a key that is neither a key of the
    delta nor listed under [delete] has in it the value it had in the base,
    or none if it had none. *)
Theorem patch_dict_frame (a items : dict) (r k : value) :
  wf (VDict items) = true -> dict_get (VSym replace) items = None ->
  hashable k = true -> mentions items k = false ->
  patch default_options (VDict a) (VDict items) = Ok r ->
  exists a', r = VDict a' /\ dict_get k a' = dict_get k a.
Proof.
  intros Hw Hr Hk Hm H.
  destruct (wf_dict_inv items Hw) as (Hhi & Hni & _).
  unfold mentions in Hm. apply orb_false_iff in Hm as [Hm1 Hm2].
  unfold patch, JsonDiffer.patch in H.
  cbn [marshal_opt default_options syntax syn_patch compact] in H.
  destruct items as [|it items].
  { cbn in H. injection H as <-. now exists a. }
  rewrite (patch_dict_eq a (it :: items)) in H by (discriminate || exact Hr).
  set (its := it :: items) in *.
  destruct (for_each dict_patch_step its a) as [a'|] eqn:E; [|discriminate].
  cbn [bind] in H. injection H as <-. exists a'. split; [reflexivity|].
  apply (dict_patch_frame k its Hk); [|exact E].
  intros k0 v0 Hin.
  assert (Hk0 : hashable k0 = true).
  { rewrite forallb_forall in Hhi. apply Hhi. now apply (in_map fst) in Hin. }
  split; [exact Hk0|split].
  - intros <-. apply (in_map fst) in Hin. fold (dict_keys its) in Hin.
    apply (set_mem_In k (dict_keys its) Hk) in Hin. congruence.
  - intros -> kdels Hi Hin'.
    rewrite (dict_get_distinct _ _ its Hhi Hni Hin), Hi in Hm2.
    apply (set_mem_In k kdels Hk) in Hin'. congruence.
Qed.

Lemma patch_dict_frame_witness :
  let a := [(VStr "x", VInt 1); (VStr "y", VInt 2); (VStr "z", VInt 3)] in
  let items := [(VStr "x", VInt 5); (VSym delete, VList [VStr "y"])] in
  exists a', VDict [(VStr "x", VInt 5); (VStr "z", VInt 3)] = VDict a'
             /\ dict_get (VStr "z") a' = dict_get (VStr "z") a.
Proof.
  intros a items.
  apply (patch_dict_frame a items (VDict [(VStr "x", VInt 5); (VStr "z", VInt 3)])
                          (VStr "z")); reflexivity.
Defined.

(** ** Escaped marker names *)

(** X18.  Whatever the escape token, [_unescape] turns a string into a
    marker exactly when the string is the token followed by the name of that
    marker: the symbol map holds one entry for each of the six markers and
    nothing else. *)
Theorem unescape_marker_iff (o : Options) (t : string) (y : Symbol) :
  JsonDiffer._unescape o (VStr t) = VSym y
  <-> t = (escape_str o ++ label y)%string.
Proof.
  unfold JsonDiffer._unescape.
  destruct (JsonDiffer.symbol_map_get o t) as [z|] eqn:G.
  - split.
    + intros [= ->]. now apply symbol_map_get_Some.
    + intros ->. rewrite symbol_map_get_label in G. now injection G as ->.
  - split.
    + intros H. now destruct (String.prefix (escape_str o) t).
    + intros ->. rewrite symbol_map_get_label in G. discriminate.
Qed.

(** ** The similarity of two lists *)

(** X19.  The similarity of two lists is the last cell of the table that
    [_list_diff] fills, divided by the length of the first list plus the
    number of inserted elements, and 1 when that sum is 0. *)
Theorem list_similarity_rule (same : value -> value -> bool)
        (X Y : list value) :
  is_sound same ->
  wf (VList X) = true -> plain (VList X) = true ->
  wf (VList Y) = true -> plain (VList Y) = true ->
  let sim := JsonDiffer._obj_diff default_options same in
  let D := map (fun x => map (fun y => sim x y) Y) X in
  let C := JsonDiffer.fill_table D (length X) (length Y) in
  let n := (length X + length (list_diff_inserted sim X Y))%nat in
  (similarity default_options same (VList X) (VList Y)
   == if (n =? 0)%nat then 1
      else tget C (length X) (length Y) / inject_Z (Z.of_nat n))%Q.
Proof.
  intros Hs Hwx Hpx Hwy Hpy sim D C n.
  assert (Hel : forall x y, In x X -> In y Y -> diff_ok x y (sim x y)).
  { intros x y Hx Hy. cbn [wf plain] in *. rewrite forallb_forall in *.
    apply (obj_diff_ok same Hs x y); auto. }
  assert (Hscore : (script_score (length X) (edit_script sim X Y)
                    == if (n =? 0)%nat then 1
                       else tget C (length X) (length Y)
                            / inject_Z (Z.of_nat n))%Q).
  { unfold script_score, n, list_diff_inserted.
    rewrite list_diff_parts_eq. cbn [fst].
    destruct (_ =? 0)%nat; [reflexivity|].
    destruct (edit_script_total sim X Y) as [Ht _].
    { intros x y Hx Hy. apply (Hel x y Hx Hy). }
    fold D C in Ht. now rewrite Ht. }
  rewrite <- Hscore.
  unfold similarity, JsonDiffer.similarity. cbn [JsonDiffer._obj_diff].
  destruct (same (VList X) (VList Y)) eqn:Es.
  - cbn [snd]. apply Hs in Es. injection Es as <-.
    destruct (_list_diff_equal sim (VList X) (VList X) X X) as [_ H1].
    + clear - Hel Hwx. cbn [wf] in Hwx. rewrite forallb_forall in Hwx.
      assert (H : forall l, incl l X ->
                            Forall2 (fun x y => (snd (sim x y) == 1)%Q) l l).
      { induction l as [|x l IH]; intros Hi; constructor.
        - assert (Hx : In x X) by (apply Hi; now left).
          destruct (Hel x x Hx Hx) as (_ & _ & E & _).
          apply E. apply py_eq_refl. now apply Hwx.
        - apply IH. intros z Hz. apply Hi. now right. }
      apply H. apply incl_refl.
    + intros x y Hx Hy. apply (Hel x y Hx Hy).
    + rewrite _list_diff_eq in H1. cbn [snd] in H1. now rewrite H1.
  - fold sim. rewrite _list_diff_eq. reflexivity.
Qed.

Lemma list_similarity_rule_witness :
  let X := [VInt 1; VList [VInt 2; VInt 3]; VInt 4] in
  let Y := [VInt 0; VInt 1; VList [VInt 2; VInt 5]] in
  let sim := JsonDiffer._obj_diff default_options never_same in
  let D := map (fun x => map (fun y => sim x y) Y) X in
  let C := JsonDiffer.fill_table D (length X) (length Y) in
  let n := (length X + length (list_diff_inserted sim X Y))%nat in
  (similarity default_options never_same (VList X) (VList Y)
   == if (n =? 0)%nat then 1
      else tget C (length X) (length Y) / inject_Z (Z.of_nat n))%Q.
Proof.
  intros X Y.
  apply (list_similarity_rule never_same X Y never_same_sound);
    vm_compute; reflexivity.
Defined.

(** ** The identity test is a shortcut only *)

Lemma Qle_bool_comp (x x' y y' : Q) :
  (x == x')%Q -> (y == y')%Q -> Qle_bool x y = Qle_bool x' y'.
Proof.
  intros Hx Hy.
  destruct (Qle_bool x y) eqn:E1; destruct (Qle_bool x' y') eqn:E2; auto.
  - apply Qle_bool_iff in E1. rewrite Hx, Hy in E1.
    apply Qle_bool_iff in E1. congruence.
  - apply Qle_bool_iff in E2. rewrite <- Hx, <- Hy in E2.
    apply Qle_bool_iff in E2. congruence.
Qed.

Lemma Qeq_bool_comp (x x' y y' : Q) :
  (x == x')%Q -> (y == y')%Q -> Qeq_bool x y = Qeq_bool x' y'.
Proof.
  intros Hx Hy.
  destruct (Qeq_bool x y) eqn:E1; destruct (Qeq_bool x' y') eqn:E2; auto.
  - apply Qeq_bool_iff in E1. rewrite Hx, Hy in E1.
    apply Qeq_bool_iff in E1. congruence.
  - apply Qeq_bool_iff in E2. rewrite <- Hx, <- Hy in E2.
    apply Qeq_bool_iff in E2. congruence.
Qed.

Lemma Qlt_bool_comp (x x' y y' : Q) :
  (x == x')%Q -> (y == y')%Q -> Qlt_bool x y = Qlt_bool x' y'.
Proof.
  intros Hx Hy. unfold Qlt_bool. f_equal. now apply Qle_bool_comp.
Qed.

Lemma Qsum_map_ext {A : Type} (f g : A -> Q) (l : list A) :
  (forall x, In x l -> (f x == g x)%Q) ->
  (Qsum (map f l) == Qsum (map g l))%Q.
Proof.
  induction l as [|x l IH]; intros H; cbn [map Qsum]; [reflexivity|].
  rewrite (H x (or_introl eq_refl)), IH; [reflexivity|].
  intros y Hy. apply H. now right.
Qed.

Lemma map_changed_ext sim1 sim2 (a b : dict) :
  (forall k v w, In (k, v) a -> dict_get k b = Some w ->
                 score_eq (sim1 v w) (sim2 v w)) ->
  map_changed sim1 a b = map_changed sim2 a b.
Proof.
  unfold map_changed. induction a as [|[k v] a IH]; intros H; [reflexivity|].
  cbn [flat_map fst snd]. rewrite IH by (intros k0 v0 w0 Hin G0; apply (H k0 v0 w0); [now right|exact G0]).
  f_equal. destruct (dict_get k b) as [w|] eqn:G; [|reflexivity].
  destruct (H k v w (or_introl eq_refl) G) as [E1 E2].
  rewrite (Qlt_bool_comp _ _ 1 1 E2 (Qeq_refl 1)), E1. reflexivity.
Qed.

Lemma map_similarity_ext sim1 sim2 (a b : dict) :
  (forall k v w, In (k, v) a -> dict_get k b = Some w ->
                 score_eq (sim1 v w) (sim2 v w)) ->
  (map_similarity sim1 a b == map_similarity sim2 a b)%Q.
Proof.
  intros H. unfold map_similarity, matched_weight.
  destruct (_ =? 0)%nat; [reflexivity|].
  rewrite (Qsum_map_ext _ (fun kv =>
             match dict_get (fst kv) b with
             | Some w => ((1 # 2) + (1 # 2) * snd (sim2 (snd kv) w))%Q
             | None => 0%Q
             end)); [reflexivity|].
  intros [k v] Hin. cbn [fst snd].
  apply map_matched_In in Hin as [Hin [w G]]. rewrite G.
  destruct (H k v w Hin G) as [_ E]. now rewrite E.
Qed.

Lemma emit_dict_diff_comp (a0 b0 : value) (s s' : Q) (ad ch rm : dict) :
  (s == s')%Q ->
  CompactJsonDiffSyntax.emit_dict_diff a0 b0 s ad ch rm
  = CompactJsonDiffSyntax.emit_dict_diff a0 b0 s' ad ch rm.
Proof.
  intros E. unfold CompactJsonDiffSyntax.emit_dict_diff.
  now rewrite (Qeq_bool_comp s s' 0 0 E (Qeq_refl 0)),
    (Qeq_bool_comp s s' 1 1 E (Qeq_refl 1)).
Qed.

Lemma dict_diff_ext sim1 sim2 (a b : dict) :
  wf (VDict a) = true -> wf (VDict b) = true -> plain (VDict b) = true ->
  (forall k v w, In (k, v) a -> dict_get k b = Some w ->
                 score_eq (sim1 v w) (sim2 v w)) ->
  score_eq (JsonDiffer._dict_diff default_options sim1 (VDict a) (VDict b) a b)
           (JsonDiffer._dict_diff default_options sim2 (VDict a) (VDict b) a b).
Proof.
  intros Hwa Hwb Hpb H.
  destruct (plain_dict_inv b Hpb) as (_ & Hnm & _).
  assert (Es : (snd (JsonDiffer._dict_diff default_options sim1 (VDict a)
                                           (VDict b) a b)
                == snd (JsonDiffer._dict_diff default_options sim2 (VDict a)
                                              (VDict b) a b))%Q).
  { rewrite !_dict_diff_similarity by exact Hnm. now apply map_similarity_ext. }
  split; [|exact Es].
  rewrite !_dict_diff_eq by assumption.
  rewrite (map_changed_ext sim1 sim2 a b H). now apply emit_dict_diff_comp.
Qed.

Lemma insert_desc_rel (x1 x2 : Q * value * value) l1 l2 :
  rank_eq x1 x2 -> Forall2 rank_eq l1 l2 ->
  Forall2 rank_eq (insert_desc (fun t => fst (fst t)) x1 l1)
          (insert_desc (fun t => fst (fst t)) x2 l2).
Proof.
  intros Hx. induction 1 as [|y1 y2 l1 l2 Hy Hl IH]; cbn [insert_desc].
  - constructor; [exact Hx|constructor].
  - rewrite (Qlt_bool_comp _ _ _ _ (proj1 Hx) (proj1 Hy)).
    destruct (Qlt_bool _ _).
    + constructor; [exact Hy|exact IH].
    + constructor; [exact Hx|constructor; [exact Hy|exact Hl]].
Qed.

Lemma sorted_desc_rel l1 l2 :
  Forall2 rank_eq l1 l2 ->
  Forall2 rank_eq (sorted_desc (fun t => fst (fst t)) l1)
          (sorted_desc (fun t => fst (fst t)) l2).
Proof.
  unfold sorted_desc. induction 1; cbn [fold_right]; [constructor|].
  now apply insert_desc_rel.
Qed.

Lemma pair_ranking_rel sim1 sim2 (removed added : list value) :
  (forall x y, In x removed -> In y added ->
               (snd (sim1 x y) == snd (sim2 x y))%Q) ->
  Forall2 rank_eq (pair_ranking sim1 removed added)
          (pair_ranking sim2 removed added).
Proof.
  intros H. unfold pair_ranking. apply sorted_desc_rel.
  induction removed as [|x removed IH]; cbn [flat_map]; [constructor|].
  apply Forall2_app.
  - assert (Hx : forall y, In y added -> (snd (sim1 x y) == snd (sim2 x y))%Q)
      by (intros y Hy; apply H; [now left|exact Hy]).
    clear - Hx. induction added as [|y added IH]; cbn [map]; constructor.
    + split; [|split]; cbn [fst snd]; auto. apply Hx. now left.
    + apply IH. intros z Hz. apply Hx. now right.
  - apply IH. intros x' y Hx Hy. apply H; [now right|exact Hy].
Qed.

Lemma greedy_matches_rel rk1 rk2 :
  Forall2 rank_eq rk1 rk2 ->
  forall r2 a2, Forall2 rank_eq (greedy_matches rk1 r2 a2)
                        (greedy_matches rk2 r2 a2).
Proof.
  induction 1 as [|[[s1 x1] y1] [[s2 x2] y2] rk1 rk2 (Hs & Hx & Hy) Hl IH];
    intros r2 a2; cbn [greedy_matches]; [constructor|].
  cbn [fst snd] in Hs, Hx, Hy. subst x2 y2.
  destruct (JsonDiffer.is_empty r2 || JsonDiffer.is_empty a2); [constructor|].
  destruct (set_mem x1 r2 && set_mem y1 a2); [|apply IH].
  constructor; [|apply IH]. split; [|split]; cbn [fst snd]; auto.
Qed.

Lemma Qsum_rank_rel l1 l2 :
  Forall2 rank_eq l1 l2 ->
  (Qsum (map (fun t => fst (fst t)) l1) == Qsum (map (fun t => fst (fst t)) l2))%Q.
Proof.
  induction 1 as [|t1 t2 l1 l2 (Hs & _) Hl IH]; cbn [map Qsum]; [reflexivity|].
  now rewrite Hs, IH.
Qed.

Lemma set_similarity_ext sim1 sim2 (a b : list value) :
  (forall x y, In x a -> In y b -> (snd (sim1 x y) == snd (sim2 x y))%Q) ->
  (set_similarity sim1 a b == set_similarity sim2 a b)%Q.
Proof.
  intros H. unfold set_similarity, s_common_greedy.
  assert (H' : forall x y, In x (set_difference a b) ->
                           In y (set_difference b a) ->
                           (snd (sim1 x y) == snd (sim2 x y))%Q).
  { intros x y Hx Hy. apply H; eapply set_difference_In; eauto. }
  rewrite (Qsum_rank_rel _ _
             (greedy_matches_rel _ _
                (pair_ranking_rel sim1 sim2 (set_difference a b)
                                  (set_difference b a) H') _ _)).
  reflexivity.
Qed.

Lemma emit_set_diff_comp (a : list value) (b0 : value) (s s' : Q)
      (ad rm : list value) :
  (s == s')%Q ->
  CompactJsonDiffSyntax.emit_set_diff a b0 s ad rm
  = CompactJsonDiffSyntax.emit_set_diff a b0 s' ad rm.
Proof.
  intros E. unfold CompactJsonDiffSyntax.emit_set_diff.
  now rewrite (Qeq_bool_comp s s' 0 0 E (Qeq_refl 0)).
Qed.

Lemma set_diff_ext sim1 sim2 (b0 : value) (a b : list value) :
  (forall x y, In x a -> In y b -> (snd (sim1 x y) == snd (sim2 x y))%Q) ->
  score_eq (JsonDiffer._set_diff default_options sim1 b0 a b)
           (JsonDiffer._set_diff default_options sim2 b0 a b).
Proof.
  intros H.
  destruct (JsonDiffer.is_empty (set_difference a b)
            && JsonDiffer.is_empty (set_difference b a)) eqn:E.
  - unfold JsonDiffer._set_diff. rewrite E. split; reflexivity.
  - assert (Hne : set_difference a b <> [] \/ set_difference b a <> []).
    { destruct (set_difference a b); [|left; discriminate].
      destruct (set_difference b a); [discriminate E|right; discriminate]. }
    assert (Es : (snd (JsonDiffer._set_diff default_options sim1 b0 a b)
                  == snd (JsonDiffer._set_diff default_options sim2 b0 a b))%Q).
    { rewrite !_set_diff_similarity by exact Hne.
      now apply set_similarity_ext. }
    split; [|exact Es].
    rewrite !_set_diff_eq by exact Hne. now apply emit_set_diff_comp.
Qed.

Lemma Forall2_nth_rel {A : Type} (R : A -> A -> Prop) (l1 l2 : list A)
      (d1 d2 : A) :
  Forall2 R l1 l2 -> R d1 d2 -> forall i, R (nth i l1 d1) (nth i l2 d2).
Proof. induction 1; intros Hd [|i]; cbn [nth]; auto. Qed.

Lemma Forall2_list_set {A : Type} (R : A -> A -> Prop) (l1 l2 : list A)
      (x1 x2 : A) :
  Forall2 R l1 l2 -> R x1 x2 ->
  forall i, Forall2 R (list_set l1 i x1) (list_set l2 i x2).
Proof.
  induction 1; intros Hx [|i]; cbn [list_set]; constructor; auto.
Qed.

Lemma Forall2_map_same {A B : Type} (R : B -> B -> Prop) (f g : A -> B)
      (l : list A) :
  (forall x, In x l -> R (f x) (g x)) -> Forall2 R (map f l) (map g l).
Proof.
  induction l as [|x l IH]; intros H; cbn [map]; constructor.
  - apply H. now left.
  - apply IH. intros y Hy. apply H. now right.
Qed.

Lemma Forall2_same {A : Type} (R : A -> A -> Prop) (l : list A) :
  (forall x, R x x) -> Forall2 R l l.
Proof. intros H. induction l; constructor; auto. Qed.

Lemma Forall2_rev_rel {A : Type} (R : A -> A -> Prop) (l1 l2 : list A) :
  Forall2 R l1 l2 -> Forall2 R (rev l1) (rev l2).
Proof.
  induction 1; cbn [rev]; [constructor|].
  apply Forall2_app; [assumption|]. now constructor.
Qed.

Lemma tget_rel (C1 C2 : table) (i j : nat) :
  Forall2 (Forall2 Qeq) C1 C2 -> (tget C1 i j == tget C2 i j)%Q.
Proof.
  intros H. unfold tget. apply Forall2_nth_rel; [|reflexivity].
  apply Forall2_nth_rel; [exact H|constructor].
Qed.

Lemma tset_rel (C1 C2 : table) (i j : nat) (x1 x2 : Q) :
  Forall2 (Forall2 Qeq) C1 C2 -> (x1 == x2)%Q ->
  Forall2 (Forall2 Qeq) (tset C1 i j x1) (tset C2 i j x2).
Proof.
  intros H Hx. unfold tset. apply Forall2_list_set; [exact H|].
  apply Forall2_list_set; [|exact Hx].
  apply Forall2_nth_rel; [exact H|constructor].
Qed.

Lemma fold_left_rel {S A : Type} (R : S -> S -> Prop) (f1 f2 : S -> A -> S)
      (l : list A) :
  (forall s1 s2 x, R s1 s2 -> R (f1 s1 x) (f2 s2 x)) ->
  forall s1 s2, R s1 s2 -> R (fold_left f1 l s1) (fold_left f2 l s2).
Proof.
  intros H. induction l as [|x l IH]; intros s1 s2 Hs; cbn [fold_left]; auto.
Qed.

Lemma fill_table_rel (D1 D2 : list (list (value * Q))) (m n : nat) :
  (forall i j, (snd (dget D1 i j) == snd (dget D2 i j))%Q) ->
  Forall2 (Forall2 Qeq) (JsonDiffer.fill_table D1 m n)
          (JsonDiffer.fill_table D2 m n).
Proof.
  intros HD. unfold JsonDiffer.fill_table. apply fold_left_rel.
  - intros C1 C2 i HC. apply fold_left_rel; [|exact HC].
    intros C1' C2' j HC'. cbv zeta. apply tset_rel; [exact HC'|].
    apply Q.max_compat; [apply Q.max_compat; now apply tget_rel|].
    now rewrite (tget_rel _ _ _ _ HC'), HD.
  - apply Forall2_same. intros l. apply Forall2_same. intros q. reflexivity.
Qed.

Lemma dget_rel sim1 sim2 (X Y : list value) :
  (forall x y, In x X -> In y Y -> score_eq (sim1 x y) (sim2 x y)) ->
  forall i j,
    score_eq (dget (map (fun x => map (fun y => sim1 x y) Y) X) i j)
             (dget (map (fun x => map (fun y => sim2 x y) Y) X) i j).
Proof.
  intros H i j. unfold dget.
  apply Forall2_nth_rel; [|split; reflexivity].
  apply Forall2_nth_rel; [|constructor].
  apply Forall2_map_same. intros x Hx.
  apply Forall2_map_same. intros y Hy. now apply H.
Qed.

Lemma backtrack_rel (D1 D2 : list (list (value * Q))) (C1 C2 : table)
      (X Y : list value) :
  (forall i j, score_eq (dget D1 i j) (dget D2 i j)) ->
  (forall i j, (tget C1 i j == tget C2 i j)%Q) ->
  forall i j (r1 r2 : list edit),
    Forall2 score_eq r1 r2 ->
    Forall2 score_eq (JsonDiffer._list_diff_0_from D1 C1 X Y i j r1)
            (JsonDiffer._list_diff_0_from D2 C2 X Y i j r2).
Proof.
  intros HD HC.
  assert (Hone : forall (e : edit), Forall2 score_eq [e] [e]).
  { intros e. constructor; [split; reflexivity|constructor]. }
  induction i as [|i IHi]; induction j as [|j IHj]; intros r1 r2 Hr.
  - simpl. now apply Forall2_rev_rel.
  - simpl. apply IHj. apply Forall2_app; [exact Hr|apply Hone].
  - simpl. apply IHi. apply Forall2_app; [exact Hr|apply Hone].
  - cbn [JsonDiffer._list_diff_0_from].
    destruct (HD i j) as [Ed Es].
    rewrite (Qlt_bool_comp 0 0 _ _ (Qeq_refl 0) Es).
    rewrite (Qeq_bool_comp (tget C1 (S i) (S j)) (tget C2 (S i) (S j))
                           (tget C1 i j + snd (dget D1 i j))
                           (tget C2 i j + snd (dget D2 i j)))
      by (rewrite ?HC, ?Es; reflexivity).
    rewrite (Qle_bool_comp _ _ _ _ (HC i (S j)) (HC (S i) j)).
    rewrite (Qlt_bool_comp _ _ _ _ (HC (S i) j) (HC i (S j))).
    destruct (Qlt_bool 0 (snd (dget D2 i j))
              && Qeq_bool (tget C2 (S i) (S j))
                          (tget C2 i j + snd (dget D2 i j))).
    + apply IHi. apply Forall2_app; [exact Hr|].
      constructor; [|constructor]. split; cbn [fst snd]; [|exact Es].
      now rewrite Ed.
    + destruct (Qle_bool (tget C2 i (S j)) (tget C2 (S i) j)).
      * apply IHj. apply Forall2_app; [exact Hr|apply Hone].
      * destruct (Qlt_bool (tget C2 (S i) j) (tget C2 i (S j))).
        -- apply IHi. apply Forall2_app; [exact Hr|apply Hone].
        -- now apply Forall2_rev_rel.
Qed.

Lemma edit_script_rel sim1 sim2 (X Y : list value) :
  (forall x y, In x X -> In y Y -> score_eq (sim1 x y) (sim2 x y)) ->
  Forall2 score_eq (edit_script sim1 X Y) (edit_script sim2 X Y).
Proof.
  intros H. unfold edit_script, JsonDiffer._list_diff_0.
  pose proof (dget_rel sim1 sim2 X Y H) as HD.
  apply backtrack_rel; [exact HD| |constructor].
  intros i j. apply tget_rel. apply fill_table_rel.
  intros i' j'. apply (HD i' j').
Qed.

Lemma script_parts_rel (es1 es2 : list edit) :
  Forall2 score_eq es1 es2 ->
  inserted_of es1 = inserted_of es2 /\ deleted_of es1 = deleted_of es2
  /\ changed_of es1 = changed_of es2
  /\ forall t1 t2, (t1 == t2)%Q -> (total_of t1 es1 == total_of t2 es2)%Q.
Proof.
  induction 1 as [|[[[sg v] p] s1] [[[sg' v'] p'] s2] es1 es2 [Ef Es] Hl
                   (I1 & I2 & I3 & I4)].
  - repeat split; auto.
  - cbn [fst snd] in Ef, Es. injection Ef as <- <- <-.
    unfold inserted_of, deleted_of, changed_of in *. cbn [flat_map].
    rewrite I1, I2, I3, (Qlt_bool_comp s1 s2 1 1 Es (Qeq_refl 1)).
    repeat split; auto.
    intros t1 t2 Ht. unfold total_of. cbn [fold_left snd].
    apply I4. now rewrite Ht, Es.
Qed.

Lemma emit_list_diff_comp (a0 b0 : value) (s s' : Q) ins (ch : dict) del :
  (s == s')%Q ->
  CompactJsonDiffSyntax.emit_list_diff a0 b0 s ins ch del
  = CompactJsonDiffSyntax.emit_list_diff a0 b0 s' ins ch del.
Proof.
  intros E. unfold CompactJsonDiffSyntax.emit_list_diff.
  now rewrite (Qeq_bool_comp s s' 0 0 E (Qeq_refl 0)),
    (Qeq_bool_comp s s' 1 1 E (Qeq_refl 1)).
Qed.

Lemma list_diff_ext sim1 sim2 (a0 b0 : value) (X Y : list value) :
  (forall x y, In x X -> In y Y -> score_eq (sim1 x y) (sim2 x y)) ->
  score_eq (JsonDiffer._list_diff default_options sim1 a0 b0 X Y)
           (JsonDiffer._list_diff default_options sim2 a0 b0 X Y).
Proof.
  intros H. rewrite !_list_diff_eq.
  destruct (script_parts_rel _ _ (edit_script_rel sim1 sim2 X Y H))
    as (I1 & I2 & I3 & I4).
  assert (Es : (script_score (length X) (edit_script sim1 X Y)
                == script_score (length X) (edit_script sim2 X Y))%Q).
  { unfold script_score. rewrite I1.
    destruct (_ =? 0)%nat; [reflexivity|].
    now rewrite (I4 0%Q 0%Q (Qeq_refl 0)). }
  split; cbn [fst snd]; [|exact Es].
  rewrite I1, I2, I3. now apply emit_list_diff_comp.
Qed.

Lemma obj_diff_same_irrelevant (same1 same2 : value -> value -> bool) :
  is_sound same1 -> is_sound same2 ->
  forall a b, wf a = true -> plain a = true -> wf b = true -> plain b = true ->
              score_eq (JsonDiffer._obj_diff default_options same1 a b)
                       (JsonDiffer._obj_diff default_options same2 a b).
Proof.
  intros Hs1 Hs2.
  assert (Hid : forall same, is_sound same ->
                  forall a, wf a = true -> plain a = true ->
                            score_eq (VDict [], 1%Q)
                                     (JsonDiffer._obj_diff default_options
                                                           same a a)).
  { intros same Hs a Hw Hp.
    destruct (obj_diff_ok same Hs a a Hw Hp Hw Hp) as (_ & E1 & E2 & _).
    specialize (E2 (py_eq_refl a Hw)). destruct (E1 E2) as [E _].
    split; cbn [fst snd]; [now rewrite E|now rewrite E2]. }
  induction a as [| z | s | y | X IH | X IH | X IH | d IH] using value_rect';
    intros b Hwa Hpa Hwb Hpb;
    match goal with
    | |- score_eq (_ _ _ ?a b) _ =>
        destruct (same1 a b) eqn:E1;
        [rewrite (obj_diff_same same1 a b E1); apply Hs1 in E1; subst b;
         now apply Hid
        |destruct (same2 a b) eqn:E2;
         [rewrite (obj_diff_same same2 a b E2); apply Hs2 in E2; subst b;
          destruct (Hid same1 Hs1 a Hwa Hpa) as [F1 F2];
          split; [now rewrite F1|now rewrite F2]
         |]]
    end;
    cbn [JsonDiffer._obj_diff]; rewrite E1, E2.
  - destruct b; split; reflexivity.
  - destruct b; split; reflexivity.
  - destruct b; split; reflexivity.
  - destruct b; split; reflexivity.
  - destruct b as [| | | | Y | | |]; try (split; reflexivity).
    apply list_diff_ext. intros x y Hx Hy. rewrite Forall_forall in IH.
    cbn [wf plain] in Hwa, Hpa, Hwb, Hpb. rewrite forallb_forall in *.
    apply IH; auto.
  - destruct b as [| | | | | Y | |]; try (split; reflexivity).
    apply list_diff_ext. intros x y Hx Hy. rewrite Forall_forall in IH.
    cbn [wf plain] in Hwa, Hpa, Hwb, Hpb. rewrite forallb_forall in *.
    apply IH; auto.
  - destruct b as [| | | | | | Y |]; try (split; reflexivity).
    apply set_diff_ext. intros x y Hx Hy. rewrite Forall_forall in IH.
    destruct (wf_set_inv X Hwa) as (_ & _ & HwX).
    destruct (wf_set_inv Y Hwb) as (_ & _ & HwY).
    cbn [plain] in Hpa, Hpb. rewrite forallb_forall in *.
    apply (IH x Hx y); auto.
  - destruct b as [| | | | | | | e]; try (split; reflexivity).
    apply dict_diff_ext; auto.
    intros k v w Hin G. rewrite Forall_forall in IH.
    destruct (wf_dict_inv d Hwa) as (_ & _ & Hwd).
    destruct (wf_dict_inv e Hwb) as (_ & _ & Hwe).
    destruct (plain_dict_inv d Hpa) as (_ & _ & Hpd).
    destruct (plain_dict_inv e Hpb) as (_ & _ & Hpe).
    apply dict_get_In in G. apply in_map_iff in G as [[k' w'] [<- Hin']].
    cbn [snd].
    apply (proj2 (IH _ Hin)); cbn [snd].
    + apply (Hwd k v Hin).
    + apply (Hpd k v Hin).
    + apply (Hwe k' w' Hin').
    + apply (Hpe k' w' Hin').
Qed.

Lemma same_ints_sound : is_sound same_ints.
Proof.
  intros a b H. destruct a; destruct b; try discriminate H.
  cbn [same_ints] in H. apply Z.eqb_eq in H. now subst.
Qed.

(** X20.  The test [a is b] at the head of [_obj_diff] is a shortcut only:
    for well-formed values of the value model the delta does not depend on
    which equal values are one object, and neither does the similarity. *)
Theorem identity_test_irrelevant (same1 same2 : value -> value -> bool)
        (a b : value) :
  is_sound same1 -> is_sound same2 ->
  wf a = true -> plain a = true -> wf b = true -> plain b = true ->
  diff default_options same1 a b = diff default_options same2 a b
  /\ (similarity default_options same1 a b
      == similarity default_options same2 a b)%Q.
Proof.
  intros Hs1 Hs2 Hwa Hpa Hwb Hpb.
  unfold diff, similarity, JsonDiffer.diff, JsonDiffer.similarity.
  cbn [marshal_opt default_options].
  exact (obj_diff_same_irrelevant same1 same2 Hs1 Hs2 a b Hwa Hpa Hwb Hpb).
Qed.

Lemma identity_test_irrelevant_witness :
  let a := VDict [(VStr "k", VList [VInt 1; VInt 2; VSet [VInt 3]]);
                  (VStr "n", VInt 7)] in
  let b := VDict [(VStr "k", VList [VInt 1; VInt 4; VSet [VInt 3; VInt 5]]);
                  (VStr "n", VInt 7)] in
  diff default_options same_ints a b = diff default_options never_same a b
  /\ (similarity default_options same_ints a b
      == similarity default_options never_same a b)%Q.
Proof.
  intros a b.
  apply (identity_test_irrelevant same_ints never_same a b
                                  same_ints_sound never_same_sound);
    vm_compute; reflexivity.
Defined.
